(** * SpiderFoot: event-driven plugin engine, target typing and module registry

    A shallow embedding of the parts of [sflib.py] and of the plug-in modules
    under [modules/] that the specification talks about, and the properties
    proved (or refuted) about them.

    Conventions of the embedding.
    - A Python [str] is a Rocq [string]; its characters are the code points
      0..255.  None of the patterns and constants of the modelled code lies
      outside ASCII.
    - A Python [dict] used as a set of seen keys ([tempStorage()]) is a
      [gmap string bool]; a dict whose iteration order is observable is an
      association list.
    - A method that mutates [self] is a function in a state-and-exception
      monad; the calls that leave the module ([notifyListeners], [fetchUrl],
      [checkForStop], sockets) are recorded in a trace. *)

From Stdlib Require Import ZArith Ascii String List Bool Lia.
From stdpp Require Import base option list strings gmap pretty.

Set Warnings "-register-all".

Local Open Scope string_scope.
Local Open Scope list_scope.

(** ** Python's [re], as far as the modelled patterns use it *)

Module Re.

(** One member of a bracketed character set, or a class escape. *)
Inductive item :=
| Range (lo hi : ascii)      (* a-z *)
| One (c : ascii)            (* a single listed character *)
| ClsDigit                   (* \d *)
| ClsSpace.                  (* \s *)

Inductive regex :=
| Bol                                  (* ^ *)
| Eol                                  (* $ *)
| Chr (c : ascii)                      (* a literal character *)
| Any                                  (* . *)
| Set_ (items : list item)             (* [...] *)
| Cat (r1 r2 : regex)
| Alt (r1 r2 : regex)                  (* r1|r2, tried left to right *)
| Rep (r : regex) (lo : nat) (hi : option nat).  (* greedy r{lo,hi} *)

Definition star r := Rep r 0 None.
Definition plus r := Rep r 1 None.

Fixpoint seq (rs : list regex) : regex :=
  match rs with
  | [] => Rep Any 0 (Some 0)
  | [r] => r
  | r :: rs' => Cat r (seq rs')
  end.

Definition code (c : ascii) : nat := nat_of_ascii c.

Definition between (lo hi c : ascii) : bool :=
  (code lo <=? code c)%nat && (code c <=? code hi)%nat.

Definition lower (c : ascii) : ascii :=
  if between "A" "Z" c then ascii_of_nat (code c + 32) else c.

Definition upper (c : ascii) : ascii :=
  if between "a" "z" c then ascii_of_nat (code c - 32) else c.

(** Unicode white space among the code points 0..255. *)
Definition is_space (c : ascii) : bool :=
  let n := code c in
  ((9 <=? n) && (n <=? 13) || (28 <=? n) && (n <=? 32)
   || (n =? 133) || (n =? 160))%nat.

Definition is_digit (c : ascii) : bool := between "0" "9" c.

Definition in_item (it : item) (c : ascii) : bool :=
  match it with
  | Range lo hi => between lo hi c
  | One x => Ascii.eqb x c
  | ClsDigit => is_digit c
  | ClsSpace => is_space c
  end.

(** With [re.IGNORECASE] a character belongs to a set when either of its
    two cases does. *)
Definition in_set (ic : bool) (items : list item) (c : ascii) : bool :=
  existsb (fun it => in_item it c) items
  || (ic && (existsb (fun it => in_item it (lower c)) items
             || existsb (fun it => in_item it (upper c)) items)).

Definition chr_eq (ic : bool) (x c : ascii) : bool :=
  Ascii.eqb x c || (ic && Ascii.eqb (lower x) (lower c)).

Definition newline : ascii := ascii_of_nat 10.

Section Matcher.
Context {R : Type}.
Variable ic : bool.

(** The backtracking matcher.  [bol] tells whether the position is the
    start of the subject, [s] is what remains of it, and [k] is what has
    to match after [r].  Alternatives are tried left to right and a
    repetition takes as many rounds as it can before giving some back,
    as [re] does.  An unbounded repetition stops at a round that
    consumes nothing. *)
Fixpoint run (r : regex) (bol : bool) (s : string)
         (k : bool -> string -> option R) {struct r} : option R :=
  match r with
  | Bol => if bol then k bol s else None
  | Eol =>
      match s with
      | EmptyString => k bol s
      | String c EmptyString =>
          if Ascii.eqb c newline then k bol s else None
      | _ => None
      end
  | Chr x =>
      match s with
      | String c s' => if chr_eq ic x c then k false s' else None
      | EmptyString => None
      end
  | Any =>
      match s with
      | String c s' => if Ascii.eqb c newline then None else k false s'
      | EmptyString => None
      end
  | Set_ items =>
      match s with
      | String c s' => if in_set ic items c then k false s' else None
      | EmptyString => None
      end
  | Cat r1 r2 => run r1 bol s (fun bol' s' => run r2 bol' s' k)
  | Alt r1 r2 =>
      match run r1 bol s k with
      | Some x => Some x
      | None => run r2 bol s k
      end
  | Rep r1 lo hi =>
      (fix rounds (n lo : nat) (bol : bool) (s : string) {struct n}
         : option R :=
         let stop := if (lo =? 0)%nat then k bol s else None in
         match n with
         | O => stop
         | S n' =>
             match run r1 bol s
                     (fun bol' s' =>
                        if (String.length s' <? String.length s)%nat
                           || bool_decide (is_Some hi)
                        then rounds n' (Nat.pred lo) bol' s'
                        else None) with
             | Some x => Some x
             | None => stop
             end
         end)
        (match hi with Some h => h | None => String.length s end)
        lo bol s
  end.
End Matcher.

(** [re.match(rx, s, flags)]: the pattern has to match at the start of
    [s]; only whether it does is used. *)
Definition match_ (ic : bool) (r : regex) (s : string) : bool :=
  bool_decide (is_Some (run ic r true s (fun _ _ => Some tt))).

(** The rest of the subject after the leftmost-first match at its
    start. *)
Definition match_rest (ic : bool) (r : regex) (bol : bool) (s : string)
  : option string :=
  run ic r bol s (fun _ rest => Some rest).

Fixpoint take (n : nat) (s : string) : string :=
  match n, s with
  | S n', String c s' => String c (take n' s')
  | _, _ => EmptyString
  end.

(** The scan of [re.findall]: the matches from left to right, each
    search starting where the last match ended (one character further
    after an empty match).  [fuel] bounds the number of start positions
    tried. *)
Fixpoint scan (fuel : nat) (ic : bool) (r : regex) (bol : bool)
         (s : string) : list string :=
  match fuel with
  | O => []
  | S fuel' =>
      match match_rest ic r bol s with
      | Some rest =>
          let m := take (String.length s - String.length rest) s in
          match m, s with
          | EmptyString, String _ s' => m :: scan fuel' ic r false s'
          | EmptyString, EmptyString => [m]
          | _, _ => m :: scan fuel' ic r false rest
          end
      | None =>
          match s with
          | String _ s' => scan fuel' ic r false s'
          | EmptyString => []
          end
      end
  end.

(** The whole matches of [r] in [s]. *)
Definition findall (ic : bool) (r : regex) (s : string) : list string :=
  scan (S (String.length s)) ic r true s.

End Re.

(** ** [sflib.SpiderFoot.targetType] *)

Module TargetType.
Import Re.

Definition digit09 : regex := Set_ [Range "0" "9"].
Definition octet : regex := Rep digit09 1 (Some 3).
Definition dot : regex := Chr ".".
Definition quote : regex := Chr (ascii_of_nat 34).

(** [[a-z0-9]|[a-z0-9][a-z0-9\-]*[a-z0-9]] *)
Definition label : regex :=
  Alt (Set_ [Range "a" "z"; Range "0" "9"])
      (seq [Set_ [Range "a" "z"; Range "0" "9"];
            star (Set_ [Range "a" "z"; Range "0" "9"; One "-"]);
            Set_ [Range "a" "z"; Range "0" "9"]]).

(** [[a-km-zA-HJ-NP-Z1-9]] *)
Definition base58 : regex :=
  Set_ [Range "a" "k"; Range "m" "z"; Range "A" "H"; Range "J" "N";
        Range "P" "Z"; Range "1" "9"].

(** The table [regexToType], in the order of the source ("the regex order
    is important"). *)
Definition regexToType : list (regex * string) :=
  [ (* ^[0-9]{1,3}\.[0-9]{1,3}\.[0-9]{1,3}\.[0-9]{1,3}$ *)
    (seq [Bol; octet; dot; octet; dot; octet; dot; octet; Eol],
     "IP_ADDRESS");
    (* ^[0-9]{1,3}\.[0-9]{1,3}\.[0-9]{1,3}\.[0-9]{1,3}/\d+$ *)
    (seq [Bol; octet; dot; octet; dot; octet; dot; octet; Chr "/";
          plus (Set_ [ClsDigit]); Eol],
     "NETBLOCK_OWNER");
    (* ^.*@.*$ *)
    (seq [Bol; star Any; Chr "@"; star Any; Eol], "EMAILADDR");
    (* ^\+[0-9]+$ *)
    (seq [Bol; Chr "+"; plus digit09; Eol], "PHONE_NUMBER");
    (* ^\".+\s+.+\"$ *)
    (seq [Bol; quote; plus Any; plus (Set_ [ClsSpace]); plus Any; quote;
          Eol],
     "HUMAN_NAME");
    (* ^\".+\"$ *)
    (seq [Bol; quote; plus Any; quote; Eol], "USERNAME");
    (* ^[0-9]+$ *)
    (seq [Bol; plus digit09; Eol], "BGP_AS_OWNER");
    (* ^[0-9a-f:]+$ *)
    (seq [Bol; plus (Set_ [Range "0" "9"; Range "a" "f"; One ":"]); Eol],
     "IPV6_ADDRESS");
    (* ^(([a-z0-9]|[a-z0-9][a-z0-9\-]*[a-z0-9])\.)+
        ([a-z0-9]|[a-z0-9][a-z0-9\-]*[a-z0-9])$ *)
    (seq [Bol; plus (Cat label dot); label; Eol], "INTERNET_NAME");
    (* ^([13][a-km-zA-HJ-NP-Z1-9]{25,34})$ *)
    (seq [Bol; Set_ [One "1"; One "3"]; Rep base58 25 (Some 34); Eol],
     "BITCOIN_ADDRESS") ].

(** [re.match(rx, target, re.IGNORECASE | re.UNICODE)] *)
Definition rule_matches (target : string) (rule : regex * string) : bool :=
  match_ true (fst rule) target.

(** The loop over [regexToType]: the first rule that matches decides. *)
Fixpoint first_match (rules : list (regex * string)) (target : string)
  : option string :=
  match rules with
  | [] => None
  | rule :: rest =>
      if rule_matches target rule then Some (snd rule)
      else first_match rest target
  end.

(** [targetType(target)]; Python's [None] is Rocq's [None]. *)
Definition targetType (target : string) : option string :=
  match target with
  | EmptyString => None
  | _ => first_match regexToType target
  end.

End TargetType.


(** ** [sflib.SpiderFoot.modulesProducing] *)

Module Registry.

(** One entry of [opts['__modules__']]: what [.get('provides')] and
    [.get('consumes')] give; [None] when the key is missing. *)
Record modinfo := {
  provides : option (list string);
  consumes : option (list string)
}.

(** What one round of the loop over the loaded modules appends to
    [modlist]. *)
Definition produced_hits (events : list string) (mod_ : string)
           (info : modinfo) : list string :=
  match provides info with
  | None | Some [] => []                              (* continue *)
  | Some prov =>
      (if bool_decide ("*" ∈ events) then [mod_] else [])
      ++ flat_map (fun evtype =>
                     if bool_decide (evtype ∈ events) then [mod_] else [])
                  prov
  end.

(** [modulesProducing(events)].  [loaded] is
    [self.opts.get('__modules__')].  The result is [list(set(modlist))]:
    the elements of a set, in no particular order. *)
Definition modulesProducing (loaded : option (gmap string modinfo))
           (events : list string) : list string :=
  match events with
  | [] => []
  | _ =>
      match loaded with
      | None => []
      | Some loaded_modules =>
          if decide (loaded_modules = ∅) then []
          else
            let modlist :=
              flat_map (fun kv => produced_hits events (fst kv) (snd kv))
                       (map_to_list loaded_modules) in
            elements (list_to_set modlist : gset string)
      end
  end.

(** A registry of two modules: one that produces Events and the storage
    module, which produces none. *)
Definition loaded_example : gmap string modinfo :=
  <["sfp_bitcoin" := Build_modinfo (Some ["BITCOIN_ADDRESS"])
                                   (Some ["TARGET_WEB_CONTENT"])]>
    (<["sfp__stor_db" := Build_modinfo None (Some ["*"])]> ∅).

End Registry.

(** ** Methods of [str] that the modules call *)

Module Str.

(** [s.lower()] on the code points 0..255. *)
Definition lower_char (c : ascii) : ascii :=
  let n := nat_of_ascii c in
  if ((65 <=? n) && (n <=? 90)
      || (192 <=? n) && (n <=? 222) && negb (n =? 215))%nat
  then ascii_of_nat (n + 32) else c.

Fixpoint lower (s : string) : string :=
  match s with
  | EmptyString => EmptyString
  | String c s' => String (lower_char c) (lower s')
  end.

Fixpoint lstrip (drop : ascii -> bool) (s : string) : string :=
  match s with
  | String c s' => if drop c then lstrip drop s' else s
  | EmptyString => EmptyString
  end.

Fixpoint rstrip (drop : ascii -> bool) (s : string) : string :=
  match s with
  | EmptyString => EmptyString
  | String c s' =>
      match rstrip drop s' with
      | EmptyString => if drop c then EmptyString else String c EmptyString
      | t => String c t
      end
  end.

(** [s.strip()] removes white space at both ends, [s.strip('.')] the
    given character. *)
Definition strip (s : string) : string :=
  rstrip Re.is_space (lstrip Re.is_space s).

Definition strip_char (x : ascii) (s : string) : string :=
  rstrip (Ascii.eqb x) (lstrip (Ascii.eqb x) s).

(** [s.split(sep)] for a separator of one character. *)
Fixpoint split (sep : ascii) (s : string) : list string :=
  match s with
  | EmptyString => [EmptyString]
  | String c s' =>
      if Ascii.eqb c sep then EmptyString :: split sep s'
      else match split sep s' with
           | [] => [String c EmptyString]
           | w :: ws => String c w :: ws
           end
  end.

(** [s.startswith(p)] *)
Definition startswith (p s : string) : bool := String.prefix p s.

(** [str(z)] for an int. *)
Definition of_Z (z : Z) : string := pretty z.

End Str.

(** ** Python values, exceptions and the monad of module methods *)

Module Py.

(** The values that options and decoded JSON take.  Floats are outside
    the model: no option of the modelled modules is one, and the worlds
    considered decode no JSON number with a fraction. *)
Inductive pyval :=
| PNone
| PBool (b : bool)
| PInt (z : Z)
| PStr (s : string)
| PList (items : list pyval)
| PDict (entries : list (string * pyval)).

(** Truth value of an object in a condition. *)
Definition truthy (v : pyval) : bool :=
  match v with
  | PNone => false
  | PBool b => b
  | PInt z => negb (z =? 0)%Z
  | PStr s => negb (String.eqb s EmptyString)
  | PList l => match l with [] => false | _ => true end
  | PDict d => match d with [] => false | _ => true end
  end.

(** [v == s] for a string [s]. *)
Definition eq_str (v : pyval) (s : string) : bool :=
  match v with PStr s' => String.eqb s' s | _ => false end.

(** Whether the object can be a member of a [set]. *)
Definition hashable (v : pyval) : bool :=
  match v with PList _ | PDict _ => false | _ => true end.

(** [==] on hashable values; [True == 1] and [False == 0]. *)
Definition eq_scalar (a b : pyval) : bool :=
  match a, b with
  | PNone, PNone => true
  | PBool x, PBool y => Bool.eqb x y
  | PBool x, PInt y | PInt y, PBool x => (y =? (if x then 1 else 0))%Z
  | PInt x, PInt y => (x =? y)%Z
  | PStr x, PStr y => String.eqb x y
  | _, _ => false
  end.

Inductive outcome (A : Type) :=
| Returned (a : A)
| Raised (exn : string).
Arguments Returned {A} a.
Arguments Raised {A} exn.

End Py.

(** ** Events *)

Module Event.
Import Py.

(** Modelled from the spec: the class [SpiderFootEvent] of the package
    [spiderfoot] (the modules and the tests construct it, its source is
    not part of the files at hand).  An Event is a record that does not
    change after its construction and that owns a reference to the Event
    that caused it, or to none for a root Event. *)
Inductive SpiderFootEvent := mkEvent {
  eventType : string;
  data : string;
  module : string;
  sourceEvent : option SpiderFootEvent;
  moduleDataSource : option string
}.

(** The (type, data, generatedBy) view of an Event. *)
Definition tuple (e : SpiderFootEvent) : string * string * string :=
  (eventType e, data e, module e).

Section Construct.
(** The event types that may carry empty data; the spec names no
    member of this set. *)
Variable allowed_empty : string -> bool.

(** Modelled from the spec: [construct(type, data, generatedBy,
    sourceEvent)] "fails with ValueError if data is empty/none (except
    for allowed empty-data event types) or if sourceEvent is required
    but missing".  A source is required for every type but ROOT, and a
    ROOT Event has none. *)
Definition construct (type_ data_ generatedBy : string)
           (source : option SpiderFootEvent) : outcome SpiderFootEvent :=
  if String.eqb data_ EmptyString && negb (allowed_empty type_)
  then Raised "ValueError"
  else if String.eqb type_ "ROOT"
  then Returned (mkEvent type_ data_ generatedBy None None)
  else match source with
       | None => Raised "ValueError"
       | Some src =>
           Returned (mkEvent type_ data_ generatedBy (Some src) None)
       end.
End Construct.

(** The chain of [sourceEvent] references, from the Event itself to the
    Event without a source. *)
Fixpoint lineage (e : SpiderFootEvent) : list SpiderFootEvent :=
  e :: match sourceEvent e with
       | None => []
       | Some src => lineage src
       end.

(** The derived attribute [rootEvent]: the end of the chain. *)
Fixpoint rootEvent (e : SpiderFootEvent) : SpiderFootEvent :=
  match sourceEvent e with
  | None => e
  | Some src => rootEvent src
  end.

Definition is_root (e : SpiderFootEvent) : bool :=
  String.eqb (eventType e) "ROOT".

End Event.

(** ** What a module sees of the rest of the system *)

Module Plugin.
Import Py Event.

(** The content of a response as [fetchUrl] hands it on: the text that
    the bytes received decode to as UTF-8 or ASCII, or else the bytes
    themselves. *)
Inductive body :=
| Text (s : string)
| Bytes (b : string).

(** The dict that [fetchUrl] returns: its entries [code] and [content];
    [None] is Python's [None].  [fetchUrl] returns no dict at all, but
    [None], for a URL that is empty, unparsable or neither http nor
    https, which is what the URL of a Refresh header can be. *)
Record FetchResult := {
  code : option string;
  content : option body
}.

(** What one socket attempt of [tryPort] leaves in [portResults]. *)
Inductive portResult :=
| PortClosed                      (* False: safeSocket raised *)
| PortOpen                        (* True: connected, recv raised *)
| PortBanner (banner : string).   (* the bytes recv returned *)

(** The objects outside the module: the SpiderFoot context [sfc] that
    [setup] stores in [self.sf], the scan status that [checkForStop]
    reads from the database, and the library calls whose results the
    module code only passes on. *)
Record World := {
  (* sflib *)
  fetchUrl : string -> list (string * pyval) -> option FetchResult;
  resolveHost : string -> list string;
  cacheGet : string -> pyval -> option string;
  hashstring : string -> string;
  optValueToData : string -> option string;
  parseEmails : string -> list string;
  validHost : string -> pyval -> bool;
  (* the scan target, [getTarget().matches] *)
  target_matches : string -> option bool -> option bool -> bool;
  (* the database: the answer of the n-th [checkForStop()] of the scan *)
  stop_requested : nat -> bool;
  (* json, str(), bytes.decode *)
  json_loads : string -> option pyval;
  (* json.loads on bytes: the text that they decode to in the encoding
     that json detects; [None] when the decoding raises
     UnicodeDecodeError *)
  json_decode : string -> option string;
  py_str : pyval -> string;
  decode_utf8 : string -> string;
  (* hashlib.sha256(...).digest() on byte strings *)
  sha256 : list Z -> list Z;
  (* netaddr: IPNetwork(s) as its prefix length and its addresses,
     IPAddress(ip) in IPNetwork(net); [None] when the call raises *)
  ip_network : string -> option (Z * list string);
  ip_in_network : string -> string -> option bool;
  (* sockets: what connecting to ip:port gives *)
  try_port : string -> Z -> portResult;
  (* the order in which the threads of one [tryPortWrapper] call first
     write their entry of [portResults] *)
  thread_order : list Z -> list Z;
  (* the members of set(items), in the order of its iteration *)
  set_order : list pyval -> list pyval;
  (* SpiderFootEvent: the types that may carry empty data *)
  allowed_empty : string -> bool
}.

(** What a call does that is visible outside the module. *)
Inductive action :=
| Log (level msg : string)            (* sf.debug, sf.info, sf.error *)
| Fetch (url : string)                (* sf.fetchUrl *)
| Resolve (host : string)             (* sf.resolveHost *)
| CachePut (label content_ : string)  (* sf.cachePut *)
| Connect (ip : string) (port : Z)    (* a thread of tryPortWrapper *)
| Poll (answer : bool)                (* checkForStop() *)
| Notify (e : SpiderFootEvent).       (* notifyListeners(e) *)

(** Externally visible work: a query sent out or an Event emitted. *)
Definition is_work (a : action) : bool :=
  match a with
  | Fetch _ | Resolve _ | Connect _ _ | Notify _ => true
  | _ => false
  end.

Definition is_notify (a : action) : bool :=
  match a with Notify _ => true | _ => false end.

(** The state a method runs in: the objects of the scan ([objs], of which
    the module's own attributes are a part), the number of
    [checkForStop()] calls so far, and the trace so far. *)
Record env (W : Type) := mkEnv {
  objs : W;
  polls : nat;
  trace : list action
}.
Arguments mkEnv {W}.
Arguments objs {W}.
Arguments polls {W}.
Arguments trace {W}.

Definition M (W A : Type) : Type := env W -> outcome A * env W.

#[global] Instance M_ret {W} : MRet (M W) :=
  fun A a e => (Returned a, e).

#[global] Instance M_bind {W} : MBind (M W) :=
  fun A B f m e =>
    match m e with
    | (Returned a, e') => f a e'
    | (Raised x, e') => (Raised x, e')
    end.

Definition raise {W A} (exn : string) : M W A :=
  fun e => (Raised exn, e).

(** [try: m except Exception: h] *)
Definition try_except {W A} (m : M W A) (h : string -> M W A) : M W A :=
  fun e =>
    match m e with
    | (Returned a, e') => (Returned a, e')
    | (Raised x, e') => h x e'
    end.

Definition emit_action {W} (a : action) : M W unit :=
  fun e => (Returned tt, mkEnv (objs e) (polls e) (trace e ++ [a])).

Definition lift_outcome {W A} (o : outcome A) : M W A :=
  fun e => (o, e).

(** [d[key]] on an options dict. *)
Definition getitem {W} (d : gmap string pyval) (key : string) : M W pyval :=
  match d !! key with
  | Some v => mret v
  | None => raise "KeyError"
  end.

(** [d.get(key, default)] on an options dict. *)
Definition get_default (d : gmap string pyval) (key : string)
           (default : pyval) : pyval :=
  match d !! key with Some v => v | None => default end.

(** [key in self.results] and [self.results[key] = True]; [results] is
    [None] until [setup] has run. *)
Definition contains {W} (results : option (gmap string bool))
           (key : string) : M W bool :=
  match results with
  | Some r => mret (bool_decide (is_Some (r !! key)))
  | None => raise "TypeError"
  end.

Definition store {W} (results : option (gmap string bool)) (key : string)
  : M W (option (gmap string bool)) :=
  match results with
  | Some r => mret (Some (<[key := true]> r))
  | None => raise "TypeError"
  end.

(** Where the attributes of [self] live among the objects of the scan. *)
Record lens (W S : Type) := mkLens {
  view : W -> S;
  update : S -> W -> W
}.
Arguments view {W S}.
Arguments update {W S}.

Definition self_id {S} : lens S S := mkLens S S (fun s => s) (fun s _ => s).

Section Self.
Context {W S : Type} (self : lens W S).

Definition get_self : M W S :=
  fun e => (Returned (view self (objs e)), e).

Definition put_self (s : S) : M W unit :=
  fun e => (Returned tt, mkEnv (update self s (objs e)) (polls e) (trace e)).

(** Reading an attribute of [self], and assigning to one. *)
Definition gets {B} (f : S -> B) : M W B :=
  fun e => (Returned (f (view self (objs e))), e).

Definition modify_self (f : S -> S) : M W unit :=
  fun e => (Returned tt,
            mkEnv (update self (f (view self (objs e))) (objs e))
                  (polls e) (trace e)).

(** [self.opts[key]] and [self.opts.get(key, default)]. *)
Definition opt (opts : S -> gmap string pyval) (key : string) : M W pyval :=
  o ← gets opts; getitem o key.

Definition opt_get (opts : S -> gmap string pyval) (key : string)
           (default : pyval) : M W pyval :=
  o ← gets opts; mret (get_default o key default).

(** [key in self.results] and [self.results[key] = True]. *)
Definition results_contains (results : S -> option (gmap string bool))
           (key : string) : M W bool :=
  r ← gets results; contains r key.

Definition results_add (results : S -> option (gmap string bool))
           (with_results : option (gmap string bool) -> S -> S)
           (key : string) : M W unit :=
  r ← gets results; r' ← store r key; modify_self (with_results r').
End Self.

Section Calls.
Context {W : Type} (sf : World).

(** [sf.debug], [sf.info] and [sf.error] of the context that the scanner
    hands to a module: its options have the keys [_debug] and
    [__logging], which the calls index.  The action records the call;
    whether the context writes the line is its own matter.  Where the
    source ends a message with the text of the exception it caught, the
    message is logged here without that text. *)
Definition log (level msg : string) : M W unit :=
  emit_action (Log level msg).
Definition debug := log "debug".
Definition info := log "info".
Definition error := log "error".

(** [checkForStop()] of the plug-in base class: asks the database for
    the scan status; true when an abort was requested. *)
Definition checkForStop : M W bool :=
  fun e =>
    let b := stop_requested sf (polls e) in
    (Returned b, mkEnv (objs e) (S (polls e)) (trace e ++ [Poll b])).

(** [self.sf.fetchUrl(url, **kwargs)] *)
Definition sf_fetchUrl (url : string) (kwargs : list (string * pyval))
  : M W (option FetchResult) :=
  emit_action (Fetch url);; mret (fetchUrl sf url kwargs).

Definition sf_resolveHost (host : string) : M W (list string) :=
  emit_action (Resolve host);; mret (resolveHost sf host).

Definition sf_cachePut (label content_ : string) : M W unit :=
  emit_action (CachePut label content_).

(** [SpiderFootEvent(type, data, self.__name__, source)] *)
Definition new_event (type_ data_ name : string)
           (source : SpiderFootEvent) : M W SpiderFootEvent :=
  lift_outcome (construct (allowed_empty sf) type_ data_ name (Some source)).
End Calls.

(** Running a method on its own: the objects are the attributes of the
    one module and [notifyListeners] has no listener to call. *)
Definition notify_only {W} (e : SpiderFootEvent) : M W unit :=
  emit_action (Notify e).

Definition run {S A} (m : M S A) (st : S) (n : nat)
  : outcome A * S * list action :=
  let '(o, e) := m (mkEnv st n []) in (o, objs e, trace e).

Definition outcome_of {S A} (r : outcome A * S * list action) : outcome A :=
  r.1.1.
Definition state_of {S A} (r : outcome A * S * list action) : S := r.1.2.
Definition trace_of {S A} (r : outcome A * S * list action) : list action :=
  r.2.

(** The states a module can be in after [st]: those that calls of
    [handleEvent], for any Events and at any time of the scan, lead to. *)
Inductive later {S} (handleEvent : SpiderFootEvent -> M S unit)
  : S -> S -> Prop :=
| later_now st : later handleEvent st st
| later_call st st' event n :
    later handleEvent st st' ->
    later handleEvent st (state_of (run (handleEvent event) st' n)).

(** A trace in which nothing follows a [checkForStop()] that returned
    true. *)
Definition halts_on_stop (t : list action) : Prop :=
  forall before after, t = before ++ Poll true :: after -> after = [].

(** A trace without a [checkForStop()] that returned true. *)
Definition no_stop (t : list action) : Prop :=
  Forall (fun a => a <> Poll true) t.

(** [emits T m]: whatever the state, [m] adds to the trace a piece that
    satisfies [T]. *)
Definition emits {W A} (T : list action -> Prop) (m : M W A) : Prop :=
  forall e, exists t, trace (m e).2 = trace e ++ t /\ T t.

(** The same, for a piece of trace that depends on the outcome. *)
Definition emits_out {W A} (T : outcome A -> list action -> Prop)
           (m : M W A) : Prop :=
  forall e, exists t, trace (m e).2 = trace e ++ t /\ T (m e).1 t.

(** [yields T Q m]: [m] adds to the trace a piece that satisfies [T],
    and what it returns satisfies [Q]. *)
Definition yields {W A} (T : list action -> Prop) (Q : A -> Prop)
           (m : M W A) : Prop :=
  forall e, exists t,
    trace (m e).2 = trace e ++ t /\ T t
    /\ forall a, (m e).1 = Returned a -> Q a.

(** What a loop that polls the stop flag adds to the trace: either no poll
    that returned true, or it ends with such a poll and the loop tells its
    caller, by the result [None], to return. *)
Definition ended_by_stop {A} (o : outcome (option A)) (t : list action)
  : Prop :=
  no_stop t \/ (o = Returned None /\ halts_on_stop t).

(** [keeps m]: [m] assigns to no attribute. *)
Definition keeps {W A} (m : M W A) : Prop :=
  forall e, objs (m e).2 = objs e.

(** [triple P m Q]: from objects that satisfy [P], [m] ends with an
    outcome and objects that satisfy [Q]. *)
Definition triple {W A} (P : W -> Prop) (m : M W A)
           (Q : outcome A -> W -> Prop) : Prop :=
  forall e, P (objs e) -> Q (m e).1 (objs (m e).2).

(** A trace without externally visible work, and one without an emitted
    Event. *)
Definition no_work (t : list action) : Prop :=
  Forall (fun a => is_work a = false) t.

Definition no_event (t : list action) : Prop :=
  Forall (fun a => is_notify a = false) t.

(** The flag [errorState] of a module in state [st] is left as it is by a
    call of [handleEvent], whatever the Event. *)
Definition errorState_untouched {S} (errorState : S -> bool)
           (handleEvent : SpiderFootEvent -> M S unit) (st : S) : Prop :=
  forall event n,
    errorState (state_of (run (handleEvent event) st n)) = errorState st.

(** A module, set up in [st0], skips data it has seen: after a call with
    an Event, every later call with an Event of the same data, whatever its
    type and its source, returns without externally visible work. *)
Definition skips_seen_data {S} (handleEvent : SpiderFootEvent -> M S unit)
           (st0 : S) : Prop :=
  forall event1 event2 n1 n2 st2,
    data event2 = data event1 ->
    later handleEvent (state_of (run (handleEvent event1) st0 n1)) st2 ->
    outcome_of (run (handleEvent event2) st2 n2) = Returned tt
    /\ no_work (trace_of (run (handleEvent event2) st2 n2)).

End Plugin.

(** ** [modules/sfp_projectdiscovery.py] *)

Module sfp_projectdiscovery.
Import Py Event Plugin.

Definition name : string := "sfp_projectdiscovery".

(** The attributes of the module; [opts] is the dict of the class. *)
Record state := mkState {
  results : option (gmap string bool);
  errorState : bool;
  opts : gmap string pyval
}.

(** The attributes as the class declares them. *)
Definition initial : state :=
  mkState None false
          (<["api_key" := PStr EmptyString]> (<["verify" := PBool true]> ∅)).

Definition with_results (r : option (gmap string bool)) (st : state) : state :=
  mkState r (errorState st) (opts st).

Definition with_errorState (b : bool) (st : state) : state :=
  mkState (results st) b (opts st).

(** [setup(sfc, userOpts)]: a new [tempStorage()], and every user option
    written over the option of that name. *)
Definition setup (userOpts : gmap string pyval) (st : state) : state :=
  mkState (Some ∅) (errorState st) (userOpts ∪ opts st).

Definition watchedEvents : list string := ["DOMAIN_NAME"].

Definition producedEvents : list string :=
  ["RAW_RIR_DATA"; "INTERNET_NAME"; "INTERNET_NAME_UNRESOLVED"].

Section Methods.
Context {W : Type} (self : lens W state) (sf : World).
Variable notifyListeners : SpiderFootEvent -> M W unit.

Definition set_errorState (b : bool) : M W unit :=
  modify_self self (with_errorState b).

Definition opt : string -> M W pyval := opt self opts.
Definition results_contains : string -> M W bool :=
  results_contains self results.
Definition results_add : string -> M W unit :=
  results_add self results with_results.

(** [json.loads(res["content"])]: the value decoded, [None] for a
    JSONDecodeError.  Bytes are decoded to text first, which raises
    UnicodeDecodeError when they are no text in the encoding detected. *)
Definition loads (content_ : body) : outcome (option pyval) :=
  match content_ with
  | Text text => Returned (json_loads sf text)
  | Bytes b =>
      match json_decode sf b with
      | Some text => Returned (json_loads sf text)
      | None => Raised "UnicodeDecodeError"
      end
  end.

(** [query(qry)]; the result [PNone] is Python's [None]. *)
Definition query (qry : string) : M W pyval :=
  api_key ← opt "api_key";
  let headers := PDict [("Accept", PStr "application/json");
                        ("Authorization", api_key)] in
  timeout ← opt "_fetchtimeout";
  res ← sf_fetchUrl sf
        ("https://dns.projectdiscovery.io/dns/" +:+ qry +:+ "/subdomains")
        [("timeout", timeout); ("useragent", PStr "SpiderFoot");
         ("headers", headers)];
  match res with
  | None => raise "TypeError"                     (* res["content"] *)
  | Some res =>
      match content res with
      | None =>
          info ("No DNS info found in chaos projectdiscovery API for "
                  +:+ qry);;
          mret PNone
      | Some content_ =>
          decoded ← lift_outcome (loads content_);
          match decoded with
          | None =>
              error
                "Error processing JSON response from Chaos projectdiscovery";;
              mret PNone
          | Some info_ => mret info_
          end
      end
  end.

(** [f"{subdomain}.{eventData}"] *)
Definition format_value (v : pyval) : string :=
  match v with PStr s => s | _ => py_str sf v end.

(** The loop over [subdomains]; [resultsSet] is the local set of the
    subdomains handled so far. *)
Fixpoint each_subdomain (event : SpiderFootEvent)
         (subdomains : list pyval) (resultsSet : list pyval)
  : M W unit :=
  match subdomains with
  | [] => mret tt
  | subdomain :: rest =>
      stop ← checkForStop sf;
      if stop : bool then mret tt                      (* return None *)
      else if negb (hashable subdomain) then raise "TypeError"
      else if existsb (eq_scalar subdomain) resultsSet
      then each_subdomain event rest resultsSet        (* continue *)
      else
        let completeSubdomain :=
          format_value subdomain +:+ "." +:+ data event in
        verify ← opt "verify";
        unresolved ←
          (if truthy verify
           then addrs ← sf_resolveHost sf completeSubdomain;
                mret (match addrs with [] => true | _ => false end)
           else mret false);
        (if unresolved : bool
         then
           debug ("Host " +:+ completeSubdomain +:+ " could not be resolved");;
           evt ← new_event sf "INTERNET_NAME_UNRESOLVED"
                   completeSubdomain name event;
           notifyListeners evt
         else
           evt ← new_event sf "INTERNET_NAME" completeSubdomain name
                   event;
           notifyListeners evt);;
        each_subdomain event rest (subdomain :: resultsSet)
  end.

(** [handleEvent(event)] *)
Definition handleEvent (event : SpiderFootEvent) : M W unit :=
  let eventName := eventType event in
  let srcModuleName := module event in
  let eventData := data event in
  err ← gets self errorState;
  if err : bool then mret tt
  else
    debug ("Received event, " +:+ eventName +:+ ", from " +:+ srcModuleName);;
    api_key ← opt "api_key";
    if eq_str api_key EmptyString then
      error "You enabled sfp_projectdiscovery but did not set an API key!";;
      set_errorState true
    else
      seen ← results_contains eventData;
      if seen : bool then
        debug ("Skipping " +:+ eventData +:+ ", already checked.")
      else
        results_add eventData;;
        if negb (String.eqb eventName "DOMAIN_NAME") then mret tt
        else
          result ← query eventData;
          match result with
          | PNone => mret tt
          | PDict entries =>
              match snd <$> find (fun kv => String.eqb (fst kv) "subdomains") entries with
              | Some (PList subdomains) =>
                  evt ← new_event sf "RAW_RIR_DATA" (py_str sf result)
                          name event;
                  notifyListeners evt;;
                  each_subdomain event subdomains []
              | _ => mret tt
              end
          | _ => raise "AttributeError"      (* result.get *)
          end.
End Methods.

(** The module after [setup]: it has its storage, and the option
    [api_key], which the class declares. *)
Definition ready (st : state) : Prop :=
  is_Some (results st) /\ is_Some (opts st !! "api_key").

(** The states, after [setup], in which the data [d] is not looked up: the
    error flag is set, the API key is empty, or [d] is in the storage. *)
Definition blocked (d : string) (st : state) : Prop :=
  ready st
  /\ (errorState st = true
      \/ (exists k, opts st !! "api_key" = Some k
                    /\ eq_str k EmptyString = true)
      \/ (exists r, results st = Some r /\ is_Some (r !! d))).

(** A transient error of the source that [query] expects: every fetch
    gives a result, but one without content (the connection failed, or
    the response could not be read), or with content that is no JSON. *)
Definition upstream_fails (sf : World) : Prop :=
  forall url kwargs,
    exists res,
      fetchUrl sf url kwargs = Some res
      /\ match content res with
         | None => True
         | Some content_ => loads sf content_ = Returned None
         end.

(** A transient error of the source that [query] does not expect: the
    fetch gives no result but [None], or bytes that are no text. *)
Definition unreadable (sf : World) : Prop :=
  forall url kwargs,
    fetchUrl sf url kwargs = None
    \/ exists res b,
         fetchUrl sf url kwargs = Some res
         /\ content res = Some (Bytes b) /\ json_decode sf b = None.

End sfp_projectdiscovery.

(** ** [modules/sfp_cinsscore.py] *)

Module sfp_cinsscore.
Import Py Event Plugin.

Definition name : string := "sfp_cinsscore".

Record state := mkState {
  results : option (gmap string bool);
  errorState : bool;
  opts : gmap string pyval
}.

Definition initial : state :=
  mkState None false
          (<["checkaffiliates" := PBool true]>
           (<["cacheperiod" := PInt 18]>
            (<["checknetblocks" := PBool true]>
             (<["checksubnets" := PBool true]> ∅)))).

Definition with_results (r : option (gmap string bool)) (st : state) : state :=
  mkState r (errorState st) (opts st).

Definition with_errorState (b : bool) (st : state) : state :=
  mkState (results st) b (opts st).

(** [setup(sfc, userOpts)] *)
Definition setup (userOpts : gmap string pyval) (st : state) : state :=
  mkState (Some ∅) false (userOpts ∪ opts st).

Definition watchedEvents : list string :=
  ["IP_ADDRESS"; "AFFILIATE_IPADDR"; "NETBLOCK_MEMBER"; "NETBLOCK_OWNER"].

Definition producedEvents : list string :=
  ["MALICIOUS_IPADDR"; "MALICIOUS_AFFILIATE_IPADDR"; "MALICIOUS_SUBNET";
   "MALICIOUS_NETBLOCK"].

Definition url : string := "http://cinsscore.com/list/ci-badguys.txt".

Section Methods.
Context {W : Type} (self : lens W state) (sf : World).
Variable notifyListeners : SpiderFootEvent -> M W unit.

Definition set_errorState (b : bool) : M W unit :=
  modify_self self (with_errorState b).

Definition opt : string -> M W pyval := opt self opts.
Definition opt_get : string -> pyval -> M W pyval := opt_get self opts.
Definition results_contains : string -> M W bool :=
  results_contains self results.
Definition results_add : string -> M W unit :=
  results_add self results with_results.

(** The loop of [query] over the lines of the list; [Some url] when the
    loop returns the url, [None] when it runs to its end. *)
Fixpoint each_line (qry targetType : string) (lines : list string)
  : M W (option string) :=
  match lines with
  | [] => mret None
  | line :: rest =>
      let ip := Str.lower (Str.strip line) in
      if String.eqb targetType "netblock" then
        match ip_in_network sf ip qry with
        | Some true =>
            debug (ip +:+ " found within netblock/subnet " +:+ qry
                      +:+ " in cinsscore.com list.");;
            mret (Some url)
        | Some false => each_line qry targetType rest
        | None =>
            debug "Error encountered parsing";;
            each_line qry targetType rest                  (* continue *)
        end
      else if String.eqb targetType "ip" then
        if String.eqb (Str.lower qry) ip then
          debug (qry +:+ " found in cinsscore.com list.");;
          mret (Some url)
        else each_line qry targetType rest
      else each_line qry targetType rest
  end.

(** [query(qry, targetType)] *)
Definition query (qry targetType : string) : M W (option string) :=
  let cid := "_cinsscore" in
  cacheperiod ← opt_get "cacheperiod" (PInt 0);
  text ←
    match cacheGet sf ("sfmal_" +:+ cid) cacheperiod with
    | Some text => mret (Some text)
    | None =>
        timeout ← opt "_fetchtimeout";
        useragent ← opt "_useragent";
        data_ ← sf_fetchUrl sf url
                  [("timeout", timeout); ("useragent", useragent)];
        match data_ with
        | None => raise "TypeError"                 (* data["code"] *)
        | Some data_ =>
            if negb (bool_decide (code data_ = Some "200")) then
              error ("Unable to fetch " +:+ url);;
              set_errorState true;;
              mret None
            else
              match content data_ with
              | None =>
                  error ("Unable to fetch " +:+ url);;
                  set_errorState true;;
                  mret None
              | Some (Text text) =>
                  sf_cachePut ("sfmal_" +:+ cid) text;;
                  mret (Some text)
              | Some (Bytes b) =>
                  (* cachePut decodes the bytes as UTF-8, which they
                     are not *)
                  emit_action (CachePut ("sfmal_" +:+ cid) b);;
                  raise "UnicodeDecodeError"
              end
        end
    end;
  match text with
  | None => mret None
  | Some text => each_line qry targetType (Str.split Re.newline text)
  end.

(** The part of [handleEvent] that its four branches share: the check of
    the option that enables the branch, if there is one, the query and the
    Event for a hit. *)
Definition check (event : SpiderFootEvent) (option_ : option string)
           (targetType evtType : string) : M W unit :=
  let eventData := data event in
  enabled ← match option_ with
            | None => mret true
            | Some key => v ← opt_get key (PBool false); mret (truthy v)
            end;
  if negb enabled then mret tt                               (* return None *)
  else
    debug ("Checking maliciousness of " +:+ eventData
              +:+ " with cinsscore.com");;
    found ← query eventData targetType;
    match found with
    | None => mret tt
    | Some url_ =>
        let text := "cinsscore.com [" +:+ eventData +:+ "]"
                      +:+ String Re.newline "<SFURL>" +:+ url_
                      +:+ "</SFURL>" in
        evt ← new_event sf evtType text name event;
        notifyListeners evt
    end.

(** [handleEvent(event)] *)
Definition handleEvent (event : SpiderFootEvent) : M W unit :=
  let eventName := eventType event in
  let srcModuleName := module event in
  let eventData := data event in
  debug ("Received event, " +:+ eventName +:+ ", from " +:+ srcModuleName);;
  seen ← results_contains eventData;
  if seen : bool then
    debug ("Skipping " +:+ eventData +:+ ", already checked.")
  else
    err ← gets self errorState;
    if err : bool then mret tt
    else
      results_add eventData;;
      if String.eqb eventName "IP_ADDRESS" then
        check event None "ip" "MALICIOUS_IPADDR"
      else if String.eqb eventName "AFFILIATE_IPADDR" then
        check event (Some "checkaffiliates") "ip" "MALICIOUS_AFFILIATE_IPADDR"
      else if String.eqb eventName "NETBLOCK_OWNER" then
        check event (Some "checknetblocks") "netblock" "MALICIOUS_NETBLOCK"
      else if String.eqb eventName "NETBLOCK_MEMBER" then
        check event (Some "checksubnets") "netblock" "MALICIOUS_SUBNET"
      else mret tt.
End Methods.

(** The module after [setup], and the states in which the data [d] is not
    looked up. *)
Definition ready (st : state) : Prop := is_Some (results st).

Definition blocked (d : string) (st : state) : Prop :=
  ready st
  /\ (errorState st = true
      \/ (exists r, results st = Some r /\ is_Some (r !! d))).

(** A transient error of the source that [query] expects: the list is
    not in the cache, and every fetch gives a result, but one with a
    status other than 200 or without content. *)
Definition unavailable (sf : World) : Prop :=
  (forall label period, cacheGet sf label period = None)
  /\ (forall url_ kwargs,
         exists data_,
           fetchUrl sf url_ kwargs = Some data_
           /\ (code data_ <> Some "200" \/ content data_ = None)).

(** A transient error of the source that [query] does not expect: the
    list is not in the cache, and the fetch gives no result but [None],
    or the status 200 with bytes that are no text. *)
Definition unreadable (sf : World) : Prop :=
  (forall label period, cacheGet sf label period = None)
  /\ (forall url_ kwargs,
         fetchUrl sf url_ kwargs = None
         \/ exists data_ b,
              fetchUrl sf url_ kwargs = Some data_
              /\ code data_ = Some "200"
              /\ content data_ = Some (Bytes b)).

End sfp_cinsscore.

(** ** [modules/sfp_bitcoin.py] *)

Module sfp_bitcoin.
Import Py Event Plugin.

Definition name : string := "sfp_bitcoin".

Record state := mkState {
  results : option (gmap string bool);
  opts : gmap string pyval
}.

Definition initial : state := mkState None ∅.

Definition with_results (r : option (gmap string bool)) (st : state) : state :=
  mkState r (opts st).

(** [setup(sfc, userOpts)] *)
Definition setup (userOpts : gmap string pyval) (st : state) : state :=
  mkState (Some ∅) (userOpts ∪ opts st).

Definition watchedEvents : list string := ["TARGET_WEB_CONTENT"].
Definition producedEvents : list string := ["BITCOIN_ADDRESS"].

(** The bytes of [n], most significant first; no byte for 0. *)
Fixpoint be_bytes (fuel : nat) (n : Z) : list Z :=
  match fuel with
  | O => []
  | S fuel' =>
      if (n <=? 0)%Z then []
      else be_bytes fuel' (n / 256) ++ [n mod 256]%Z
  end.

(** [to_bytes(n, length)]: the hex digits of [n], an even number of them,
    filled with zeros on the left to [2 * length] digits, as bytes. *)
Definition to_bytes (n : Z) (length : nat) : list Z :=
  let digits :=
    match be_bytes (S (Z.to_nat (Z.log2 n))) n with
    | [] => [0%Z]
    | bs => bs
    end in
  replicate (length - List.length digits) 0%Z ++ digits.

Definition digits58 : string :=
  "123456789ABCDEFGHJKLMNPQRSTUVWXYZabcdefghijkmnopqrstuvwxyz".

(** [digits58.index(char)]; ValueError when the character is not a
    digit. *)
Fixpoint index (c : ascii) (s : string) : option Z :=
  match s with
  | EmptyString => None
  | String x s' =>
      if Ascii.eqb x c then Some 0%Z else Z.succ <$> index c s'
  end.

(** [decode_base58(bc, length)] *)
Fixpoint decode_digits (bc : string) (n : Z) : outcome Z :=
  match bc with
  | EmptyString => Returned n
  | String char rest =>
      match index char digits58 with
      | Some d => decode_digits rest (n * 58 + d)
      | None => Raised "ValueError"
      end
  end.

Definition decode_base58 (bc : string) (length : nat) : outcome (list Z) :=
  match decode_digits bc 0 with
  | Returned n => Returned (to_bytes n length)
  | Raised x => Raised x
  end.

(** The pattern of [handleEvent],
    [[\s:=\>]([13][a-km-zA-HJ-NP-Z1-9]{25,34})]. *)
Definition address_rx : Re.regex :=
  Re.seq [Re.Set_ [Re.ClsSpace; Re.One ":"; Re.One "="; Re.One ">"];
          Re.Set_ [Re.One "1"; Re.One "3"];
          Re.Rep TargetType.base58 25 (Some 34)].

(** [re.findall] gives the text of the one group of the pattern: the
    match without its first character. *)
Definition findall_addresses (eventData : string) : list string :=
  (fun m => match m with String _ g => g | EmptyString => EmptyString end)
    <$> Re.findall false address_rx eventData.

Section Methods.
Context {W : Type} (self : lens W state) (sf : World).
Variable notifyListeners : SpiderFootEvent -> M W unit.

Definition results_contains : string -> M W bool :=
  results_contains self results.
Definition results_add : string -> M W unit :=
  results_add self results with_results.

(** [check_bc(bc)] *)
Definition check_bc (bc : string) : M W bool :=
  bcbytes ← lift_outcome (decode_base58 bc 25);
  let n := List.length bcbytes in
  let tail := drop (n - 4) bcbytes in
  let body := take (n - 4) bcbytes in
  mret (bool_decide (tail = take 4 (sha256 sf (sha256 sf body)))).

Fixpoint each_match (event : SpiderFootEvent) (matches : list string)
  : M W unit :=
  match matches with
  | [] => mret tt
  | m :: rest =>
      debug ("Bitcoin potential match: " +:+ m);;
      ok ← check_bc m;
      (if ok : bool then
         evt ← new_event sf "BITCOIN_ADDRESS" m name event;
         notifyListeners evt
       else mret tt);;
      each_match event rest
  end.

(** [handleEvent(event)] *)
Definition handleEvent (event : SpiderFootEvent) : M W unit :=
  let eventName := eventType event in
  let srcModuleName := module event in
  let eventData := data event in
  let sourceData := hashstring sf eventData in
  seen ← results_contains sourceData;
  if seen : bool then mret tt
  else
    results_add sourceData;;
    debug ("Received event, " +:+ eventName +:+ ", from " +:+ srcModuleName);;
    each_match event (findall_addresses eventData).
End Methods.

(** The module after [setup], and the states in which the data [d] is not
    searched: its hash is in the storage. *)
Definition ready (st : state) : Prop := is_Some (results st).

Definition blocked (sf : World) (d : string) (st : state) : Prop :=
  exists r, results st = Some r /\ is_Some (r !! hashstring sf d).

End sfp_bitcoin.

(** ** [modules/sfp_portscan_tcp.py] *)

Module sfp_portscan_tcp.
Import Py Event Plugin.

Definition name : string := "sfp_portscan_tcp".

(** The attributes of the module.  [portlist] and [opts] are objects of
    the class: [setup] appends to the one and writes into the other. *)
Record state := mkState {
  results : option (gmap string bool);
  portlist : list Z;
  portResults : list (string * portResult);
  errorState : bool;
  opts : gmap string pyval
}.

Definition default_ports : list string :=
  ["21"; "22"; "23"; "25"; "53"; "79"; "80"; "81"; "88"; "110"; "111";
   "113"; "119"; "123"; "137"; "138"; "139"; "143"; "161"; "179";
   "389"; "443"; "445"; "465"; "512"; "513"; "514"; "515"; "3306";
   "5432"; "1521"; "2638"; "1433"; "3389"; "5900"; "5901"; "5902";
   "5903"; "5631"; "631"; "636";
   "990"; "992"; "993"; "995"; "1080"; "8080"; "8888"; "9000"].

Definition initial : state :=
  mkState None [] [] false
          (<["ports" := PList (PStr <$> default_ports)]>
           (<["timeout" := PInt 15]>
            (<["maxthreads" := PInt 10]>
             (<["randomize" := PBool true]>
              (<["netblockscan" := PBool true]>
               (<["netblockscanmax" := PInt 24]> ∅)))))).

Definition with_results (r : option (gmap string bool)) (st : state) : state :=
  mkState r (portlist st) (portResults st) (errorState st) (opts st).

Definition with_portlist (l : list Z) (st : state) : state :=
  mkState (results st) l (portResults st) (errorState st) (opts st).

Definition with_portResults (d : list (string * portResult)) (st : state)
  : state :=
  mkState (results st) (portlist st) d (errorState st) (opts st).

Definition with_errorState (b : bool) (st : state) : state :=
  mkState (results st) (portlist st) (portResults st) b (opts st).

Definition watchedEvents : list string := ["IP_ADDRESS"; "NETBLOCK_OWNER"].
Definition producedEvents : list string :=
  ["TCP_PORT_OPEN"; "TCP_PORT_OPEN_BANNER"].

(** The value of a string of decimal digits; one underscore may stand
    between two digits.  [after_digit] tells whether the character before
    was a digit. *)
Fixpoint digits_value (s : string) (acc : Z) (after_digit : bool)
  : option Z :=
  match s with
  | EmptyString => if after_digit then Some acc else None
  | String c s' =>
      if Re.is_digit c
      then digits_value s' (acc * 10 + Z.of_nat (nat_of_ascii c) - 48) true
      else if Ascii.eqb c "_" && after_digit
      then digits_value s' acc false
      else None
  end.

(** [int(port)]: a string of digits between white space, with a sign if
    any; ValueError for another string, TypeError for an object that is
    no number. *)
Definition py_int (port : pyval) : outcome Z :=
  match port with
  | PInt z => Returned z
  | PBool b => Returned (if b then 1 else 0)%Z
  | PStr s =>
      let body := Str.strip s in
      let '(sign, digits) :=
        match body with
        | String "-" t => ((-1)%Z, t)
        | String "+" t => (1%Z, t)
        | _ => (1%Z, body)
        end in
      match digits_value digits 0 false with
      | Some n => Returned (sign * n)%Z
      | None => Raised "ValueError"
      end
  | _ => Raised "TypeError"
  end.

(** [i < v] for an int [i] and an option value [v]. *)
Definition py_lt (i : Z) (v : pyval) : outcome bool :=
  match v with
  | PInt z => Returned (i <? z)%Z
  | PBool b => Returned (i <? (if b then 1 else 0))%Z
  | _ => Raised "TypeError"
  end.

(** The items a [for] loop or [set(...)] takes from an object: those of
    a list, the characters of a string. *)
Fixpoint chars (s : string) : list pyval :=
  match s with
  | EmptyString => []
  | String c s' => PStr (String c EmptyString) :: chars s'
  end.

Definition py_iter (v : pyval) : outcome (list pyval) :=
  match v with
  | PList l => Returned l
  | PStr s => Returned (chars s)
  | PDict d => Returned (PStr <$> (fst <$> d))
  | _ => Raised "TypeError"
  end.

(** [d[key] = value] on a dict kept in insertion order. *)
Fixpoint dict_set {V} (d : list (string * V)) (key : string) (value : V)
  : list (string * V) :=
  match d with
  | [] => [(key, value)]
  | (k, v) :: rest =>
      if String.eqb k key then (k, value) :: rest
      else (k, v) :: dict_set rest key value
  end.

Section Methods.
Context {W : Type} (self : lens W state) (sf : World).
Variable notifyListeners : SpiderFootEvent -> M W unit.

Definition set_errorState (b : bool) : M W unit :=
  modify_self self (with_errorState b).

Definition opt : string -> M W pyval := opt self opts.
Definition results_contains : string -> M W bool :=
  results_contains self results.
Definition results_add : string -> M W unit :=
  results_add self results with_results.

(** The loop of [setup] that converts the ports to integers; [int]
    raises ValueError for a string only, which the message quotes. *)
Fixpoint each_port_option (ports : list pyval) : M W unit :=
  match ports with
  | [] => mret tt
  | port :: rest =>
      match py_int port with
      | Returned n =>
          modify_self self (fun st => with_portlist (portlist st ++ [n]) st)
      | Raised "ValueError" =>
          debug ("Skipping invalid port '"
                   +:+ match port with PStr s => s | _ => py_str sf port end
                   +:+ "' specified in port list")
      | Raised x => raise x
      end;;
      each_port_option rest
  end.

(** [setup(sfc, userOpts)].  [shuffle] is what
    [random.SystemRandom().shuffle] makes of a list at this call. *)
Definition setup (shuffle : list Z -> list Z)
           (userOpts : gmap string pyval) : M W unit :=
  modify_self self (fun st =>
    mkState (Some ∅) (portlist st) (portResults st) (errorState st)
            (userOpts ∪ opts st));;
  ports ← opt "ports";
  first ← match ports with
          | PList (p :: _) => mret p
          | PStr (String c _) => mret (PStr (String c EmptyString))
          | PList [] | PStr EmptyString => raise "IndexError"
          | PDict _ => raise "KeyError"
          | _ => raise "TypeError"
          end;
  portlist_ ←
    match first with
    | PStr s =>
        if Str.startswith "http://" s || Str.startswith "https://" s
           || Str.startswith "@" s
        then mret (match optValueToData sf s with
                   | Some text => PStr text
                   | None => PNone
                   end)
        else mret ports
    | _ => raise "AttributeError"
    end;
  items ← lift_outcome (py_iter portlist_);
  (if forallb hashable items then mret tt else raise "TypeError");;
  each_port_option (set_order sf items);;
  randomize ← opt "randomize";
  if truthy randomize then
    modify_self self (fun st => with_portlist (shuffle (portlist st)) st)
  else mret tt.

(** [tryPort(ip, port)], run by one thread: the entry it leaves in
    [portResults]. *)
Definition tryPort (ip : string) (port : Z) : M W unit :=
  let peer := ip +:+ ":" +:+ Str.of_Z port in
  emit_action (Connect ip port);;
  modify_self self (fun st =>
    with_portResults (dict_set (portResults st) peer (try_port sf ip port)) st).

(** [tryPortWrapper(ip, portList)]: one thread per port, and the wait
    for all of them; the threads are taken in the order in which they
    write their result. *)
Definition tryPortWrapper (ip : string) (portList : list Z)
  : M W (list (string * portResult)) :=
  modify_self self (with_portResults []);;
  mapM (fun port =>
          info ("Spawning thread to check port: " +:+ Str.of_Z port
                   +:+ " on " +:+ ip)) portList;;
  mapM (tryPort ip) (thread_order sf portList);;
  gets self portResults.

(** [sendEvent(resArray, srcEvent)] *)
Fixpoint sendEvent (resArray : list (string * portResult))
         (srcEvent : SpiderFootEvent) : M W unit :=
  match resArray with
  | [] => mret tt
  | (cp, res) :: rest =>
      (match res with
       | PortClosed | PortBanner EmptyString => mret tt
       | PortOpen =>
           info ("TCP Port " +:+ cp +:+ " found to be OPEN.");;
           evt ← new_event sf "TCP_PORT_OPEN" cp name srcEvent;
           notifyListeners evt
       | PortBanner bytes =>
           info ("TCP Port " +:+ cp +:+ " found to be OPEN.");;
           evt ← new_event sf "TCP_PORT_OPEN" cp name srcEvent;
           notifyListeners evt;;
           let banner := decode_utf8 sf bytes in
           bevt ← new_event sf "TCP_PORT_OPEN_BANNER" banner name evt;
           notifyListeners bevt
       end);;
      sendEvent rest srcEvent
  end.

(** The loop over the addresses of the netblock. *)
Fixpoint each_address (addresses scanIps : list string)
  : M W (list string) :=
  match addresses with
  | [] => mret scanIps
  | ipaddr :: rest =>
      let parts := Str.split "." ipaddr in
      match parts !! 3%nat with
      | None => raise "IndexError"
      | Some last =>
          if bool_decide (last ∈ ["255"; "0"])
          then each_address rest scanIps                  (* continue *)
          else if bool_decide ("255" ∈ parts)
          then each_address rest scanIps                  (* continue *)
          else each_address rest (scanIps ++ [ipaddr])
      end
  end.

(** The part of [handleEvent] under [try]: the addresses to scan;
    [None] for the [return None] of a netblock that is too big. *)
Definition scan_targets (event : SpiderFootEvent)
  : M W (option (list string)) :=
  let eventName := eventType event in
  let eventData := data event in
  is_block ←
    (if String.eqb eventName "NETBLOCK_OWNER"
     then netblockscan ← opt "netblockscan";
          mret (truthy netblockscan)
     else mret false);
  if is_block : bool then
    match ip_network sf eventData with
    | None => raise "AddrFormatError"
    | Some (prefixlen, addresses) =>
        netblockscanmax ← opt "netblockscanmax";
        too_big ← lift_outcome (py_lt prefixlen netblockscanmax);
        if too_big : bool then
          debug ("Skipping port scanning of " +:+ eventData +:+ ", too big.");;
          mret None
        else
          ips ← each_address addresses [];
          mret (Some ips)
    end
  else mret (Some [eventData]).

(** The loop over [self.portlist] for one address; the result tells
    whether the loop left [handleEvent] by [return None], and else
    gives the ports that remain to be scanned. *)
Fixpoint each_port (event : SpiderFootEvent) (ipAddr : string)
         (ports : list Z) (i : Z) (portArr : list Z)
  : M W (option (list Z)) :=
  match ports with
  | [] => mret (Some portArr)
  | port :: rest =>
      stop ← checkForStop sf;
      if stop : bool then mret None                       (* return None *)
      else
        maxthreads ← opt "maxthreads";
        room ← lift_outcome (py_lt i maxthreads);
        if room : bool then
          each_port event ipAddr rest (i + 1) (portArr ++ [port])
        else
          res ← tryPortWrapper ipAddr portArr;
          sendEvent res event;;
          each_port event ipAddr rest 1 [port]
  end.

(** The loop over [scanIps]. *)
Fixpoint each_ip (event : SpiderFootEvent) (scanIps : list string)
  : M W unit :=
  match scanIps with
  | [] => mret tt
  | ipAddr :: rest =>
      seen ← results_contains ipAddr;
      if seen : bool then
        debug ("Skipping " +:+ ipAddr +:+ " as already scanned.")
                                                          (* return None *)
      else
        results_add ipAddr;;
        ports ← gets self portlist;
        left ← each_port event ipAddr ports 0 [];
        match left with
        | None => mret tt                                 (* return None *)
        | Some portArr =>
            res ← tryPortWrapper ipAddr portArr;
            sendEvent res event;;
            each_ip event rest
        end
  end.

(** [handleEvent(event)] *)
Definition handleEvent (event : SpiderFootEvent) : M W unit :=
  let eventName := eventType event in
  let srcModuleName := module event in
  let eventData := data event in
  err ← gets self errorState;
  if err : bool then mret tt
  else
    debug ("Received event, " +:+ eventName +:+ ", from " +:+ srcModuleName);;
    ports ← gets self portlist;
    match ports with
    | [] =>
        error "No ports specified in port list";;
        set_errorState true
    | _ =>
        targets ← try_except (scan_targets event)
                    (fun _ =>
                       error ("Strange netblock identified, unable to parse: "
                                +:+ eventData);;
                       mret None);
        match targets with
        | None => mret tt
        | Some scanIps => each_ip event scanIps
        end
    end.
End Methods.

End sfp_portscan_tcp.

(** ** [modules/sfp_email.py] *)

Module sfp_email.
Import Py Event Plugin.

Definition name : string := "sfp_email".

(** The module has no attribute but the options. *)
Record state := mkState {
  opts : gmap string pyval
}.

Definition initial : state := mkState ∅.

(** [setup(sfc, userOpts)] *)
Definition setup (userOpts : gmap string pyval) (st : state) : state :=
  mkState (userOpts ∪ opts st).

Definition watchedEvents : list string :=
  ["TARGET_WEB_CONTENT"; "BASE64_DATA"; "AFFILIATE_DOMAIN_WHOIS";
   "CO_HOSTED_SITE_DOMAIN_WHOIS"; "DOMAN_WHOIS"; "NETBLOCK_WHOIS";
   "LEAKSITE_CONTENT"; "RAW_DNS_RECORDS"; "RAW_FILE_META_DATA";
   "RAW_RIR_DATA"; "SEARCH_ENGINE_WEB_CONTENT"; "SIMILARDOMAIN_WHOIS";
   "SSL_CERTIFICATE_RAW"; "SSL_CERTIFICATE_ISSUED"; "TCP_PORT_OPEN_BANNER";
   "WEBSERVER_BANNER"; "WEBSERVER_HTTPHEADERS"].

Definition producedEvents : list string :=
  ["EMAILADDR"; "EMAILADDR_GENERIC"; "AFFILIATE_EMAILADDR"].

Section Methods.
Context {W : Type} (self : lens W state) (sf : World).
Variable notifyListeners : SpiderFootEvent -> M W unit.

Definition opt : string -> M W pyval := opt self opts.

(** The loop over the addresses found; [myres] holds those reported
    from this event. *)
Fixpoint each_email (event : SpiderFootEvent) (emails : list string)
         (myres : list string) : M W unit :=
  match emails with
  | [] => mret tt
  | email :: rest =>
      let eventName := eventType event in
      let email := Str.lower email in
      mailDom ← match Str.split "@" email !! 1%nat with
                 | Some d => mret (Str.strip_char "." d)
                 | None => raise "IndexError"
                 end;
      tlds ← opt "_internettlds";
      if negb (validHost sf mailDom tlds) then
        debug ("Skipping " +:+ email +:+ " as not a valid e-mail.")
                                                          (* return None *)
      else
        let external :=
          negb (target_matches sf mailDom (Some true) (Some true))
          && negb (target_matches sf email None None) in
        (if external
         then debug "External domain, so possible affiliate e-mail"
         else mret tt);;
        let evttype :=
          if external || Str.startswith "AFFILIATE_" eventName
          then "AFFILIATE_EMAILADDR" else "EMAILADDR" in
        evttype ←
          (if negb (Str.startswith "AFFILIATE_" evttype) then
             generic ← opt "_genericusers";
             match generic with
             | PStr users =>
                 let user := default EmptyString (head (Str.split "@" email)) in
                 mret (if bool_decide (user ∈ Str.split "," users)
                       then "EMAILADDR_GENERIC" else evttype)
             | _ => raise "AttributeError"
             end
           else mret evttype);
        info ("Found e-mail address: " +:+ email);;
        let mail := Str.strip_char "." email in
        if bool_decide (mail ∈ myres) then
          debug "Already found from this source.";;
          each_email event rest myres                       (* continue *)
        else
          evt ← new_event sf evttype mail name event;
          let source :=
            match moduleDataSource event with
            | Some s => if String.eqb s EmptyString then "Unknown" else s
            | None => "Unknown"
            end in
          notifyListeners
            (mkEvent (eventType evt) (data evt) (module evt)
                     (sourceEvent evt) (Some source));;
          each_email event rest (myres ++ [mail])
  end.

(** [handleEvent(event)] *)
Definition handleEvent (event : SpiderFootEvent) : M W unit :=
  let eventName := eventType event in
  let srcModuleName := module event in
  let eventData := data event in
  debug ("Received event, " +:+ eventName +:+ ", from " +:+ srcModuleName);;
  each_email event (parseEmails sf eventData) [].
End Methods.

End sfp_email.

(** ** The dispatcher *)

Module Dispatcher.
Import Py Event Plugin.

(** The modules that can be registered. *)
Inductive plugin :=
| ProjectDiscovery
| Cinsscore
| Bitcoin
| PortscanTcp
| Email.

#[global] Instance plugin_eq_dec : EqDecision plugin.
Proof. solve_decision. Defined.

(** The objects of a scan: one instance of each module. *)
Record scan := mkScan {
  pd : sfp_projectdiscovery.state;
  cs : sfp_cinsscore.state;
  bc : sfp_bitcoin.state;
  ps : sfp_portscan_tcp.state;
  em : sfp_email.state
}.

Definition created : scan :=
  mkScan sfp_projectdiscovery.initial sfp_cinsscore.initial
         sfp_bitcoin.initial sfp_portscan_tcp.initial sfp_email.initial.

Definition pd_lens : lens scan sfp_projectdiscovery.state :=
  mkLens _ _ pd (fun x s => mkScan x (cs s) (bc s) (ps s) (em s)).
Definition cs_lens : lens scan sfp_cinsscore.state :=
  mkLens _ _ cs (fun x s => mkScan (pd s) x (bc s) (ps s) (em s)).
Definition bc_lens : lens scan sfp_bitcoin.state :=
  mkLens _ _ bc (fun x s => mkScan (pd s) (cs s) x (ps s) (em s)).
Definition ps_lens : lens scan sfp_portscan_tcp.state :=
  mkLens _ _ ps (fun x s => mkScan (pd s) (cs s) (bc s) x (em s)).
Definition em_lens : lens scan sfp_email.state :=
  mkLens _ _ em (fun x s => mkScan (pd s) (cs s) (bc s) (ps s) x).

Definition name (p : plugin) : string :=
  match p with
  | ProjectDiscovery => sfp_projectdiscovery.name
  | Cinsscore => sfp_cinsscore.name
  | Bitcoin => sfp_bitcoin.name
  | PortscanTcp => sfp_portscan_tcp.name
  | Email => sfp_email.name
  end.

Definition watchedEvents (p : plugin) : list string :=
  match p with
  | ProjectDiscovery => sfp_projectdiscovery.watchedEvents
  | Cinsscore => sfp_cinsscore.watchedEvents
  | Bitcoin => sfp_bitcoin.watchedEvents
  | PortscanTcp => sfp_portscan_tcp.watchedEvents
  | Email => sfp_email.watchedEvents
  end.

(** The attribute [errorState] of a module; the modules that do not
    declare it never set it. *)
Definition errorState (p : plugin) (s : scan) : bool :=
  match p with
  | ProjectDiscovery => sfp_projectdiscovery.errorState (pd s)
  | Cinsscore => sfp_cinsscore.errorState (cs s)
  | PortscanTcp => sfp_portscan_tcp.errorState (ps s)
  | Bitcoin | Email => false
  end.

Section Scan.
Variable sf : World.
(** What [random.SystemRandom().shuffle] does in this run. *)
Variable shuffle : list Z -> list Z.
(** The registered modules, in the order of their registration, and the
    options they are set up with. *)
Variable registered : list plugin.
Variable userOpts : gmap string pyval.

Definition handleEvent (p : plugin)
           (notifyListeners : SpiderFootEvent -> M scan unit)
           (event : SpiderFootEvent) : M scan unit :=
  match p with
  | ProjectDiscovery =>
      sfp_projectdiscovery.handleEvent pd_lens sf notifyListeners event
  | Cinsscore => sfp_cinsscore.handleEvent cs_lens sf notifyListeners event
  | Bitcoin => sfp_bitcoin.handleEvent bc_lens sf notifyListeners event
  | PortscanTcp =>
      sfp_portscan_tcp.handleEvent ps_lens sf notifyListeners event
  | Email => sfp_email.handleEvent em_lens sf notifyListeners event
  end.

Definition setup (p : plugin) : M scan unit :=
  match p with
  | ProjectDiscovery =>
      modify_self pd_lens (sfp_projectdiscovery.setup userOpts)
  | Cinsscore => modify_self cs_lens (sfp_cinsscore.setup userOpts)
  | Bitcoin => modify_self bc_lens (sfp_bitcoin.setup userOpts)
  | PortscanTcp => sfp_portscan_tcp.setup ps_lens sf shuffle userOpts
  | Email => modify_self em_lens (sfp_email.setup userOpts)
  end.

(** Modelled from the spec: the routing table, "for each registered
    module, for each type in its watchedEvents() (or all known types,
    if it declared [*]), append the module to routingTable[type]". *)
Definition routingTable (type_ : string) : list plugin :=
  filter (fun p => type_ ∈ watchedEvents p \/ "*" ∈ watchedEvents p)
         registered.

(** Modelled from the spec: one round of step 2 of [dispatch], for the
    module [p] and an Event routed to it.  The module is skipped when
    it generated the Event or when its [errorState] is set; the abort
    flag is read before the call; a fault of the module is caught and
    logged. *)
Definition deliver (notifyListeners : SpiderFootEvent -> M scan unit)
           (event : SpiderFootEvent) (p : plugin) : M scan unit :=
  if String.eqb (name p) (module event) then mret tt
  else
    err ← gets self_id (errorState p);
    if err : bool then mret tt
    else
      stop ← checkForStop sf;
      if stop : bool then mret tt
      else try_except (handleEvent p notifyListeners event)
                      (fun x => error ("Module " +:+ name p +:+ " failed: " +:+ x)).

(** Modelled from the spec: [dispatch(event)], the module-facing
    [emit].  The Event is handed to every module of its routing entry,
    in the order of registration, and what a module emits during the
    call is dispatched before the call returns.  [depth] is the depth
    of calls that is left. *)
Fixpoint dispatch (depth : nat) (type_ : string) (event : SpiderFootEvent)
  : M scan unit :=
  emit_action (Notify event);;
  match depth with
  | O => raise "RecursionError"
  | S depth' =>
      mapM (deliver (fun e => dispatch depth' (eventType e) e) event)
           (routingTable type_);;
      mret tt
  end.

(** Modelled from the spec: [start()] "synthesizes the root Event from
    the Target, then delivers it".  The type of the Target is inferred
    from the seed value; the root Event goes to the modules that watch
    that type. *)
Definition start (depth : nat) (seed : string) : M scan unit :=
  match TargetType.targetType seed with
  | None => raise "ValueError"
  | Some type_ =>
      root ← lift_outcome
               (construct (allowed_empty sf) "ROOT" seed EmptyString None);
      dispatch depth type_ root
  end.

(** A run: the modules are set up, then the scan is started. *)
Definition scan_run (depth : nat) (seed : string)
  : outcome unit * scan * list action :=
  run (mapM setup registered;; start depth seed) created 0.
End Scan.

(** The ordered sequence of (type, data, generatedBy) that a run
    dispatched. *)
Definition dispatched (t : list action) : list (string * string * string) :=
  omap (fun a => match a with Notify e => Some (tuple e) | _ => None end) t.

(** What two runs of a scan have in common when the world outside gives
    the same answers to both.  The rest is the run's own: the order in
    which a set is iterated, the order in which the threads of a batch
    finish, and the order of the list that [parseEmails] makes of its
    set of addresses. *)
Definition same_answers (sf1 sf2 : World) : Prop :=
  fetchUrl sf1 = fetchUrl sf2
  /\ resolveHost sf1 = resolveHost sf2
  /\ cacheGet sf1 = cacheGet sf2
  /\ hashstring sf1 = hashstring sf2
  /\ optValueToData sf1 = optValueToData sf2
  /\ (forall data_, parseEmails sf1 data_ ≡ₚ parseEmails sf2 data_)
  /\ validHost sf1 = validHost sf2
  /\ target_matches sf1 = target_matches sf2
  /\ stop_requested sf1 = stop_requested sf2
  /\ json_loads sf1 = json_loads sf2
  /\ json_decode sf1 = json_decode sf2
  /\ py_str sf1 = py_str sf2
  /\ decode_utf8 sf1 = decode_utf8 sf2
  /\ sha256 sf1 = sha256 sf2
  /\ ip_network sf1 = ip_network sf2
  /\ ip_in_network sf1 = ip_in_network sf2
  /\ try_port sf1 = try_port sf2
  /\ allowed_empty sf1 = allowed_empty sf2.

(** Two runs with the same modules, options and seed, in worlds that give
    the same answers, dispatch the same sequence, whatever the random
    source gives and in whatever order the second run iterates sets and
    finishes threads. *)
Definition same_sequence (sf : World) (registered : list plugin)
           (userOpts : gmap string pyval) (depth : nat) (seed : string)
  : Prop :=
  forall sf' shuffle1 shuffle2,
    same_answers sf sf' ->
    dispatched (trace_of (scan_run sf shuffle1 registered userOpts depth seed))
    = dispatched (trace_of (scan_run sf' shuffle2 registered userOpts depth
                              seed)).

(** The same for what follows from an Event that is handed to the
    dispatcher in any state of the scan, as a module outside this model
    would do it: two runs dispatch the same sequence from there. *)
Definition same_dispatch (sf : World) (registered : list plugin)
           (depth : nat) : Prop :=
  forall sf' type_ event s n,
    same_answers sf sf' ->
    dispatched (trace_of (run (dispatch sf registered depth type_ event) s n))
    = dispatched (trace_of (run (dispatch sf' registered depth type_ event)
                                s n)).

End Dispatcher.

(** ** Events created during a scan *)

Module Lineage.
Import Py Event.

(** [e] with its attribute [moduleDataSource] set, as [sfp_email] does
    with the Event it has just constructed. *)
Definition with_dataSource (e : SpiderFootEvent) (ds : option string)
  : SpiderFootEvent :=
  mkEvent (eventType e) (data e) (module e) (sourceEvent e) ds.

(** The Events that exist during a scan: each comes out of [construct],
    applied to a source that exists already. *)
Inductive created (allowed_empty : string -> bool)
  : SpiderFootEvent -> Prop :=
| created_construct type_ data_ generatedBy source e :
    (forall src, source = Some src -> created allowed_empty src) ->
    construct allowed_empty type_ data_ generatedBy source = Returned e ->
    created allowed_empty e
| created_dataSource e ds :
    created allowed_empty e ->
    created allowed_empty (with_dataSource e ds).

(** [e] descends from [root]: it was created during the scan and its
    chain ends at [root]. *)
Definition descends_from (allowed_empty : string -> bool)
           (root e : SpiderFootEvent) : Prop :=
  created allowed_empty e /\ rootEvent e = root.

(** Every Event that a piece of trace hands to [notifyListeners]
    satisfies [good]. *)
Definition notifies (good : SpiderFootEvent -> Prop)
           (t : list Plugin.action) : Prop :=
  forall e, Plugin.Notify e ∈ t -> good e.

(** The root Event of a scan of [seed]. *)
Definition root_of (seed : string) : SpiderFootEvent :=
  mkEvent "ROOT" seed EmptyString None None.

(** The scenario of the spec: the root for [example.com], the address
    found for it and the verdict on the address. *)
Definition root_example : SpiderFootEvent :=
  mkEvent "ROOT" "example.com" EmptyString None None.
Definition ip_example : SpiderFootEvent :=
  mkEvent "IP_ADDRESS" "93.184.216.34" "sfp_dnsresolve" (Some root_example)
          None.
Definition malicious_example : SpiderFootEvent :=
  mkEvent "MALICIOUS_IPADDR" "listed [url]" "sfp_cinsscore"
          (Some ip_example) None.

End Lineage.

(** ** Worlds and states for the examples *)

Module Examples.
Import Py Event Plugin.

(** A world in which every answer is the plainest one: no cache, every
    fetch gives status 200 and the same JSON object, every host resolves,
    the ports 22 and 80 of every address are open, and nobody asks for the
    scan to stop.  The one text with an e-mail address in it is the address
    [bob@example.com] itself; the hashes are stand-ins that keep different
    inputs apart. *)
Definition world : World := {|
  fetchUrl := fun _ _ =>
    Some (Build_FetchResult (Some "200") (Some (Text "{...}")));
  resolveHost := fun _ => ["93.184.216.34"];
  cacheGet := fun _ _ => None;
  hashstring := fun s => "sha256:" +:+ s;
  optValueToData := fun s => Some s;
  parseEmails := fun s =>
    if String.eqb s "bob@example.com" then [s] else [];
  validHost := fun _ _ => true;
  target_matches := fun _ _ _ => true;
  stop_requested := fun _ => false;
  json_loads := fun _ =>
    Some (PDict [("subdomains", PList [PStr "www"; PStr "mail"])]);
  json_decode := fun b => Some b;
  py_str := fun _ => "{'subdomains': ['www', 'mail']}";
  decode_utf8 := fun s => s;
  sha256 := fun l => l;
  ip_network := fun _ => None;
  ip_in_network := fun _ _ => Some false;
  try_port := fun _ port =>
    if (port =? 80)%Z then PortOpen
    else if (port =? 22)%Z then PortBanner "SSH-2.0"
    else PortClosed;
  thread_order := fun l => l;
  set_order := fun l => l;
  allowed_empty := fun _ => false
|}.

(** The same world, but every fetch fails with status 404 and no
    content. *)
Definition world_offline : World := {|
  fetchUrl := fun _ _ => Some (Build_FetchResult (Some "404") None);
  resolveHost := resolveHost world;
  cacheGet := cacheGet world;
  hashstring := hashstring world;
  optValueToData := optValueToData world;
  parseEmails := parseEmails world;
  validHost := validHost world;
  target_matches := target_matches world;
  stop_requested := stop_requested world;
  json_loads := json_loads world;
  json_decode := json_decode world;
  py_str := py_str world;
  decode_utf8 := decode_utf8 world;
  sha256 := sha256 world;
  ip_network := ip_network world;
  ip_in_network := ip_in_network world;
  try_port := try_port world;
  thread_order := thread_order world;
  set_order := set_order world;
  allowed_empty := allowed_empty world
|}.

(** The plain world, in which the scan is asked to stop from the poll
    number [n] on. *)
Definition world_stop_at (n : nat) : World := {|
  fetchUrl := fetchUrl world;
  resolveHost := resolveHost world;
  cacheGet := cacheGet world;
  hashstring := hashstring world;
  optValueToData := optValueToData world;
  parseEmails := parseEmails world;
  validHost := validHost world;
  target_matches := target_matches world;
  stop_requested := fun k => (n <=? k)%nat;
  json_loads := json_loads world;
  json_decode := json_decode world;
  py_str := py_str world;
  decode_utf8 := decode_utf8 world;
  sha256 := sha256 world;
  ip_network := ip_network world;
  ip_in_network := ip_in_network world;
  try_port := try_port world;
  thread_order := thread_order world;
  set_order := set_order world;
  allowed_empty := allowed_empty world
|}.

(** The plain world, but what is fetched decodes as a JSON list. *)
Definition world_list_response : World := {|
  fetchUrl := fetchUrl world;
  resolveHost := resolveHost world;
  cacheGet := cacheGet world;
  hashstring := hashstring world;
  optValueToData := optValueToData world;
  parseEmails := parseEmails world;
  validHost := validHost world;
  target_matches := target_matches world;
  stop_requested := stop_requested world;
  json_loads := fun _ => Some (PList []);
  json_decode := json_decode world;
  py_str := py_str world;
  decode_utf8 := decode_utf8 world;
  sha256 := sha256 world;
  ip_network := ip_network world;
  ip_in_network := ip_in_network world;
  try_port := try_port world;
  thread_order := thread_order world;
  set_order := set_order world;
  allowed_empty := allowed_empty world
|}.

(** The plain world, but every fetch is sent on, by a Refresh header, to
    a URL that is none: [fetchUrl] returns [None]. *)
Definition world_no_result : World := {|
  fetchUrl := fun _ _ => None;
  resolveHost := resolveHost world;
  cacheGet := cacheGet world;
  hashstring := hashstring world;
  optValueToData := optValueToData world;
  parseEmails := parseEmails world;
  validHost := validHost world;
  target_matches := target_matches world;
  stop_requested := stop_requested world;
  json_loads := json_loads world;
  json_decode := json_decode world;
  py_str := py_str world;
  decode_utf8 := decode_utf8 world;
  sha256 := sha256 world;
  ip_network := ip_network world;
  ip_in_network := ip_in_network world;
  try_port := try_port world;
  thread_order := thread_order world;
  set_order := set_order world;
  allowed_empty := allowed_empty world
|}.

(** The plain world, but every fetch brings the status 200 and bytes
    that are no text. *)
Definition world_bytes : World := {|
  fetchUrl := fun _ _ =>
    Some (Build_FetchResult (Some "200") (Some (Bytes "...")));
  resolveHost := resolveHost world;
  cacheGet := cacheGet world;
  hashstring := hashstring world;
  optValueToData := optValueToData world;
  parseEmails := parseEmails world;
  validHost := validHost world;
  target_matches := target_matches world;
  stop_requested := stop_requested world;
  json_loads := json_loads world;
  json_decode := fun _ => None;
  py_str := py_str world;
  decode_utf8 := decode_utf8 world;
  sha256 := sha256 world;
  ip_network := ip_network world;
  ip_in_network := ip_in_network world;
  try_port := try_port world;
  thread_order := thread_order world;
  set_order := set_order world;
  allowed_empty := allowed_empty world
|}.

(** The world [sf] as another run of the program meets it: the answers
    are the same, but the members of a set come in the order that [sets]
    makes of theirs, the threads of a batch finish in the order that
    [threads] makes of theirs, and [parseEmails] lists its addresses the
    other way round. *)
Definition other_run (sets : list pyval -> list pyval)
           (threads : list Z -> list Z) (sf : World) : World := {|
  fetchUrl := fetchUrl sf;
  resolveHost := resolveHost sf;
  cacheGet := cacheGet sf;
  hashstring := hashstring sf;
  optValueToData := optValueToData sf;
  parseEmails := fun data_ => rev (parseEmails sf data_);
  validHost := validHost sf;
  target_matches := target_matches sf;
  stop_requested := stop_requested sf;
  json_loads := json_loads sf;
  json_decode := json_decode sf;
  py_str := py_str sf;
  decode_utf8 := decode_utf8 sf;
  sha256 := sha256 sf;
  ip_network := ip_network sf;
  ip_in_network := ip_in_network sf;
  try_port := try_port sf;
  thread_order := fun l => threads (thread_order sf l);
  set_order := fun l => sets (set_order sf l);
  allowed_empty := allowed_empty sf
|}.

(** The options the scanner hands to every module, with and without an
    API key. *)
Definition global_opts : gmap string pyval :=
  <["_fetchtimeout" := PInt 5]>
    (<["_useragent" := PStr "SpiderFoot"]>
     (<["_internettlds" := PStr "com"]>
      (<["_genericusers" := PStr "abuse,admin"]> ∅))).

Definition opts_with_key : gmap string pyval :=
  <["api_key" := PStr "secret"]> global_opts.

(** Two ports to scan. *)
Definition opts_two_ports : gmap string pyval :=
  <["ports" := PList [PStr "22"; PStr "80"]]> global_opts.

Definition opts_two_ports_in_order : gmap string pyval :=
  <["randomize" := PBool false]> opts_two_ports.

Definition root_event : SpiderFootEvent :=
  mkEvent "ROOT" "example.com" EmptyString None None.

Definition domain_event : SpiderFootEvent :=
  mkEvent "DOMAIN_NAME" "example.com" "sfp_dnsresolve" (Some root_event) None.

Definition ip_event : SpiderFootEvent :=
  mkEvent "IP_ADDRESS" "93.184.216.34" "sfp_dnsresolve" (Some root_event) None.

Definition content_event : SpiderFootEvent :=
  mkEvent "TARGET_WEB_CONTENT" "bob@example.com" "sfp_spider"
          (Some root_event) None.

(** [sfp_projectdiscovery] after a first Event without an API key,
    [sfp_portscan_tcp] after a first Event with no usable port in its
    options, and [sfp_cinsscore] after a first Event while its list cannot
    be fetched. *)
Definition pd_without_key : sfp_projectdiscovery.state :=
  state_of (run (sfp_projectdiscovery.handleEvent self_id world notify_only
                   domain_event)
                (sfp_projectdiscovery.setup global_opts
                   sfp_projectdiscovery.initial) 0).

Definition opts_no_port : gmap string pyval :=
  <["ports" := PList [PStr "http"]]> global_opts.

Definition ps_without_ports : sfp_portscan_tcp.state :=
  state_of (run (sfp_portscan_tcp.setup self_id world (fun l => l)
                   opts_no_port;;
                 sfp_portscan_tcp.handleEvent self_id world notify_only
                   ip_event)
                sfp_portscan_tcp.initial 0).

Definition cs_offline : sfp_cinsscore.state :=
  state_of (run (sfp_cinsscore.handleEvent self_id world_offline notify_only
                   ip_event)
                (sfp_cinsscore.setup global_opts sfp_cinsscore.initial) 0).

End Examples.

(** ** What a module emits for an Event *)

Module Emitted.
Import Py Event Plugin.

(** The Events that the module [name] makes while it handles [event]:
    each is constructed under the name of the module, with one of the
    types [types], from [event] or from an Event made before; [sfp_email]
    then sets [moduleDataSource]. *)
Inductive emitted_for (allowed_empty : string -> bool) (name : string)
          (types : list string) (event : SpiderFootEvent)
  : SpiderFootEvent -> Prop :=
| emitted_direct type_ data_ e :
    type_ ∈ types ->
    construct allowed_empty type_ data_ name (Some event) = Returned e ->
    emitted_for allowed_empty name types event e
| emitted_further type_ data_ src e :
    emitted_for allowed_empty name types event src ->
    type_ ∈ types ->
    construct allowed_empty type_ data_ name (Some src) = Returned e ->
    emitted_for allowed_empty name types event e
| emitted_dataSource e ds :
    emitted_for allowed_empty name types event e ->
    emitted_for allowed_empty name types event (Lineage.with_dataSource e ds).

(** An Event under the name of the module and of a type it declares. *)
Definition declared (name : string) (types : list string)
           (e : SpiderFootEvent) : Prop :=
  module e = name /\ eventType e ∈ types.

(** An Event other than [event] whose chain of sources passes through
    [event]. *)
Definition caused_by (event e : SpiderFootEvent) : Prop :=
  e <> event /\ event ∈ lineage e.

End Emitted.

(** ** The words a pattern can match *)

Module ReLang.
Import Re.

(** The strings of a list, one after the other. *)
Fixpoint concat (ws : list string) : string :=
  match ws with
  | [] => EmptyString
  | w :: ws' => w +:+ concat ws'
  end.

(** [denotes ic r w]: the pattern [r] can consume the word [w].  The
    anchors consume nothing; where they hold is not part of this
    reading. *)
Fixpoint denotes (ic : bool) (r : regex) (w : string) : Prop :=
  match r with
  | Bol | Eol => w = EmptyString
  | Chr x => exists c, w = String c EmptyString /\ chr_eq ic x c = true
  | Any => exists c, w = String c EmptyString /\ c <> newline
  | Set_ items =>
      exists c, w = String c EmptyString /\ in_set ic items c = true
  | Cat r1 r2 =>
      exists w1 w2, w = w1 +:+ w2 /\ denotes ic r1 w1 /\ denotes ic r2 w2
  | Alt r1 r2 => denotes ic r1 w \/ denotes ic r2 w
  | Rep r1 lo hi =>
      exists ws, w = concat ws /\ Forall (denotes ic r1) ws
                 /\ lo <= length ws
                 /\ forall h, hi = Some h -> length ws <= h
  end.

(** The characters that the words of [r] are made of. *)
Fixpoint alphabet (ic : bool) (r : regex) (c : ascii) : bool :=
  match r with
  | Bol | Eol => false
  | Chr x => chr_eq ic x c
  | Any => negb (Ascii.eqb c newline)
  | Set_ items => in_set ic items c
  | Cat r1 r2 | Alt r1 r2 => alphabet ic r1 c || alphabet ic r2 c
  | Rep r1 _ _ => alphabet ic r1 c
  end.

(** [m] occurs in [s]. *)
Definition occurs_in (m s : string) : Prop :=
  exists before after, s = before +:+ m +:+ after.

End ReLang.

(** ** Candidates of [sfp_bitcoin] *)

Module BitcoinFacts.
Import Py Event Plugin sfp_bitcoin.

(** A string of base58 digits. *)
Fixpoint all_digits58 (s : string) : Prop :=
  match s with
  | EmptyString => True
  | String c s' => is_Some (index c digits58) /\ all_digits58 s'
  end.

(** [check_bc(bc)] returns True. *)
Definition passes_check (sf : World) (bc : string) : Prop :=
  exists bcbytes,
    decode_base58 bc 25 = Returned bcbytes
    /\ drop (length bcbytes - 4) bcbytes
       = take 4 (sha256 sf (sha256 sf (take (length bcbytes - 4) bcbytes))).

(** An address that [handleEvent] reports for the data [d]: it is one of
    the candidates found in [d], which are 26 to 35 characters long, and
    its check sum holds. *)
Definition reported_address (sf : World) (d : string)
           (e : SpiderFootEvent) : Prop :=
  eventType e = "BITCOIN_ADDRESS"
  /\ data e ∈ findall_addresses d
  /\ 26 <= String.length (data e) <= 35
  /\ passes_check sf (data e).

End BitcoinFacts.

(** ** Bytes and numbers in [sfp_bitcoin] *)

Module Base58Facts.
Import sfp_bitcoin.

(** [int.from_bytes(bs, 'big')]: the number that the bytes [bs] write,
    most significant first. *)
Definition be_value (bs : list Z) : Z :=
  fold_left (fun acc b => acc * 256 + b)%Z bs 0%Z.

(** [k] times the digit [1], which stands for 0. *)
Fixpoint ones (k : nat) (bc : string) : string :=
  match k with
  | O => bc
  | S k' => String "1" (ones k' bc)
  end.

End Base58Facts.

(** ** More options and Events for the examples *)

Module MoreExamples.
Import Py Event Plugin.

(** The option [ports] names a file; in the plain world, what is read
    for a name is the name itself. *)
Definition opts_ports_file : gmap string pyval :=
  <["ports" := PList [PStr "@80"]]> Examples.global_opts.

End MoreExamples.

(** ** [sflib.SpiderFoot.modulesConsuming], [eventsFromModules] and
    [eventsToModules] *)

Module RegistryMore.
Import Registry.

(** What one round of the loop of [modulesConsuming] over the loaded
    modules appends to [modlist]: a module that consumes [*] is appended
    once and the round ends. *)
Definition consumed_hits (events : list string) (mod_ : string)
           (info : modinfo) : list string :=
  match consumes info with
  | None | Some [] => []                              (* continue *)
  | Some consumed =>
      if bool_decide ("*" ∈ consumed) then [mod_]     (* continue *)
      else flat_map (fun evtype =>
                       if bool_decide (evtype ∈ events) then [mod_] else [])
                    consumed
  end.

(** [modulesConsuming(events)]; the result is [list(set(modlist))]. *)
Definition modulesConsuming (loaded : option (gmap string modinfo))
           (events : list string) : list string :=
  match events with
  | [] => []
  | _ =>
      match loaded with
      | None => []
      | Some loaded_modules =>
          if decide (loaded_modules = ∅) then []
          else
            let modlist :=
              flat_map (fun kv => consumed_hits events (fst kv) (snd kv))
                       (map_to_list loaded_modules) in
            elements (list_to_set modlist : gset string)
      end
  end.

(** The loop of [eventsFromModules] and of [eventsToModules]: for every
    module of the list that is loaded, the types its entry [key] lists,
    in their order. *)
Definition listed (key : modinfo -> option (list string))
           (loaded_modules : gmap string modinfo) (modules : list string)
  : list string :=
  flat_map (fun mod_ =>
              match loaded_modules !! mod_ with
              | Some info =>
                  match key info with
                  | Some types => types
                  | None => []
                  end
              | None => []
              end)
           modules.

(** [eventsFromModules(modules)] *)
Definition eventsFromModules (loaded : option (gmap string modinfo))
           (modules : list string) : list string :=
  match modules with
  | [] => []
  | _ =>
      match loaded with
      | None => []
      | Some loaded_modules =>
          if decide (loaded_modules = ∅) then []
          else listed provides loaded_modules modules
      end
  end.

(** [eventsToModules(modules)] *)
Definition eventsToModules (loaded : option (gmap string modinfo))
           (modules : list string) : list string :=
  match modules with
  | [] => []
  | _ =>
      match loaded with
      | None => []
      | Some loaded_modules =>
          if decide (loaded_modules = ∅) then []
          else listed consumes loaded_modules modules
      end
  end.

End RegistryMore.

(** ** More methods of [str] *)

Module StrMore.

(** [sep.join(l)] *)
Fixpoint join (sep : string) (l : list string) : string :=
  match l with
  | [] => EmptyString
  | [w] => w
  | w :: ws => w +:+ sep +:+ join sep ws
  end.

(** [sub in s] *)
Fixpoint contains (sub s : string) : bool :=
  String.prefix sub s
  || match s with
     | EmptyString => false
     | String _ s' => contains sub s'
     end.

(** [s.count(c)] for a string [c] of one character. *)
Fixpoint count_char (c : ascii) (s : string) : nat :=
  match s with
  | EmptyString => 0
  | String x s' => (if Ascii.eqb x c then 1 else 0) + count_char c s'
  end.

(** [s.isascii()] *)
Fixpoint isascii (s : string) : bool :=
  match s with
  | EmptyString => true
  | String c s' => (nat_of_ascii c <? 128)%nat && isascii s'
  end.

End StrMore.

(** ** [sflib.SpiderFoot.urlRelativeToAbsolute] and [urlBaseDir] *)

Module Url.
Import Py Plugin.

(** The loop of [urlRelativeToAbsolute] over the chunks of the URL;
    [has_scheme] is ['://' in url], [finalBits] the list built so far.
    A chunk [..] takes the last chunk off the list, unless the list is
    at the top. *)
Fixpoint each_chunk (has_scheme : bool) (bits finalBits : list string)
  : list string :=
  match bits with
  | [] => finalBits
  | chunk :: rest =>
      if String.eqb chunk ".." then
        if (length finalBits <=? 1)%nat
        then each_chunk has_scheme rest finalBits            (* continue *)
        else if has_scheme && (length finalBits <=? 3)%nat
        then each_chunk has_scheme rest finalBits            (* continue *)
        else each_chunk has_scheme rest (removelast finalBits)   (* pop *)
      else each_chunk has_scheme rest (finalBits ++ [chunk])
  end.

Section Calls.
Context {W : Type}.

(** [urlRelativeToAbsolute(url)] *)
Definition urlRelativeToAbsolute (url : string) : M W (option string) :=
  match url with
  | EmptyString => error ("Invalid URL: " +:+ url);; mret None
  | _ =>
      if negb (StrMore.contains ".." url) then mret (Some url)
      else
        let bits := Str.split "/" url in
        mret (Some (StrMore.join "/"
                      (each_chunk (StrMore.contains "://" url) bits [])))
  end.

(** [urlBaseDir(url)] *)
Definition urlBaseDir (url : string) : M W (option string) :=
  match url with
  | EmptyString => error ("Invalid URL: " +:+ url);; mret None
  | _ =>
      let bits := Str.split "/" url in
      if (length bits =? 0)%nat then mret (Some (url +:+ "/"))
      else if StrMore.contains "://" url
              && (StrMore.count_char "/" url <? 3)%nat
      then mret (Some (url +:+ "/"))
      else
        let base := StrMore.join "/" (removelast bits) in
        mret (Some (base +:+ "/"))
  end.
End Calls.

End Url.

(** ** [sflib.SpiderFoot.validEmail] and [parseEmails] *)

Module Emails.
Import Re Py.

(** [[\%a-zA-Z\.0-9_\-\+]] and [[a-zA-Z\.0-9\-]] *)
Definition local_char : regex :=
  Set_ [One "%"; Range "a" "z"; Range "A" "Z"; One "."; Range "0" "9";
        One "_"; One "-"; One "+"].
Definition domain_char : regex :=
  Set_ [Range "a" "z"; Range "A" "Z"; One "."; Range "0" "9"; One "-"].

(** The pattern of both functions,
    [[\%a-zA-Z\.0-9_\-\+]+@[a-zA-Z\.0-9\-]+\.[a-zA-Z\.0-9\-]+]. *)
Definition address : regex :=
  seq [plus local_char; Chr "@"; plus domain_char; Chr ".";
       plus domain_char].

(** [validEmail(email)] *)
Definition validEmail (email : pyval) : bool :=
  match email with
  | PStr e =>
      if negb (StrMore.contains "@" e) then false
      else if negb (match_ false (seq [Bol; address; Eol]) e) then false
      else if (String.length e <? 6)%nat then false
      else if StrMore.contains "%" e then false
      else if StrMore.contains "..." e then false
      else true
  | _ => false
  end.

(** [parseEmails(data)]; the result is [list(emails)] for the set
    [emails]: its members, in no particular order. *)
Definition parseEmails (data : pyval) : list string :=
  match data with
  | PStr d =>
      let matches := findall false address d in
      elements (list_to_set
                  (List.filter (fun m => validEmail (PStr m)) matches)
                : gset string)
  | _ => []
  end.

(** An address with exactly one [@]. *)
Definition one_at (email : string) : Prop :=
  StrMore.count_char "@" email = 1.

End Emails.

(** ** The logger of [sflib.SpiderFoot] *)

Module SfLog.
Import Py Plugin.

Section Logger.
Context {W : Type}.
(** [self.opts] of the SpiderFoot object. *)
Variable sfopts : gmap string pyval.

(** [debug(message)]: nothing is written unless the options [_debug] and
    [__logging] are on; an option that is missing is a KeyError.  The
    action [Log] stands for the line written to the database handle, if
    there is one, and to the logger of Python. *)
Definition debug (message : string) : M W unit :=
  debug_ ← getitem sfopts "_debug";
  if negb (truthy debug_) then mret tt                       (* return *)
  else
    logging ← getitem sfopts "__logging";
    if negb (truthy logging) then mret tt                    (* return *)
    else emit_action (Log "debug" message).

(** [info(message)] and [error(message)] *)
Definition info (message : string) : M W unit :=
  logging ← getitem sfopts "__logging";
  if negb (truthy logging) then mret tt                      (* return *)
  else emit_action (Log "info" message).

Definition error (message : string) : M W unit :=
  logging ← getitem sfopts "__logging";
  if negb (truthy logging) then mret tt                      (* return *)
  else emit_action (Log "error" message).
End Logger.

(** The options with which [debug] does not raise: [_debug] is there,
    and [__logging] too if [_debug] is on. *)
Definition debug_ready (sfopts : gmap string pyval) : Prop :=
  exists d, sfopts !! "_debug" = Some d
            /\ (truthy d = true -> is_Some (sfopts !! "__logging")).

End SfLog.

(** ** [sflib.SpiderFoot.parseCreditCards] *)

Module CreditCards.
Import Re Py Plugin.

(** [[0-9]{13,19}] *)
Definition number : regex := Rep (Set_ [Range "0" "9"]) 13 (Some 19).

(** [s.replace(c, "")] for a string [c] of one character. *)
Fixpoint remove_char (c : ascii) (s : string) : string :=
  match s with
  | EmptyString => EmptyString
  | String x s' =>
      if Ascii.eqb x c then remove_char c s' else String x (remove_char c s')
  end.

(** The loop over the digits of [ccNumber[::-1]].  [int(d / 10)] is the
    quotient of [d] by 10, rounded towards zero. *)
Fixpoint each_digit (digits : list ascii) (isSecondDigit : bool)
         (ccNumberTotal : Z) : outcome Z :=
  match digits with
  | [] => Returned ccNumberTotal
  | digit :: rest =>
      match sfp_portscan_tcp.py_int (PStr (String digit EmptyString)) with
      | Returned d =>
          let d := if isSecondDigit then (d * 2)%Z else d in
          let ccNumberTotal := (ccNumberTotal + Z.quot d 10)%Z in
          let ccNumberTotal := (ccNumberTotal + d mod 10)%Z in
          each_digit rest (negb isSecondDigit) ccNumberTotal
      | Raised x => Raised x
      end
  end.

Section Calls.
Context {W : Type}.
(** [self.opts] of the SpiderFoot object. *)
Variable sfopts : gmap string pyval.

(** The loop over the matches; [creditCards] is the set built so far. *)
Fixpoint each_match (matches : list string) (creditCards : gset string)
  : M W (gset string) :=
  match matches with
  | [] => mret creditCards
  | match_ :: rest =>
      n ← lift_outcome (sfp_portscan_tcp.py_int (PStr match_));
      if (n =? 0)%Z then each_match rest creditCards         (* continue *)
      else
        let ccNumber := match_ in
        ccNumberTotal ←
          lift_outcome
            (each_digit (rev (list_ascii_of_string ccNumber)) false 0);
        if (ccNumberTotal mod 10 =? 0)%Z then
          SfLog.debug sfopts ("Found credit card number: " +:+ match_);;
          each_match rest ({[match_]} ∪ creditCards)
        else each_match rest creditCards
  end.

(** [parseCreditCards(data)]; the result is [list(creditCards)]: the
    members of the set, in no particular order. *)
Definition parseCreditCards (data : pyval) : M W (list string) :=
  match data with
  | PStr d =>
      let data := remove_char " " d in
      let matches := findall false number data in
      creditCards ← each_match matches ∅;
      mret (elements creditCards)
  | _ => mret []
  end.
End Calls.

(** A string of decimal digits. *)
Definition all_digits (s : string) : Prop :=
  Forall (fun c => is_digit c = true) (list_ascii_of_string s).

(** The check of Luhn as the loop computes it. *)
Definition luhn_ok (s : string) : Prop :=
  exists total,
    each_digit (rev (list_ascii_of_string s)) false 0 = Returned total
    /\ (total mod 10 = 0)%Z.

End CreditCards.

(** ** The data that a piece of trace hands on *)

Module Notified.
Import Event Plugin.

(** The data of the Events given to [notifyListeners], in order. *)
Definition data_of (t : list action) : list string :=
  omap (fun a => match a with Notify e => Some (data e) | _ => None end) t.

End Notified.

(** ** A world with the list of cinsscore.com in its cache *)

Module CachedList.
Import Py Event Plugin Examples.

Definition list_text : string :=
  "1.2.3.4" +:+ String Re.newline (" 93.184.216.34 " +:+ String Re.newline "").

Definition world_cached : World := {|
  fetchUrl := fetchUrl world;
  resolveHost := resolveHost world;
  cacheGet := fun _ _ => Some list_text;
  hashstring := hashstring world;
  optValueToData := optValueToData world;
  parseEmails := parseEmails world;
  validHost := validHost world;
  target_matches := target_matches world;
  stop_requested := stop_requested world;
  json_loads := json_loads world;
  json_decode := json_decode world;
  py_str := py_str world;
  decode_utf8 := decode_utf8 world;
  sha256 := sha256 world;
  ip_network := ip_network world;
  ip_in_network := ip_in_network world;
  try_port := try_port world;
  thread_order := thread_order world;
  set_order := set_order world;
  allowed_empty := allowed_empty world
|}.

End CachedList.

(** ** The connections that a piece of trace makes *)

Module Connections.
Import Plugin.

(** The address and port of each connection attempt, in order. *)
Definition connects (t : list action) : list (string * Z) :=
  omap (fun a => match a with Connect ip port => Some (ip, port) | _ => None end)
       t.

End Connections.

(** * Properties *)

(** ** Target types *)

Section TargetTypeFacts.
Import Re TargetType.

Lemma first_match_none rules target :
  (forall rule, rule ∈ rules -> rule_matches target rule = false) ->
  first_match rules target = None.
Proof.
  induction rules as [|rule rest IH]; intros Hnone; simpl; [done|].
  rewrite (Hnone rule) by apply list_elem_of_here.
  apply IH. intros r Hr. apply Hnone. by apply list_elem_of_further.
Qed.

Lemma first_match_some rules target type_ :
  first_match rules target = Some type_ ->
  exists rule, rule ∈ rules /\ rule_matches target rule = true
               /\ snd rule = type_.
Proof.
  induction rules as [|rule rest IH]; simpl; [done|].
  destruct (rule_matches target rule) eqn:Hm.
  - intros [= <-]. exists rule. split; [apply list_elem_of_here | done].
  - intros H. destruct (IH H) as (r & Hr & Hrm & Hty).
    exists r. split; [by apply list_elem_of_further | done].
Qed.
End TargetTypeFacts.

(** C7: the seed [192.168.1.5] is typed IP_ADDRESS, [example.com]
    INTERNET_NAME and [10.0.0.0/8] NETBLOCK_OWNER; the CIDR string is not
    matched by the anchored rule for IP addresses, which comes first. *)
Theorem C7_targetType_of_seeds :
  TargetType.targetType "192.168.1.5" = Some "IP_ADDRESS"
  /\ TargetType.targetType "example.com" = Some "INTERNET_NAME"
  /\ TargetType.targetType "10.0.0.0/8" = Some "NETBLOCK_OWNER"
  /\ (exists rule rest,
         TargetType.regexToType = rule :: rest
         /\ snd rule = "IP_ADDRESS"
         /\ TargetType.rule_matches "10.0.0.0/8" rule = false).
Proof.
  repeat split; try (vm_compute; reflexivity).
  eexists _, _. split; [reflexivity|]. split; vm_compute; reflexivity.
Qed.

(** C8, as the claim states it, fails: no rule matches [!!!], and the
    result is [None], not the string [unsupported]. *)
Lemma C8_unsupported_counterexample :
  ~ (forall seed,
        (forall rule, rule ∈ TargetType.regexToType ->
                      TargetType.rule_matches seed rule = false) ->
        TargetType.targetType seed = Some "unsupported").
Proof.
  intros H. specialize (H "!!!").
  assert (Hnone : forall rule, rule ∈ TargetType.regexToType ->
                     TargetType.rule_matches "!!!" rule = false).
  { intros rule Hin. unfold TargetType.regexToType in Hin.
    repeat (apply elem_of_cons in Hin as [-> | Hin]; [vm_compute; reflexivity|]).
    by apply elem_of_nil in Hin. }
  specialize (H Hnone). vm_compute in H. discriminate.
Qed.

(** C8, amended: for a seed that none of the rules matches, [targetType]
    returns [None]. *)
Theorem C8_targetType_unmatched_is_None (seed : string) :
  (forall rule, rule ∈ TargetType.regexToType ->
                TargetType.rule_matches seed rule = false) ->
  TargetType.targetType seed = None.
Proof.
  intros Hnone. unfold TargetType.targetType.
  destruct seed; [reflexivity|]. by apply first_match_none.
Qed.

Lemma C8_targetType_unmatched_witness :
  (forall rule, rule ∈ TargetType.regexToType ->
                TargetType.rule_matches "!!!" rule = false)
  /\ TargetType.targetType "!!!" = None.
Proof.
  assert (Hnone : forall rule, rule ∈ TargetType.regexToType ->
                     TargetType.rule_matches "!!!" rule = false).
  { intros rule Hin. unfold TargetType.regexToType in Hin.
    repeat (apply elem_of_cons in Hin as [-> | Hin]; [vm_compute; reflexivity|]).
    by apply elem_of_nil in Hin. }
  split; [exact Hnone | exact (C8_targetType_unmatched_is_None "!!!" Hnone)].
Defined.

(** ** The registry of modules *)

Section RegistryFacts.
Import Registry.

Lemma produced_hits_star events mod_ info prov :
  "*" ∈ events -> provides info = Some prov -> prov <> [] ->
  mod_ ∈ produced_hits events mod_ info.
Proof.
  intros Hstar Hprov Hne. unfold produced_hits. rewrite Hprov.
  destruct prov as [|p prov']; [done|].
  rewrite bool_decide_eq_true_2 by done.
  apply elem_of_app. left. apply list_elem_of_here.
Qed.

Lemma modulesProducing_NoDup loaded events :
  NoDup (modulesProducing loaded events).
Proof.
  unfold modulesProducing.
  destruct events; [constructor|].
  destruct loaded as [lm|]; [|constructor].
  destruct (decide (lm = ∅)); [constructor|].
  apply NoDup_elements.
Qed.
End RegistryFacts.

(** C10: when [*] is among the event types asked for, [modulesProducing]
    returns every loaded module whose [provides] is not empty, whichever
    types it produces, and no module name twice. *)
Theorem C10_modulesProducing_star
        (loaded : gmap string Registry.modinfo) (events : list string) :
  "*" ∈ events ->
  (forall mod_ info prov,
      loaded !! mod_ = Some info ->
      Registry.provides info = Some prov -> prov <> [] ->
      mod_ ∈ Registry.modulesProducing (Some loaded) events)
  /\ NoDup (Registry.modulesProducing (Some loaded) events).
Proof.
  intros Hstar. split; [|apply modulesProducing_NoDup].
  intros mod_ info prov Hlook Hprov Hne.
  unfold Registry.modulesProducing.
  destruct events as [|ev events']; [by apply elem_of_nil in Hstar|].
  destruct (decide (loaded = ∅)) as [->|_]; [by simplify_map_eq|].
  apply elem_of_elements. apply elem_of_list_to_set.
  apply list_elem_of_In. apply in_flat_map.
  exists (mod_, info). split.
  - apply list_elem_of_In. by apply elem_of_map_to_list.
  - apply list_elem_of_In. simpl. by eapply produced_hits_star.
Qed.

Lemma C10_modulesProducing_star_witness :
  "*" ∈ ["IP_ADDRESS"; "*"]
  /\ ((forall mod_ info prov,
          Registry.loaded_example !! mod_ = Some info ->
          Registry.provides info = Some prov -> prov <> [] ->
          mod_ ∈ Registry.modulesProducing (Some Registry.loaded_example)
                                           ["IP_ADDRESS"; "*"])
      /\ NoDup (Registry.modulesProducing (Some Registry.loaded_example)
                                          ["IP_ADDRESS"; "*"])).
Proof.
  assert (H : "*" ∈ ["IP_ADDRESS"; "*"]) by (apply list_elem_of_further, list_elem_of_here).
  split; [exact H | exact (C10_modulesProducing_star Registry.loaded_example _ H)].
Defined.

Example modulesProducing_example :
  Registry.modulesProducing (Some Registry.loaded_example) ["IP_ADDRESS"; "*"]
  = ["sfp_bitcoin"].
Proof. vm_compute. reflexivity. Qed.

(** ** Lineage *)

Section LineageFacts.
Import Py Event Lineage.

Lemma event_induction (P : SpiderFootEvent -> Prop) :
  (forall e, (forall s, sourceEvent e = Some s -> P s) -> P e) ->
  forall e, P e.
Proof.
  intros step. fix IH 1. intros e. apply step.
  destruct e as [t d m [s|] ds]; simpl; intros s' Hs.
  - injection Hs as <-. apply IH.
  - discriminate.
Qed.

Lemma lineage_unfold e :
  lineage e = e :: match sourceEvent e with
                   | None => []
                   | Some src => lineage src
                   end.
Proof. by destruct e. Qed.

Lemma rootEvent_unfold e :
  rootEvent e = match sourceEvent e with
                | None => e
                | Some src => rootEvent src
                end.
Proof. by destruct e. Qed.

(** Every member of a chain is shorter than what lies before it. *)
Lemma lineage_member_length e x :
  x ∈ lineage e -> length (lineage x) <= length (lineage e).
Proof.
  revert x. induction e as [e IH] using event_induction. intros x.
  rewrite (lineage_unfold e). intros [->|Hin]%elem_of_cons.
  - by rewrite <- lineage_unfold.
  - destruct (sourceEvent e) as [src|] eqn:Hsrc; [|by apply elem_of_nil in Hin].
    specialize (IH src eq_refl x Hin). simpl. lia.
Qed.

Lemma lineage_NoDup e : NoDup (lineage e).
Proof.
  induction e as [e IH] using event_induction.
  rewrite (lineage_unfold e).
  destruct (sourceEvent e) as [src|] eqn:Hsrc.
  - constructor; [|by apply IH].
    intros Hin. apply lineage_member_length in Hin.
    rewrite (lineage_unfold e), Hsrc in Hin. simpl in Hin. lia.
  - constructor; [by intros ?%elem_of_nil | constructor].
Qed.

Lemma lineage_last e : last (lineage e) = Some (rootEvent e).
Proof.
  induction e as [e IH] using event_induction.
  rewrite (lineage_unfold e), (rootEvent_unfold e).
  destruct (sourceEvent e) as [src|] eqn:Hsrc; [|done].
  rewrite <- (IH src eq_refl).
  rewrite (lineage_unfold src). reflexivity.
Qed.

Lemma rootEvent_no_source e : sourceEvent (rootEvent e) = None.
Proof.
  induction e as [e IH] using event_induction.
  rewrite (rootEvent_unfold e).
  destruct (sourceEvent e) as [src|] eqn:Hsrc; [by apply IH | done].
Qed.

Lemma rootEvent_in_lineage e : rootEvent e ∈ lineage e.
Proof.
  induction e as [e IH] using event_induction.
  rewrite (rootEvent_unfold e), (lineage_unfold e).
  destruct (sourceEvent e) as [src|] eqn:Hsrc.
  - apply list_elem_of_further. by apply IH.
  - apply list_elem_of_here.
Qed.

(** The only member of a chain without a source is its end. *)
Lemma lineage_no_source_is_root e x :
  x ∈ lineage e -> sourceEvent x = None -> x = rootEvent e.
Proof.
  revert x. induction e as [e IH] using event_induction. intros x.
  rewrite (lineage_unfold e), (rootEvent_unfold e).
  intros [->|Hin]%elem_of_cons Hx.
  - by rewrite Hx.
  - destruct (sourceEvent e) as [src|] eqn:Hsrc; [|by apply elem_of_nil in Hin].
    by apply IH.
Qed.

Lemma lineage_source_member e x p :
  x ∈ lineage e -> sourceEvent x = Some p -> p ∈ lineage e.
Proof.
  revert x p. induction e as [e IH] using event_induction. intros x p.
  rewrite (lineage_unfold e).
  intros [->|Hin]%elem_of_cons Hx.
  - rewrite Hx. apply list_elem_of_further.
    rewrite (lineage_unfold p). apply list_elem_of_here.
  - destruct (sourceEvent e) as [src|] eqn:Hsrc; [|by apply elem_of_nil in Hin].
    apply list_elem_of_further. by eapply IH.
Qed.

(** What [construct] returns has no source exactly when it is a ROOT. *)
Lemma construct_root ae type_ data_ generatedBy source e :
  construct ae type_ data_ generatedBy source = Returned e ->
  (sourceEvent e = None <-> eventType e = "ROOT").
Proof.
  unfold construct. intros H.
  destruct (String.eqb data_ EmptyString && negb (ae type_)); [done|].
  destruct (String.eqb type_ "ROOT") eqn:Hroot.
  - apply String.eqb_eq in Hroot as ->. by injection H as <-.
  - destruct source as [src|]; [|done]. injection H as <-. simpl.
    split; [done|]. intros ->. by rewrite String.eqb_refl in Hroot.
Qed.

Lemma construct_source ae type_ data_ generatedBy source e :
  construct ae type_ data_ generatedBy source = Returned e ->
  sourceEvent e = None \/ sourceEvent e = source.
Proof.
  unfold construct.
  destruct (String.eqb data_ EmptyString && negb (ae type_)); [done|].
  destruct (String.eqb type_ "ROOT").
  - intros [= <-]. by left.
  - destruct source as [src|]; [|done]. intros [= <-]. by right.
Qed.

Lemma created_root ae e :
  created ae e -> (sourceEvent e = None <-> eventType e = "ROOT").
Proof.
  induction 1 as [t d m source e _ _ Hc | e ds _ IH].
  - eapply construct_root, Hc.
  - exact IH.
Qed.

Lemma created_source ae e src :
  created ae e -> sourceEvent e = Some src -> created ae src.
Proof.
  induction 1 as [t d m source e Hsrc _ Hc | e ds _ IH]; intros He.
  - apply Hsrc. destruct (construct_source _ _ _ _ _ _ Hc) as [Hn|Hs];
      congruence.
  - by apply IH.
Qed.

Lemma created_lineage ae e x :
  created ae e -> x ∈ lineage e -> created ae x.
Proof.
  revert x. induction e as [e IH] using event_induction. intros x He.
  rewrite (lineage_unfold e). intros [->|Hin]%elem_of_cons; [done|].
  destruct (sourceEvent e) as [src|] eqn:Hsrc; [|by apply elem_of_nil in Hin].
  apply (IH src eq_refl); [|done]. by eapply created_source.
Qed.
End LineageFacts.

(** C1: for every Event created during a scan, the chain of [sourceEvent]
    references ends, after finitely many steps and without visiting an
    Event twice, at one Event of type ROOT, which has no source and is the
    only ROOT of the chain; every other Event of the chain has exactly one
    source, itself in the chain. *)
Theorem C1_lineage_is_a_tree (allowed_empty : string -> bool)
        (e : Event.SpiderFootEvent) :
  Lineage.created allowed_empty e ->
  NoDup (Event.lineage e)
  /\ last (Event.lineage e) = Some (Event.rootEvent e)
  /\ Event.eventType (Event.rootEvent e) = "ROOT"
  /\ Event.sourceEvent (Event.rootEvent e) = None
  /\ (forall x, x ∈ Event.lineage e -> Event.eventType x = "ROOT" ->
                x = Event.rootEvent e)
  /\ (forall x, x ∈ Event.lineage e -> x <> Event.rootEvent e ->
                exists p, Event.sourceEvent x = Some p
                          /\ p ∈ Event.lineage e
                          /\ forall q, Event.sourceEvent x = Some q -> q = p).
Proof.
  intros Hc.
  assert (Hroot : Lineage.created allowed_empty (Event.rootEvent e)).
  { eapply created_lineage; [exact Hc | apply rootEvent_in_lineage]. }
  split; [apply lineage_NoDup|].
  split; [apply lineage_last|].
  split; [apply (proj1 (created_root _ _ Hroot)), rootEvent_no_source|].
  split; [apply rootEvent_no_source|].
  split.
  - intros x Hin Hty. apply lineage_no_source_is_root; [done|].
    apply (proj2 (created_root allowed_empty x (created_lineage _ _ _ Hc Hin))).
    exact Hty.
  - intros x Hin Hne. destruct (Event.sourceEvent x) as [p|] eqn:Hp.
    + exists p. split; [done|]. split; [by eapply lineage_source_member|].
      by intros q [= <-].
    + exfalso. apply Hne. by apply lineage_no_source_is_root.
Qed.

Lemma scenario_created :
  Lineage.created (fun _ => false) Lineage.malicious_example.
Proof.
  eapply (Lineage.created_construct _ "MALICIOUS_IPADDR" "listed [url]"
            "sfp_cinsscore" (Some Lineage.ip_example)); [|reflexivity].
  intros ? [= <-].
  eapply (Lineage.created_construct _ "IP_ADDRESS" "93.184.216.34"
            "sfp_dnsresolve" (Some Lineage.root_example)); [|reflexivity].
  intros ? [= <-].
  eapply (Lineage.created_construct _ "ROOT" "example.com" EmptyString None);
    [|reflexivity].
  intros ? [=].
Qed.

Lemma C1_lineage_is_a_tree_witness :
  Lineage.created (fun _ => false) Lineage.malicious_example
  /\ (NoDup (Event.lineage Lineage.malicious_example)
      /\ last (Event.lineage Lineage.malicious_example)
         = Some (Event.rootEvent Lineage.malicious_example)
      /\ Event.eventType (Event.rootEvent Lineage.malicious_example) = "ROOT"
      /\ Event.sourceEvent (Event.rootEvent Lineage.malicious_example) = None
      /\ (forall x, x ∈ Event.lineage Lineage.malicious_example ->
                    Event.eventType x = "ROOT" ->
                    x = Event.rootEvent Lineage.malicious_example)
      /\ (forall x, x ∈ Event.lineage Lineage.malicious_example ->
                    x <> Event.rootEvent Lineage.malicious_example ->
                    exists p, Event.sourceEvent x = Some p
                              /\ p ∈ Event.lineage Lineage.malicious_example
                              /\ forall q, Event.sourceEvent x = Some q -> q = p)).
Proof.
  split; [exact scenario_created|].
  exact (C1_lineage_is_a_tree _ _ scenario_created).
Defined.

(** The scenario of the spec: the chains of the three Events have 0, 1 and
    2 links. *)
Example scenario_chain_lengths :
  length (Event.lineage Lineage.root_example) = 1
  /\ length (Event.lineage Lineage.ip_example) = 2
  /\ length (Event.lineage Lineage.malicious_example) = 3
  /\ Event.rootEvent Lineage.malicious_example = Lineage.root_example.
Proof. repeat split. Qed.

(** ** Traces, frames and triples of module methods *)

Import Py Event Plugin.

Section Traces.
Context {W : Type}.

Lemma halts_on_stop_nil : halts_on_stop [].
Proof. intros [|] ? [=]. Qed.

Lemma halts_on_stop_last : halts_on_stop [Poll true].
Proof. intros [|a [|b before]] after [= Heq]; done. Qed.

Lemma halts_on_stop_cons a t :
  a <> Poll true -> halts_on_stop t -> halts_on_stop (a :: t).
Proof.
  intros Ha Ht [|b before] after [= Heq1 Heq2]; [done|].
  by eapply Ht.
Qed.

Lemma halts_on_stop_app t1 t2 :
  no_stop t1 -> halts_on_stop t2 -> halts_on_stop (t1 ++ t2).
Proof.
  induction 1 as [|a t1 Ha _ IH]; intros Ht2; [done|].
  simpl. apply halts_on_stop_cons; auto.
Qed.

Lemma no_stop_nil : no_stop [].
Proof. constructor. Qed.

Lemma no_stop_halts t : no_stop t -> halts_on_stop t.
Proof.
  intros H. rewrite <- (app_nil_r t).
  apply halts_on_stop_app; [done | apply halts_on_stop_nil].
Qed.

Lemma emits_weaken {A} (T T' : list action -> Prop) (m : M W A) :
  (forall t, T t -> T' t) -> emits T m -> emits T' m.
Proof. intros HT Hm e. destruct (Hm e) as (t & ? & ?). eauto. Qed.

Lemma emits_nothing {A} (T : list action -> Prop) (m : M W A) :
  T [] -> (forall e, trace (m e).2 = trace e) -> emits T m.
Proof. intros HT Hm e. exists []. by rewrite app_nil_r. Qed.

Lemma emits_bind {A B} (T1 T2 T : list action -> Prop)
      (m : M W A) (f : A -> M W B) :
  emits T1 m -> (forall a, emits T2 (f a)) ->
  (forall t1, T1 t1 -> T t1) ->
  (forall t1 t2, T1 t1 -> T2 t2 -> T (t1 ++ t2)) ->
  emits T (m ≫= f).
Proof.
  intros Hm Hf H1 H12 e. unfold mbind, M_bind.
  destruct (Hm e) as (t1 & Ht1 & HT1).
  destruct (m e) as [[a|x] e1]; simpl in *.
  - destruct (Hf a e1) as (t2 & Ht2 & HT2).
    exists (t1 ++ t2). rewrite Ht2, Ht1, app_assoc. auto.
  - exists t1. auto.
Qed.

Lemma emits_try_except {A} (T : list action -> Prop) (m : M W A) h :
  emits T m -> (forall x, emits T (h x)) ->
  (forall t1 t2, T t1 -> T t2 -> T (t1 ++ t2)) ->
  emits T (try_except m h).
Proof.
  intros Hm Hh HT e. unfold try_except.
  destruct (Hm e) as (t1 & Ht1 & HT1).
  destruct (m e) as [[a|x] e1]; simpl in *; [eauto|].
  destruct (Hh x e1) as (t2 & Ht2 & HT2).
  exists (t1 ++ t2). rewrite Ht2, Ht1, app_assoc. auto.
Qed.

Lemma emits_action (T : list action -> Prop) (a : action) :
  T [a] -> emits T (emit_action a : M W unit).
Proof. intros HT e. by exists [a]. Qed.

(** *** Methods that do not poll the stop flag *)

Lemma no_stop_ret {A} (a : A) : emits no_stop (mret a : M W A).
Proof. by apply emits_nothing; [constructor|]. Qed.

Lemma no_stop_raise {A} x : emits no_stop (raise x : M W A).
Proof. by apply emits_nothing; [constructor|]. Qed.

Lemma no_stop_bind {A B} (m : M W A) (f : A -> M W B) :
  emits no_stop m -> (forall a, emits no_stop (f a)) ->
  emits no_stop (m ≫= f).
Proof.
  intros Hm Hf. eapply emits_bind; eauto.
  intros. by apply Forall_app.
Qed.

Lemma no_stop_try_except {A} (m : M W A) h :
  emits no_stop m -> (forall x, emits no_stop (h x)) ->
  emits no_stop (try_except m h).
Proof.
  intros. apply emits_try_except; auto. intros. by apply Forall_app.
Qed.

Lemma no_stop_action (a : action) :
  a <> Poll true -> emits no_stop (emit_action a : M W unit).
Proof. intros Ha. apply emits_action. by repeat constructor. Qed.

Lemma no_stop_log level msg : emits no_stop (log level msg : M W unit).
Proof. by apply no_stop_action. Qed.

Lemma no_stop_lift {A} (o : outcome A) :
  emits no_stop (lift_outcome o : M W A).
Proof. by apply emits_nothing; [constructor|]. Qed.

Lemma no_stop_getitem d key : emits no_stop (getitem d key : M W pyval).
Proof.
  unfold getitem. destruct (d !! key); [apply no_stop_ret | apply no_stop_raise].
Qed.

Lemma no_stop_contains r key : emits no_stop (contains r key : M W bool).
Proof.
  unfold contains. destruct r; [apply no_stop_ret | apply no_stop_raise].
Qed.

Lemma no_stop_store r key : emits no_stop (store r key : M W _).
Proof.
  unfold store. destruct r; [apply no_stop_ret | apply no_stop_raise].
Qed.

Lemma no_stop_fetchUrl sf url kwargs :
  emits no_stop (sf_fetchUrl sf url kwargs : M W _).
Proof.
  apply no_stop_bind; [by apply no_stop_action|]. intros _. apply no_stop_ret.
Qed.

Lemma no_stop_resolveHost sf host :
  emits no_stop (sf_resolveHost sf host : M W _).
Proof.
  apply no_stop_bind; [by apply no_stop_action|]. intros _. apply no_stop_ret.
Qed.

Lemma no_stop_cachePut label text :
  emits no_stop (sf_cachePut label text : M W _).
Proof. by apply no_stop_action. Qed.

Lemma no_stop_new_event sf t d nm src :
  emits no_stop (new_event sf t d nm src : M W _).
Proof. apply no_stop_lift. Qed.

Lemma no_stop_notify_only ev : emits no_stop (notify_only ev : M W unit).
Proof. by apply no_stop_action. Qed.

Lemma no_stop_mapM {A B} (f : A -> M W B) l :
  (forall a, emits no_stop (f a)) -> emits no_stop (mapM f l).
Proof.
  intros Hf. induction l as [|a l IH]; simpl; [apply no_stop_ret|].
  apply no_stop_bind; [apply Hf|]. intros b.
  apply no_stop_bind; [apply IH|]. intros bs. apply no_stop_ret.
Qed.

Section Attributes.
Context {S : Type} (self : lens W S).

Lemma no_stop_get_self : emits no_stop (get_self self).
Proof. by apply emits_nothing; [constructor|]. Qed.

Lemma no_stop_gets {B} (f : S -> B) : emits no_stop (gets self f).
Proof. by apply emits_nothing; [constructor|]. Qed.

Lemma no_stop_put_self s : emits no_stop (put_self self s).
Proof. by apply emits_nothing; [constructor|]. Qed.

Lemma no_stop_modify_self f : emits no_stop (modify_self self f).
Proof. by apply emits_nothing; [constructor|]. Qed.

Lemma no_stop_opt opts key : emits no_stop (opt self opts key).
Proof.
  apply no_stop_bind; [apply no_stop_gets|]. intros o. apply no_stop_getitem.
Qed.

Lemma no_stop_opt_get opts key default :
  emits no_stop (opt_get self opts key default).
Proof.
  apply no_stop_bind; [apply no_stop_gets|]. intros o. apply no_stop_ret.
Qed.

Lemma no_stop_results_contains results key :
  emits no_stop (results_contains self results key).
Proof.
  apply no_stop_bind; [apply no_stop_gets|]. intros o. apply no_stop_contains.
Qed.

Lemma no_stop_results_add results with_results key :
  emits no_stop (results_add self results with_results key).
Proof.
  apply no_stop_bind; [apply no_stop_gets|]. intros o.
  apply no_stop_bind; [apply no_stop_store|]. intros r.
  apply no_stop_modify_self.
Qed.
End Attributes.

(** *** Methods that stop at the poll that tells them to *)

Lemma halts_ret {A} (a : A) : emits halts_on_stop (mret a : M W A).
Proof. eapply emits_weaken; [apply no_stop_halts | apply no_stop_ret]. Qed.

Lemma halts_raise {A} x : emits halts_on_stop (raise x : M W A).
Proof. eapply emits_weaken; [apply no_stop_halts | apply no_stop_raise]. Qed.

Lemma halts_quiet {A} (m : M W A) :
  emits no_stop m -> emits halts_on_stop m.
Proof. apply emits_weaken, no_stop_halts. Qed.

Lemma halts_bind {A B} (m : M W A) (f : A -> M W B) :
  emits no_stop m -> (forall a, emits halts_on_stop (f a)) ->
  emits halts_on_stop (m ≫= f).
Proof.
  intros Hm Hf.
  eapply emits_bind; eauto using no_stop_halts, halts_on_stop_app.
Qed.

(** The poll at the head of a loop: the method ends when the flag is
    set. *)
Lemma halts_poll {A} sf (x : A) (g : M W A) :
  emits halts_on_stop g ->
  emits halts_on_stop
        (stop ← checkForStop sf; if stop : bool then mret x else g).
Proof.
  intros Hg e. unfold mbind, M_bind, checkForStop. simpl.
  destruct (stop_requested sf (polls e)).
  - exists [Poll true]. split; [done | apply halts_on_stop_last].
  - destruct (Hg (mkEnv (objs e) (S (polls e)) (trace e ++ [Poll false])))
      as (t & Ht & HT).
    exists (Poll false :: t). split.
    + rewrite Ht. simpl. by rewrite <- app_assoc.
    + by apply halts_on_stop_cons.
Qed.

(** A loop that polls and reports by its result whether it was stopped,
    in front of what its caller does with the result. *)
Lemma halts_bind_flag {A B} (m : M W (option A)) (f : option A -> M W B) :
  emits_out ended_by_stop m ->
  (forall e, trace (f None e).2 = trace e) ->
  (forall a, emits halts_on_stop (f (Some a))) ->
  emits halts_on_stop (m ≫= f).
Proof.
  intros Hm Hnone Hsome e. unfold mbind, M_bind.
  destruct (Hm e) as (t1 & Ht1 & [Hq | [Ho Hh]]).
  - destruct (m e) as [[[a|]|x] e1]; simpl in *.
    + destruct (Hsome a e1) as (t2 & Ht2 & HT2).
      exists (t1 ++ t2). rewrite Ht2, Ht1, app_assoc.
      split; [done | by apply halts_on_stop_app].
    + exists t1. rewrite Hnone. split; [done | by apply no_stop_halts].
    + exists t1. split; [done | by apply no_stop_halts].
  - destruct (m e) as [[[a|]|x] e1]; simpl in *; try done.
    exists t1. by rewrite Hnone.
Qed.

Lemma flag_ret {A} (a : option A) : emits_out ended_by_stop (mret a : M W _).
Proof.
  intros e. exists []. split; [by rewrite app_nil_r | left; constructor].
Qed.

Lemma flag_quiet {A} (m : M W (option A)) :
  emits no_stop m -> emits_out ended_by_stop m.
Proof. intros Hm e. destruct (Hm e) as (t & ? & ?). exists t. split; [done | by left]. Qed.

Lemma flag_bind {A B} (m : M W A) (f : A -> M W (option B)) :
  emits no_stop m -> (forall a, emits_out ended_by_stop (f a)) ->
  emits_out ended_by_stop (m ≫= f).
Proof.
  intros Hm Hf e. unfold mbind, M_bind.
  destruct (Hm e) as (t1 & Ht1 & HT1).
  destruct (m e) as [[a|x] e1]; simpl in *.
  - destruct (Hf a e1) as (t2 & Ht2 & [Hq | [Ho Hh]]).
    + exists (t1 ++ t2). rewrite Ht2, Ht1, app_assoc.
      split; [done | left; by apply Forall_app].
    + exists (t1 ++ t2). rewrite Ht2, Ht1, app_assoc.
      split; [done | right; split; [done | by apply halts_on_stop_app]].
  - exists t1. split; [done | by left].
Qed.

Lemma flag_poll {A} sf (g : M W (option A)) :
  emits_out ended_by_stop g ->
  emits_out ended_by_stop
            (stop ← checkForStop sf; if stop : bool then mret None else g).
Proof.
  intros Hg e. unfold mbind, M_bind, checkForStop. simpl.
  destruct (stop_requested sf (polls e)).
  - exists [Poll true]. split; [done|]. right. split; [done | apply halts_on_stop_last].
  - destruct (Hg (mkEnv (objs e) (S (polls e)) (trace e ++ [Poll false])))
      as (t & Ht & HT).
    exists (Poll false :: t). split.
    + rewrite Ht. simpl. by rewrite <- app_assoc.
    + destruct HT as [Hq | [Ho Hh]].
      * left. by constructor.
      * right. split; [done | by apply halts_on_stop_cons].
Qed.
End Traces.

Create HintDb plugin discriminated.

#[export] Hint Unfold
  sfp_projectdiscovery.opt sfp_projectdiscovery.results_contains
  sfp_projectdiscovery.results_add sfp_projectdiscovery.set_errorState
  sfp_cinsscore.opt sfp_cinsscore.opt_get sfp_cinsscore.results_contains
  sfp_cinsscore.results_add sfp_cinsscore.set_errorState
  sfp_bitcoin.results_contains sfp_bitcoin.results_add
  sfp_portscan_tcp.opt sfp_portscan_tcp.results_contains
  sfp_portscan_tcp.results_add sfp_portscan_tcp.set_errorState
  sfp_email.opt debug info error : plugin.

#[export] Hint Resolve no_stop_ret no_stop_raise no_stop_log no_stop_lift
  no_stop_getitem no_stop_contains no_stop_store no_stop_fetchUrl
  no_stop_resolveHost no_stop_cachePut no_stop_new_event no_stop_notify_only
  no_stop_get_self no_stop_gets no_stop_put_self no_stop_modify_self
  no_stop_opt no_stop_opt_get no_stop_results_contains no_stop_results_add
  : plugin.

(** Splits a method that does not poll the stop flag into its calls. *)
Ltac quiet :=
  autounfold with plugin;
  repeat first
    [ progress intros
    | apply no_stop_bind
    | apply no_stop_try_except
    | apply no_stop_mapM
    | solve [apply no_stop_action; discriminate]
    | solve [eauto with plugin]
    | match goal with
      | |- emits _ (if ?b then _ else _) => destruct b
      | |- emits _ (match ?x with _ => _ end) => destruct x
      end ].

(** One step of a method that polls: the call at its head does not. *)
Ltac halts_step :=
  first
    [ apply halts_poll
    | apply halts_ret
    | apply halts_raise
    | apply halts_bind; [solve [quiet] | intros ?]
    | match goal with
      | |- emits _ (if ?b then _ else _) => destruct b
      | |- emits _ (match ?x with _ => _ end) => destruct x
      end ].

Section ProjectDiscoveryTraces.
Context {W : Type} (self : lens W sfp_projectdiscovery.state) (sf : World).
Variable notifyListeners : SpiderFootEvent -> M W unit.
Hypothesis notify_quiet : forall ev, emits no_stop (notifyListeners ev).
Import sfp_projectdiscovery.

Lemma pd_query_quiet qry : emits no_stop (query self sf qry).
Proof. unfold query. quiet. Qed.

Lemma pd_each_subdomain_halts event subdomains resultsSet :
  emits halts_on_stop
        (each_subdomain self sf notifyListeners event subdomains resultsSet).
Proof.
  revert resultsSet.
  induction subdomains as [|subdomain rest IH]; intros resultsSet; simpl.
  - apply halts_ret.
  - repeat halts_step; apply IH.
Qed.

Lemma pd_handleEvent_halts event :
  emits halts_on_stop (handleEvent self sf notifyListeners event).
Proof.
  unfold handleEvent.
  repeat halts_step; try (apply halts_quiet; solve [quiet]).
  apply pd_each_subdomain_halts.
Qed.
End ProjectDiscoveryTraces.

Section PortscanTraces.
Context {W : Type} (self : lens W sfp_portscan_tcp.state) (sf : World).
Variable notifyListeners : SpiderFootEvent -> M W unit.
Hypothesis notify_quiet : forall ev, emits no_stop (notifyListeners ev).
Import sfp_portscan_tcp.

Lemma ps_sendEvent_quiet resArray srcEvent :
  emits no_stop (sendEvent sf notifyListeners resArray srcEvent).
Proof.
  induction resArray as [|[cp res] rest IH]; simpl; [apply no_stop_ret|].
  apply no_stop_bind; [|intros _; apply IH]. quiet.
Qed.

Lemma ps_tryPortWrapper_quiet ip portList :
  emits no_stop (tryPortWrapper self sf ip portList).
Proof. unfold tryPortWrapper, tryPort. quiet. Qed.

Lemma ps_each_address_quiet addresses scanIps :
  emits no_stop (each_address addresses scanIps : M W _).
Proof.
  revert scanIps. induction addresses as [|ipaddr rest IH]; intros scanIps;
    simpl; [apply no_stop_ret|].
  destruct (_ !! 3%nat); [|apply no_stop_raise].
  repeat case_bool_decide; apply IH.
Qed.

Lemma ps_scan_targets_quiet event :
  emits no_stop (scan_targets self sf event).
Proof.
  unfold scan_targets.
  apply no_stop_bind; [quiet|]. intros is_block.
  destruct is_block; [|apply no_stop_ret].
  destruct (ip_network sf _) as [[prefixlen addresses]|]; [|apply no_stop_raise].
  apply no_stop_bind; [quiet|]. intros netblockscanmax.
  apply no_stop_bind; [quiet|]. intros too_big.
  destruct too_big; [quiet|].
  apply no_stop_bind; [apply ps_each_address_quiet|]. quiet.
Qed.

Lemma ps_each_port_flag event ipAddr ports i portArr :
  emits_out ended_by_stop
            (each_port self sf notifyListeners event ipAddr ports i portArr).
Proof.
  revert i portArr. induction ports as [|port rest IH]; intros i portArr; simpl.
  - apply flag_ret.
  - apply flag_poll.
    apply flag_bind; [quiet|]. intros maxthreads.
    apply flag_bind; [quiet|]. intros room.
    destruct room; [apply IH|].
    apply flag_bind; [apply ps_tryPortWrapper_quiet|]. intros res.
    apply flag_bind; [apply ps_sendEvent_quiet|]. intros _. apply IH.
Qed.

Lemma ps_each_ip_halts event scanIps :
  emits halts_on_stop (each_ip self sf notifyListeners event scanIps).
Proof.
  induction scanIps as [|ipAddr rest IH]; simpl; [apply halts_ret|].
  apply halts_bind; [quiet|]. intros seen.
  destruct seen; [apply halts_quiet; quiet|].
  apply halts_bind; [quiet|]. intros _.
  apply halts_bind; [quiet|]. intros ports.
  apply halts_bind_flag; [apply ps_each_port_flag | done |].
  intros portArr.
  apply halts_bind; [apply ps_tryPortWrapper_quiet|]. intros res.
  apply halts_bind; [apply ps_sendEvent_quiet|]. intros _. apply IH.
Qed.

Lemma ps_handleEvent_halts event :
  emits halts_on_stop (handleEvent self sf notifyListeners event).
Proof.
  unfold handleEvent.
  apply halts_bind; [quiet|]. intros err.
  destruct err; [apply halts_ret|].
  apply halts_bind; [quiet|]. intros _.
  apply halts_bind; [quiet|]. intros ports.
  destruct ports as [|p ports]; [apply halts_quiet; quiet|].
  apply halts_bind.
  { apply no_stop_try_except; [apply ps_scan_targets_quiet | quiet]. }
  intros [scanIps|]; [apply ps_each_ip_halts | apply halts_ret].
Qed.
End PortscanTraces.

Lemma emits_run {S A} (T : list action -> Prop) (m : M S A) st n :
  emits T m -> T (trace_of (run m st n)).
Proof.
  intros Hm. destruct (Hm (mkEnv st n [])) as (t & Ht & HT).
  unfold run, trace_of. destruct (m _) as [o e]. simpl in *. by subst.
Qed.

(** C5: in a call of [handleEvent] of [sfp_projectdiscovery] or of
    [sfp_portscan_tcp], nothing follows a [checkForStop()] that returned
    true: no further round of a loop, no query and no Event. *)
Theorem C5_checkForStop_ends_the_call
        (sf : World) (event : SpiderFootEvent) (n : nat)
        (pd_st : sfp_projectdiscovery.state)
        (ps_st : sfp_portscan_tcp.state) :
  halts_on_stop
    (trace_of (run (sfp_projectdiscovery.handleEvent self_id sf notify_only
                                                     event) pd_st n))
  /\ halts_on_stop
       (trace_of (run (sfp_portscan_tcp.handleEvent self_id sf notify_only
                                                    event) ps_st n)).
Proof.
  split; apply emits_run.
  - apply pd_handleEvent_halts, no_stop_notify_only.
  - apply ps_handleEvent_halts, no_stop_notify_only.
Qed.

(** A scan that is stopped during the loop over the subdomains: the
    second poll returns true, and the trace ends there. *)
Example stop_during_subdomains :
  let sf := Examples.world_stop_at 1 in
  trace_of (run (sfp_projectdiscovery.handleEvent self_id sf notify_only
                   Examples.domain_event)
                (sfp_projectdiscovery.setup Examples.opts_with_key
                   sfp_projectdiscovery.initial) 0)
  = [Log "debug" "Received event, DOMAIN_NAME, from sfp_dnsresolve";
     Fetch "https://dns.projectdiscovery.io/dns/example.com/subdomains";
     Notify (mkEvent "RAW_RIR_DATA" "{'subdomains': ['www', 'mail']}"
                     "sfp_projectdiscovery" (Some Examples.domain_event) None);
     Poll false;
     Resolve "www.example.com";
     Notify (mkEvent "INTERNET_NAME" "www.example.com" "sfp_projectdiscovery"
                     (Some Examples.domain_event) None);
     Poll true].
Proof. vm_compute. reflexivity. Qed.

(** ** Calls of [handleEvent], step by step *)

(** Runs the calls at the head of a method that is applied to a state. *)
Ltac step_monad :=
  repeat progress
    (cbv beta iota zeta delta
         [run state_of outcome_of trace_of
          mbind M_bind mret M_ret get_self gets put_self modify_self
          opt opt_get results_contains results_add
          emit_action debug info error log raise lift_outcome contains
          store getitem get_default notify_only checkForStop sf_fetchUrl
          sf_resolveHost sf_cachePut try_except
          sfp_projectdiscovery.opt sfp_projectdiscovery.results_contains
          sfp_projectdiscovery.results_add sfp_projectdiscovery.set_errorState
          sfp_cinsscore.opt sfp_cinsscore.opt_get
          sfp_cinsscore.results_contains sfp_cinsscore.results_add
          sfp_cinsscore.set_errorState
          sfp_bitcoin.results_contains sfp_bitcoin.results_add
          sfp_portscan_tcp.opt sfp_portscan_tcp.results_contains
          sfp_portscan_tcp.results_add sfp_portscan_tcp.set_errorState
          sfp_email.opt] in *;
     cbn [view update self_id objs polls trace fst snd] in * ).

Lemma pd_errorState_noop sf event st n :
  sfp_projectdiscovery.errorState st = true ->
  run (sfp_projectdiscovery.handleEvent self_id sf notify_only event) st n
  = (Returned tt, st, []).
Proof.
  intros H. unfold sfp_projectdiscovery.handleEvent. step_monad.
  by rewrite H.
Qed.

Lemma ps_errorState_noop sf event st n :
  sfp_portscan_tcp.errorState st = true ->
  run (sfp_portscan_tcp.handleEvent self_id sf notify_only event) st n
  = (Returned tt, st, []).
Proof.
  intros H. unfold sfp_portscan_tcp.handleEvent. step_monad.
  by rewrite H.
Qed.

Lemma cs_errorState_noop sf event st n :
  is_Some (sfp_cinsscore.results st) ->
  sfp_cinsscore.errorState st = true ->
  exists t,
    run (sfp_cinsscore.handleEvent self_id sf notify_only event) st n
    = (Returned tt, st, t)
    /\ no_work t /\ no_event t.
Proof.
  intros [r Hr] H. unfold sfp_cinsscore.handleEvent. step_monad.
  rewrite Hr. step_monad.
  destruct (bool_decide _); step_monad; [|rewrite H];
    (eexists; split; [reflexivity|]); split; by repeat constructor.
Qed.

(** C3: once the flag [errorState] of a module is set, a call of
    [handleEvent], for whatever Event, returns at once: it raises nothing,
    emits no Event, sends no query and leaves the attributes of the module
    as they are ([sfp_cinsscore] writes its debug lines first). *)
Theorem C3_errorState_ends_handling
        (sf : World) (event : SpiderFootEvent) (n : nat)
        (pd_st : sfp_projectdiscovery.state)
        (ps_st : sfp_portscan_tcp.state)
        (cs_st : sfp_cinsscore.state) :
  sfp_projectdiscovery.errorState pd_st = true ->
  sfp_portscan_tcp.errorState ps_st = true ->
  sfp_cinsscore.errorState cs_st = true ->
  is_Some (sfp_cinsscore.results cs_st) ->
  run (sfp_projectdiscovery.handleEvent self_id sf notify_only event) pd_st n
  = (Returned tt, pd_st, [])
  /\ run (sfp_portscan_tcp.handleEvent self_id sf notify_only event) ps_st n
     = (Returned tt, ps_st, [])
  /\ exists t,
      run (sfp_cinsscore.handleEvent self_id sf notify_only event) cs_st n
      = (Returned tt, cs_st, t)
      /\ no_work t /\ no_event t.
Proof.
  intros Hpd Hps Hcs Hres.
  split; [by apply pd_errorState_noop|].
  split; [by apply ps_errorState_noop|].
  by apply cs_errorState_noop.
Qed.

Lemma C3_errorState_ends_handling_witness :
  sfp_projectdiscovery.errorState Examples.pd_without_key = true
  /\ sfp_portscan_tcp.errorState Examples.ps_without_ports = true
  /\ sfp_cinsscore.errorState Examples.cs_offline = true
  /\ is_Some (sfp_cinsscore.results Examples.cs_offline)
  /\ (run (sfp_projectdiscovery.handleEvent self_id Examples.world
             notify_only Examples.ip_event) Examples.pd_without_key 7
      = (Returned tt, Examples.pd_without_key, [])
      /\ run (sfp_portscan_tcp.handleEvent self_id Examples.world
                notify_only Examples.ip_event) Examples.ps_without_ports 7
         = (Returned tt, Examples.ps_without_ports, [])
      /\ exists t,
          run (sfp_cinsscore.handleEvent self_id Examples.world notify_only
                 Examples.ip_event) Examples.cs_offline 7
          = (Returned tt, Examples.cs_offline, t)
          /\ no_work t /\ no_event t).
Proof.
  assert (H1 : sfp_projectdiscovery.errorState Examples.pd_without_key = true)
    by (vm_compute; reflexivity).
  assert (H2 : sfp_portscan_tcp.errorState Examples.ps_without_ports = true)
    by (vm_compute; reflexivity).
  assert (H3 : sfp_cinsscore.errorState Examples.cs_offline = true)
    by (vm_compute; reflexivity).
  assert (H4 : is_Some (sfp_cinsscore.results Examples.cs_offline))
    by (eexists; vm_compute; reflexivity).
  repeat (split; [assumption|]).
  exact (C3_errorState_ends_handling Examples.world Examples.ip_event 7
           _ _ _ H1 H2 H3 H4).
Defined.

(** ** Methods that assign to no attribute *)

Section Frames.
Context {W : Type}.

Lemma keeps_ret {A} (a : A) : keeps (mret a : M W A).
Proof. done. Qed.

Lemma keeps_raise {A} x : keeps (raise x : M W A).
Proof. done. Qed.

Lemma keeps_bind {A B} (m : M W A) (f : A -> M W B) :
  keeps m -> (forall a, keeps (f a)) -> keeps (m ≫= f).
Proof.
  intros Hm Hf e. unfold mbind, M_bind. specialize (Hm e).
  destruct (m e) as [[a|x] e1]; simpl in *; [|done].
  by rewrite Hf.
Qed.

Lemma keeps_try_except {A} (m : M W A) h :
  keeps m -> (forall x, keeps (h x)) -> keeps (try_except m h).
Proof.
  intros Hm Hh e. unfold try_except. specialize (Hm e).
  destruct (m e) as [[a|x] e1]; simpl in *; [done|].
  by rewrite Hh.
Qed.

Lemma keeps_action (a : action) : keeps (emit_action a : M W unit).
Proof. done. Qed.

Lemma keeps_log level msg : keeps (log level msg : M W unit).
Proof. done. Qed.

Lemma keeps_lift {A} (o : outcome A) : keeps (lift_outcome o : M W A).
Proof. done. Qed.

Lemma keeps_getitem d key : keeps (getitem d key : M W pyval).
Proof. unfold getitem. by destruct (d !! key). Qed.

Lemma keeps_contains r key : keeps (contains r key : M W bool).
Proof. unfold contains. by destruct r. Qed.

Lemma keeps_store r key : keeps (store r key : M W _).
Proof. unfold store. by destruct r. Qed.

Lemma keeps_checkForStop sf : keeps (checkForStop sf : M W bool).
Proof. done. Qed.

Lemma keeps_fetchUrl sf url kwargs : keeps (sf_fetchUrl sf url kwargs : M W _).
Proof. done. Qed.

Lemma keeps_resolveHost sf host : keeps (sf_resolveHost sf host : M W _).
Proof. done. Qed.

Lemma keeps_cachePut label text : keeps (sf_cachePut label text : M W _).
Proof. done. Qed.

Lemma keeps_new_event sf t d nm src : keeps (new_event sf t d nm src : M W _).
Proof. done. Qed.

Lemma keeps_notify_only ev : keeps (notify_only ev : M W unit).
Proof. done. Qed.

Lemma keeps_mapM {A B} (f : A -> M W B) l :
  (forall a, keeps (f a)) -> keeps (mapM f l).
Proof.
  intros Hf. induction l as [|a l IH]; simpl; [done|].
  apply keeps_bind; [apply Hf|]. intros b.
  apply keeps_bind; [apply IH|]. done.
Qed.

Section Attributes.
Context {S : Type} (self : lens W S).

Lemma keeps_get_self : keeps (get_self self).
Proof. done. Qed.

Lemma keeps_gets {B} (f : S -> B) : keeps (gets self f).
Proof. done. Qed.

Lemma keeps_opt opts key : keeps (opt self opts key).
Proof. apply keeps_bind; [done|]. intros o. apply keeps_getitem. Qed.

Lemma keeps_opt_get opts key default : keeps (opt_get self opts key default).
Proof. done. Qed.

Lemma keeps_results_contains results key :
  keeps (results_contains self results key).
Proof. apply keeps_bind; [done|]. intros o. apply keeps_contains. Qed.
End Attributes.
End Frames.

#[export] Hint Resolve keeps_ret keeps_raise keeps_action keeps_log keeps_lift
  keeps_getitem keeps_contains keeps_store keeps_checkForStop keeps_fetchUrl
  keeps_resolveHost keeps_cachePut keeps_new_event keeps_notify_only
  keeps_get_self keeps_gets keeps_opt keeps_opt_get keeps_results_contains
  : plugin.

(** Splits a method that assigns to no attribute into its calls. *)
Ltac kept :=
  autounfold with plugin;
  repeat first
    [ progress intros
    | apply keeps_bind
    | apply keeps_try_except
    | apply keeps_mapM
    | solve [eauto with plugin]
    | match goal with
      | |- keeps (if ?b then _ else _) => destruct b
      | |- keeps (match ?x with _ => _ end) => destruct x
      end ].

(** ** Triples *)

Section Triples.
Context {W : Type}.

Lemma triple_conseq {A} (P P' : W -> Prop) (Q Q' : outcome A -> W -> Prop)
      (m : M W A) :
  triple P' m Q' -> (forall w, P w -> P' w) ->
  (forall o w, Q' o w -> Q o w) -> triple P m Q.
Proof. intros Hm HP HQ e He. apply HQ, Hm, HP, He. Qed.

Lemma triple_ret {A} (P : W -> Prop) (Q : outcome A -> W -> Prop) a :
  (forall w, P w -> Q (Returned a) w) -> triple P (mret a) Q.
Proof. intros H e He. by apply H. Qed.

Lemma triple_raise {A} (P : W -> Prop) (Q : outcome A -> W -> Prop) x :
  (forall w, P w -> Q (Raised x) w) -> triple P (raise x) Q.
Proof. intros H e He. by apply H. Qed.

Lemma triple_bind {A B} (P : W -> Prop) (Q1 : outcome A -> W -> Prop)
      (Q : outcome B -> W -> Prop) (m : M W A) (f : A -> M W B) :
  triple P m Q1 -> (forall a, triple (Q1 (Returned a)) (f a) Q) ->
  (forall x w, Q1 (Raised x) w -> Q (Raised x) w) ->
  triple P (m ≫= f) Q.
Proof.
  intros Hm Hf Hx e He. unfold mbind, M_bind. specialize (Hm e He).
  destruct (m e) as [[a|x] e1]; simpl in *; [by apply Hf | by apply Hx].
Qed.

(** A method that assigns to no attribute leaves every property of the
    objects as it is. *)
Lemma triple_keeps {A} (P : W -> Prop) (m : M W A) :
  keeps m -> triple P m (fun _ => P).
Proof. intros Hm e He. by rewrite Hm. Qed.

Lemma triple_keeps_last {A} (P : W -> Prop) (Q : outcome A -> W -> Prop)
      (m : M W A) :
  keeps m -> (forall o w, P w -> Q o w) -> triple P m Q.
Proof. intros Hm HQ e He. rewrite Hm. by apply HQ. Qed.

Lemma triple_keeps_bind {A B} (P : W -> Prop) (Q : outcome B -> W -> Prop)
      (m : M W A) (f : A -> M W B) :
  keeps m -> (forall a, triple P (f a) Q) ->
  (forall x w, P w -> Q (Raised x) w) ->
  triple P (m ≫= f) Q.
Proof.
  intros Hm Hf Hx. eapply triple_bind; [by apply triple_keeps | done | done].
Qed.

Lemma triple_log_bind {B} (P : W -> Prop) (Q : outcome B -> W -> Prop)
      level msg (k : unit -> M W B) :
  triple P (k tt) Q -> triple P (log level msg ≫= k) Q.
Proof. intros Hk e He. unfold mbind, M_bind, log, emit_action. by apply Hk. Qed.

(** An invariant of every call of a method is one of the method. *)
Lemma triple_inv_bind {A B} (I : W -> Prop) (m : M W A) (f : A -> M W B) :
  triple I m (fun _ => I) -> (forall a, triple I (f a) (fun _ => I)) ->
  triple I (m ≫= f) (fun _ => I).
Proof. intros Hm Hf. eapply triple_bind; eauto. Qed.

Section Attributes.
Context {S : Type} (self : lens W S).

Lemma triple_gets_bind {A B} (P : W -> Prop) (Q : outcome B -> W -> Prop)
      (f : S -> A) (k : A -> M W B) :
  (forall v, triple (fun w => P w /\ f (view self w) = v) (k v) Q) ->
  triple P (gets self f ≫= k) Q.
Proof. intros Hk e He. unfold mbind, M_bind, gets. by apply (Hk _ e). Qed.

Lemma triple_modify (P : W -> Prop) (Q : outcome unit -> W -> Prop) g :
  (forall w, P w -> Q (Returned tt) (update self (g (view self w)) w)) ->
  triple P (modify_self self g) Q.
Proof. intros H e He. by apply H. Qed.

Lemma triple_modify_bind {B} (P : W -> Prop) (Q : outcome B -> W -> Prop)
      g (k : unit -> M W B) :
  triple (fun w' => exists w, P w /\ w' = update self (g (view self w)) w)
         (k tt) Q ->
  triple P (modify_self self g ≫= k) Q.
Proof.
  intros Hk e He. unfold mbind, M_bind, modify_self. apply Hk. simpl. eauto.
Qed.

Lemma triple_opt_bind {B} (P : W -> Prop) (Q : outcome B -> W -> Prop)
      opts key (k : pyval -> M W B) :
  (forall v, triple (fun w => P w /\ opts (view self w) !! key = Some v)
                    (k v) Q) ->
  (forall w, P w -> opts (view self w) !! key = None ->
             Q (Raised "KeyError") w) ->
  triple P (opt self opts key ≫= k) Q.
Proof.
  intros Hk Hx e He. unfold opt, mbind, M_bind, gets, getitem, mret, M_ret, raise.
  destruct (opts (view self (objs e)) !! key) as [v|] eqn:Hv.
  - by apply (Hk v e).
  - by apply Hx.
Qed.

Lemma triple_results_contains_bind {B} (P : W -> Prop)
      (Q : outcome B -> W -> Prop) results key (k : bool -> M W B) :
  (forall r, triple (fun w => P w /\ results (view self w) = Some r)
                    (k (bool_decide (is_Some (r !! key)))) Q) ->
  (forall w, P w -> results (view self w) = None ->
             Q (Raised "TypeError") w) ->
  triple P (results_contains self results key ≫= k) Q.
Proof.
  intros Hk Hx e He.
  unfold results_contains, mbind, M_bind, gets, contains, mret, M_ret, raise.
  destruct (results (view self (objs e))) as [r|] eqn:Hr.
  - by apply (Hk r e).
  - by apply Hx.
Qed.

Lemma triple_results_add_bind {B} (P : W -> Prop)
      (Q : outcome B -> W -> Prop) results with_results key
      (k : unit -> M W B) :
  (forall r,
      triple (fun w' => exists w,
                  P w /\ results (view self w) = Some r
                  /\ w' = update self
                            (with_results (Some (<[key := true]> r))
                                          (view self w)) w)
             (k tt) Q) ->
  (forall w, P w -> results (view self w) = None ->
             Q (Raised "TypeError") w) ->
  triple P (results_add self results with_results key ≫= k) Q.
Proof.
  intros Hk Hx e He.
  unfold results_add, mbind, M_bind, gets, store, modify_self, mret, M_ret,
    raise.
  destruct (results (view self (objs e))) as [r|] eqn:Hr.
  - apply (Hk r). simpl. eauto.
  - by apply Hx.
Qed.
End Attributes.
End Triples.

(** Shows that a property of the objects is kept by a method, from the
    lemmas of the hint base for the calls that assign to attributes. *)
Ltac invariant :=
  autounfold with plugin in *;
  repeat first
    [ progress intros
    | solve [eauto 2 with plugin]
    | solve [apply triple_keeps; kept]
    | apply triple_inv_bind
    | match goal with
      | |- triple _ (if ?b then _ else _) _ => destruct b
      | |- triple _ (match ?x with _ => _ end) _ => destruct x
      end ].

(** ** Data that was seen is not looked up again *)

Lemma later_invariant {S} (handle : SpiderFootEvent -> M S unit)
      (I : S -> Prop) st st' :
  (forall event, triple I (handle event) (fun _ => I)) ->
  later handle st st' -> I st -> I st'.
Proof.
  intros Hinv Hlater Hst. induction Hlater as [|st st' event n _ IH]; [done|].
  unfold state_of, run.
  specialize (Hinv event (mkEnv st' n []) (IH Hst)).
  by destruct (handle event _) as [o e].
Qed.

Lemma triple_run {S A} (P : S -> Prop) (Q : outcome A -> S -> Prop)
      (m : M S A) st n :
  triple P m Q -> P st -> Q (outcome_of (run m st n)) (state_of (run m st n)).
Proof.
  intros Hm Hst. specialize (Hm (mkEnv st n []) Hst).
  unfold run, outcome_of, state_of. by destruct (m _) as [o e].
Qed.

Section ProjectDiscoveryDedup.
Context (sf : World).
Import sfp_projectdiscovery.

Let handle := handleEvent (self_id (S:=state)) sf notify_only.

Lemma pd_each_subdomain_keeps event subdomains resultsSet :
  keeps (each_subdomain (self_id (S:=state)) sf notify_only event subdomains resultsSet).
Proof.
  revert resultsSet.
  induction subdomains as [|subdomain rest IH]; intros resultsSet; simpl;
    [done|].
  apply keeps_bind; [kept|]. intros stop.
  destruct stop; [done|].
  destruct (negb _); [done|]. destruct (existsb _ _); [apply IH|].
  kept.
Qed.

Lemma pd_query_keeps qry : keeps (query (self_id (S:=state)) sf qry).
Proof. unfold query. kept. Qed.

Lemma pd_set_errorState_inv d :
  triple (blocked d) (set_errorState self_id true) (fun _ => blocked d).
Proof.
  apply triple_modify. intros st [Hready Hblocked]. simpl.
  split; [exact Hready | by left].
Qed.

Lemma pd_results_add_inv d key :
  triple (blocked d) (results_add self_id key) (fun _ => blocked d).
Proof.
  intros e [[[r Hr] Hkey] Hblocked].
  unfold results_add, Plugin.results_add. step_monad. rewrite Hr. step_monad.
  split; [split; [by eexists | exact Hkey]|].
  destruct Hblocked as [Herr | [Hk | (r' & Hr' & Hd)]];
    [by left | by right; left |].
  right; right. exists (<[key := true]> r). split; [done|].
  rewrite Hr in Hr'. injection Hr' as <-.
  destruct (decide (key = d)) as [->|Hne].
  - rewrite lookup_insert_eq. by eexists.
  - by rewrite lookup_insert_ne.
Qed.

(** What is blocked stays blocked. *)
Lemma pd_blocked_stays d event :
  triple (blocked d) (handle event) (fun _ => blocked d).
Proof.
  pose proof (pd_set_errorState_inv d).
  pose proof (pd_results_add_inv d).
  unfold handle, handleEvent. invariant.
  apply triple_keeps, pd_each_subdomain_keeps.
Qed.

(** The data of an Event that was handled is blocked. *)
Lemma pd_handled_is_blocked event :
  triple ready (handle event) (fun _ => blocked (data event)).
Proof.
  pose proof (pd_set_errorState_inv (data event)) as Hset.
  pose proof (pd_results_add_inv (data event)) as Hadd.
  unfold handle, handleEvent. cbv zeta.
  apply triple_gets_bind. intros err.
  destruct err.
  { apply triple_ret. intros st [Hready Herr]. simpl in Herr.
    split; [done | by left]. }
  apply triple_log_bind.
  apply triple_opt_bind.
  2:{ intros st [[_ [k Hk]] _] Hnone. simpl in Hnone. congruence. }
  intros api_key. destruct (eq_str api_key _) eqn:Hkey.
  { apply triple_log_bind.
    apply triple_modify. intros st [[Hready _] _]. simpl.
    split; [exact Hready | by left]. }
  apply triple_results_contains_bind.
  2:{ intros st [[[[r Hr] _] _] _] Hnone. simpl in Hnone. congruence. }
  intros r. destruct (bool_decide _) eqn:Hseen.
  { apply triple_keeps_last; [kept|].
    intros o st [[[Hready _] _] Hr]. split; [done|]. right; right.
    apply bool_decide_eq_true in Hseen. exists r. by split. }
  apply triple_results_add_bind.
  2:{ intros st [_ Hr] Hnone. simpl in *. congruence. }
  intros r'.
  eapply triple_conseq with (P' := blocked (data event))
                            (Q' := fun _ => blocked (data event)).
  - autounfold with plugin in *. invariant.
    apply triple_keeps, pd_each_subdomain_keeps.
  - intros st' (st & [[[Hready _] _] _] & Hr' & ->). simpl.
    destruct Hready as [_ Hk].
    split; [split; [by eexists | exact Hk]|].
    right; right. eexists. split; [reflexivity|].
    rewrite lookup_insert_eq. by eexists.
  - done.
Qed.

(** A blocked Event is answered without work. *)
Lemma pd_blocked_no_work event st n :
  blocked (data event) st ->
  outcome_of (run (handle event) st n) = Returned tt
  /\ no_work (trace_of (run (handle event) st n)).
Proof.
  intros [[[r Hr] [k Hk]] Hblocked].
  unfold handle, handleEvent. step_monad.
  destruct (errorState st) eqn:Herr; [by split; [|constructor]|].
  step_monad. rewrite Hk. step_monad.
  destruct (eq_str k _) eqn:Hkey; step_monad;
    [by split; [|repeat constructor]|].
  rewrite Hr. step_monad.
  destruct Hblocked as [? | [(k' & Hk' & Hempty) | (r' & Hr' & Hd)]];
    [congruence | congruence |].
  rewrite Hr in Hr'. injection Hr' as <-.
  rewrite bool_decide_eq_true_2 by done. step_monad.
  by split; [|repeat constructor].
Qed.

Lemma pd_later_blocked event1 st0 n1 st2 :
  ready st0 ->
  later handle (state_of (run (handle event1) st0 n1)) st2 ->
  blocked (data event1) st2.
Proof.
  intros Hready Hlater.
  eapply later_invariant; [apply pd_blocked_stays | exact Hlater |].
  exact (triple_run ready (fun _ => blocked (data event1)) _ _ _
                    (pd_handled_is_blocked event1) Hready).
Qed.
End ProjectDiscoveryDedup.

Section CinsscoreDedup.
Context (sf : World).
Import sfp_cinsscore.

Let handle := handleEvent (self_id (S:=state)) sf notify_only.

Lemma cs_each_line_keeps qry targetType lines :
  keeps (each_line sf qry targetType lines : M state _).
Proof.
  induction lines as [|line rest IH]; simpl; [done|]. kept.
Qed.

Lemma cs_set_errorState_inv d :
  triple (blocked d) (set_errorState self_id true) (fun _ => blocked d).
Proof.
  apply triple_modify. intros st [Hready Hblocked]. simpl.
  split; [exact Hready | by left].
Qed.

Lemma cs_results_add_inv d key :
  triple (blocked d) (results_add self_id key) (fun _ => blocked d).
Proof.
  intros e [[r Hr] Hblocked].
  unfold results_add, Plugin.results_add. step_monad. rewrite Hr. step_monad.
  split; [by eexists|].
  destruct Hblocked as [Herr | (r' & Hr' & Hd)]; [by left|].
  right. exists (<[key := true]> r). split; [done|].
  rewrite Hr in Hr'. injection Hr' as <-.
  destruct (decide (key = d)) as [->|Hne].
  - rewrite lookup_insert_eq. by eexists.
  - by rewrite lookup_insert_ne.
Qed.

Lemma cs_query_inv d qry targetType :
  triple (blocked d) (query self_id sf qry targetType) (fun _ => blocked d).
Proof.
  pose proof (cs_set_errorState_inv d).
  unfold query. cbv zeta. invariant.
  all: apply triple_keeps, cs_each_line_keeps.
Qed.

Lemma cs_check_inv d event option_ targetType evtType :
  triple (blocked d)
         (check self_id sf notify_only event option_ targetType evtType)
         (fun _ => blocked d).
Proof.
  pose proof (cs_query_inv d).
  unfold check. cbv zeta. invariant.
Qed.

Lemma cs_blocked_stays d event :
  triple (blocked d) (handle event) (fun _ => blocked d).
Proof.
  pose proof (cs_results_add_inv d).
  pose proof (cs_check_inv d).
  unfold handle, handleEvent. invariant.
Qed.

Lemma cs_handled_is_blocked event :
  triple ready (handle event) (fun _ => blocked (data event)).
Proof.
  pose proof (cs_check_inv (data event)) as Hcheck.
  unfold handle, handleEvent. cbv zeta.
  apply triple_log_bind.
  apply triple_results_contains_bind.
  2:{ intros st [r Hr] Hnone. simpl in Hnone. congruence. }
  intros r. destruct (bool_decide _) eqn:Hseen.
  { apply triple_keeps_last; [kept|].
    intros o st [Hready Hr]. split; [done|]. right.
    apply bool_decide_eq_true in Hseen. exists r. by split. }
  apply triple_gets_bind. intros err. destruct err.
  { apply triple_ret. intros st [[Hready _] Herr]. simpl in Herr.
    split; [done | by left]. }
  apply triple_results_add_bind.
  2:{ intros st [[[r' Hr'] _] _] Hnone. simpl in Hnone. congruence. }
  intros r'.
  eapply triple_conseq with (P' := blocked (data event))
                            (Q' := fun _ => blocked (data event)).
  - invariant.
  - intros st' (st & [[Hready _] _] & Hr' & ->). simpl.
    split; [by eexists|].
    right. eexists. split; [reflexivity|].
    rewrite lookup_insert_eq. by eexists.
  - done.
Qed.

Lemma cs_blocked_no_work event st n :
  blocked (data event) st ->
  outcome_of (run (handle event) st n) = Returned tt
  /\ no_work (trace_of (run (handle event) st n)).
Proof.
  intros [[r Hr] Hblocked].
  unfold handle, handleEvent. step_monad. rewrite Hr. step_monad.
  destruct (bool_decide _) eqn:Hseen; step_monad;
    [by split; [|repeat constructor]|].
  destruct Hblocked as [Herr | (r' & Hr' & Hd)].
  - rewrite Herr. by split; [|repeat constructor].
  - rewrite Hr in Hr'. injection Hr' as <-.
    apply bool_decide_eq_false in Hseen. done.
Qed.

Lemma cs_later_blocked event1 st0 n1 st2 :
  ready st0 ->
  later handle (state_of (run (handle event1) st0 n1)) st2 ->
  blocked (data event1) st2.
Proof.
  intros Hready Hlater.
  eapply later_invariant; [apply cs_blocked_stays | exact Hlater |].
  exact (triple_run ready (fun _ => blocked (data event1)) _ _ _
                    (cs_handled_is_blocked event1) Hready).
Qed.
End CinsscoreDedup.

Section BitcoinDedup.
Context (sf : World).
Import sfp_bitcoin.

Let handle := handleEvent (self_id (S:=state)) sf notify_only.

Lemma bc_each_match_keeps event matches :
  keeps (each_match sf notify_only event matches : M state _).
Proof.
  induction matches as [|m rest IH]; simpl; [done|].
  unfold check_bc. kept.
Qed.

Lemma bc_results_add_inv d key :
  triple (blocked sf d) (results_add self_id key) (fun _ => blocked sf d).
Proof.
  intros e (r & Hr & Hd).
  unfold results_add, Plugin.results_add. step_monad. rewrite Hr. step_monad.
  exists (<[key := true]> r). split; [done|].
  destruct (decide (key = hashstring sf d)) as [->|Hne].
  - rewrite lookup_insert_eq. by eexists.
  - by rewrite lookup_insert_ne.
Qed.

Lemma bc_blocked_stays d event :
  triple (blocked sf d) (handle event) (fun _ => blocked sf d).
Proof.
  pose proof (bc_results_add_inv d).
  unfold handle, handleEvent. cbv zeta. invariant.
  apply triple_keeps, bc_each_match_keeps.
Qed.

Lemma bc_handled_is_blocked event :
  triple ready (handle event) (fun _ => blocked sf (data event)).
Proof.
  unfold handle, handleEvent. cbv zeta.
  apply triple_results_contains_bind.
  2:{ intros st [r Hr] Hnone. simpl in Hnone. congruence. }
  intros r. destruct (bool_decide _) eqn:Hseen.
  { apply triple_ret. intros st [Hready Hr].
    apply bool_decide_eq_true in Hseen. exists r. by split. }
  apply triple_results_add_bind.
  2:{ intros st [[r' Hr'] _] Hnone. simpl in Hnone. congruence. }
  intros r'.
  eapply triple_conseq with (P' := blocked sf (data event))
                            (Q' := fun _ => blocked sf (data event)).
  - apply triple_log_bind. apply triple_keeps, bc_each_match_keeps.
  - intros st' (st & [Hready _] & Hr' & ->). simpl.
    eexists. split; [reflexivity|].
    rewrite lookup_insert_eq. by eexists.
  - done.
Qed.

Lemma bc_blocked_no_work event st n :
  blocked sf (data event) st ->
  outcome_of (run (handle event) st n) = Returned tt
  /\ no_work (trace_of (run (handle event) st n)).
Proof.
  intros (r & Hr & Hd).
  unfold handle, handleEvent. step_monad. rewrite Hr. step_monad.
  rewrite bool_decide_eq_true_2 by done.
  by split; [|constructor].
Qed.

Lemma bc_later_blocked event1 st0 n1 st2 :
  ready st0 ->
  later handle (state_of (run (handle event1) st0 n1)) st2 ->
  blocked sf (data event1) st2.
Proof.
  intros Hready Hlater.
  eapply later_invariant; [apply bc_blocked_stays | exact Hlater |].
  exact (triple_run ready (fun _ => blocked sf (data event1)) _ _ _
                    (bc_handled_is_blocked event1) Hready).
Qed.
End BitcoinDedup.

Lemma no_work_existsb t : no_work t -> existsb is_work t = false.
Proof.
  induction 1 as [|a t Ha _ IH]; [done|]. simpl. by rewrite Ha, IH.
Qed.

(** [sfp_email] handles the same content twice: each call reports the
    address it finds. *)
Example email_twice :
  let handle := sfp_email.handleEvent self_id Examples.world notify_only in
  let st0 := sfp_email.setup Examples.global_opts sfp_email.initial in
  let first := run (handle Examples.content_event) st0 0 in
  let second := run (handle Examples.content_event) (state_of first) 0 in
  filter (fun a => is_work a = true) (trace_of first)
  = [Notify (mkEvent "EMAILADDR" "bob@example.com" "sfp_email"
                     (Some Examples.content_event) (Some "Unknown"))]
  /\ trace_of second = trace_of first.
Proof. vm_compute. split; reflexivity. Qed.

(** C2, as the claim states it for every module, fails: [sfp_email] keeps
    no set of seen data, and a second Event with the same data is handled
    like the first. *)
Lemma C2_email_counterexample :
  ~ skips_seen_data
      (sfp_email.handleEvent self_id Examples.world notify_only)
      (sfp_email.setup Examples.global_opts sfp_email.initial).
Proof.
  intros Hskip.
  destruct (Hskip Examples.content_event Examples.content_event 0 0 _
                  eq_refl (later_now _ _)) as [_ Hnone].
  apply no_work_existsb in Hnone. vm_compute in Hnone. discriminate.
Qed.

(** C2, amended: [sfp_projectdiscovery], [sfp_cinsscore] and [sfp_bitcoin],
    which check their storage of seen data at the top of [handleEvent],
    skip data they have seen: after [setup] and a call with data [d], every
    later call with the same data, whatever the type and the source of the
    Event and whatever was handled in between, returns without a query and
    without an Event. *)
Theorem C2_seen_data_is_skipped
        (sf : World)
        (pd0 : sfp_projectdiscovery.state)
        (cs0 : sfp_cinsscore.state)
        (bc0 : sfp_bitcoin.state) :
  sfp_projectdiscovery.ready pd0 ->
  sfp_cinsscore.ready cs0 ->
  sfp_bitcoin.ready bc0 ->
  skips_seen_data (sfp_projectdiscovery.handleEvent self_id sf notify_only) pd0
  /\ skips_seen_data (sfp_cinsscore.handleEvent self_id sf notify_only) cs0
  /\ skips_seen_data (sfp_bitcoin.handleEvent self_id sf notify_only) bc0.
Proof.
  intros Hpd Hcs Hbc. split; [|split].
  - intros event1 event2 n1 n2 st2 Hdata Hlater.
    apply pd_blocked_no_work. rewrite Hdata. by eapply pd_later_blocked.
  - intros event1 event2 n1 n2 st2 Hdata Hlater.
    apply cs_blocked_no_work. rewrite Hdata. by eapply cs_later_blocked.
  - intros event1 event2 n1 n2 st2 Hdata Hlater.
    apply bc_blocked_no_work. rewrite Hdata. by eapply bc_later_blocked.
Qed.

Lemma setup_is_ready (userOpts : gmap string pyval) :
  sfp_projectdiscovery.ready
    (sfp_projectdiscovery.setup userOpts sfp_projectdiscovery.initial)
  /\ sfp_cinsscore.ready (sfp_cinsscore.setup userOpts sfp_cinsscore.initial)
  /\ sfp_bitcoin.ready (sfp_bitcoin.setup userOpts sfp_bitcoin.initial).
Proof.
  repeat split; try by eexists.
  unfold sfp_projectdiscovery.setup, sfp_projectdiscovery.initial. simpl.
  apply lookup_union_is_Some. right.
  rewrite lookup_insert_eq. by eexists.
Qed.

Lemma C2_seen_data_is_skipped_witness :
  sfp_projectdiscovery.ready
    (sfp_projectdiscovery.setup Examples.opts_with_key
                                sfp_projectdiscovery.initial)
  /\ sfp_cinsscore.ready
       (sfp_cinsscore.setup Examples.global_opts sfp_cinsscore.initial)
  /\ sfp_bitcoin.ready
       (sfp_bitcoin.setup Examples.global_opts sfp_bitcoin.initial)
  /\ (skips_seen_data
        (sfp_projectdiscovery.handleEvent self_id Examples.world notify_only)
        (sfp_projectdiscovery.setup Examples.opts_with_key
                                    sfp_projectdiscovery.initial)
      /\ skips_seen_data
           (sfp_cinsscore.handleEvent self_id Examples.world notify_only)
           (sfp_cinsscore.setup Examples.global_opts sfp_cinsscore.initial)
      /\ skips_seen_data
           (sfp_bitcoin.handleEvent self_id Examples.world notify_only)
           (sfp_bitcoin.setup Examples.global_opts sfp_bitcoin.initial)).
Proof.
  destruct (setup_is_ready Examples.opts_with_key) as (H1 & _ & _).
  destruct (setup_is_ready Examples.global_opts) as (_ & H2 & H3).
  repeat (split; [assumption|]).
  exact (C2_seen_data_is_skipped Examples.world _ _ _ H1 H2 H3).
Defined.

(** [sfp_projectdiscovery] handles a domain, and then the same data once
    more, under another type: the first call queries and emits, the second
    writes a debug line. *)
Example projectdiscovery_twice :
  let handle :=
    sfp_projectdiscovery.handleEvent self_id Examples.world notify_only in
  let st0 := sfp_projectdiscovery.setup Examples.opts_with_key
                                        sfp_projectdiscovery.initial in
  let first := run (handle Examples.domain_event) st0 0 in
  let again := mkEvent "INTERNET_NAME" "example.com" "sfp_other" None None in
  existsb is_work (trace_of first) = true
  /\ run (handle again) (state_of first) 2
     = (Returned tt, state_of first,
        [Log "debug" "Received event, INTERNET_NAME, from sfp_other";
         Log "debug" "Skipping example.com, already checked."]).
Proof. vm_compute. split; reflexivity. Qed.

(** ** Transient errors of the source *)

(** [sfp_projectdiscovery]: the query of a new domain fails in a way that
    [query] expects.  The call writes a line to the log and returns; the
    domain is marked as seen and [errorState] stays unset. *)
Lemma pd_transient_error sf event st n r k timeout :
  sfp_projectdiscovery.upstream_fails sf ->
  eventType event = "DOMAIN_NAME" ->
  sfp_projectdiscovery.errorState st = false ->
  sfp_projectdiscovery.results st = Some r ->
  r !! data event = None ->
  sfp_projectdiscovery.opts st !! "api_key" = Some k ->
  eq_str k EmptyString = false ->
  sfp_projectdiscovery.opts st !! "_fetchtimeout" = Some timeout ->
  exists level msg,
    run (sfp_projectdiscovery.handleEvent self_id sf notify_only event) st n
    = (Returned tt,
       sfp_projectdiscovery.with_results (Some (<[data event := true]> r)) st,
       [Log "debug" ("Received event, DOMAIN_NAME, from " +:+ module event);
        Fetch ("https://dns.projectdiscovery.io/dns/" +:+ data event
                 +:+ "/subdomains");
        Log level msg])
    /\ (level = "info" \/ level = "error").
Proof.
  intros Hfails Htype Herr Hr Hnew Hk Hkey Htimeout.
  unfold sfp_projectdiscovery.handleEvent, sfp_projectdiscovery.query.
  assert (Hseen : bool_decide (is_Some (r !! data event)) = false)
    by (rewrite Hnew; apply bool_decide_eq_false_2; by intros [? ?]).
  repeat (step_monad;
          rewrite ?Herr, ?Hk, ?Hkey, ?Hr, ?Hseen, ?Htype, ?Htimeout; simpl).
  match goal with
  | |- context [fetchUrl sf ?u ?kw] =>
      destruct (Hfails u kw) as (res & -> & Hres)
  end.
  destruct (content res) as [content_|].
  - rewrite Hres. step_monad. eexists _, _. split; [reflexivity | by right].
  - step_monad. eexists _, _. split; [reflexivity | by left].
Qed.

(** The same query brings what [query] does not expect: no result, or
    bytes that are no text.  The exception leaves [handleEvent]; the
    domain is marked as seen. *)
Lemma pd_unreadable_error sf event st n r k timeout :
  sfp_projectdiscovery.unreadable sf ->
  eventType event = "DOMAIN_NAME" ->
  sfp_projectdiscovery.errorState st = false ->
  sfp_projectdiscovery.results st = Some r ->
  r !! data event = None ->
  sfp_projectdiscovery.opts st !! "api_key" = Some k ->
  eq_str k EmptyString = false ->
  sfp_projectdiscovery.opts st !! "_fetchtimeout" = Some timeout ->
  exists x,
    run (sfp_projectdiscovery.handleEvent self_id sf notify_only event) st n
    = (Raised x,
       sfp_projectdiscovery.with_results (Some (<[data event := true]> r)) st,
       [Log "debug" ("Received event, DOMAIN_NAME, from " +:+ module event);
        Fetch ("https://dns.projectdiscovery.io/dns/" +:+ data event
                 +:+ "/subdomains")])
    /\ (x = "TypeError" \/ x = "UnicodeDecodeError").
Proof.
  intros Hbad Htype Herr Hr Hnew Hk Hkey Htimeout.
  unfold sfp_projectdiscovery.handleEvent, sfp_projectdiscovery.query.
  assert (Hseen : bool_decide (is_Some (r !! data event)) = false)
    by (rewrite Hnew; apply bool_decide_eq_false_2; by intros [? ?]).
  repeat (step_monad;
          rewrite ?Herr, ?Hk, ?Hkey, ?Hr, ?Hseen, ?Htype, ?Htimeout; simpl).
  match goal with
  | |- context [fetchUrl sf ?u ?kw] =>
      destruct (Hbad u kw) as [->|(res & b & -> & Hres & Hb)]
  end.
  - step_monad. eexists. split; [reflexivity | by left].
  - rewrite Hres. unfold sfp_projectdiscovery.loads. rewrite Hb. step_monad.
    eexists. split; [reflexivity | by right].
Qed.

(** [sfp_cinsscore]: the list cannot be had for a new address.  The call
    writes a line to the log and returns without an Event, and it sets
    [errorState]. *)
Lemma cs_transient_error sf event st n r timeout useragent :
  sfp_cinsscore.unavailable sf ->
  eventType event = "IP_ADDRESS" ->
  sfp_cinsscore.errorState st = false ->
  sfp_cinsscore.results st = Some r ->
  r !! data event = None ->
  sfp_cinsscore.opts st !! "_fetchtimeout" = Some timeout ->
  sfp_cinsscore.opts st !! "_useragent" = Some useragent ->
  run (sfp_cinsscore.handleEvent self_id sf notify_only event) st n
  = (Returned tt,
     sfp_cinsscore.with_errorState true
       (sfp_cinsscore.with_results (Some (<[data event := true]> r)) st),
     [Log "debug" ("Received event, IP_ADDRESS, from " +:+ module event);
      Log "debug" ("Checking maliciousness of " +:+ data event
                     +:+ " with cinsscore.com");
      Fetch sfp_cinsscore.url;
      Log "error" ("Unable to fetch " +:+ sfp_cinsscore.url)]).
Proof.
  intros [Hcache Hfetch] Htype Herr Hr Hnew Htimeout Huseragent.
  unfold sfp_cinsscore.handleEvent, sfp_cinsscore.check, sfp_cinsscore.query.
  assert (Hseen : bool_decide (is_Some (r !! data event)) = false)
    by (rewrite Hnew; apply bool_decide_eq_false_2; by intros [? ?]).
  repeat (step_monad;
          rewrite ?Herr, ?Hr, ?Hseen, ?Htype, ?Hcache, ?Htimeout, ?Huseragent;
          simpl).
  match goal with
  | |- context [fetchUrl sf ?u ?kw] =>
      destruct (Hfetch u kw) as (data_ & -> & Hdata)
  end.
  destruct (bool_decide (code data_ = Some "200")) eqn:Hcode;
    simpl; step_monad; [|reflexivity].
  apply bool_decide_eq_true in Hcode.
  destruct Hdata as [Hne | Hnone]; [done|].
  rewrite Hnone. step_monad. reflexivity.
Qed.

(** The same fetch brings what [query] does not expect.  The exception
    leaves [handleEvent]; the address is marked as seen and [errorState]
    stays unset. *)
Lemma cs_unreadable_error sf event st n r timeout useragent :
  sfp_cinsscore.unreadable sf ->
  eventType event = "IP_ADDRESS" ->
  sfp_cinsscore.errorState st = false ->
  sfp_cinsscore.results st = Some r ->
  r !! data event = None ->
  sfp_cinsscore.opts st !! "_fetchtimeout" = Some timeout ->
  sfp_cinsscore.opts st !! "_useragent" = Some useragent ->
  exists x t,
    run (sfp_cinsscore.handleEvent self_id sf notify_only event) st n
    = (Raised x,
       sfp_cinsscore.with_results (Some (<[data event := true]> r)) st,
       [Log "debug" ("Received event, IP_ADDRESS, from " +:+ module event);
        Log "debug" ("Checking maliciousness of " +:+ data event
                       +:+ " with cinsscore.com");
        Fetch sfp_cinsscore.url] ++ t)
    /\ (x = "TypeError" \/ x = "UnicodeDecodeError")
    /\ no_event t.
Proof.
  intros [Hcache Hfetch] Htype Herr Hr Hnew Htimeout Huseragent.
  unfold sfp_cinsscore.handleEvent, sfp_cinsscore.check, sfp_cinsscore.query.
  assert (Hseen : bool_decide (is_Some (r !! data event)) = false)
    by (rewrite Hnew; apply bool_decide_eq_false_2; by intros [? ?]).
  repeat (step_monad;
          rewrite ?Herr, ?Hr, ?Hseen, ?Htype, ?Hcache, ?Htimeout, ?Huseragent;
          simpl).
  match goal with
  | |- context [fetchUrl sf ?u ?kw] =>
      destruct (Hfetch u kw) as [->|(data_ & b & -> & Hcode & Hbytes)]
  end.
  - step_monad. exists "TypeError", []. split; [reflexivity|].
    split; [by left | constructor].
  - rewrite Hcode, Hbytes. rewrite bool_decide_eq_true_2 by done.
    simpl. step_monad. eexists "UnicodeDecodeError", [_].
    split; [reflexivity|]. split; [by right | by repeat constructor].
Qed.

Lemma world_offline_unavailable :
  sfp_cinsscore.unavailable Examples.world_offline
  /\ sfp_projectdiscovery.upstream_fails Examples.world_offline.
Proof.
  split; [split|].
  - reflexivity.
  - intros url_ kwargs. eexists. split; [reflexivity | by right].
  - intros url kwargs. eexists. by split.
Qed.

Lemma world_no_result_unreadable :
  sfp_cinsscore.unreadable Examples.world_no_result
  /\ sfp_projectdiscovery.unreadable Examples.world_no_result.
Proof.
  split; [split|].
  - reflexivity.
  - intros url_ kwargs. by left.
  - intros url kwargs. by left.
Qed.




(** The runs of the two modules when the fetch returns [None], and when
    it brings bytes that are no text. *)
Example unreadable_runs :
  let pd_run w :=
    outcome_of
      (run (sfp_projectdiscovery.handleEvent self_id w notify_only
              Examples.domain_event)
           (sfp_projectdiscovery.setup Examples.opts_with_key
                                       sfp_projectdiscovery.initial) 0) in
  let cs_run w :=
    outcome_of
      (run (sfp_cinsscore.handleEvent self_id w notify_only Examples.ip_event)
           (sfp_cinsscore.setup Examples.global_opts sfp_cinsscore.initial)
           0) in
  pd_run Examples.world_no_result = Raised "TypeError"
  /\ cs_run Examples.world_no_result = Raised "TypeError"
  /\ pd_run Examples.world_bytes = Raised "UnicodeDecodeError"
  /\ cs_run Examples.world_bytes = Raised "UnicodeDecodeError".
Proof. by vm_compute. Qed.

(** A response that is JSON, but no object: [result.get] raises, and the
    exception leaves [handleEvent]. *)
Example projectdiscovery_list_response :
  outcome_of
    (run (sfp_projectdiscovery.handleEvent self_id Examples.world_list_response
            notify_only Examples.domain_event)
         (sfp_projectdiscovery.setup Examples.opts_with_key
                                     sfp_projectdiscovery.initial) 0)
  = Raised "AttributeError".
Proof. vm_compute. reflexivity. Qed.

(** ** What [setup] resets *)

(** [sfp_cinsscore.setup] resets the storage and the error flag. *)
Lemma cs_setup_resets userOpts st :
  sfp_cinsscore.results (sfp_cinsscore.setup userOpts st) = Some ∅
  /\ sfp_cinsscore.errorState (sfp_cinsscore.setup userOpts st) = false.
Proof. done. Qed.

(** [sfp_projectdiscovery.setup] resets the storage, and leaves the error
    flag as it finds it. *)
Lemma pd_setup_keeps_errorState userOpts st :
  sfp_projectdiscovery.results (sfp_projectdiscovery.setup userOpts st)
  = Some ∅
  /\ sfp_projectdiscovery.errorState (sfp_projectdiscovery.setup userOpts st)
     = sfp_projectdiscovery.errorState st.
Proof. done. Qed.

(** C4 fails on the code.  An instance of [sfp_projectdiscovery] whose
    error flag was set in one scan (no API key) keeps the flag through the
    [setup] of the next scan, and then ignores the Event that a new
    instance with the same options looks up.  An instance of
    [sfp_portscan_tcp] that is set up a second time keeps its error flag
    too, and has every port twice in its port list. *)
Theorem C4_setup_leaves_state_behind :
  let pd_again :=
    sfp_projectdiscovery.setup Examples.opts_with_key Examples.pd_without_key in
  let pd_new :=
    sfp_projectdiscovery.setup Examples.opts_with_key
                               sfp_projectdiscovery.initial in
  let handle_pd :=
    sfp_projectdiscovery.handleEvent self_id Examples.world notify_only in
  let setup_ps :=
    sfp_portscan_tcp.setup self_id Examples.world (fun l => l)
                           Examples.opts_two_ports_in_order in
  let ps_once := state_of (run setup_ps sfp_portscan_tcp.initial 0) in
  let ps_twice := state_of (run setup_ps ps_once 0) in
  let ps_again := state_of (run setup_ps Examples.ps_without_ports 0) in
  (sfp_projectdiscovery.errorState pd_new = false
   /\ sfp_projectdiscovery.errorState pd_again = true
   /\ run (handle_pd Examples.domain_event) pd_again 0
      = (Returned tt, pd_again, [])
   /\ existsb is_work (trace_of (run (handle_pd Examples.domain_event)
                                     pd_new 0)) = true)
  /\ (sfp_portscan_tcp.portlist ps_once = [22; 80]%Z
      /\ sfp_portscan_tcp.portlist ps_twice = [22; 80; 22; 80]%Z
      /\ sfp_portscan_tcp.errorState ps_again = true).
Proof. vm_compute. repeat split; reflexivity. Qed.

(** ** The order of what a scan dispatches *)

(** Two runs of [sfp_portscan_tcp] on one address, with the two ports 22
    and 80 in its options: what is dispatched follows the order that the
    shuffle gives to the port list. *)
Example portscan_runs :
  let run_with shuffle :=
    Dispatcher.dispatched
      (trace_of (Dispatcher.scan_run Examples.world shuffle
                   [Dispatcher.PortscanTcp] Examples.opts_two_ports 5
                   "93.184.216.34")) in
  run_with (fun l => l)
  = [("ROOT", "93.184.216.34", EmptyString);
     ("TCP_PORT_OPEN", "93.184.216.34:22", "sfp_portscan_tcp");
     ("TCP_PORT_OPEN_BANNER", "SSH-2.0", "sfp_portscan_tcp");
     ("TCP_PORT_OPEN", "93.184.216.34:80", "sfp_portscan_tcp")]
  /\ run_with (@rev Z)
     = [("ROOT", "93.184.216.34", EmptyString);
        ("TCP_PORT_OPEN", "93.184.216.34:80", "sfp_portscan_tcp");
        ("TCP_PORT_OPEN", "93.184.216.34:22", "sfp_portscan_tcp");
        ("TCP_PORT_OPEN_BANNER", "SSH-2.0", "sfp_portscan_tcp")].
Proof. vm_compute. split; reflexivity. Qed.

(** The same two ports with the option [randomize] off, in two runs that
    shuffle alike: what is dispatched follows the order in which the set
    of the ports is iterated, and the order in which the two threads
    finish. *)
Example portscan_runs_without_randomize :
  let run_in sf :=
    Dispatcher.dispatched
      (trace_of (Dispatcher.scan_run sf (fun l => l)
                   [Dispatcher.PortscanTcp] Examples.opts_two_ports_in_order
                   5 "93.184.216.34")) in
  let forth := [("ROOT", "93.184.216.34", EmptyString);
                ("TCP_PORT_OPEN", "93.184.216.34:22", "sfp_portscan_tcp");
                ("TCP_PORT_OPEN_BANNER", "SSH-2.0", "sfp_portscan_tcp");
                ("TCP_PORT_OPEN", "93.184.216.34:80", "sfp_portscan_tcp")] in
  let back := [("ROOT", "93.184.216.34", EmptyString);
               ("TCP_PORT_OPEN", "93.184.216.34:80", "sfp_portscan_tcp");
               ("TCP_PORT_OPEN", "93.184.216.34:22", "sfp_portscan_tcp");
               ("TCP_PORT_OPEN_BANNER", "SSH-2.0", "sfp_portscan_tcp")] in
  run_in Examples.world = forth
  /\ run_in (Examples.other_run (@rev pyval) (fun l => l) Examples.world)
     = back
  /\ run_in (Examples.other_run (fun l => l) (@rev Z) Examples.world)
     = back.
Proof. vm_compute. repeat split; reflexivity. Qed.

Lemma same_answers_other_run sets threads sf :
  Dispatcher.same_answers sf (Examples.other_run sets threads sf).
Proof.
  unfold Dispatcher.same_answers. cbn.
  repeat split; try reflexivity. intros data_. apply Permutation_rev.
Qed.


(** *** Modules that do not look at the order of a run *)

(** Calls that do the same in every state. *)
Lemma same_bind {W A B} (m1 m2 : M W A) (f1 f2 : A -> M W B) e :
  (forall e', m1 e' = m2 e') -> (forall a e', f1 a e' = f2 a e') ->
  (m1 ≫= f1) e = (m2 ≫= f2) e.
Proof.
  intros Hm Hf. unfold mbind, M_bind. rewrite Hm.
  destruct (m2 e) as [[a|x] e1]; [apply Hf | done].
Qed.

Lemma same_try_except {W A} (m1 m2 : M W A) h e :
  (forall e', m1 e' = m2 e') -> try_except m1 h e = try_except m2 h e.
Proof. intros Hm. unfold try_except. by rewrite Hm. Qed.

Lemma same_mapM {W A B} (f g : A -> M W B) l e :
  (forall a e', a ∈ l -> f a e' = g a e') -> mapM f l e = mapM g l e.
Proof.
  revert e. induction l as [|a l IH]; intros e Hfg; [done|].
  cbn [mapM]. apply same_bind.
  - intros e'. apply Hfg, list_elem_of_here.
  - intros b e'. apply same_bind; [|done].
    intros e''. apply IH. intros a' e3 Ha'. by apply Hfg, list_elem_of_further.
Qed.

(** Splits two methods that differ in the calls [H] speaks of. *)
Ltac same_calls H :=
  repeat first
    [ reflexivity
    | apply H
    | apply same_bind; [intros ? | intros ? ?]
    | match goal with
      | |- (if ?b then _ else _) _ = (if ?b then _ else _) _ => destruct b
      | |- (match ?x with _ => _ end) _ = (match ?x with _ => _ end) _ =>
          destruct x
      end ].

Section SameAnswers.
Import Dispatcher.
Context (sf1 sf2 : World).
Hypothesis same : same_answers sf1 sf2.

(** Writes the second world for the first, wherever the goal asks the
    first for an answer. *)
Ltac same_fields :=
  destruct same as (Hfetch & Hresolve & Hcache & Hhash & Hopt & _ & Hvalid
                    & Htarget & Hstop & Hloads & Hdecode & Hstr & Hutf8
                    & Hsha & Hnet & Hin & Hport & Hempty);
  rewrite ?Hfetch, ?Hresolve, ?Hcache, ?Hhash, ?Hopt, ?Hvalid, ?Htarget,
    ?Hstop, ?Hloads, ?Hdecode, ?Hstr, ?Hutf8, ?Hsha, ?Hnet, ?Hin, ?Hport,
    ?Hempty.

(** The three modules ask the world for answers only: their code names
    neither the order of a set, nor that of threads, nor [parseEmails]. *)
Lemma pd_same_world {W} (self : lens W sfp_projectdiscovery.state) :
  sfp_projectdiscovery.handleEvent self sf1
  = sfp_projectdiscovery.handleEvent self sf2.
Proof.
  unfold sfp_projectdiscovery.handleEvent, sfp_projectdiscovery.query,
    sfp_projectdiscovery.each_subdomain, sfp_projectdiscovery.loads,
    sfp_projectdiscovery.format_value,
    sf_fetchUrl, sf_resolveHost, new_event, checkForStop.
  same_fields. reflexivity.
Qed.

Lemma cs_same_world {W} (self : lens W sfp_cinsscore.state) :
  sfp_cinsscore.handleEvent self sf1 = sfp_cinsscore.handleEvent self sf2.
Proof.
  unfold sfp_cinsscore.handleEvent, sfp_cinsscore.check, sfp_cinsscore.query,
    sfp_cinsscore.each_line, sf_fetchUrl, new_event.
  same_fields. reflexivity.
Qed.

Lemma bc_same_world {W} (self : lens W sfp_bitcoin.state) :
  sfp_bitcoin.handleEvent self sf1 = sfp_bitcoin.handleEvent self sf2.
Proof.
  unfold sfp_bitcoin.handleEvent, sfp_bitcoin.each_match, sfp_bitcoin.check_bc,
    new_event.
  same_fields. reflexivity.
Qed.

Lemma checkForStop_same_world {W} :
  (checkForStop sf1 : M W bool) = checkForStop sf2.
Proof. unfold checkForStop. same_fields. reflexivity. Qed.

Lemma construct_same_world type_ data_ generatedBy source :
  construct (allowed_empty sf1) type_ data_ generatedBy source
  = construct (allowed_empty sf2) type_ data_ generatedBy source.
Proof. same_fields. reflexivity. Qed.
End SameAnswers.

(** What a module does depends on [notifyListeners] by what it does to the
    Events handed to it. *)
Section SameListeners.
Context {W : Type} (sf : World) (notify1 notify2 : SpiderFootEvent -> M W unit).
Hypothesis same_notify : forall event e, notify1 event e = notify2 event e.

Lemma pd_each_subdomain_same (self : lens W sfp_projectdiscovery.state)
      event subdomains :
  forall resultsSet e,
    sfp_projectdiscovery.each_subdomain self sf notify1 event subdomains
      resultsSet e
    = sfp_projectdiscovery.each_subdomain self sf notify2 event subdomains
        resultsSet e.
Proof.
  induction subdomains as [|subdomain rest IH]; intros resultsSet e; [done|].
  cbn [sfp_projectdiscovery.each_subdomain].
  same_calls same_notify; apply IH.
Qed.

Lemma pd_same_listeners (self : lens W sfp_projectdiscovery.state) event e :
  sfp_projectdiscovery.handleEvent self sf notify1 event e
  = sfp_projectdiscovery.handleEvent self sf notify2 event e.
Proof.
  unfold sfp_projectdiscovery.handleEvent.
  same_calls same_notify; apply pd_each_subdomain_same.
Qed.

Lemma cs_same_listeners (self : lens W sfp_cinsscore.state) event e :
  sfp_cinsscore.handleEvent self sf notify1 event e
  = sfp_cinsscore.handleEvent self sf notify2 event e.
Proof.
  unfold sfp_cinsscore.handleEvent, sfp_cinsscore.check.
  same_calls same_notify.
Qed.

Lemma bc_each_match_same event matches :
  forall e,
    sfp_bitcoin.each_match sf notify1 event matches e
    = sfp_bitcoin.each_match sf notify2 event matches e.
Proof.
  induction matches as [|m rest IH]; intros e; [done|].
  cbn [sfp_bitcoin.each_match]. same_calls same_notify; apply IH.
Qed.

Lemma bc_same_listeners (self : lens W sfp_bitcoin.state) event e :
  sfp_bitcoin.handleEvent self sf notify1 event e
  = sfp_bitcoin.handleEvent self sf notify2 event e.
Proof.
  unfold sfp_bitcoin.handleEvent.
  same_calls same_notify; apply bc_each_match_same.
Qed.
End SameListeners.

Section SameRuns.
Import Dispatcher.
Context (sf1 sf2 : World) (shuffle1 shuffle2 : list Z -> list Z)
        (registered : list plugin) (userOpts : gmap string pyval).
Hypothesis same : same_answers sf1 sf2.
(** The registered modules are among the three. *)
Hypothesis ordered :
  forall p, p ∈ registered -> p ∈ [ProjectDiscovery; Cinsscore; Bitcoin].

Lemma ordered_cases p :
  p ∈ registered -> p = ProjectDiscovery \/ p = Cinsscore \/ p = Bitcoin.
Proof.
  intros Hp%ordered. repeat (apply elem_of_cons in Hp as [->|Hp]; [auto|]).
  by apply elem_of_nil in Hp.
Qed.

Lemma handleEvent_same p notify1 notify2 event e :
  p ∈ registered ->
  (forall ev e', notify1 ev e' = notify2 ev e') ->
  handleEvent sf1 p notify1 event e = handleEvent sf2 p notify2 event e.
Proof.
  intros Hp Hnotify. unfold handleEvent.
  destruct (ordered_cases p Hp) as [->|[->| ->]].
  - rewrite (pd_same_world sf1 sf2 same). by apply pd_same_listeners.
  - rewrite (cs_same_world sf1 sf2 same). by apply cs_same_listeners.
  - rewrite (bc_same_world sf1 sf2 same). by apply bc_same_listeners.
Qed.

Lemma deliver_same p notify1 notify2 event e :
  p ∈ registered ->
  (forall ev e', notify1 ev e' = notify2 ev e') ->
  deliver sf1 notify1 event p e = deliver sf2 notify2 event p e.
Proof.
  intros Hp Hnotify. unfold deliver.
  rewrite (checkForStop_same_world sf1 sf2 same).
  destruct (String.eqb _ _); [done|].
  apply same_bind; [done|]. intros err e1. destruct err; [done|].
  apply same_bind; [done|]. intros stop e2. destruct stop; [done|].
  apply same_try_except. intros e3. by apply handleEvent_same.
Qed.

Lemma dispatch_same depth :
  forall type_ event e,
    dispatch sf1 registered depth type_ event e
    = dispatch sf2 registered depth type_ event e.
Proof.
  induction depth as [|depth IH]; intros type_ event e; [done|].
  cbn [dispatch]. apply same_bind; [done|]. intros _ e1.
  apply same_bind; [|done]. intros e2. apply same_mapM.
  intros p e3 Hp. apply deliver_same.
  - unfold routingTable in Hp. by apply list_elem_of_filter in Hp as [_ Hp].
  - intros ev e4. apply IH.
Qed.

Lemma setup_same p e :
  p ∈ registered ->
  setup sf1 shuffle1 userOpts p e = setup sf2 shuffle2 userOpts p e.
Proof. intros Hp. by destruct (ordered_cases p Hp) as [->|[->| ->]]. Qed.

Lemma scan_run_same depth seed :
  scan_run sf1 shuffle1 registered userOpts depth seed
  = scan_run sf2 shuffle2 registered userOpts depth seed.
Proof.
  unfold scan_run, run.
  rewrite (same_bind (mapM (setup sf1 shuffle1 userOpts) registered)
                     (mapM (setup sf2 shuffle2 userOpts) registered)
                     (fun _ => start sf1 registered depth seed)
                     (fun _ => start sf2 registered depth seed)); [done| |].
  - intros e. apply same_mapM. intros p e' Hp. by apply setup_same.
  - intros _ e. unfold start.
    destruct (TargetType.targetType seed) as [type_|]; [|done].
    rewrite (construct_same_world sf1 sf2 same).
    apply same_bind; [done|]. intros root e'. apply dispatch_same.
Qed.
End SameRuns.



(** Two runs of the three modules of the witness, the second one
    shuffling, iterating sets and finishing threads the other way round:
    what follows from an address and from a domain name handed to the
    dispatcher after [setup]. *)
Example ordered_modules_runs :
  let registered := [Dispatcher.Cinsscore; Dispatcher.ProjectDiscovery;
                     Dispatcher.Bitcoin] in
  let run_in sf shuffle event :=
    Dispatcher.dispatched
      (trace_of
         (run (mapM (Dispatcher.setup sf shuffle Examples.opts_with_key)
                    registered;;
               Dispatcher.dispatch sf registered 5 (eventType event) event)
              Dispatcher.created 0)) in
  let other := Examples.other_run (@rev pyval) (@rev Z)
                                  CachedList.world_cached in
  run_in CachedList.world_cached (fun l => l) Examples.ip_event
  = [("IP_ADDRESS", "93.184.216.34", "sfp_dnsresolve");
     ("MALICIOUS_IPADDR",
      "cinsscore.com [93.184.216.34]"
        +:+ String Re.newline
              "<SFURL>http://cinsscore.com/list/ci-badguys.txt</SFURL>",
      "sfp_cinsscore")]
  /\ run_in other (@rev Z) Examples.ip_event
     = run_in CachedList.world_cached (fun l => l) Examples.ip_event
  /\ run_in CachedList.world_cached (fun l => l) Examples.domain_event
     = [("DOMAIN_NAME", "example.com", "sfp_dnsresolve");
        ("RAW_RIR_DATA", "{'subdomains': ['www', 'mail']}",
         "sfp_projectdiscovery");
        ("INTERNET_NAME", "www.example.com", "sfp_projectdiscovery");
        ("INTERNET_NAME", "mail.example.com", "sfp_projectdiscovery")]
  /\ run_in other (@rev Z) Examples.domain_event
     = run_in CachedList.world_cached (fun l => l) Examples.domain_event.
Proof. vm_compute. repeat split; reflexivity. Qed.

(** ** The lineage of the Events of a scan *)

Section Notifies.
Import Lineage.
Context {W : Type} (good : SpiderFootEvent -> Prop).

Lemma notifies_nil : notifies good [].
Proof. intros e Hin. by apply elem_of_nil in Hin. Qed.

Lemma notifies_app t1 t2 :
  notifies good t1 -> notifies good t2 -> notifies good (t1 ++ t2).
Proof. intros H1 H2 e [?|?]%elem_of_app; auto. Qed.

Lemma notifies_other a : is_notify a = false -> notifies good [a].
Proof. intros Ha e Hin%list_elem_of_singleton. by subst. Qed.

Lemma notifies_one e : good e -> notifies good [Notify e].
Proof. intros He e' Hin%list_elem_of_singleton. congruence. Qed.

Lemma notifies_ret {A} (a : A) : emits (notifies good) (mret a : M W A).
Proof. by apply emits_nothing; [apply notifies_nil|]. Qed.

Lemma notifies_raise {A} x : emits (notifies good) (raise x : M W A).
Proof. by apply emits_nothing; [apply notifies_nil|]. Qed.

Lemma notifies_bind {A B} (m : M W A) (f : A -> M W B) :
  emits (notifies good) m -> (forall a, emits (notifies good) (f a)) ->
  emits (notifies good) (m ≫= f).
Proof. intros. eapply emits_bind; eauto using notifies_app. Qed.

Lemma notifies_try_except {A} (m : M W A) h :
  emits (notifies good) m -> (forall x, emits (notifies good) (h x)) ->
  emits (notifies good) (try_except m h).
Proof. intros. apply emits_try_except; auto using notifies_app. Qed.

Lemma notifies_action (a : action) :
  is_notify a = false -> emits (notifies good) (emit_action a : M W unit).
Proof. intros. by apply emits_action, notifies_other. Qed.

Lemma notifies_emit e :
  good e -> emits (notifies good) (emit_action (Notify e) : M W unit).
Proof. intros. by apply emits_action, notifies_one. Qed.

Lemma notifies_log level msg :
  emits (notifies good) (log level msg : M W unit).
Proof. by apply notifies_action. Qed.

Lemma notifies_lift {A} (o : outcome A) :
  emits (notifies good) (lift_outcome o : M W A).
Proof. by apply emits_nothing; [apply notifies_nil|]. Qed.

Lemma notifies_getitem d key :
  emits (notifies good) (getitem d key : M W pyval).
Proof.
  unfold getitem.
  destruct (d !! key); [apply notifies_ret | apply notifies_raise].
Qed.

Lemma notifies_contains r key :
  emits (notifies good) (contains r key : M W bool).
Proof.
  unfold contains. destruct r; [apply notifies_ret | apply notifies_raise].
Qed.

Lemma notifies_store r key : emits (notifies good) (store r key : M W _).
Proof.
  unfold store. destruct r; [apply notifies_ret | apply notifies_raise].
Qed.

Lemma notifies_checkForStop sf :
  emits (notifies good) (checkForStop sf : M W bool).
Proof.
  intros e. exists [Poll (stop_requested sf (polls e))].
  split; [done | by apply notifies_other].
Qed.

Lemma notifies_fetchUrl sf url kwargs :
  emits (notifies good) (sf_fetchUrl sf url kwargs : M W _).
Proof.
  apply notifies_bind; [by apply notifies_action|].
  intros _. apply notifies_ret.
Qed.

Lemma notifies_resolveHost sf host :
  emits (notifies good) (sf_resolveHost sf host : M W _).
Proof.
  apply notifies_bind; [by apply notifies_action|].
  intros _. apply notifies_ret.
Qed.

Lemma notifies_cachePut label text :
  emits (notifies good) (sf_cachePut label text : M W _).
Proof. by apply notifies_action. Qed.

Lemma notifies_mapM {A B} (f : A -> M W B) l :
  (forall a, emits (notifies good) (f a)) ->
  emits (notifies good) (mapM f l).
Proof.
  intros Hf. induction l as [|a l IH]; simpl; [apply notifies_ret|].
  apply notifies_bind; [apply Hf|]. intros b.
  apply notifies_bind; [apply IH|]. intros bs. apply notifies_ret.
Qed.

(** A call whose result is known to satisfy [Q], in front of what is
    done with the result. *)
Lemma notifies_bind_yields {A B} (Q : A -> Prop) (m : M W A)
      (f : A -> M W B) :
  yields (notifies good) Q m ->
  (forall a, Q a -> emits (notifies good) (f a)) ->
  emits (notifies good) (m ≫= f).
Proof.
  intros Hm Hf e. unfold mbind, M_bind.
  destruct (Hm e) as (t1 & Ht1 & HT1 & HQ).
  destruct (m e) as [[a|x] e1]; simpl in *.
  - destruct (Hf a (HQ a eq_refl) e1) as (t2 & Ht2 & HT2).
    exists (t1 ++ t2). rewrite Ht2, Ht1, app_assoc.
    split; [done | by apply notifies_app].
  - exists t1. auto.
Qed.

Lemma yields_ret {A} (Q : A -> Prop) (a : A) :
  Q a -> yields (notifies good) Q (mret a : M W A).
Proof.
  intros Ha e. exists []. rewrite app_nil_r.
  split; [done|]. split; [apply notifies_nil|]. by intros ? [= <-].
Qed.

Lemma yields_raise {A} (Q : A -> Prop) x :
  yields (notifies good) Q (raise x : M W A).
Proof.
  intros e. exists []. rewrite app_nil_r.
  split; [done|]. split; [apply notifies_nil | done].
Qed.

Lemma yields_bind {A B} (Q : B -> Prop) (m : M W A) (f : A -> M W B) :
  emits (notifies good) m ->
  (forall a, yields (notifies good) Q (f a)) ->
  yields (notifies good) Q (m ≫= f).
Proof.
  intros Hm Hf e. unfold mbind, M_bind.
  destruct (Hm e) as (t1 & Ht1 & HT1).
  destruct (m e) as [[a|x] e1]; simpl in *.
  - destruct (Hf a e1) as (t2 & Ht2 & HT2 & HQ).
    exists (t1 ++ t2). rewrite Ht2, Ht1, app_assoc.
    split; [done|]. split; [by apply notifies_app | done].
  - exists t1. split; [done|]. split; [done | done].
Qed.

Section Attributes.
Context {S : Type} (self : lens W S).

Lemma notifies_gets {B} (f : S -> B) : emits (notifies good) (gets self f).
Proof. by apply emits_nothing; [apply notifies_nil|]. Qed.

Lemma notifies_modify_self f : emits (notifies good) (modify_self self f).
Proof. by apply emits_nothing; [apply notifies_nil|]. Qed.

Lemma notifies_opt opts key : emits (notifies good) (opt self opts key).
Proof.
  apply notifies_bind; [apply notifies_gets|].
  intros o. apply notifies_getitem.
Qed.

Lemma notifies_opt_get opts key default :
  emits (notifies good) (opt_get self opts key default).
Proof.
  apply notifies_bind; [apply notifies_gets|]. intros o. apply notifies_ret.
Qed.

Lemma notifies_results_contains results key :
  emits (notifies good) (results_contains self results key).
Proof.
  apply notifies_bind; [apply notifies_gets|].
  intros o. apply notifies_contains.
Qed.

Lemma notifies_results_add results with_results key :
  emits (notifies good) (results_add self results with_results key).
Proof.
  apply notifies_bind; [apply notifies_gets|]. intros o.
  apply notifies_bind; [apply notifies_store|]. intros r.
  apply notifies_modify_self.
Qed.
End Attributes.
End Notifies.

Create HintDb lineage discriminated.

#[export] Hint Resolve notifies_ret notifies_raise notifies_log
  notifies_lift notifies_getitem notifies_contains notifies_store
  notifies_checkForStop notifies_fetchUrl notifies_resolveHost
  notifies_cachePut notifies_gets notifies_modify_self notifies_opt
  notifies_opt_get notifies_results_contains notifies_results_add
  : lineage.

(** Splits a method into its calls, none of which is known to return a
    value of interest. *)
Ltac passes_on :=
  autounfold with plugin;
  repeat first
    [ progress intros
    | apply notifies_bind
    | apply notifies_try_except
    | apply notifies_mapM
    | solve [apply notifies_action; reflexivity]
    | solve [eauto with lineage]
    | match goal with
      | |- emits _ (if ?b then _ else _) => destruct b
      | |- emits _ (match ?x with _ => _ end) => destruct x
      end ].

Section Descent.
Import Lineage.
Context {W : Type} (sf : World) (root : SpiderFootEvent).

Let good := descends_from (allowed_empty sf) root.

Lemma with_dataSource_descends e ds src :
  good e -> sourceEvent e = Some src -> good (with_dataSource e ds).
Proof.
  intros [Hc Hr] Hsrc. split; [by apply created_dataSource|].
  rewrite <- Hr. destruct e; simpl in *. by rewrite Hsrc.
Qed.

(** An Event constructed from a descendant of the root is one. *)
Lemma construct_descends type_ data_ generatedBy src e :
  good src -> String.eqb type_ "ROOT" = false ->
  construct (allowed_empty sf) type_ data_ generatedBy (Some src)
  = Returned e ->
  good e /\ sourceEvent e = Some src.
Proof.
  intros [Hc Hr] Hty He. split; [split|].
  - eapply created_construct; [|exact He]. by intros ? [= <-].
  - unfold construct in He. rewrite Hty in He.
    destruct (_ && _); [done|]. injection He as <-. exact Hr.
  - unfold construct in He. rewrite Hty in He.
    destruct (_ && _); [done|]. by injection He as <-.
Qed.

Lemma new_event_descends type_ data_ generatedBy src :
  good src -> String.eqb type_ "ROOT" = false ->
  yields (notifies good) (fun e => good e /\ sourceEvent e = Some src)
         (new_event sf type_ data_ generatedBy src : M W _).
Proof.
  intros Hsrc Hty e. exists []. rewrite app_nil_r.
  split; [done|]. split; [apply notifies_nil|].
  intros evt Hevt. unfold new_event, lift_outcome in Hevt. simpl in Hevt.
  eapply construct_descends; eauto.
Qed.
End Descent.

(** One step of a method that emits Events: the Event it constructs from
    a descendant of the root is one, and is handed on as such. *)
Ltac descends_step :=
  first
    [ apply notifies_ret
    | apply notifies_raise
    | eapply notifies_bind_yields;
        [ apply new_event_descends; [eassumption | reflexivity]
        | intros ? [? ?] ]
    | solve [passes_on]
    | apply notifies_bind; [| intros ?]
    | match goal with
      | |- emits _ (if ?b then _ else _) => destruct b
      | |- emits _ (match ?x with _ => _ end) => destruct x
      end ].

Section ModulesDescend.
Import Lineage.
Context {W : Type} (sf : World) (root : SpiderFootEvent).
Variable notifyListeners : SpiderFootEvent -> M W unit.

Let good := descends_from (allowed_empty sf) root.

Hypothesis notify_descends :
  forall e, good e -> emits (notifies good) (notifyListeners e).

Lemma pd_each_subdomain_descends self event subdomains resultsSet :
  good event ->
  emits (notifies good)
        (sfp_projectdiscovery.each_subdomain self sf notifyListeners event
           subdomains resultsSet).
Proof.
  intros Hevent. revert resultsSet.
  induction subdomains as [|subdomain rest IH]; intros resultsSet; simpl.
  - apply notifies_ret.
  - repeat descends_step; apply IH.
Qed.

Lemma pd_query_passes_on (self : lens W sfp_projectdiscovery.state) qry :
  emits (notifies good) (sfp_projectdiscovery.query self sf qry).
Proof. unfold sfp_projectdiscovery.query. passes_on. Qed.

Lemma pd_handleEvent_descends self event :
  good event ->
  emits (notifies good)
        (sfp_projectdiscovery.handleEvent self sf notifyListeners event).
Proof.
  intros Hevent. unfold sfp_projectdiscovery.handleEvent.
  repeat descends_step. by apply pd_each_subdomain_descends.
Qed.

Lemma cs_each_line_passes_on qry targetType lines :
  emits (notifies good)
        (sfp_cinsscore.each_line sf qry targetType lines : M W _).
Proof.
  induction lines as [|line rest IH]; simpl; [apply notifies_ret|].
  repeat descends_step; apply IH.
Qed.

Lemma cs_check_descends (self : lens W sfp_cinsscore.state) event option_
      targetType evtType :
  good event -> String.eqb evtType "ROOT" = false ->
  emits (notifies good)
        (sfp_cinsscore.check self sf notifyListeners event option_
           targetType evtType).
Proof.
  intros Hevent Hty. unfold sfp_cinsscore.check, sfp_cinsscore.query.
  repeat first
    [ apply cs_each_line_passes_on
    | eapply notifies_bind_yields;
        [ apply new_event_descends; [eassumption | exact Hty]
        | intros ? [? ?] ]
    | descends_step ].
Qed.

Lemma cs_handleEvent_descends (self : lens W sfp_cinsscore.state) event :
  good event ->
  emits (notifies good)
        (sfp_cinsscore.handleEvent self sf notifyListeners event).
Proof.
  intros Hevent. unfold sfp_cinsscore.handleEvent.
  repeat first [ by apply cs_check_descends | descends_step ].
Qed.

Lemma bc_each_match_descends event matches :
  good event ->
  emits (notifies good)
        (sfp_bitcoin.each_match sf notifyListeners event matches : M W _).
Proof.
  intros Hevent.
  induction matches as [|m rest IH]; simpl; [apply notifies_ret|].
  unfold sfp_bitcoin.check_bc. repeat descends_step; apply IH.
Qed.

Lemma bc_handleEvent_descends (self : lens W sfp_bitcoin.state) event :
  good event ->
  emits (notifies good)
        (sfp_bitcoin.handleEvent self sf notifyListeners event).
Proof.
  intros Hevent. unfold sfp_bitcoin.handleEvent.
  repeat first [ by apply bc_each_match_descends | descends_step ].
Qed.

Lemma ps_sendEvent_descends resArray srcEvent :
  good srcEvent ->
  emits (notifies good)
        (sfp_portscan_tcp.sendEvent sf notifyListeners resArray srcEvent
         : M W _).
Proof.
  intros Hevent.
  induction resArray as [|[cp res] rest IH]; simpl; [apply notifies_ret|].
  repeat descends_step; apply IH.
Qed.

Lemma ps_tryPortWrapper_passes_on (self : lens W sfp_portscan_tcp.state)
      ip portList :
  emits (notifies good) (sfp_portscan_tcp.tryPortWrapper self sf ip portList).
Proof.
  unfold sfp_portscan_tcp.tryPortWrapper, sfp_portscan_tcp.tryPort.
  passes_on.
Qed.

Lemma ps_each_address_passes_on addresses scanIps :
  emits (notifies good)
        (sfp_portscan_tcp.each_address addresses scanIps : M W _).
Proof.
  revert scanIps.
  induction addresses as [|ipaddr rest IH]; intros scanIps; simpl;
    [apply notifies_ret|].
  repeat descends_step; apply IH.
Qed.

Lemma ps_scan_targets_passes_on (self : lens W sfp_portscan_tcp.state)
      event :
  emits (notifies good) (sfp_portscan_tcp.scan_targets self sf event).
Proof.
  unfold sfp_portscan_tcp.scan_targets.
  repeat first [ apply ps_each_address_passes_on | descends_step ].
Qed.

Lemma ps_each_port_descends (self : lens W sfp_portscan_tcp.state) event
      ipAddr ports i portArr :
  good event ->
  emits (notifies good)
        (sfp_portscan_tcp.each_port self sf notifyListeners event ipAddr
           ports i portArr).
Proof.
  intros Hevent. revert i portArr.
  induction ports as [|port rest IH]; intros i portArr; simpl;
    [apply notifies_ret|].
  repeat first
    [ apply IH
    | apply ps_tryPortWrapper_passes_on
    | by apply ps_sendEvent_descends
    | descends_step ].
Qed.

Lemma ps_each_ip_descends (self : lens W sfp_portscan_tcp.state) event
      scanIps :
  good event ->
  emits (notifies good)
        (sfp_portscan_tcp.each_ip self sf notifyListeners event scanIps).
Proof.
  intros Hevent.
  induction scanIps as [|ipAddr rest IH]; simpl; [apply notifies_ret|].
  repeat first
    [ apply IH
    | by apply ps_each_port_descends
    | apply ps_tryPortWrapper_passes_on
    | by apply ps_sendEvent_descends
    | descends_step ].
Qed.

Lemma ps_handleEvent_descends (self : lens W sfp_portscan_tcp.state) event :
  good event ->
  emits (notifies good)
        (sfp_portscan_tcp.handleEvent self sf notifyListeners event).
Proof.
  intros Hevent. unfold sfp_portscan_tcp.handleEvent.
  repeat first
    [ by apply ps_each_ip_descends
    | apply notifies_try_except; [apply ps_scan_targets_passes_on | intros ?]
    | descends_step ].
Qed.

Lemma em_each_email_descends (self : lens W sfp_email.state) event emails
      myres :
  good event ->
  emits (notifies good)
        (sfp_email.each_email self sf notifyListeners event emails myres).
Proof.
  intros Hevent. revert myres.
  induction emails as [|email rest IH]; intros myres; simpl;
    [apply notifies_ret|].
  repeat first
    [ apply IH
    | match goal with
      | |- emits _ ((if negb (Str.startswith _ _) then _ else _) ≫= _) =>
          apply (notifies_bind_yields _
                   (fun t => String.eqb t "ROOT" = false));
          [ repeat first
              [ apply yields_ret; by repeat case_match
              | apply yields_raise
              | apply yields_bind; [solve [passes_on] | intros ?]
              | match goal with
                | |- yields _ _ (if ?b then _ else _) => destruct b
                | |- yields _ _ (match ?x with _ => _ end) => destruct x
                end ]
          | intros evttype Hty ]
      | Hty : String.eqb ?t "ROOT" = false
        |- emits _ (new_event _ ?t _ _ _ ≫= _) =>
          eapply notifies_bind_yields;
          [ apply new_event_descends; [eassumption | exact Hty]
          | intros evt [Hevt Hsrc] ]
      | Hevt : descends_from _ _ ?evt, Hsrc : sourceEvent ?evt = Some _
        |- emits _ (notifyListeners _ ≫= _) =>
          apply notifies_bind;
          [ apply notify_descends;
            exact (with_dataSource_descends sf root evt _ _ Hevt Hsrc)
          | intros ? ]
      end
    | descends_step ].
Qed.

Lemma em_handleEvent_descends (self : lens W sfp_email.state) event :
  good event ->
  emits (notifies good)
        (sfp_email.handleEvent self sf notifyListeners event).
Proof.
  intros Hevent. unfold sfp_email.handleEvent.
  apply notifies_bind; [apply notifies_log|].
  intros _. by apply em_each_email_descends.
Qed.
End ModulesDescend.

Section ScanDescends.
Import Lineage Dispatcher.
Context (sf : World) (registered : list plugin).

Lemma ps_each_port_option_passes_on {W} good
      (self : lens W sfp_portscan_tcp.state) ports :
  emits (notifies good) (sfp_portscan_tcp.each_port_option self sf ports).
Proof.
  induction ports as [|port rest IH]; simpl; [apply notifies_ret|].
  repeat descends_step; apply IH.
Qed.

Lemma ps_setup_passes_on {W} good (self : lens W sfp_portscan_tcp.state)
      shuffle userOpts :
  emits (notifies good) (sfp_portscan_tcp.setup self sf shuffle userOpts).
Proof.
  unfold sfp_portscan_tcp.setup.
  repeat first [ apply ps_each_port_option_passes_on | descends_step ].
Qed.

Lemma setup_passes_on good shuffle userOpts p :
  emits (notifies good) (setup sf shuffle userOpts p).
Proof.
  destruct p; simpl;
    first [apply notifies_modify_self | apply ps_setup_passes_on].
Qed.

Section Root.
Variable root : SpiderFootEvent.

Let good := descends_from (allowed_empty sf) root.

Lemma handleEvent_descends p notifyListeners event :
  (forall e, good e -> emits (notifies good) (notifyListeners e)) ->
  good event ->
  emits (notifies good) (handleEvent sf p notifyListeners event).
Proof.
  intros Hnotify Hevent. destruct p; simpl.
  - by apply pd_handleEvent_descends.
  - by apply cs_handleEvent_descends.
  - by apply bc_handleEvent_descends.
  - by apply ps_handleEvent_descends.
  - by apply em_handleEvent_descends.
Qed.

Lemma deliver_descends notifyListeners event p :
  (forall e, good e -> emits (notifies good) (notifyListeners e)) ->
  good event ->
  emits (notifies good) (deliver sf notifyListeners event p).
Proof.
  intros Hnotify Hevent. unfold deliver.
  repeat first
    [ apply notifies_try_except;
        [by apply handleEvent_descends | intros ?]
    | descends_step ].
Qed.

(** What [dispatch] hands on descends from the root if the Event it is
    called with does. *)
Lemma dispatch_descends depth type_ event :
  good event ->
  emits (notifies good) (dispatch sf registered depth type_ event).
Proof.
  revert type_ event.
  induction depth as [|depth IH]; intros type_ event Hevent; simpl.
  - apply notifies_bind; [by apply notifies_emit|].
    intros _. apply notifies_raise.
  - apply notifies_bind; [by apply notifies_emit|]. intros _.
    apply notifies_bind; [|intros _; apply notifies_ret].
    apply notifies_mapM. intros p.
    apply deliver_descends; [|done]. intros e He. by apply IH.
Qed.
End Root.

Lemma root_descends seed e :
  construct (allowed_empty sf) "ROOT" seed EmptyString None = Returned e ->
  descends_from (allowed_empty sf) (root_of seed) e.
Proof.
  intros He. split.
  - eapply created_construct; [|exact He]. by intros ? [=].
  - unfold construct in He. destruct (_ && _); [done|].
    simpl in He. by injection He as <-.
Qed.

Lemma start_descends depth seed :
  emits (notifies (descends_from (allowed_empty sf) (root_of seed)))
        (start sf registered depth seed).
Proof.
  unfold start. destruct (TargetType.targetType seed) as [type_|];
    [|apply notifies_raise].
  apply (notifies_bind_yields _
           (descends_from (allowed_empty sf) (root_of seed))).
  - intros e. exists []. rewrite app_nil_r.
    split; [done|]. split; [apply notifies_nil|].
    intros a Ha. by apply root_descends.
  - intros e He. by apply dispatch_descends.
Qed.

(** Every Event that a scan dispatches was created during the scan, and
    its chain ends at the root Event of the scan, which wraps the seed. *)
Lemma scan_events_descend shuffle userOpts depth seed :
  notifies (descends_from (allowed_empty sf) (root_of seed))
           (trace_of (scan_run sf shuffle registered userOpts depth seed)).
Proof.
  unfold scan_run. apply emits_run.
  apply notifies_bind; [|intros _; apply start_descends].
  apply notifies_mapM. intros p. apply setup_passes_on.
Qed.

(** A scan has one root: the chains of any two Events it dispatches end
    at the same Event, of type ROOT and without a source. *)
Corollary scan_has_one_root shuffle userOpts depth seed e1 e2 :
  let t := trace_of (scan_run sf shuffle registered userOpts depth seed) in
  Notify e1 ∈ t -> Notify e2 ∈ t ->
  rootEvent e1 = rootEvent e2
  /\ eventType (rootEvent e1) = "ROOT"
  /\ sourceEvent (rootEvent e1) = None
  /\ data (rootEvent e1) = seed.
Proof.
  intros t [_ H1]%scan_events_descend [_ H2]%scan_events_descend.
  by rewrite H1, H2.
Qed.
End ScanDescends.

(** The run of the port scanner on an address: the chain of each Event it
    dispatches; the banner descends from the root by way of the open
    port. *)
Example portscan_chains :
  omap (fun a => match a with
                 | Notify e => Some (eventType <$> lineage e)
                 | _ => None
                 end)
       (trace_of (Dispatcher.scan_run Examples.world (fun l => l)
                    [Dispatcher.PortscanTcp] Examples.opts_two_ports 5
                    "93.184.216.34"))
  = [["ROOT"];
     ["TCP_PORT_OPEN"; "ROOT"];
     ["TCP_PORT_OPEN_BANNER"; "TCP_PORT_OPEN"; "ROOT"];
     ["TCP_PORT_OPEN"; "ROOT"]].
Proof. vm_compute. reflexivity. Qed.

(** ** What the modules emit *)

Section EmittedFacts.
Import Lineage Emitted.
Context (ae : string -> bool) (name : string) (types : list string)
        (event : SpiderFootEvent).

Lemma construct_fields type_ data_ generatedBy source e :
  construct ae type_ data_ generatedBy source = Returned e ->
  eventType e = type_ /\ data e = data_ /\ module e = generatedBy
  /\ (type_ <> "ROOT" -> sourceEvent e = source).
Proof.
  unfold construct. destruct (_ && _); [done|].
  destruct (String.eqb type_ "ROOT") eqn:Hroot.
  - apply String.eqb_eq in Hroot as ->. by intros [= <-].
  - destruct source as [src|]; [|done]. by intros [= <-].
Qed.

(** Data that is not empty is data an Event can carry. *)
Lemma construct_returns type_ data_ generatedBy src :
  data_ <> EmptyString -> type_ <> "ROOT" ->
  exists e, construct ae type_ data_ generatedBy (Some src) = Returned e.
Proof.
  intros Hd Hty. unfold construct.
  destruct (String.eqb_spec data_ EmptyString) as [->|_]; [done|]. simpl.
  destruct (String.eqb_spec type_ "ROOT") as [->|_]; [done|]. eauto.
Qed.

Lemma emitted_for_declared e :
  emitted_for ae name types event e ->
  module e = name /\ eventType e ∈ types.
Proof.
  induction 1 as [ty d e Hty Hc | ty d src e _ _ Hty Hc | e ds _ IH].
  - apply construct_fields in Hc as (-> & _ & -> & _). done.
  - apply construct_fields in Hc as (-> & _ & -> & _). done.
  - exact IH.
Qed.

Lemma emitted_for_lineage e :
  "ROOT" ∉ types ->
  emitted_for ae name types event e ->
  e <> event /\ event ∈ lineage e
  /\ exists src, sourceEvent e = Some src /\ event ∈ lineage src.
Proof.
  intros Hroot.
  assert (Hlen : forall x src, sourceEvent x = Some src ->
                               event ∈ lineage src -> x <> event).
  { intros x src Hx Hin ->. apply lineage_member_length in Hin.
    rewrite (lineage_unfold event), Hx in Hin. simpl in Hin. lia. }
  assert (Hstep : forall x src, sourceEvent x = Some src ->
            event ∈ lineage src ->
            x <> event /\ event ∈ lineage x
            /\ exists src, sourceEvent x = Some src /\ event ∈ lineage src).
  { intros x src Hx Hin. split; [by eapply Hlen|]. split; [|eauto].
    rewrite (lineage_unfold x), Hx. by apply list_elem_of_further. }
  induction 1 as [ty d e Hty Hc | ty d src e _ IH Hty Hc | e ds _ IH].
  - apply construct_fields in Hc as (_ & _ & _ & Hsrc).
    apply (Hstep e event).
    + apply Hsrc. by intros ->.
    + rewrite (lineage_unfold event). apply list_elem_of_here.
  - apply construct_fields in Hc as (_ & _ & _ & Hsrc).
    apply (Hstep e src).
    + apply Hsrc. by intros ->.
    + apply IH.
  - destruct IH as (_ & _ & src & Hsrc & Hin).
    apply (Hstep (with_dataSource e ds) src); [|done].
    by destruct e.
Qed.
End EmittedFacts.

Ltac declared_type :=
  solve [ eassumption
        | repeat first [apply list_elem_of_here | apply list_elem_of_further] ].

Section ModulesEmit.
Import Lineage Emitted.
Context {W : Type} (sf : World) (name : string) (types : list string)
        (event : SpiderFootEvent).
Variable notifyListeners : SpiderFootEvent -> M W unit.

Let good := emitted_for (allowed_empty sf) name types event.

Hypothesis notify_good :
  forall e, good e -> emits (notifies good) (notifyListeners e).

Lemma new_event_emitted_direct type_ data_ :
  type_ ∈ types ->
  yields (notifies good) good (new_event sf type_ data_ name event : M W _).
Proof.
  intros Hty e. exists []. rewrite app_nil_r.
  split; [done|]. split; [apply notifies_nil|].
  intros evt Hevt. unfold new_event, lift_outcome in Hevt. simpl in Hevt.
  by eapply emitted_direct.
Qed.

Lemma new_event_emitted_further type_ data_ src :
  good src -> type_ ∈ types ->
  yields (notifies good) good (new_event sf type_ data_ name src : M W _).
Proof.
  intros Hsrc Hty e. exists []. rewrite app_nil_r.
  split; [done|]. split; [apply notifies_nil|].
  intros evt Hevt. unfold new_event, lift_outcome in Hevt. simpl in Hevt.
  by eapply emitted_further.
Qed.
End ModulesEmit.

(** One step of a method that emits Events: what it constructs, from the
    Event it handles or from an Event it made before, is handed on. *)
Ltac emits_step :=
  first
    [ apply notifies_ret
    | apply notifies_raise
    | eapply notifies_bind_yields;
        [ first [ apply new_event_emitted_direct; declared_type
                | apply new_event_emitted_further;
                    [eassumption | declared_type] ]
        | intros ? ? ]
    | solve [passes_on]
    | apply notifies_bind; [| intros ?]
    | match goal with
      | |- emits _ (if ?b then _ else _) => destruct b
      | |- emits _ (match ?x with _ => _ end) => destruct x
      end ].

(** The loops and helpers of the modules that emit no Event. *)
Section Silent.
Import Lineage.
Context {W : Type} (sf : World) (good : SpiderFootEvent -> Prop).

Lemma cs_each_line_silent qry targetType lines :
  emits (notifies good)
        (sfp_cinsscore.each_line sf qry targetType lines : M W _).
Proof.
  induction lines as [|line rest IH]; simpl; [apply notifies_ret|].
  repeat emits_step; apply IH.
Qed.

Lemma ps_tryPortWrapper_silent (self : lens W sfp_portscan_tcp.state)
      ip portList :
  emits (notifies good) (sfp_portscan_tcp.tryPortWrapper self sf ip portList).
Proof.
  unfold sfp_portscan_tcp.tryPortWrapper, sfp_portscan_tcp.tryPort.
  passes_on.
Qed.

Lemma ps_each_address_silent addresses scanIps :
  emits (notifies good)
        (sfp_portscan_tcp.each_address addresses scanIps : M W _).
Proof.
  revert scanIps.
  induction addresses as [|ipaddr rest IH]; intros scanIps; simpl;
    [apply notifies_ret|].
  repeat emits_step; apply IH.
Qed.

Lemma ps_scan_targets_silent (self : lens W sfp_portscan_tcp.state) event :
  emits (notifies good) (sfp_portscan_tcp.scan_targets self sf event).
Proof.
  unfold sfp_portscan_tcp.scan_targets.
  repeat first [ apply ps_each_address_silent | emits_step ].
Qed.
End Silent.

Section ProjectDiscoveryEmits.
Import Lineage Emitted sfp_projectdiscovery.
Context {W : Type} (self : lens W state) (sf : World)
        (event : SpiderFootEvent).
Variable notifyListeners : SpiderFootEvent -> M W unit.

Let good := emitted_for (allowed_empty sf) name producedEvents event.

Hypothesis notify_good :
  forall e, good e -> emits (notifies good) (notifyListeners e).

Lemma pd_each_subdomain_emits subdomains resultsSet :
  emits (notifies good)
        (each_subdomain self sf notifyListeners event subdomains resultsSet).
Proof.
  revert resultsSet.
  induction subdomains as [|subdomain rest IH]; intros resultsSet; simpl.
  - apply notifies_ret.
  - repeat emits_step; apply IH.
Qed.

Lemma pd_handleEvent_emits :
  emits (notifies good) (handleEvent self sf notifyListeners event).
Proof.
  unfold handleEvent. repeat emits_step. apply pd_each_subdomain_emits.
Qed.
End ProjectDiscoveryEmits.

Section CinsscoreEmits.
Import Lineage Emitted sfp_cinsscore.
Context {W : Type} (self : lens W state) (sf : World)
        (event : SpiderFootEvent).
Variable notifyListeners : SpiderFootEvent -> M W unit.

Let good := emitted_for (allowed_empty sf) name producedEvents event.

Hypothesis notify_good :
  forall e, good e -> emits (notifies good) (notifyListeners e).

Lemma cs_check_emits option_ targetType evtType :
  evtType ∈ producedEvents ->
  emits (notifies good)
        (check self sf notifyListeners event option_ targetType evtType).
Proof.
  intros Hty. unfold check, query.
  repeat first [ apply cs_each_line_silent | emits_step ].
Qed.

Lemma cs_handleEvent_emits :
  emits (notifies good) (handleEvent self sf notifyListeners event).
Proof.
  unfold handleEvent.
  repeat first [ apply cs_check_emits; declared_type | emits_step ].
Qed.
End CinsscoreEmits.

Section BitcoinEmits.
Import Lineage Emitted sfp_bitcoin.
Context {W : Type} (self : lens W state) (sf : World)
        (event : SpiderFootEvent).
Variable notifyListeners : SpiderFootEvent -> M W unit.

Let good := emitted_for (allowed_empty sf) name producedEvents event.

Hypothesis notify_good :
  forall e, good e -> emits (notifies good) (notifyListeners e).

Lemma bc_each_match_emits matches :
  emits (notifies good)
        (each_match sf notifyListeners event matches : M W _).
Proof.
  induction matches as [|m rest IH]; simpl; [apply notifies_ret|].
  unfold check_bc. repeat emits_step; apply IH.
Qed.

Lemma bc_handleEvent_emits :
  emits (notifies good) (handleEvent self sf notifyListeners event).
Proof.
  unfold handleEvent.
  repeat first [ apply bc_each_match_emits | emits_step ].
Qed.
End BitcoinEmits.

Section PortscanEmits.
Import Lineage Emitted sfp_portscan_tcp.
Context {W : Type} (self : lens W state) (sf : World)
        (event : SpiderFootEvent).
Variable notifyListeners : SpiderFootEvent -> M W unit.

Let good := emitted_for (allowed_empty sf) name producedEvents event.

Hypothesis notify_good :
  forall e, good e -> emits (notifies good) (notifyListeners e).

Lemma ps_sendEvent_emits resArray :
  emits (notifies good)
        (sendEvent sf notifyListeners resArray event : M W _).
Proof.
  induction resArray as [|[cp res] rest IH]; simpl; [apply notifies_ret|].
  repeat emits_step; apply IH.
Qed.

Lemma ps_each_port_emits ipAddr ports i portArr :
  emits (notifies good)
        (each_port self sf notifyListeners event ipAddr ports i portArr).
Proof.
  revert i portArr.
  induction ports as [|port rest IH]; intros i portArr; simpl;
    [apply notifies_ret|].
  repeat first
    [ apply IH
    | apply ps_tryPortWrapper_silent
    | apply ps_sendEvent_emits
    | emits_step ].
Qed.

Lemma ps_each_ip_emits scanIps :
  emits (notifies good) (each_ip self sf notifyListeners event scanIps).
Proof.
  induction scanIps as [|ipAddr rest IH]; simpl; [apply notifies_ret|].
  repeat first
    [ apply IH
    | apply ps_each_port_emits
    | apply ps_tryPortWrapper_silent
    | apply ps_sendEvent_emits
    | emits_step ].
Qed.

Lemma ps_handleEvent_emits :
  emits (notifies good) (handleEvent self sf notifyListeners event).
Proof.
  unfold handleEvent.
  repeat first
    [ apply ps_each_ip_emits
    | apply notifies_try_except; [apply ps_scan_targets_silent | intros ?]
    | emits_step ].
Qed.
End PortscanEmits.

Section EmailEmits.
Import Lineage Emitted sfp_email.
Context {W : Type} (self : lens W state) (sf : World)
        (event : SpiderFootEvent).
Variable notifyListeners : SpiderFootEvent -> M W unit.

Let good := emitted_for (allowed_empty sf) name producedEvents event.

Hypothesis notify_good :
  forall e, good e -> emits (notifies good) (notifyListeners e).

Lemma em_each_email_emits emails myres :
  emits (notifies good)
        (each_email self sf notifyListeners event emails myres).
Proof.
  revert myres.
  induction emails as [|email rest IH]; intros myres; simpl;
    [apply notifies_ret|].
  repeat first
    [ apply IH
    | match goal with
      | |- emits _ ((if negb (Str.startswith _ _) then _ else _) ≫= _) =>
          apply (notifies_bind_yields _ (fun t => t ∈ producedEvents));
          [ repeat first
              [ apply yields_ret; repeat case_match; declared_type
              | apply yields_raise
              | apply yields_bind; [solve [passes_on] | intros ?]
              | match goal with
                | |- yields _ _ (if ?b then _ else _) => destruct b
                | |- yields _ _ (match ?x with _ => _ end) => destruct x
                end ]
          | intros evttype Hty ]
      | Hevt : emitted_for _ _ _ _ ?evt
        |- emits _ (notifyListeners _ ≫= _) =>
          apply notifies_bind;
          [ apply notify_good; exact (emitted_dataSource _ _ _ _ evt _ Hevt)
          | intros ? ]
      end
    | emits_step ].
Qed.

Lemma em_handleEvent_emits :
  emits (notifies good) (handleEvent self sf notifyListeners event).
Proof.
  unfold handleEvent.
  apply notifies_bind; [apply notifies_log|].
  intros _. apply em_each_email_emits.
Qed.
End EmailEmits.

Lemma notifies_weaken (good good' : SpiderFootEvent -> Prop) t :
  (forall e, good e -> good' e) ->
  Lineage.notifies good t -> Lineage.notifies good' t.
Proof. intros H Ht e He. by apply H, Ht. Qed.

Section HandleEventEmits.
Import Lineage Emitted.
Context (sf : World) (event : SpiderFootEvent) (n : nat).

Let only {S} (handleEvent : SpiderFootEvent -> M S unit) (st : S)
    (good : SpiderFootEvent -> Prop) : Prop :=
  notifies good (trace_of (run (handleEvent event) st n)).

Lemma notify_only_emits (good : SpiderFootEvent -> Prop) {W} e :
  good e -> emits (notifies good) (notify_only e : M W unit).
Proof. apply notifies_emit. Qed.

Lemma handleEvent_emitted_for :
  (forall st,
      only (sfp_projectdiscovery.handleEvent self_id sf notify_only) st
           (emitted_for (allowed_empty sf) sfp_projectdiscovery.name
                        sfp_projectdiscovery.producedEvents event))
  /\ (forall st,
         only (sfp_cinsscore.handleEvent self_id sf notify_only) st
              (emitted_for (allowed_empty sf) sfp_cinsscore.name
                           sfp_cinsscore.producedEvents event))
  /\ (forall st,
         only (sfp_bitcoin.handleEvent self_id sf notify_only) st
              (emitted_for (allowed_empty sf) sfp_bitcoin.name
                           sfp_bitcoin.producedEvents event))
  /\ (forall st,
         only (sfp_portscan_tcp.handleEvent self_id sf notify_only) st
              (emitted_for (allowed_empty sf) sfp_portscan_tcp.name
                           sfp_portscan_tcp.producedEvents event))
  /\ (forall st,
         only (sfp_email.handleEvent self_id sf notify_only) st
              (emitted_for (allowed_empty sf) sfp_email.name
                           sfp_email.producedEvents event)).
Proof.
  unfold only. repeat split; intros st; apply emits_run.
  - apply pd_handleEvent_emits, notify_only_emits.
  - apply cs_handleEvent_emits, notify_only_emits.
  - apply bc_handleEvent_emits, notify_only_emits.
  - apply ps_handleEvent_emits, notify_only_emits.
  - apply em_handleEvent_emits, notify_only_emits.
Qed.
End HandleEventEmits.

(** X1: whatever the Event and the state, [handleEvent] of each of the
    five modules hands to [notifyListeners] only Events that carry the name
    of the module and one of the types that its [producedEvents()]
    lists. *)
Theorem X1_modules_emit_declared_types
        (sf : World) (event : SpiderFootEvent) (n : nat)
        (pd_st : sfp_projectdiscovery.state) (cs_st : sfp_cinsscore.state)
        (bc_st : sfp_bitcoin.state) (ps_st : sfp_portscan_tcp.state)
        (em_st : sfp_email.state) :
  Lineage.notifies
    (Emitted.declared sfp_projectdiscovery.name
                      sfp_projectdiscovery.producedEvents)
    (trace_of (run (sfp_projectdiscovery.handleEvent self_id sf notify_only
                      event) pd_st n))
  /\ Lineage.notifies
       (Emitted.declared sfp_cinsscore.name sfp_cinsscore.producedEvents)
       (trace_of (run (sfp_cinsscore.handleEvent self_id sf notify_only
                         event) cs_st n))
  /\ Lineage.notifies
       (Emitted.declared sfp_bitcoin.name sfp_bitcoin.producedEvents)
       (trace_of (run (sfp_bitcoin.handleEvent self_id sf notify_only
                         event) bc_st n))
  /\ Lineage.notifies
       (Emitted.declared sfp_portscan_tcp.name
                         sfp_portscan_tcp.producedEvents)
       (trace_of (run (sfp_portscan_tcp.handleEvent self_id sf notify_only
                         event) ps_st n))
  /\ Lineage.notifies
       (Emitted.declared sfp_email.name sfp_email.producedEvents)
       (trace_of (run (sfp_email.handleEvent self_id sf notify_only
                         event) em_st n)).
Proof.
  destruct (handleEvent_emitted_for sf event n)
    as (Hpd & Hcs & Hbc & Hps & Hem).
  split; [|split; [|split; [|split]]];
    (eapply notifies_weaken; [apply emitted_for_declared|]); eauto.
Qed.

(** X2: every Event that [handleEvent] of one of the five modules hands
    to [notifyListeners] is a new Event caused by the Event handled: the
    chain of its sources passes through that Event. *)
Theorem X2_modules_emit_caused_events
        (sf : World) (event : SpiderFootEvent) (n : nat)
        (pd_st : sfp_projectdiscovery.state) (cs_st : sfp_cinsscore.state)
        (bc_st : sfp_bitcoin.state) (ps_st : sfp_portscan_tcp.state)
        (em_st : sfp_email.state) :
  Lineage.notifies (Emitted.caused_by event)
    (trace_of (run (sfp_projectdiscovery.handleEvent self_id sf notify_only
                      event) pd_st n))
  /\ Lineage.notifies (Emitted.caused_by event)
       (trace_of (run (sfp_cinsscore.handleEvent self_id sf notify_only
                         event) cs_st n))
  /\ Lineage.notifies (Emitted.caused_by event)
       (trace_of (run (sfp_bitcoin.handleEvent self_id sf notify_only
                         event) bc_st n))
  /\ Lineage.notifies (Emitted.caused_by event)
       (trace_of (run (sfp_portscan_tcp.handleEvent self_id sf notify_only
                         event) ps_st n))
  /\ Lineage.notifies (Emitted.caused_by event)
       (trace_of (run (sfp_email.handleEvent self_id sf notify_only
                         event) em_st n)).
Proof.
  destruct (handleEvent_emitted_for sf event n)
    as (Hpd & Hcs & Hbc & Hps & Hem).
  assert (Hcaused : forall name types e,
             "ROOT" ∉ types ->
             Emitted.emitted_for (allowed_empty sf) name types event e ->
             Emitted.caused_by event e).
  { intros name types e Hroot He.
    destruct (emitted_for_lineage _ _ _ _ e Hroot He) as (? & ? & _).
    by split. }
  assert (Hno : forall types : list string,
             bool_decide ("ROOT" ∈ types) = false -> "ROOT" ∉ types).
  { intros types H. by apply bool_decide_eq_false in H. }
  split; [|split; [|split; [|split]]].
  - eapply notifies_weaken; [|apply Hpd]. intros e. by apply Hcaused, Hno.
  - eapply notifies_weaken; [|apply Hcs]. intros e. by apply Hcaused, Hno.
  - eapply notifies_weaken; [|apply Hbc]. intros e. by apply Hcaused, Hno.
  - eapply notifies_weaken; [|apply Hps]. intros e. by apply Hcaused, Hno.
  - eapply notifies_weaken; [|apply Hem]. intros e. by apply Hcaused, Hno.
Qed.

(** ** The matcher accepts only words of the pattern *)

Section Strings.

Lemma string_app_cons c s t : String c s +:+ t = String c (s +:+ t).
Proof. reflexivity. Qed.

Lemma string_app_nil_l s : EmptyString +:+ s = s.
Proof. reflexivity. Qed.

Lemma string_app_nil_r s : s +:+ EmptyString = s.
Proof. induction s as [|c s IH]; [done|]. by rewrite string_app_cons, IH. Qed.

Lemma string_app_assoc s t u : (s +:+ t) +:+ u = s +:+ (t +:+ u).
Proof.
  induction s as [|c s IH]; [done|]. by rewrite !string_app_cons, IH.
Qed.

Lemma string_length_app s t :
  String.length (s +:+ t) = String.length s + String.length t.
Proof.
  induction s as [|c s IH]; [done|]. rewrite string_app_cons. simpl. by rewrite IH.
Qed.

Lemma string_take_app s t : Re.take (String.length s) (s +:+ t) = s.
Proof.
  induction s as [|c s IH]; [by destruct t|].
  rewrite string_app_cons. simpl. by rewrite IH.
Qed.
End Strings.

Section Soundness.
Import Re ReLang.
Context {R : Type} (ic : bool).

Lemma run_sound r :
  forall bol s (k : bool -> string -> option R) x,
    run ic r bol s k = Some x ->
    exists w s' bol',
      s = w +:+ s' /\ denotes ic r w /\ k bol' s' = Some x.
Proof.
  induction r as [| | c | | items | r1 IH1 r2 IH2 | r1 IH1 r2 IH2
                  | r1 IH1 lo hi]; intros bol s k x H; simpl in H.
  - destruct bol; [|done]. by exists EmptyString, s, true.
  - exists EmptyString, s, bol. split; [done|]. split; [done|].
    destruct s as [|c [|? ?]]; try done. by destruct (Ascii.eqb c newline).
  - destruct s as [|c' s']; [done|].
    destruct (chr_eq ic c c') eqn:Hc; [|done].
    exists (String c' EmptyString), s', false. simpl. eauto.
  - destruct s as [|c' s']; [done|].
    destruct (Ascii.eqb_spec c' newline) as [|Hn]; [done|].
    exists (String c' EmptyString), s', false. simpl. eauto.
  - destruct s as [|c' s']; [done|].
    destruct (in_set ic items c') eqn:Hc; [|done].
    exists (String c' EmptyString), s', false. simpl. eauto.
  - apply IH1 in H as (w1 & s1 & bol1 & -> & Hw1 & H).
    apply IH2 in H as (w2 & s2 & bol2 & -> & Hw2 & H).
    exists (w1 +:+ w2), s2, bol2. rewrite string_app_assoc. simpl. eauto 10.
  - destruct (run ic r1 bol s k) as [y|] eqn:H1.
    + injection H as ->. apply IH1 in H1 as (w & s' & bol' & ? & ? & ?).
      exists w, s', bol'. simpl. eauto.
    + apply IH2 in H as (w & s' & bol' & ? & ? & ?).
      exists w, s', bol'. simpl. eauto.
  - set (n0 := match hi with Some h => h | None => String.length s end)
      in H.
    assert (Hn0 : forall h, hi = Some h -> n0 = h) by (by intros h ->).
    clearbody n0.
    match type of H with
    | ?f n0 lo bol s = _ =>
        assert (Hgen : forall n lo bol s,
                   f n lo bol s = Some x ->
                   exists ws s' bol',
                     s = concat ws +:+ s' /\ Forall (denotes ic r1) ws
                     /\ lo <= length ws /\ length ws <= n
                     /\ k bol' s' = Some x)
    end.
    { clear H Hn0 n0 lo bol s.
      induction n as [|n IHn]; intros lo bol s H.
      - destruct (Nat.eqb_spec lo 0) as [->|]; [|done].
        exists [], s, bol. simpl. eauto.
      - match type of H with
        | match ?m with _ => _ end = _ => destruct m as [y|] eqn:H1
        end.
        + injection H as ->.
          apply IH1 in H1 as (w & s1 & bol1 & -> & Hw & H1).
          destruct (_ || _); [|done].
          apply IHn in H1 as (ws & s2 & bol2 & -> & Hws & Hlo & Hhi & Hk).
          exists (w :: ws), s2, bol2. simpl. rewrite string_app_assoc.
          split; [done|]. split; [by constructor|].
          split; [lia|]. split; [lia | done].
        + destruct (Nat.eqb_spec lo 0) as [->|]; [|done].
          exists [], s, bol. simpl. split; [done|].
          split; [constructor|]. split; [lia|]. split; [lia | done]. }
    apply Hgen in H as (ws & s' & bol' & -> & Hws & Hlo & Hhi & Hk).
    exists (concat ws), s', bol'. split; [done|]. split; [|done].
    simpl. exists ws. split; [done|]. split; [done|]. split; [done|].
    intros h Hh. rewrite <- (Hn0 h Hh). done.
Qed.

End Soundness.

Section Findall.
Import Re ReLang.

Lemma match_rest_sound ic r bol s rest :
  match_rest ic r bol s = Some rest ->
  exists w, s = w +:+ rest /\ denotes ic r w.
Proof.
  unfold match_rest. intros H.
  apply run_sound in H as (w & s' & bol' & -> & Hw & [= ->]). eauto.
Qed.

Lemma match_sound ic r s :
  match_ ic r s = true ->
  exists w rest, s = w +:+ rest /\ denotes ic r w.
Proof.
  unfold match_. intros [x H]%bool_decide_eq_true.
  apply run_sound in H as (w & s' & bol' & -> & Hw & _). eauto.
Qed.

Lemma occurs_in_cons m c s : occurs_in m s -> occurs_in m (String c s).
Proof.
  intros (before & after & ->). by exists (String c before), after.
Qed.

Lemma occurs_in_app m w s : occurs_in m s -> occurs_in m (w +:+ s).
Proof.
  intros (before & after & ->). exists (w +:+ before), after.
  by rewrite string_app_assoc.
Qed.

(** What [re.findall] returns are words of the pattern that occur in the
    subject. *)
Lemma scan_sound ic r fuel :
  forall bol s m,
    m ∈ scan fuel ic r bol s -> denotes ic r m /\ occurs_in m s.
Proof.
  induction fuel as [|fuel IH]; intros bol s m Hin; simpl in Hin.
  { by apply elem_of_nil in Hin. }
  destruct (match_rest ic r bol s) as [rest|] eqn:Hm.
  - apply match_rest_sound in Hm as (w & -> & Hw).
    rewrite string_length_app, Nat.add_sub, string_take_app in Hin.
    assert (Hhere : denotes ic r w /\ occurs_in w (w +:+ rest)).
    { split; [done|]. by exists EmptyString, rest. }
    destruct w as [|c w].
    + destruct rest as [|c rest].
      * by apply list_elem_of_singleton in Hin as ->.
      * apply elem_of_cons in Hin as [->|Hin]; [done|].
        apply IH in Hin as [? ?]. split; [done|].
        by apply occurs_in_cons.
    + apply elem_of_cons in Hin as [->|Hin]; [done|].
      apply IH in Hin as [? ?]. split; [done|].
      by apply occurs_in_app.
  - destruct s as [|c s]; [by apply elem_of_nil in Hin|].
    apply IH in Hin as [? ?]. split; [done|]. by apply occurs_in_cons.
Qed.

Lemma findall_sound ic r s m :
  m ∈ findall ic r s -> denotes ic r m /\ occurs_in m s.
Proof. apply scan_sound. Qed.
End Findall.

(** ** [sfp_bitcoin]: candidates and what is reported *)

Section BitcoinCandidates.
Import Re ReLang sfp_bitcoin BitcoinFacts.

Lemma base58_has_index c :
  in_set false [Range "a" "k"; Range "m" "z"; Range "A" "H"; Range "J" "N";
                Range "P" "Z"; Range "1" "9"] c = true ->
  is_Some (index c digits58).
Proof.
  destruct c as [[] [] [] [] [] [] [] []]; vm_compute; intros H;
    first [discriminate H | eauto].
Qed.

Lemma first_has_index c :
  in_set false [One "1"; One "3"] c = true -> is_Some (index c digits58).
Proof.
  destruct c as [[] [] [] [] [] [] [] []]; vm_compute; intros H;
    first [discriminate H | eauto].
Qed.

Lemma decode_digits_returns s :
  all_digits58 s -> forall n, exists v, decode_digits s n = Returned v.
Proof.
  induction s as [|c s IH]; simpl; [eauto|].
  intros [[d Hd] Hs] n. rewrite Hd. by apply IH.
Qed.

Lemma concat_digits58 ws :
  Forall (denotes false TargetType.base58) ws ->
  all_digits58 (ReLang.concat ws)
  /\ String.length (ReLang.concat ws) = length ws.
Proof.
  induction 1 as [|w ws (c & -> & Hc) _ [IH1 IH2]]; [done|].
  cbn [ReLang.concat length]. rewrite string_app_cons, string_app_nil_l. simpl.
  split; [|by rewrite IH2]. split; [|done]. by apply base58_has_index.
Qed.

(** What the pattern of [handleEvent] captures: 26 to 35 base58 digits. *)
Lemma candidate_shape d m :
  m ∈ findall_addresses d ->
  all_digits58 m /\ 26 <= String.length m <= 35.
Proof.
  unfold findall_addresses. intros (w & -> & Hw)%list_elem_of_fmap.
  apply findall_sound in Hw as [Hw _].
  destruct Hw as (w0 & w' & -> & (c0 & -> & _) & w1 & w2 & ->
                  & (c1 & -> & Hc1) & ws & -> & Hws & Hlo & Hhi).
  specialize (Hhi 34 eq_refl).
  apply concat_digits58 in Hws as [Hall Hlen].
  rewrite !string_app_cons, !string_app_nil_l. simpl. rewrite Hlen.
  split; [|lia]. split; [by apply first_has_index | done].
Qed.

Lemma candidate_decodes d m :
  m ∈ findall_addresses d ->
  exists bcbytes, decode_base58 m 25 = Returned bcbytes.
Proof.
  intros [Hall _]%candidate_shape. unfold decode_base58.
  destruct (decode_digits_returns m Hall 0) as [v ->]. eauto.
Qed.
End BitcoinCandidates.

Section BitcoinReports.
Import Lineage sfp_bitcoin BitcoinFacts.
Context (sf : World) (event : SpiderFootEvent).

Lemma bc_each_match_returns matches :
  (forall m, m ∈ matches -> m ∈ findall_addresses (data event)) ->
  forall e : env state,
    exists t, each_match sf notify_only event matches e
              = (Returned tt, mkEnv (objs e) (polls e) (trace e ++ t)).
Proof.
  induction matches as [|m rest IH]; intros Hin e.
  { exists []. rewrite app_nil_r. by destruct e. }
  assert (Hm : m ∈ findall_addresses (data event))
    by apply Hin, list_elem_of_here.
  destruct (candidate_decodes _ _ Hm) as [bcbytes Hdec].
  destruct (candidate_shape _ _ Hm) as [_ Hlen].
  assert (Hne : m <> EmptyString) by (intros ->; simpl in Hlen; lia).
  destruct (construct_returns (allowed_empty sf) "BITCOIN_ADDRESS" m name
              event Hne) as [evt Hevt]; [done|].
  simpl. unfold check_bc, new_event. step_monad. rewrite Hdec.
  destruct (bool_decide _).
  - rewrite Hevt.
    edestruct IH as [t ->].
    { intros m' Hm'. by apply Hin, list_elem_of_further. }
    cbn [objs polls trace]. eexists. by rewrite <- !app_assoc.
  - edestruct IH as [t ->].
    { intros m' Hm'. by apply Hin, list_elem_of_further. }
    cbn [objs polls trace]. eexists. by rewrite <- !app_assoc.
Qed.

Lemma bc_handleEvent_returns st n :
  ready st ->
  outcome_of (run (handleEvent self_id sf notify_only event) st n)
  = Returned tt.
Proof.
  intros [r Hr]. unfold handleEvent.
  cbv beta iota zeta delta
      [run outcome_of mbind M_bind mret M_ret gets modify_self
       results_contains results_add Plugin.results_contains
       Plugin.results_add contains store debug log emit_action raise].
  cbn [view update self_id objs polls trace fst snd]. rewrite Hr.
  destruct (bool_decide _); [done|].
  cbn [objs polls trace]. rewrite Hr. cbn [objs polls trace].
  match goal with
  | |- context [each_match sf notify_only event ?ms ?e] =>
      destruct (bc_each_match_returns ms (fun m H => H) e) as [t ->]
  end.
  done.
Qed.
End BitcoinReports.

Section BitcoinReported.
Import Lineage sfp_bitcoin BitcoinFacts.
Context {W : Type} (sf : World) (event : SpiderFootEvent).
Variable notifyListeners : SpiderFootEvent -> M W unit.

Let good := reported_address sf (data event).

Hypothesis notify_good :
  forall e, good e -> emits (notifies good) (notifyListeners e).

Lemma check_bc_yields bc :
  yields (notifies good) (fun ok => ok = true -> passes_check sf bc)
         (check_bc sf bc : M W bool).
Proof.
  intros e. exists []. rewrite app_nil_r.
  unfold check_bc, lift_outcome, mbind, M_bind, mret, M_ret.
  destruct (decode_base58 bc 25) as [bcbytes|x] eqn:Hdec; simpl.
  - split; [done|]. split; [apply notifies_nil|].
    intros ok [= <-] Hok%bool_decide_eq_true. by exists bcbytes.
  - split; [done|]. split; [apply notifies_nil | done].
Qed.

Lemma new_event_fields (good' : SpiderFootEvent -> Prop) type_ data_
      generatedBy src :
  yields (notifies good')
         (fun e => eventType e = type_ /\ data e = data_
                   /\ module e = generatedBy)
         (new_event sf type_ data_ generatedBy src : M W _).
Proof.
  intros e. exists []. rewrite app_nil_r.
  split; [done|]. split; [apply notifies_nil|].
  intros evt Hevt. unfold new_event, lift_outcome in Hevt. simpl in Hevt.
  apply construct_fields in Hevt as (? & ? & ? & _). done.
Qed.

Lemma bc_each_match_reports matches :
  (forall m, m ∈ matches -> m ∈ findall_addresses (data event)) ->
  emits (notifies good) (each_match sf notifyListeners event matches).
Proof.
  induction matches as [|m rest IH]; intros Hin; simpl;
    [apply notifies_ret|].
  apply notifies_bind; [apply notifies_log|]. intros _.
  apply (notifies_bind_yields _ _ _ _ (check_bc_yields m)).
  intros ok Hok. apply notifies_bind.
  - destruct ok; [|apply notifies_ret].
    apply (notifies_bind_yields _ _ _ _
             (new_event_fields good "BITCOIN_ADDRESS" m name event)).
    intros evt (Hty & Hdata & _). apply notify_good.
    assert (Hm : m ∈ findall_addresses (data event))
      by apply Hin, list_elem_of_here.
    split; [done|]. rewrite Hdata. split; [done|].
    split; [by apply (candidate_shape _ _ Hm) | by apply Hok].
  - intros _. apply IH. intros m' Hm'. by apply Hin, list_elem_of_further.
Qed.

Lemma bc_handleEvent_reports (self : lens W state) :
  emits (notifies good) (handleEvent self sf notifyListeners event).
Proof.
  unfold handleEvent.
  repeat first [ by apply bc_each_match_reports | emits_step ].
Qed.
End BitcoinReported.

(** X3: once [setup] has run, [handleEvent] of [sfp_bitcoin] returns
    without an exception, whatever the Event: every candidate that its
    pattern finds decodes as base58, and every address it reports is data
    that an Event can carry. *)
Theorem X3_bitcoin_handleEvent_returns
        (sf : World) (event : SpiderFootEvent) (st : sfp_bitcoin.state)
        (n : nat) :
  sfp_bitcoin.ready st ->
  outcome_of (run (sfp_bitcoin.handleEvent self_id sf notify_only event)
                  st n)
  = Returned tt.
Proof. apply bc_handleEvent_returns. Qed.

Lemma X3_bitcoin_handleEvent_returns_witness :
  sfp_bitcoin.ready (sfp_bitcoin.setup Examples.global_opts
                                       sfp_bitcoin.initial)
  /\ outcome_of
       (run (sfp_bitcoin.handleEvent self_id Examples.world notify_only
               Examples.content_event)
            (sfp_bitcoin.setup Examples.global_opts sfp_bitcoin.initial) 0)
     = Returned tt.
Proof.
  split; [by eexists|].
  apply (X3_bitcoin_handleEvent_returns Examples.world
           Examples.content_event
           (sfp_bitcoin.setup Examples.global_opts sfp_bitcoin.initial) 0).
  by eexists.
Defined.

(** X4: every Event that [handleEvent] of [sfp_bitcoin] emits is a
    BITCOIN_ADDRESS whose data is one of the candidates found in the data
    of the Event handled, is 26 to 35 characters long, and passes the
    check of [check_bc]. *)
Theorem X4_bitcoin_reports_checked_addresses
        (sf : World) (event : SpiderFootEvent) (st : sfp_bitcoin.state)
        (n : nat) :
  Lineage.notifies
    (BitcoinFacts.reported_address sf (data event))
    (trace_of (run (sfp_bitcoin.handleEvent self_id sf notify_only event)
                   st n)).
Proof.
  apply emits_run, bc_handleEvent_reports. intros e He.
  by apply notifies_emit.
Qed.

(** ** [sfp_bitcoin.to_bytes] and [decode_base58] *)

Section ToBytes.
Import sfp_bitcoin Base58Facts.
Local Open Scope Z_scope.

Lemma be_value_app bs b : be_value (bs ++ [b]) = be_value bs * 256 + b.
Proof. unfold be_value. by rewrite fold_left_app. Qed.

Lemma be_value_zeros k bs : be_value (replicate k 0 ++ bs) = be_value bs.
Proof.
  unfold be_value. rewrite fold_left_app.
  replace (fold_left _ (replicate k 0) 0) with 0; [done|].
  induction k as [|k IH]; [done|]. simpl. exact IH.
Qed.

Lemma be_bytes_spec fuel :
  forall n, 0 <= n < 256 ^ Z.of_nat fuel ->
    be_value (be_bytes fuel n) = n
    /\ Forall (fun b => 0 <= b < 256) (be_bytes fuel n)
    /\ forall k : nat, n < 256 ^ Z.of_nat k ->
                       (length (be_bytes fuel n) <= k)%nat.
Proof.
  induction fuel as [|fuel IH]; intros n Hn.
  { simpl in *. split; [|split]; [unfold be_value; simpl; lia | constructor
                                  | simpl; lia]. }
  simpl. destruct (Z.leb_spec n 0) as [Hle|Hpos].
  { split; [|split]; [unfold be_value; simpl; lia | constructor
                      | simpl; lia]. }
  assert (Hdiv : 0 <= n / 256 < 256 ^ Z.of_nat fuel).
  { split; [apply Z.div_pos; lia|].
    apply Z.div_lt_upper_bound; [lia|].
    rewrite Nat2Z.inj_succ, Z.pow_succ_r in Hn; lia. }
  destruct (IH _ Hdiv) as (Hv & Hb & Hl).
  split; [|split].
  - rewrite be_value_app, Hv. pose proof (Z.div_mod n 256). lia.
  - apply Forall_app. split; [done|]. constructor; [|constructor].
    apply Z.mod_pos_bound. lia.
  - intros k Hk. rewrite length_app. simpl.
    destruct k as [|k]; [simpl in Hk; lia|].
    assert (n / 256 < 256 ^ Z.of_nat k).
    { apply Z.div_lt_upper_bound; [lia|].
      rewrite Nat2Z.inj_succ, Z.pow_succ_r in Hk; lia. }
    specialize (Hl k H). lia.
Qed.

Lemma log2_fuel n : 0 < n -> n < 256 ^ Z.of_nat (S (Z.to_nat (Z.log2 n))).
Proof.
  intros Hn. pose proof (Z.log2_nonneg n) as Hl.
  destruct (Z.log2_spec n Hn) as [_ Hup].
  rewrite Nat2Z.inj_succ, Z2Nat.id by done.
  eapply Z.lt_le_trans; [exact Hup|].
  apply Z.pow_le_mono_l. lia.
Qed.

Lemma to_bytes_spec n length_ :
  0 <= n ->
  be_value (to_bytes n length_) = n
  /\ Forall (fun b => 0 <= b < 256) (to_bytes n length_)
  /\ (Nat.max 1 length_ <= length (to_bytes n length_))%nat
  /\ (n < 256 ^ Z.of_nat (Nat.max 1 length_) ->
      length (to_bytes n length_) = Nat.max 1 length_).
Proof.
  intros Hn. unfold to_bytes.
  set (bs := be_bytes _ n).
  assert (Hbs : be_value bs = n
                /\ Forall (fun b => 0 <= b < 256) bs
                /\ forall k : nat, n < 256 ^ Z.of_nat k ->
                                   (length bs <= k)%nat).
  { destruct (Z.eq_dec n 0) as [->|Hne].
    - subst bs. simpl. split; [done|]. split; [constructor|]. simpl. lia.
    - apply be_bytes_spec. split; [done|]. apply log2_fuel. lia. }
  destruct Hbs as (Hv & Hb & Hl).
  set (digits := match bs with [] => [0] | z :: l => z :: l end).
  assert (Hd : be_value digits = n
               /\ Forall (fun b => 0 <= b < 256) digits
               /\ (1 <= length digits)%nat
               /\ forall k : nat, n < 256 ^ Z.of_nat k -> (0 < k)%nat ->
                                  (length digits <= k)%nat).
  { subst digits. destruct bs as [|b bs'].
    - split; [done|]. split; [by repeat constructor|]. simpl.
      split; [lia|]. intros; lia.
    - split; [done|]. split; [done|]. split; [simpl; lia|].
      intros k Hk _. by apply Hl. }
  destruct Hd as (Hdv & Hdb & Hd1 & Hdl).
  split; [by rewrite be_value_zeros|].
  split.
  { apply Forall_app. split; [|done]. apply Forall_replicate. lia. }
  rewrite length_app, length_replicate. split; [lia|].
  intros Hk. specialize (Hdl _ Hk ltac:(lia)). lia.
Qed.
End ToBytes.

Section LeadingOnes.
Import sfp_bitcoin Base58Facts BitcoinFacts.

Lemma decode_base58_ones k bc length_ :
  decode_base58 (ones k bc) length_ = decode_base58 bc length_.
Proof.
  unfold decode_base58. induction k as [|k IH]; [done|]. exact IH.
Qed.
End LeadingOnes.

(** X5: [to_bytes(n, length)] writes a number that is not negative in
    bytes from 0 to 255, most significant first, padded with zeros on the
    left: reading the bytes back gives [n].  There are at least [length]
    bytes and at least one (0 is written as one byte, also for the length
    0), and exactly [max(length, 1)] of them when [n] is below
    [256 ** max(length, 1)]. *)
Theorem X5_to_bytes_round_trip (n : Z) (length_ : nat) :
  (0 <= n)%Z ->
  Base58Facts.be_value (sfp_bitcoin.to_bytes n length_) = n
  /\ Forall (fun b => 0 <= b < 256)%Z (sfp_bitcoin.to_bytes n length_)
  /\ Nat.max 1 length_ <= length (sfp_bitcoin.to_bytes n length_)
  /\ ((n < 256 ^ Z.of_nat (Nat.max 1 length_))%Z ->
      length (sfp_bitcoin.to_bytes n length_) = Nat.max 1 length_).
Proof. apply to_bytes_spec. Qed.

Lemma X5_to_bytes_round_trip_witness :
  (0 <= 258)%Z
  /\ (Base58Facts.be_value (sfp_bitcoin.to_bytes 258 4) = 258%Z
      /\ Forall (fun b => 0 <= b < 256)%Z (sfp_bitcoin.to_bytes 258 4)
      /\ Nat.max 1 4 <= length (sfp_bitcoin.to_bytes 258 4)
      /\ ((258 < 256 ^ Z.of_nat (Nat.max 1 4))%Z ->
          length (sfp_bitcoin.to_bytes 258 4) = Nat.max 1 4)).
Proof. split; [lia|]. apply (X5_to_bytes_round_trip 258 4). lia. Defined.

(** [to_bytes(0, 0)] is one byte, and so is [to_bytes(5, 0)]. *)
Example to_bytes_of_length_0 :
  sfp_bitcoin.to_bytes 0 0 = [0%Z] /\ sfp_bitcoin.to_bytes 5 0 = [5%Z].
Proof. by vm_compute. Qed.

(** X6: [decode_base58] and with it [check_bc] do not see the digit [1]
    at the head of an address: with any number of them put in front, an
    address decodes to the same bytes and passes the check if and only if
    it did without them. *)
Theorem X6_check_bc_ignores_leading_ones
        (sf : World) (k : nat) (bc : string) (length_ : nat) :
  sfp_bitcoin.decode_base58 (Base58Facts.ones k bc) length_
  = sfp_bitcoin.decode_base58 bc length_
  /\ (BitcoinFacts.passes_check sf (Base58Facts.ones k bc)
      <-> BitcoinFacts.passes_check sf bc).
Proof.
  split; [apply decode_base58_ones|].
  unfold BitcoinFacts.passes_check. by rewrite decode_base58_ones.
Qed.

(** ** [sfp_portscan_tcp.setup]: a port list read from a file or a URL *)

Section PortsFromData.
Import sfp_portscan_tcp.
Context (sf : World) (shuffle : list Z -> list Z).
Local Open Scope Z_scope.

Hypothesis set_order_members :
  forall items x, x ∈ set_order sf items -> x ∈ items.
Hypothesis shuffle_members : forall l p, p ∈ shuffle l -> p ∈ l.

Lemma py_int_char c n :
  py_int (PStr (String c EmptyString)) = Returned n -> 0 <= n <= 9.
Proof.
  destruct c as [[] [] [] [] [] [] [] []]; intros H; vm_compute in H;
    first [discriminate H | injection H as H; subst n; lia].
Qed.

Lemma chars_single text x :
  x ∈ chars text -> exists c, x = PStr (String c EmptyString).
Proof.
  induction text as [|c text IH]; simpl; [by intros ?%elem_of_nil|].
  intros [->|Hin]%elem_of_cons; eauto.
Qed.

Lemma chars_hashable text : forallb hashable (chars text) = true.
Proof. induction text as [|c text IH]; [done|]. exact IH. Qed.

Variable known : list Z.

(** Every port of the list was there before or is a single digit. *)
Let digits_only (st : state) : Prop :=
  forall p, p ∈ portlist st -> p ∈ known \/ 0 <= p <= 9.

Lemma ps_each_port_option_digits ports :
  (forall x, x ∈ ports -> exists c, x = PStr (String c EmptyString)) ->
  triple digits_only (each_port_option self_id sf ports)
         (fun _ => digits_only).
Proof.
  induction ports as [|port rest IH]; intros Hports; simpl.
  { by apply triple_ret. }
  apply triple_inv_bind.
  - destruct (Hports port) as [c ->]; [apply list_elem_of_here|].
    destruct (py_int (PStr (String c EmptyString))) as [z|x] eqn:Hint.
    + apply triple_modify. intros w Hw p. simpl.
      intros [Hp | ->%list_elem_of_singleton]%elem_of_app; [by apply Hw|].
      right. by eapply py_int_char.
    + repeat case_match; apply triple_keeps; kept.
  - intros _. apply IH. intros x Hx. by apply Hports, list_elem_of_further.
Qed.

Lemma ps_randomize_digits :
  triple digits_only
         (randomize ← opt self_id "randomize";
          if truthy randomize
          then modify_self self_id
                 (fun st => with_portlist (shuffle (portlist st)) st)
          else mret tt)
         (fun _ => digits_only).
Proof.
  apply triple_inv_bind; [apply triple_keeps; kept|].
  intros randomize. destruct (truthy randomize).
  - apply triple_modify. intros w Hw p Hp. simpl in Hp.
    by apply Hw, shuffle_members.
  - by apply triple_ret.
Qed.

Lemma ps_setup_from_data userOpts st s rest n :
  (userOpts ∪ opts st) !! "ports" = Some (PList (PStr s :: rest)) ->
  Str.startswith "http://" s || Str.startswith "https://" s
  || Str.startswith "@" s = true ->
  known = portlist st ->
  digits_only (state_of (run (setup self_id sf shuffle userOpts) st n)).
Proof.
  intros Hports Hstart Hknown. unfold setup, run, state_of.
  cbv beta iota zeta delta
      [mbind M_bind mret M_ret gets modify_self opt Plugin.opt getitem
       raise lift_outcome].
  cbn [view update self_id objs polls trace fst snd opts].
  rewrite Hports. cbn [objs polls trace]. rewrite Hstart.
  cbn [objs polls trace].
  destruct (optValueToData sf s) as [text|]; cbn [py_iter objs polls trace].
  2:{ intros p Hp. left. by rewrite Hknown. }
  rewrite chars_hashable. cbn [objs polls trace].
  match goal with
  | |- digits_only (let '(_, _) := let (_, _) := ?m ?e0 in _ in _).1.2 =>
      pose proof (ps_each_port_option_digits (set_order sf (chars text))
                    (fun x Hx => chars_single text x
                                   (set_order_members _ _ Hx)) e0) as H1;
      destruct (m e0) as [[[]|x] e1]
  end.
  - pose proof (ps_randomize_digits e1) as H2.
    cbv beta iota zeta delta
        [mbind M_bind mret M_ret gets modify_self opt Plugin.opt getitem
         raise] in H2.
    cbn [view update self_id] in H2.
    match type of H2 with
    | _ -> digits_only (objs (?r).2) =>
        match goal with
        | |- context [let (_, _) := ?r' in _] => change r' with r
        end;
        destruct r as [o e2]
    end.
    simpl in *. apply H2, H1. intros p Hp. left. by rewrite Hknown.
  - simpl in *. apply H1. intros p Hp. left. by rewrite Hknown.
Qed.
End PortsFromData.

(** X7: when the first entry of the option [ports] names a file or a URL,
    [setup] takes what [optValueToData] returns for it character by
    character: every port it adds to the port list is a single digit,
    from 0 to 9, whatever the numbers in the data are. *)
Theorem X7_ports_from_data_are_single_digits
        (sf : World) (shuffle : list Z -> list Z)
        (userOpts : gmap string pyval) (st : sfp_portscan_tcp.state)
        (s : string) (rest : list pyval) (n : nat) :
  (forall items x, x ∈ set_order sf items -> x ∈ items) ->
  (forall l p, p ∈ shuffle l -> p ∈ l) ->
  (userOpts ∪ sfp_portscan_tcp.opts st) !! "ports"
  = Some (PList (PStr s :: rest)) ->
  Str.startswith "http://" s || Str.startswith "https://" s
  || Str.startswith "@" s = true ->
  forall p,
    p ∈ sfp_portscan_tcp.portlist
          (state_of (run (sfp_portscan_tcp.setup self_id sf shuffle userOpts)
                         st n)) ->
    p ∈ sfp_portscan_tcp.portlist st \/ (0 <= p <= 9)%Z.
Proof.
  intros Hset Hshuffle Hports Hstart.
  by apply (ps_setup_from_data sf shuffle Hset Hshuffle
              (sfp_portscan_tcp.portlist st) userOpts st s rest n).
Qed.

Lemma X7_ports_from_data_are_single_digits_witness :
  let st' :=
    state_of (run (sfp_portscan_tcp.setup self_id Examples.world
                     (fun l => l) MoreExamples.opts_ports_file)
                  sfp_portscan_tcp.initial 0) in
  sfp_portscan_tcp.portlist st' = [8; 0]%Z
  /\ (8%Z ∈ sfp_portscan_tcp.portlist sfp_portscan_tcp.initial
      \/ (0 <= 8 <= 9)%Z).
Proof.
  intros st'.
  assert (Hports : sfp_portscan_tcp.portlist st' = [8; 0]%Z)
    by (vm_compute; reflexivity).
  split; [exact Hports|].
  apply (X7_ports_from_data_are_single_digits Examples.world (fun l => l)
           MoreExamples.opts_ports_file sfp_portscan_tcp.initial
           "@80" [] 0).
  - intros items x Hx. exact Hx.
  - intros l p Hp. exact Hp.
  - vm_compute. reflexivity.
  - reflexivity.
  - fold st'. rewrite Hports. apply list_elem_of_here.
Defined.

(** ** The registry: who consumes, and what modules produce and consume *)

Section RegistryMoreFacts.
Import Registry RegistryMore.

Lemma elem_of_flat_map_list {A B} (f : A -> list B) (l : list A) (b : B) :
  b ∈ flat_map f l <-> exists a, a ∈ l /\ b ∈ f a.
Proof.
  rewrite list_elem_of_In, in_flat_map.
  split; intros (a & Ha & Hb); exists a; by rewrite ?list_elem_of_In in *.
Qed.

Lemma hits_elem (events types : list string) (mod_ x : string) :
  x ∈ flat_map (fun evtype : string =>
                  if bool_decide (evtype ∈ events) then [mod_] else [])
               types
  <-> x = mod_ /\ exists t, t ∈ types /\ t ∈ events.
Proof.
  rewrite elem_of_flat_map_list. split.
  - intros (t & Ht & Hx). case_bool_decide as Hf.
    + apply list_elem_of_singleton in Hx. eauto.
    + by apply elem_of_nil in Hx.
  - intros (-> & t & Ht & Hf). exists t. split; [done|].
    rewrite bool_decide_eq_true_2 by done. apply list_elem_of_here.
Qed.

Lemma consumed_hits_elem events mod_ info x :
  x ∈ consumed_hits events mod_ info
  <-> x = mod_
      /\ exists cs, consumes info = Some cs
                      /\ ("*" ∈ cs \/ exists t, t ∈ cs /\ t ∈ events).
Proof.
  unfold consumed_hits. destruct (consumes info) as [[|c cs']|].
  - split; [by intros ?%elem_of_nil|].
    intros (_ & cs & [= <-] & [H|(t & H & _)]); by apply elem_of_nil in H.
  - case_bool_decide as Hstar.
    + rewrite list_elem_of_singleton. split; [eauto 6|]. by intros [-> _].
    + rewrite hits_elem. split.
      * intros (-> & t & Ht & He). eauto 8.
      * intros (-> & cons' & [= <-] & [H|H]); [done | eauto].
  - split; [by intros ?%elem_of_nil|]. by intros (_ & cs & [=] & _).
Qed.

Lemma produced_hits_elem events mod_ info x :
  x ∈ produced_hits events mod_ info
  <-> x = mod_
      /\ exists prov, provides info = Some prov /\ prov <> []
                      /\ ("*" ∈ events \/ exists t, t ∈ prov /\ t ∈ events).
Proof.
  unfold produced_hits. destruct (provides info) as [[|p prov]|].
  - split; [by intros ?%elem_of_nil|]. by intros (_ & prov & [= <-] & ? & _).
  - rewrite elem_of_app, hits_elem. split.
    + intros [Hx|(-> & t & Ht & He)].
      * case_bool_decide; [|by apply elem_of_nil in Hx].
        apply list_elem_of_singleton in Hx as ->. eauto 8.
      * eauto 10.
    + intros (-> & prov' & [= <-] & _ & [H|H]); [|eauto].
      left. rewrite bool_decide_eq_true_2 by done. apply list_elem_of_here.
  - split; [by intros ?%elem_of_nil|]. by intros (_ & prov & [=] & _).
Qed.

Lemma modulesConsuming_elem loaded events m :
  m ∈ modulesConsuming loaded events
  <-> events <> []
      /\ exists lm info cs,
           loaded = Some lm /\ lm !! m = Some info
           /\ consumes info = Some cs
           /\ ("*" ∈ cs \/ exists t, t ∈ cs /\ t ∈ events).
Proof.
  unfold modulesConsuming. destruct events as [|ev events'].
  { split; [by intros ?%elem_of_nil | by intros [? _]]. }
  destruct loaded as [lm|].
  2:{ split; [by intros ?%elem_of_nil | by intros (_ & ? & ? & ? & [=] & _)]. }
  destruct (decide (lm = ∅)) as [->|_].
  { split; [by intros ?%elem_of_nil|].
    intros (_ & ? & ? & ? & [= <-] & H & _). by simplify_map_eq. }
  rewrite elem_of_elements, elem_of_list_to_set, elem_of_flat_map_list.
  split.
  - intros ([m' info] & Hin & Hhit). apply elem_of_map_to_list in Hin.
    apply consumed_hits_elem in Hhit as (-> & cs & Hc & H). simpl in *.
    split; [done|]. eauto 10.
  - intros (_ & lm' & info & cs & [= <-] & Hlook & Hc & H).
    exists (m, info). split; [by apply elem_of_map_to_list|].
    apply consumed_hits_elem. eauto.
Qed.

Lemma modulesProducing_elem loaded events m :
  m ∈ modulesProducing loaded events
  <-> events <> []
      /\ exists lm info prov,
           loaded = Some lm /\ lm !! m = Some info
           /\ provides info = Some prov /\ prov <> []
           /\ ("*" ∈ events \/ exists t, t ∈ prov /\ t ∈ events).
Proof.
  unfold modulesProducing. destruct events as [|ev events'].
  { split; [by intros ?%elem_of_nil | by intros [? _]]. }
  destruct loaded as [lm|].
  2:{ split; [by intros ?%elem_of_nil | by intros (_ & ? & ? & ? & [=] & _)]. }
  destruct (decide (lm = ∅)) as [->|_].
  { split; [by intros ?%elem_of_nil|].
    intros (_ & ? & ? & ? & [= <-] & H & _). by simplify_map_eq. }
  rewrite elem_of_elements, elem_of_list_to_set, elem_of_flat_map_list.
  split.
  - intros ([m' info] & Hin & Hhit). apply elem_of_map_to_list in Hin.
    apply produced_hits_elem in Hhit as (-> & prov & Hp & Hne & H).
    simpl in *. split; [done|]. eauto 10.
  - intros (_ & lm' & info & prov & [= <-] & Hlook & Hp & Hne & H).
    exists (m, info). split; [by apply elem_of_map_to_list|].
    apply produced_hits_elem. eauto 10.
Qed.

Lemma modulesConsuming_NoDup loaded events :
  NoDup (modulesConsuming loaded events).
Proof.
  unfold modulesConsuming.
  destruct events; [constructor|].
  destruct loaded as [lm|]; [|constructor].
  destruct (decide (lm = ∅)); [constructor|].
  apply NoDup_elements.
Qed.

Lemma listed_elem key lm modules t :
  t ∈ listed key lm modules
  <-> exists m info types,
        m ∈ modules /\ lm !! m = Some info /\ key info = Some types
        /\ t ∈ types.
Proof.
  unfold listed. rewrite elem_of_flat_map_list. split.
  - intros (m & Hm & Ht). destruct (lm !! m) as [info|] eqn:Hlook;
      [|by apply elem_of_nil in Ht].
    destruct (key info) as [types|] eqn:Hkey; [|by apply elem_of_nil in Ht].
    eauto 10.
  - intros (m & info & types & Hm & Hlook & Hkey & Ht).
    exists m. by rewrite Hlook, Hkey.
Qed.

Lemma listed_app key lm ms1 ms2 :
  listed key lm (ms1 ++ ms2) = listed key lm ms1 ++ listed key lm ms2.
Proof. unfold listed. apply flat_map_app. Qed.

Lemma eventsFromModules_listed lm modules :
  eventsFromModules (Some lm) modules = listed provides lm modules.
Proof.
  unfold eventsFromModules. destruct modules as [|m ms]; [done|].
  destruct (decide (lm = ∅)) as [->|]; [|done].
  unfold listed. induction (m :: ms) as [|m' ms' IH]; [done|].
  simpl. by rewrite lookup_empty.
Qed.

Lemma eventsToModules_listed lm modules :
  eventsToModules (Some lm) modules = listed consumes lm modules.
Proof.
  unfold eventsToModules. destruct modules as [|m ms]; [done|].
  destruct (decide (lm = ∅)) as [->|]; [|done].
  unfold listed. induction (m :: ms) as [|m' ms' IH]; [done|].
  simpl. by rewrite lookup_empty.
Qed.
End RegistryMoreFacts.

(** X8: for a list of event types that is not empty, [modulesConsuming]
    returns exactly the loaded modules whose [consumes] lists [*] or one of
    the types asked for, each once.  A [*] among the types asked for has no
    meaning of its own here. *)
Theorem X8_modulesConsuming_exactly
        (loaded : gmap string Registry.modinfo) (events : list string) :
  events <> [] ->
  (forall m,
      m ∈ RegistryMore.modulesConsuming (Some loaded) events
      <-> exists info consumed,
            loaded !! m = Some info
            /\ Registry.consumes info = Some consumed
            /\ ("*" ∈ consumed \/ exists t, t ∈ consumed /\ t ∈ events))
  /\ NoDup (RegistryMore.modulesConsuming (Some loaded) events).
Proof.
  intros Hne. split; [|apply modulesConsuming_NoDup].
  intros m. rewrite modulesConsuming_elem. split.
  - intros (_ & lm & info & cs & [= <-] & ? & ? & ?). eauto.
  - intros (info & cs & ? & ? & ?). split; [done|]. eauto 10.
Qed.

Lemma X8_modulesConsuming_exactly_witness :
  ["TARGET_WEB_CONTENT"] <> []
  /\ RegistryMore.modulesConsuming (Some Registry.loaded_example)
                                    ["TARGET_WEB_CONTENT"]
     ≡ₚ ["sfp_bitcoin"; "sfp__stor_db"]
  /\ ((forall m,
          m ∈ RegistryMore.modulesConsuming (Some Registry.loaded_example)
                                            ["TARGET_WEB_CONTENT"]
          <-> exists info consumed,
                Registry.loaded_example !! m = Some info
                /\ Registry.consumes info = Some consumed
                /\ ("*" ∈ consumed
                    \/ exists t, t ∈ consumed
                                 /\ t ∈ ["TARGET_WEB_CONTENT"]))
      /\ NoDup (RegistryMore.modulesConsuming (Some Registry.loaded_example)
                                               ["TARGET_WEB_CONTENT"])).
Proof.
  split; [done|]. split.
  - apply NoDup_Permutation.
    + apply modulesConsuming_NoDup.
    + by apply (bool_decide_unpack _).
    + intros m. rewrite modulesConsuming_elem. split.
      * intros (_ & lm & info & cs & [= <-] & Hlook & _).
        apply elem_of_dom_2 in Hlook. revert Hlook.
        unfold Registry.loaded_example. rewrite !dom_insert_L, dom_empty_L.
        set_solver.
      * intros Hm. split; [done|].
        apply elem_of_cons in Hm as [->|Hm];
          [|apply list_elem_of_singleton in Hm as ->].
        -- eexists _, _, _. split; [done|]. split; [by simplify_map_eq|].
           split; [done|]. right. eexists. split; apply list_elem_of_here.
        -- eexists _, _, _. split; [done|]. split; [by simplify_map_eq|].
           split; [done|]. left. apply list_elem_of_here.
  - by apply (X8_modulesConsuming_exactly Registry.loaded_example
                ["TARGET_WEB_CONTENT"]).
Defined.

(** X9: [eventsFromModules] and [eventsToModules] list, module by module
    and in the order of the modules given, what the loaded ones among
    them provide and consume: a type is in the result exactly when a
    loaded module of the list declares it, and the result for two lists
    after one another is the two results after one another. *)
Theorem X9_events_of_modules
        (loaded : gmap string Registry.modinfo) (ms1 ms2 : list string)
        (t : string) :
  (t ∈ RegistryMore.eventsFromModules (Some loaded) ms1
   <-> exists m info types,
         m ∈ ms1 /\ loaded !! m = Some info
         /\ Registry.provides info = Some types /\ t ∈ types)
  /\ (t ∈ RegistryMore.eventsToModules (Some loaded) ms1
      <-> exists m info types,
            m ∈ ms1 /\ loaded !! m = Some info
            /\ Registry.consumes info = Some types /\ t ∈ types)
  /\ RegistryMore.eventsFromModules (Some loaded) (ms1 ++ ms2)
     = RegistryMore.eventsFromModules (Some loaded) ms1
       ++ RegistryMore.eventsFromModules (Some loaded) ms2
  /\ RegistryMore.eventsToModules (Some loaded) (ms1 ++ ms2)
     = RegistryMore.eventsToModules (Some loaded) ms1
       ++ RegistryMore.eventsToModules (Some loaded) ms2.
Proof.
  rewrite !eventsFromModules_listed, !eventsToModules_listed, !listed_app.
  split; [apply listed_elem|]. split; [apply listed_elem | done].
Qed.

(** X10: the two directions of the registry fit together.  A loaded
    module of the list [ms] that provides some type is among the modules
    that produce the types [eventsFromModules(ms)], and one that consumes
    some type is among the modules that consume the types
    [eventsToModules(ms)]. *)
Theorem X10_modules_of_their_events
        (loaded : gmap string Registry.modinfo) (ms : list string)
        (m : string) (info : Registry.modinfo) :
  m ∈ ms -> loaded !! m = Some info ->
  (forall t types, Registry.provides info = Some (t :: types) ->
        m ∈ Registry.modulesProducing (Some loaded)
              (RegistryMore.eventsFromModules (Some loaded) ms))
  /\ (forall t types, Registry.consumes info = Some (t :: types) ->
        m ∈ RegistryMore.modulesConsuming (Some loaded)
              (RegistryMore.eventsToModules (Some loaded) ms)).
Proof.
  intros Hm Hlook. split; intros t types Hkey.
  - assert (Ht : t ∈ RegistryMore.eventsFromModules (Some loaded) ms).
    { rewrite eventsFromModules_listed. apply listed_elem.
      exists m, info, (t :: types). repeat split; try done.
      apply list_elem_of_here. }
    apply modulesProducing_elem. split.
    { intros Hnil. rewrite Hnil in Ht. by apply elem_of_nil in Ht. }
    exists loaded, info, (t :: types). repeat split; try done.
    right. exists t. split; [apply list_elem_of_here | done].
  - assert (Ht : t ∈ RegistryMore.eventsToModules (Some loaded) ms).
    { rewrite eventsToModules_listed. apply listed_elem.
      exists m, info, (t :: types). repeat split; try done.
      apply list_elem_of_here. }
    apply modulesConsuming_elem. split.
    { intros Hnil. rewrite Hnil in Ht. by apply elem_of_nil in Ht. }
    exists loaded, info, (t :: types). repeat split; try done.
    right. exists t. split; [apply list_elem_of_here | done].
Qed.

Lemma X10_modules_of_their_events_witness :
  "sfp_bitcoin" ∈ ["sfp_bitcoin"; "sfp_unknown"]
  /\ Registry.loaded_example !! "sfp_bitcoin"
     = Some (Registry.Build_modinfo (Some ["BITCOIN_ADDRESS"])
                                    (Some ["TARGET_WEB_CONTENT"]))
  /\ RegistryMore.eventsFromModules (Some Registry.loaded_example)
                                     ["sfp_bitcoin"; "sfp_unknown"]
     = ["BITCOIN_ADDRESS"]
  /\ "sfp_bitcoin"
       ∈ Registry.modulesProducing (Some Registry.loaded_example)
           (RegistryMore.eventsFromModules (Some Registry.loaded_example)
              ["sfp_bitcoin"; "sfp_unknown"])
  /\ "sfp_bitcoin"
       ∈ RegistryMore.modulesConsuming (Some Registry.loaded_example)
           (RegistryMore.eventsToModules (Some Registry.loaded_example)
              ["sfp_bitcoin"; "sfp_unknown"]).
Proof.
  assert (Hin : "sfp_bitcoin" ∈ ["sfp_bitcoin"; "sfp_unknown"])
    by apply list_elem_of_here.
  assert (Hlook : Registry.loaded_example !! "sfp_bitcoin"
                  = Some (Registry.Build_modinfo (Some ["BITCOIN_ADDRESS"])
                            (Some ["TARGET_WEB_CONTENT"])))
    by (by simplify_map_eq).
  split; [exact Hin|]. split; [exact Hlook|].
  split; [by vm_compute|].
  destruct (X10_modules_of_their_events Registry.loaded_example
              ["sfp_bitcoin"; "sfp_unknown"] "sfp_bitcoin" _ Hin Hlook)
    as [Hp Hc].
  split; [by eapply Hp | by eapply Hc].
Defined.

(** ** Splitting and joining *)

Section SplitJoin.
Import Str StrMore ReLang.

Lemma split_nonempty sep s : split sep s <> [].
Proof.
  destruct s as [|c s]; simpl; [done|].
  destruct (Ascii.eqb c sep); [done|]. by destruct (split sep s).
Qed.

Lemma split_cons_other sep c s :
  Ascii.eqb c sep = false ->
  exists w ws, split sep s = w :: ws
               /\ split sep (String c s) = String c w :: ws.
Proof.
  intros Hc. simpl. rewrite Hc.
  destruct (split sep s) as [|w ws] eqn:Hs; [by apply split_nonempty in Hs|].
  eauto.
Qed.

Lemma join_cons sep w w' ws :
  join sep (w :: w' :: ws) = w +:+ sep +:+ join sep (w' :: ws).
Proof. reflexivity. Qed.

Lemma join_cons_char sep c w ws :
  join sep (String c w :: ws) = String c (join sep (w :: ws)).
Proof. by destruct ws. Qed.

Lemma join_split sep s : join (String sep EmptyString) (split sep s) = s.
Proof.
  induction s as [|c s IH]; [done|].
  destruct (Ascii.eqb_spec c sep) as [->|Hne].
  - simpl. rewrite Ascii.eqb_refl.
    destruct (split sep s) as [|w ws] eqn:Hs;
      [by apply split_nonempty in Hs|].
    rewrite join_cons, IH. reflexivity.
  - destruct (split_cons_other sep c s) as (w & ws & Hs & ->).
    { by apply Ascii.eqb_neq. }
    rewrite join_cons_char. by rewrite <- Hs, IH.
Qed.

Lemma split_no_sep sep s :
  count_char sep s = 0 -> split sep s = [s].
Proof.
  induction s as [|c s IH]; [done|]. simpl.
  destruct (Ascii.eqb c sep); [done|]. simpl. intros H.
  by rewrite (IH H).
Qed.

Lemma split_app_sep sep w s :
  count_char sep w = 0 ->
  split sep (w +:+ String sep s) = w :: split sep s.
Proof.
  induction w as [|c w IH]; intros Hw.
  - rewrite string_app_nil_l. simpl. by rewrite Ascii.eqb_refl.
  - simpl in Hw. rewrite string_app_cons. simpl.
    destruct (Ascii.eqb c sep); [done|]. by rewrite (IH Hw).
Qed.

Lemma split_join sep l :
  l <> [] -> Forall (fun w => count_char sep w = 0) l ->
  split sep (join (String sep EmptyString) l) = l.
Proof.
  intros Hne Hl. induction Hl as [|w ws Hw Hws IH]; [done|].
  destruct ws as [|w' ws].
  - simpl. by apply split_no_sep.
  - rewrite join_cons, string_app_cons, string_app_nil_l.
    rewrite split_app_sep by done. by rewrite IH.
Qed.

Lemma split_segments sep s :
  Forall (fun w => count_char sep w = 0) (split sep s).
Proof.
  induction s as [|c s IH]; [by repeat constructor|].
  destruct (Ascii.eqb c sep) eqn:Hc.
  - simpl. rewrite Hc. by constructor.
  - destruct (split_cons_other sep c s Hc) as (w & ws & Hs & ->).
    rewrite Hs in IH. inversion IH as [|? ? Hw Hws]; subst.
    constructor; [|done]. simpl. by rewrite Hc.
Qed.

Lemma length_split sep s :
  length (split sep s) = S (count_char sep s).
Proof.
  induction s as [|c s IH]; [done|].
  destruct (Ascii.eqb c sep) eqn:Hc.
  - simpl. rewrite Hc. simpl. by rewrite IH.
  - destruct (split_cons_other sep c s Hc) as (w & ws & Hs & ->).
    simpl. rewrite Hc. rewrite Hs in IH. simpl in *. lia.
Qed.

(** [sub in s] holds exactly when [sub] occurs in [s]. *)
Lemma prefix_app p s :
  String.prefix p s = true <-> exists rest, s = p +:+ rest.
Proof.
  revert s. induction p as [|c p IH]; intros s.
  - split; [by exists s | by destruct s].
  - destruct s as [|c' s]; simpl.
    + split; [done | by intros [? [=]]].
    + destruct (Ascii.ascii_dec c c') as [->|Hne].
      * rewrite IH. split; intros [rest H]; exists rest.
        -- by rewrite string_app_cons, H.
        -- rewrite string_app_cons in H. by injection H.
      * split; [done|]. intros [rest H]. rewrite string_app_cons in H.
        by injection H.
Qed.

Lemma contains_unfold sub s :
  contains sub s
  = String.prefix sub s
    || match s with
       | EmptyString => false
       | String _ s' => contains sub s'
       end.
Proof. by destruct s. Qed.

Lemma contains_occurs sub s :
  contains sub s = true <-> occurs_in sub s.
Proof.
  induction s as [|c s IH]; rewrite contains_unfold.
  - rewrite orb_false_r. split.
    + intros [rest H]%prefix_app. by exists EmptyString, rest.
    + intros ([|? ?] & after & H); [|done].
      apply prefix_app. by exists after.
  - rewrite orb_true_iff, IH. split.
    + intros [[rest H]%prefix_app | (before & after & ->)].
      * by exists EmptyString, rest.
      * by exists (String c before), after.
    + intros ([|c' before] & after & H).
      * left. apply prefix_app. by exists after.
      * right. rewrite string_app_cons in H. injection H as -> ->.
        by exists before, after.
Qed.

Lemma join_occurs sep l w : w ∈ l -> occurs_in w (join sep l).
Proof.
  induction l as [|w0 l IH]; [by intros ?%elem_of_nil|].
  intros [->|Hin]%elem_of_cons.
  - destruct l as [|w1 l].
    + exists EmptyString, EmptyString. by rewrite string_app_nil_r.
    + by exists EmptyString, (sep +:+ join sep (w1 :: l)).
  - destruct l as [|w1 l]; [by apply elem_of_nil in Hin|].
    rewrite join_cons. apply occurs_in_app.
    by apply occurs_in_app, IH.
Qed.

(** A segment of [s] occurs in [s]. *)
Lemma split_occurs sep s w : w ∈ split sep s -> occurs_in w s.
Proof.
  intros Hin. rewrite <- (join_split sep s). by apply join_occurs.
Qed.
End SplitJoin.

Section MoreSplitJoin.
Import Str StrMore ReLang.

Lemma count_char_app c s t :
  count_char c (s +:+ t) = count_char c s + count_char c t.
Proof.
  induction s as [|x s IH]; [done|].
  rewrite string_app_cons. simpl. rewrite IH. lia.
Qed.

Lemma split_snoc_sep sep s :
  split sep (s +:+ String sep EmptyString) = split sep s ++ [EmptyString].
Proof.
  induction s as [|c s IH].
  - rewrite string_app_nil_l. simpl. by rewrite Ascii.eqb_refl.
  - rewrite string_app_cons. simpl. rewrite IH.
    destruct (Ascii.eqb c sep); [done|].
    destruct (split sep s) as [|w ws] eqn:Hs;
      [by apply split_nonempty in Hs|]. done.
Qed.

Lemma join_snoc sep l w :
  l <> [] -> join sep (l ++ [w]) = join sep l +:+ sep +:+ w.
Proof.
  induction l as [|w0 l IH]; [done|]. intros _.
  destruct l as [|w1 l]; [done|].
  change ((w0 :: w1 :: l) ++ [w]) with (w0 :: (w1 :: l) ++ [w]).
  assert (Hj : forall x y ys, join sep (x :: y :: ys)
                              = x +:+ sep +:+ join sep (y :: ys)) by done.
  simpl app. rewrite !Hj. simpl app in IH. rewrite IH by done.
  by rewrite !string_app_assoc.
Qed.

Lemma occurs_in_count c sub s :
  occurs_in sub s -> count_char c sub <= count_char c s.
Proof.
  intros (before & after & ->). rewrite !count_char_app. lia.
Qed.

Lemma occurs_in_trans a b c : occurs_in a b -> occurs_in b c -> occurs_in a c.
Proof.
  intros (b1 & b2 & ->) (c1 & c2 & ->).
  exists (c1 +:+ b1), (b2 +:+ c2). by rewrite !string_app_assoc.
Qed.
End MoreSplitJoin.

Section UrlFacts.
Import Str StrMore ReLang Url.

Lemma removelast_subset {A} (l : list A) x : x ∈ removelast l -> x ∈ l.
Proof.
  induction l as [|a l IH]; [done|]. simpl.
  destruct l as [|b l]; [by intros ?%elem_of_nil|].
  intros [->|Hin]%elem_of_cons; [apply list_elem_of_here|].
  apply list_elem_of_further. by apply IH.
Qed.

(** What the loop keeps comes from the chunks and from the list it
    started with, and is no [..]. *)
Lemma each_chunk_members hs bits acc x :
  x ∈ each_chunk hs bits acc -> x ∈ acc \/ (x ∈ bits /\ x <> "..").
Proof.
  revert acc. induction bits as [|chunk rest IH]; intros acc; simpl.
  { by left. }
  destruct (String.eqb_spec chunk "..") as [->|Hne].
  - intros Hin.
    assert (Hcase : x ∈ each_chunk hs rest acc
                    \/ x ∈ each_chunk hs rest (removelast acc)).
    { repeat case_match; eauto. }
    destruct Hcase as [H|H]; apply IH in H as [H|[H ?]].
    + by left.
    + right. split; [by apply list_elem_of_further | done].
    + left. by apply removelast_subset.
    + right. split; [by apply list_elem_of_further | done].
  - intros [[H| ->%list_elem_of_singleton]%elem_of_app|[H ?]]%IH.
    + by left.
    + right. split; [apply list_elem_of_here | done].
    + right. split; [by apply list_elem_of_further | done].
Qed.

(** Without a chunk [..] the loop keeps every chunk. *)
Lemma each_chunk_plain hs bits acc :
  ".." ∉ bits -> each_chunk hs bits acc = acc ++ bits.
Proof.
  revert acc. induction bits as [|chunk rest IH]; intros acc Hno; simpl.
  { by rewrite app_nil_r. }
  destruct (String.eqb_spec chunk "..") as [->|Hne].
  { exfalso. apply Hno, list_elem_of_here. }
  rewrite IH, <- app_assoc; [done|].
  intros Hin. by apply Hno, list_elem_of_further.
Qed.

Lemma length_removelast {A} (l : list A) :
  length (removelast l) = length l - 1.
Proof.
  induction l as [|a l IH]; [done|].
  destruct l as [|b l]; [done|].
  change (removelast (a :: b :: l)) with (a :: removelast (b :: l)).
  simpl length in *. lia.
Qed.

Lemma take_removelast {A} k (l : list A) :
  k < length l -> take k (removelast l) = take k l.
Proof.
  revert k. induction l as [|a l IH]; intros k Hk; [done|].
  destruct l as [|b l]; [simpl in Hk; by destruct k; [|lia]|].
  destruct k as [|k]; [done|].
  change (removelast (a :: b :: l)) with (a :: removelast (b :: l)).
  simpl take. f_equal. apply IH. simpl in *. lia.
Qed.

(** The first [k] chunks of the list are out of reach of [..] when the
    loop does not take a chunk off a list of [k] chunks or fewer. *)
Lemma each_chunk_top hs bits acc k :
  (k = 1 \/ (k = 3 /\ hs = true)) ->
  ".." ∉ acc ->
  take k (each_chunk hs bits acc)
  = take k (acc ++ filter (fun c => c <> "..") bits).
Proof.
  intros Hk. revert acc. induction bits as [|chunk rest IH]; intros acc Hacc.
  { simpl. by rewrite app_nil_r. }
  simpl each_chunk. destruct (String.eqb_spec chunk "..") as [->|Hne].
  - assert (Hf : filter (fun c : string => c <> "..") (".." :: rest)
                 = filter (fun c : string => c <> "..") rest).
    { apply filter_cons_False. by intros H. }
    rewrite Hf.
    destruct (Nat.leb_spec (length acc) 1) as [H1|H1]; [by apply IH|].
    destruct (hs && (length acc <=? 3)%nat) eqn:H3; [by apply IH|].
    rewrite IH.
    2:{ intros Hin. by apply Hacc, removelast_subset. }
    assert (Hlt : k < length acc).
    { destruct Hk as [->|[-> ->]]; [lia|].
      simpl in H3. apply Nat.leb_gt in H3. lia. }
    rewrite !take_app_le.
    + by apply take_removelast.
    + lia.
    + rewrite length_removelast. lia.
  - assert (Hf : filter (fun c : string => c <> "..") (chunk :: rest)
                 = chunk :: filter (fun c : string => c <> "..") rest).
    { by apply filter_cons_True. }
    rewrite Hf, IH.
    + by rewrite <- app_assoc.
    + intros [H|H%list_elem_of_singleton]%elem_of_app; [by apply Hacc|].
      by apply Hne.
Qed.
End UrlFacts.

Section UrlRelative.
Import Str StrMore ReLang Url.
Context {S : Type}.

Lemma urlRelativeToAbsolute_run url (st : S) n :
  url <> EmptyString ->
  run (urlRelativeToAbsolute url) st n
  = (Returned
       (Some (if negb (contains ".." url) then url
              else join "/" (each_chunk (contains "://" url)
                                        (split "/" url) []))),
     st, []).
Proof.
  intros Hne. destruct url as [|c url]; [done|].
  unfold urlRelativeToAbsolute. by destruct (negb _).
Qed.

Lemma each_chunk_clean hs url :
  let l := each_chunk hs (split "/" url) [] in
  (".." ∉ l) /\ Forall (fun w => count_char "/" w = 0) l.
Proof.
  intros l. split.
  - intros [Hin|[_ Hne]]%each_chunk_members; [by apply elem_of_nil in Hin|].
    done.
  - apply Forall_forall. intros w [Hin|[Hin _]]%each_chunk_members.
    + by apply elem_of_nil in Hin.
    + by apply (proj1 (Forall_forall _ _) (split_segments "/" url)).
Qed.

Lemma split_join_chunks l :
  Forall (fun w => count_char "/" w = 0) l ->
  split "/" (join "/" l) = match l with [] => [EmptyString] | _ => l end.
Proof.
  intros Hl. destruct l as [|w l]; [done|]. by apply split_join.
Qed.

Lemma no_parent_substring url :
  contains ".." url = false -> ".." ∉ split "/" url.
Proof.
  intros Hno Hin%split_occurs%contains_occurs. congruence.
Qed.

Lemma urlRelativeToAbsolute_segments url (st : S) n :
  url <> EmptyString ->
  exists r,
    run (urlRelativeToAbsolute url) st n = (Returned (Some r), st, [])
    /\ ".." ∉ split "/" r.
Proof.
  intros Hne. rewrite urlRelativeToAbsolute_run by done.
  eexists. split; [done|].
  destruct (contains ".." url) eqn:Hc; simpl.
  - destruct (each_chunk_clean (contains "://" url) url) as [Hno Hseg].
    rewrite split_join_chunks by done.
    destruct (each_chunk _ _ _); [|done].
    by intros [=]%list_elem_of_singleton.
  - by apply no_parent_substring.
Qed.

Lemma urlRelativeToAbsolute_again url r (st : S) n :
  run (urlRelativeToAbsolute url) st n = (Returned (Some r), st, []) ->
  r <> EmptyString ->
  run (urlRelativeToAbsolute r) st n = (Returned (Some r), st, []).
Proof.
  intros Hrun Hr.
  assert (Hne : url <> EmptyString).
  { intros ->. by vm_compute in Hrun. }
  rewrite urlRelativeToAbsolute_run in Hrun by done.
  injection Hrun as Hrun.
  rewrite urlRelativeToAbsolute_run by done. do 3 f_equal.
  destruct (contains ".." r) eqn:Hcr; [simpl|done].
  destruct (contains ".." url) eqn:Hc; simpl in Hrun; [|congruence].
  destruct (each_chunk_clean (contains "://" url) url) as [Hno Hseg].
  set (l := each_chunk _ (split "/" url) []) in *.
  subst r. rewrite split_join_chunks by done.
  destruct l as [|w l]; [done|].
  by rewrite each_chunk_plain.
Qed.

Lemma scheme_chunk url :
  contains "://" url = true ->
  exists chunk, chunk ∈ split "/" url /\ chunk <> "..".
Proof.
  intros Hc%contains_occurs.
  destruct (decide (Forall (fun w => w = "..") (split "/" url)))
    as [Hall|Hex].
  - exfalso.
    assert (Hcount : count_char ":" url = 0).
    { rewrite <- (join_split "/" url).
      induction Hall as [|w ws -> _ IH]; [done|].
      destruct ws as [|w' ws]; [done|].
      rewrite join_cons, !count_char_app, IH. done. }
    apply (occurs_in_count ":") in Hc. simpl in Hc. lia.
  - apply not_Forall_Exists in Hex; [|intros w; apply _].
    apply Exists_exists in Hex as (w & Hin & Hw). eauto.
Qed.

Lemma urlRelativeToAbsolute_top url r (st : S) n :
  contains "://" url = true ->
  run (urlRelativeToAbsolute url) st n = (Returned (Some r), st, []) ->
  take 3 (split "/" r)
  = take 3 (filter (fun chunk => chunk <> "..") (split "/" url)).
Proof.
  intros Hscheme Hrun.
  assert (Hne : url <> EmptyString) by (by intros ->).
  rewrite urlRelativeToAbsolute_run in Hrun by done.
  injection Hrun as <-.
  destruct (contains ".." url) eqn:Hc; simpl.
  - destruct (each_chunk_clean (contains "://" url) url) as [Hno Hseg].
    rewrite split_join_chunks by done. rewrite Hscheme in *.
    pose proof (each_chunk_top true (split "/" url) [] 3) as Htop.
    rewrite app_nil_l in Htop.
    destruct (each_chunk true (split "/" url) []) as [|w l] eqn:Hl.
    + exfalso. destruct (scheme_chunk url Hscheme) as (chunk & Hin & Hchunk).
      assert (Hf : chunk ∈ filter (fun c : string => c <> "..")
                                  (split "/" url))
        by (by apply list_elem_of_filter).
      specialize (Htop ltac:(eauto) ltac:(by intros ?%elem_of_nil)).
      destruct (filter _ _); [by apply elem_of_nil in Hf | done].
    + apply Htop; [eauto | by intros ?%elem_of_nil].
  - f_equal. symmetry.
    pose proof (no_parent_substring url Hc) as Hno.
    induction (split "/" url) as [|w l IH]; [done|].
    rewrite filter_cons_True.
    + f_equal. apply IH. intros Hin. by apply Hno, list_elem_of_further.
    + intros ->. apply Hno, list_elem_of_here.
Qed.
End UrlRelative.

Section UrlBaseDir.
Import Str StrMore ReLang Url.
Context {St : Type}.

Lemma urlBaseDir_run url (st : St) n :
  url <> EmptyString ->
  run (urlBaseDir url) st n
  = (Returned
       (Some (if contains "://" url && (count_char "/" url <? 3)%nat
              then url +:+ "/"
              else join "/" (removelast (split "/" url)) +:+ "/")),
     st, []).
Proof.
  intros Hne. destruct url as [|c url]; [done|].
  unfold urlBaseDir. rewrite length_split. simpl Nat.eqb. cbv iota.
  by destruct (_ && _).
Qed.

Lemma split_last sep s :
  exists init last,
    split sep s = init ++ [last] /\ count_char sep last = 0
    /\ length init = count_char sep s.
Proof.
  pose proof (split_nonempty sep s) as Hne.
  pose proof (split_segments sep s) as Hseg.
  pose proof (length_split sep s) as Hlen.
  destruct (split sep s) as [|w ws] using rev_ind; [done|].
  exists ws, w. apply Forall_app in Hseg as [_ Hw].
  inversion Hw; subst. rewrite length_app in Hlen. simpl in Hlen.
  split; [done|]. split; [done | lia].
Qed.

Lemma removelast_snoc {A} (l : list A) x : removelast (l ++ [x]) = l.
Proof. apply removelast_last. Qed.

(** The plain case of [urlBaseDir]: the URL up to its last [/]. *)
Lemma base_of_url url :
  0 < count_char "/" url ->
  exists last,
    count_char "/" last = 0
    /\ url = (join "/" (removelast (split "/" url)) +:+ "/") +:+ last.
Proof.
  intros Hcount.
  destruct (split_last "/" url) as (init & last & Hs & Hlast & Hlen).
  exists last. split; [done|].
  rewrite Hs, removelast_snoc.
  rewrite <- (join_split "/" url) at 1. rewrite Hs.
  rewrite join_snoc by (intros ->; simpl in Hlen; lia).
  by rewrite string_app_assoc.
Qed.

Lemma base_without_slash url :
  count_char "/" url = 0 ->
  join "/" (removelast (split "/" url)) +:+ "/" = "/".
Proof. intros H. by rewrite split_no_sep. Qed.

Lemma scheme_slashes url :
  contains "://" url = true -> 2 <= count_char "/" url.
Proof.
  intros H%contains_occurs. by apply (occurs_in_count "/") in H.
Qed.

Lemma urlBaseDir_again url r (st : St) n :
  run (urlBaseDir url) st n = (Returned (Some r), st, []) ->
  run (urlBaseDir r) st n = (Returned (Some r), st, []).
Proof.
  intros Hrun.
  assert (Hne : url <> EmptyString).
  { intros ->. by vm_compute in Hrun. }
  rewrite urlBaseDir_run in Hrun by done. injection Hrun as Hr.
  assert (Hshape : exists base, r = base +:+ "/"
                     /\ count_char "/" r = S (count_char "/" base)
                     /\ (contains "://" r = true -> 3 <= count_char "/" r)).
  { destruct (contains "://" url && _) eqn:Hspecial.
    - apply andb_true_iff in Hspecial as [Hscheme Hlt%Nat.ltb_lt].
      apply scheme_slashes in Hscheme.
      exists url. subst r. rewrite count_char_app. simpl.
      split; [done|]. split; lia.
    - eexists. split; [by rewrite <- Hr|]. subst r.
      rewrite count_char_app. simpl. split; [lia|].
      intros Hscheme.
      destruct (Nat.eq_dec (count_char "/" url) 0) as [H0|Hpos].
      { rewrite base_without_slash in Hscheme by done. done. }
      destruct (base_of_url url) as (last & Hlast & Hurl); [lia|].
      assert (Hu : contains "://" url = true).
      { apply contains_occurs. apply contains_occurs in Hscheme.
        eapply occurs_in_trans; [exact Hscheme|].
        exists EmptyString, last. by rewrite string_app_nil_l. }
      rewrite Hu in Hspecial. simpl in Hspecial.
      apply Nat.ltb_ge in Hspecial.
      rewrite Hurl in Hspecial at 1.
      rewrite !count_char_app, Hlast in Hspecial.
      simpl in *. lia. }
  destruct Hshape as (base & Hbase & Hcount & Hscheme).
  assert (Hr' : r <> EmptyString).
  { intros H. rewrite H in Hcount. simpl in Hcount. lia. }
  rewrite urlBaseDir_run by done. do 3 f_equal.
  destruct (contains "://" r) eqn:Hc.
  - specialize (Hscheme eq_refl). simpl.
    destruct (Nat.ltb_spec (count_char "/" r) 3) as [Hlt|_]; [lia|].
    rewrite Hbase, split_snoc_sep, removelast_snoc, join_split. done.
  - simpl.
    rewrite Hbase, split_snoc_sep, removelast_snoc, join_split. done.
Qed.
End UrlBaseDir.

(** X11: for a URL that is not empty, [urlRelativeToAbsolute] logs nothing
    and returns a URL of which no chunk between two [/] is [..]. *)
Theorem X11_urlRelativeToAbsolute_leaves_no_parent_chunk
        (url : string) (n : nat) :
  url <> EmptyString ->
  exists r,
    run (Url.urlRelativeToAbsolute url) tt n = (Returned (Some r), tt, [])
    /\ ".." ∉ Str.split "/" r.
Proof. apply urlRelativeToAbsolute_segments. Qed.

Lemma X11_urlRelativeToAbsolute_leaves_no_parent_chunk_witness :
  "http://a.com/x/../../../y" <> EmptyString
  /\ run (Url.urlRelativeToAbsolute "http://a.com/x/../../../y") tt 0
     = (Returned (Some "http://a.com/y"), tt, [])
  /\ exists r,
       run (Url.urlRelativeToAbsolute "http://a.com/x/../../../y") tt 0
       = (Returned (Some r), tt, [])
       /\ ".." ∉ Str.split "/" r.
Proof.
  split; [done|]. split; [reflexivity|].
  by apply (X11_urlRelativeToAbsolute_leaves_no_parent_chunk
              "http://a.com/x/../../../y" 0).
Defined.

(** X12: [urlRelativeToAbsolute] is idempotent: given a URL it returned,
    it returns that URL again. *)
Theorem X12_urlRelativeToAbsolute_idempotent (url r : string) (n : nat) :
  run (Url.urlRelativeToAbsolute url) tt n = (Returned (Some r), tt, []) ->
  r <> EmptyString ->
  run (Url.urlRelativeToAbsolute r) tt n = (Returned (Some r), tt, []).
Proof. apply urlRelativeToAbsolute_again. Qed.

Lemma X12_urlRelativeToAbsolute_idempotent_witness :
  run (Url.urlRelativeToAbsolute "a/b..c/../d") tt 0
  = (Returned (Some "a/d"), tt, [])
  /\ "a/d" <> EmptyString
  /\ run (Url.urlRelativeToAbsolute "a/d") tt 0
     = (Returned (Some "a/d"), tt, []).
Proof.
  assert (H : run (Url.urlRelativeToAbsolute "a/b..c/../d") tt 0
              = (Returned (Some "a/d"), tt, [])) by reflexivity.
  split; [exact H|]. split; [done|].
  by apply (X12_urlRelativeToAbsolute_idempotent "a/b..c/../d" "a/d" 0 H).
Defined.

(** X13: in a URL with a scheme, [..] never reaches the scheme and the
    host: the first three chunks of what [urlRelativeToAbsolute] returns
    are the first three chunks of the URL that are not [..]. *)
Theorem X13_urlRelativeToAbsolute_keeps_scheme_and_host
        (url r : string) (n : nat) :
  StrMore.contains "://" url = true ->
  run (Url.urlRelativeToAbsolute url) tt n = (Returned (Some r), tt, []) ->
  take 3 (Str.split "/" r)
  = take 3 (filter (fun chunk => chunk <> "..") (Str.split "/" url)).
Proof. apply urlRelativeToAbsolute_top. Qed.

Lemma X13_urlRelativeToAbsolute_keeps_scheme_and_host_witness :
  StrMore.contains "://" "http://a.com/../../etc/passwd" = true
  /\ run (Url.urlRelativeToAbsolute "http://a.com/../../etc/passwd") tt 0
     = (Returned (Some "http://a.com/etc/passwd"), tt, [])
  /\ take 3 (Str.split "/" "http://a.com/etc/passwd")
     = take 3 (filter (fun chunk => chunk <> "..")
                      (Str.split "/" "http://a.com/../../etc/passwd")).
Proof.
  assert (H : run (Url.urlRelativeToAbsolute "http://a.com/../../etc/passwd")
                  tt 0
              = (Returned (Some "http://a.com/etc/passwd"), tt, []))
    by reflexivity.
  split; [reflexivity|]. split; [exact H|].
  apply (X13_urlRelativeToAbsolute_keeps_scheme_and_host
           "http://a.com/../../etc/passwd" "http://a.com/etc/passwd" 0);
    [reflexivity | exact H].
Defined.

(** X14: for a URL that is not empty, [urlBaseDir] logs nothing and
    returns a string that ends in [/]: the URL with a [/] added when it
    has a scheme and fewer than three [/]; else the URL up to its last
    [/], so that the URL is the result followed by a last chunk without
    [/]; and only [/] for a URL without any [/], the check for which
    never holds in the source. *)
Theorem X14_urlBaseDir_is_the_url_up_to_its_last_slash
        (url : string) (n : nat) :
  url <> EmptyString ->
  exists r,
    run (Url.urlBaseDir url) tt n = (Returned (Some r), tt, [])
    /\ (exists base, r = base +:+ "/")
    /\ (StrMore.count_char "/" url = 0 -> r = "/")
    /\ (StrMore.contains "://" url = true ->
        StrMore.count_char "/" url < 3 -> r = url +:+ "/")
    /\ (0 < StrMore.count_char "/" url ->
        (StrMore.contains "://" url = true -> 3 <= StrMore.count_char "/" url) ->
        exists last, StrMore.count_char "/" last = 0 /\ url = r +:+ last).
Proof.
  intros Hne. rewrite urlBaseDir_run by done. eexists. split; [done|].
  destruct (StrMore.contains "://" url) eqn:Hscheme; simpl.
  - destruct (Nat.ltb_spec (StrMore.count_char "/" url) 3) as [Hlt|Hge].
    + split; [eauto|]. apply scheme_slashes in Hscheme.
      split; [lia|]. split; [done|]. intros _ H. specialize (H eq_refl). lia.
    + split; [eauto|]. split; [lia|]. split; [lia|].
      intros Hpos _. by apply base_of_url.
  - split; [eauto|]. split; [apply base_without_slash|].
    split; [done|]. intros Hpos _. by apply base_of_url.
Qed.

Lemma X14_urlBaseDir_is_the_url_up_to_its_last_slash_witness :
  "http://a.com/dir/page.html" <> EmptyString
  /\ run (Url.urlBaseDir "http://a.com/dir/page.html") tt 0
     = (Returned (Some "http://a.com/dir/"), tt, [])
  /\ run (Url.urlBaseDir "www.a.com") tt 0 = (Returned (Some "/"), tt, [])
  /\ exists r,
       run (Url.urlBaseDir "http://a.com/dir/page.html") tt 0
       = (Returned (Some r), tt, [])
       /\ (exists base, r = base +:+ "/")
       /\ (StrMore.count_char "/" "http://a.com/dir/page.html" = 0 ->
           r = "/")
       /\ (StrMore.contains "://" "http://a.com/dir/page.html" = true ->
           StrMore.count_char "/" "http://a.com/dir/page.html" < 3 ->
           r = "http://a.com/dir/page.html" +:+ "/")
       /\ (0 < StrMore.count_char "/" "http://a.com/dir/page.html" ->
           (StrMore.contains "://" "http://a.com/dir/page.html" = true ->
            3 <= StrMore.count_char "/" "http://a.com/dir/page.html") ->
           exists last, StrMore.count_char "/" last = 0
                        /\ "http://a.com/dir/page.html" = r +:+ last).
Proof.
  split; [done|]. split; [reflexivity|]. split; [reflexivity|].
  by apply (X14_urlBaseDir_is_the_url_up_to_its_last_slash
              "http://a.com/dir/page.html" 0).
Defined.

(** X15: [urlBaseDir] is idempotent: given a string it returned, it
    returns that string again. *)
Theorem X15_urlBaseDir_idempotent (url r : string) (n : nat) :
  run (Url.urlBaseDir url) tt n = (Returned (Some r), tt, []) ->
  run (Url.urlBaseDir r) tt n = (Returned (Some r), tt, []).
Proof. apply urlBaseDir_again. Qed.

Lemma X15_urlBaseDir_idempotent_witness :
  run (Url.urlBaseDir "http://a.com") tt 0
  = (Returned (Some "http://a.com/"), tt, [])
  /\ run (Url.urlBaseDir "http://a.com/") tt 0
     = (Returned (Some "http://a.com/"), tt, []).
Proof.
  assert (H : run (Url.urlBaseDir "http://a.com") tt 0
              = (Returned (Some "http://a.com/"), tt, [])) by reflexivity.
  split; [exact H|].
  by apply (X15_urlBaseDir_idempotent "http://a.com" "http://a.com/" 0 H).
Defined.

(** ** More on the matcher: letters of a pattern, case, and [.*] *)

Section Alphabet.
Import Re ReLang StrMore.

Lemma count_char_concat c ws :
  Forall (fun w => count_char c w = 0) ws -> count_char c (concat ws) = 0.
Proof.
  induction 1 as [|w ws Hw _ IH]; [done|].
  simpl. rewrite count_char_app. lia.
Qed.

Lemma count_char_single c x :
  count_char c (String x EmptyString) = 0 <-> x <> c.
Proof.
  simpl. destruct (Ascii.eqb_spec x c); split; intros; (done || lia).
Qed.

(** A character outside the alphabet of a pattern is in none of its
    words. *)
Lemma denotes_alphabet ic r c :
  alphabet ic r c = false ->
  forall w, denotes ic r w -> count_char c w = 0.
Proof.
  induction r as [| | x | | items | r1 IH1 r2 IH2 | r1 IH1 r2 IH2
                  | r1 IH1 lo hi]; simpl; intros Hc w Hw.
  - by subst.
  - by subst.
  - destruct Hw as (c' & -> & Hc'). apply count_char_single.
    intros ->. congruence.
  - destruct Hw as (c' & -> & Hc'). apply count_char_single.
    intros ->. apply negb_false_iff in Hc.
    by apply Ascii.eqb_eq in Hc.
  - destruct Hw as (c' & -> & Hc'). apply count_char_single.
    intros ->. congruence.
  - apply orb_false_iff in Hc as [H1 H2].
    destruct Hw as (w1 & w2 & -> & Hw1 & Hw2).
    rewrite count_char_app, (IH1 H1 _ Hw1), (IH2 H2 _ Hw2). done.
  - apply orb_false_iff in Hc as [H1 H2].
    destruct Hw as [Hw|Hw]; eauto.
  - destruct Hw as (ws & -> & Hws & _). apply count_char_concat.
    eapply Forall_impl; [exact Hws|]. intros w. by apply IH1.
Qed.

(** A pattern that ends in [$] matches the subject as a whole, but for a
    line break at its end. *)
Lemma run_sound_eol {R} ic r bol s (k : bool -> string -> option R) x :
  run ic (Cat r Eol) bol s k = Some x ->
  exists w, denotes ic r w
            /\ (s = w \/ s = w +:+ String newline EmptyString).
Proof.
  simpl. intros H.
  apply run_sound in H as (w & s' & bol' & -> & Hw & H).
  exists w. split; [done|].
  destruct s' as [|c [|? ?]]; try done.
  - left. by rewrite string_app_nil_r.
  - right. destruct (Ascii.eqb_spec c newline) as [->|]; done.
Qed.
End Alphabet.

Section StarAny.
Import Re ReLang StrMore.
Context {R : Type} (ic : bool).

(** [.*] in front of something that matches at some later place of the
    line matches. *)
Lemma star_any_complete w s' bol (k : bool -> string -> option R) :
  count_char newline w = 0 ->
  (forall b, is_Some (k b s')) ->
  is_Some (run ic (star Any) bol (w +:+ s') k).
Proof.
  intros Hw Hk. unfold star. simpl.
  generalize (Nat.le_refl (String.length (w +:+ s'))).
  generalize (String.length (w +:+ s')) at 2 3. intros n Hn.
  assert (Hlen : String.length w <= n)
    by (rewrite string_length_app in Hn; lia).
  clear Hn. revert n bol Hlen.
  induction w as [|c w IH]; intros n bol Hlen.
  - rewrite string_app_nil_l. destruct n as [|n]; [apply Hk|].
    match goal with
    | |- is_Some (match ?m with _ => _ end) => destruct m
    end; [done | apply Hk].
  - destruct n as [|n]; [simpl in Hlen; lia|].
    simpl in Hw. rewrite string_app_cons.
    destruct (Ascii.eqb_spec c newline) as [->|Hc]; [simpl in Hw; lia|].
    assert (Hw' : count_char newline w = 0).
    { destruct (Ascii.eqb c newline); simpl in Hw; lia. }
    cbn [run].
    destruct (Ascii.eqb_spec c newline) as [|_]; [done|].
    assert (Hlt : (String.length (w +:+ s') <? String.length (String c (w +:+ s')))%nat = true).
    { apply Nat.ltb_lt. simpl. lia. }
    rewrite Hlt. simpl orb. cbv iota.
    specialize (IH Hw' n false ltac:(simpl in Hlen; lia)).
    simpl Nat.pred.
    match goal with
    | |- is_Some (match ?m with _ => _ end) =>
        assert (Hm : is_Some m) by exact IH; destruct Hm as [x ->]
    end.
    done.
Qed.
End StarAny.

Section TargetTypeAt.
Import Re ReLang StrMore TargetType.

Lemma email_rule_matches s :
  contains "@" s = true -> count_char newline s = 0 ->
  match_ true (seq [Bol; star Any; Chr "@"; star Any; Eol]) s = true.
Proof.
  intros (before & after & ->)%contains_occurs Hnl.
  rewrite !count_char_app in Hnl.
  apply bool_decide_eq_true. cbn [seq run].
  apply star_any_complete; [lia|]. intros b.
  rewrite string_app_cons, string_app_nil_l. cbn [run].
  replace (chr_eq true "@"%char "@"%char) with true by reflexivity.
  rewrite <- (string_app_nil_r after).
  apply star_any_complete; [lia|]. intros b'. by eexists.
Qed.

Lemma anchored_alphabet core s c :
  match_ true (Cat core Eol) s = true ->
  alphabet true core c = false -> c <> newline ->
  count_char c s = 0.
Proof.
  intros [x H]%bool_decide_eq_true Hc Hn.
  apply run_sound_eol in H as (w & Hw & [->| ->]).
  - by eapply denotes_alphabet.
  - rewrite count_char_app, (denotes_alphabet _ _ _ Hc _ Hw).
    rewrite Nat.add_0_l. apply count_char_single. congruence.
Qed.

Lemma address_rules_without_at s :
  0 < count_char "@" s ->
  rule_matches s
    (seq [Bol; octet; dot; octet; dot; octet; dot; octet; Eol], "IP_ADDRESS")
  = false
  /\ rule_matches s
       (seq [Bol; octet; dot; octet; dot; octet; dot; octet; Chr "/";
             plus (Set_ [ClsDigit]); Eol], "NETBLOCK_OWNER")
     = false.
Proof.
  intros Hat. unfold rule_matches. cbn [fst]. split.
  - destruct (match_ true _ s) eqn:Hm; [|done]. exfalso.
    assert (count_char "@" s = 0); [|lia].
    apply (anchored_alphabet
             (seq [Bol; octet; dot; octet; dot; octet; dot; octet]));
      [exact Hm | by vm_compute | done].
  - destruct (match_ true _ s) eqn:Hm; [|done]. exfalso.
    assert (count_char "@" s = 0); [|lia].
    apply (anchored_alphabet
             (seq [Bol; octet; dot; octet; dot; octet; dot; octet; Chr "/";
                   plus (Set_ [ClsDigit])]));
      [exact Hm | by vm_compute | done].
Qed.

Lemma contains_count c s :
  contains (String c EmptyString) s = true -> 0 < count_char c s.
Proof.
  intros (before & after & ->)%contains_occurs.
  rewrite !count_char_app. simpl. rewrite Ascii.eqb_refl. lia.
Qed.

Lemma targetType_at s :
  contains "@" s = true -> count_char newline s = 0 ->
  targetType s = Some "EMAILADDR".
Proof.
  intros Hat Hnl.
  destruct (address_rules_without_at s (contains_count _ _ Hat)) as [H1 H2].
  pose proof (email_rule_matches s Hat Hnl) as H3.
  unfold targetType. destruct s as [|c s]; [done|].
  unfold regexToType. cbn [first_match]. rewrite H1, H2.
  unfold rule_matches at 1. cbn [fst]. by rewrite H3.
Qed.
End TargetTypeAt.

(** X16: the order of the rules of [targetType] decides for every seed
    with an [@] in it: if the seed has no line break, its type is
    EMAILADDR, whatever else it looks like (a quoted name, a host
    name). *)
Theorem X16_targetType_at_sign_is_email (target : string) :
  StrMore.contains "@" target = true ->
  StrMore.count_char Re.newline target = 0 ->
  TargetType.targetType target = Some "EMAILADDR".
Proof. apply targetType_at. Qed.

Lemma X16_targetType_at_sign_is_email_witness :
  StrMore.contains "@" "www.example.com/@home" = true
  /\ StrMore.count_char Re.newline "www.example.com/@home" = 0
  /\ TargetType.targetType "www.example.com/@home" = Some "EMAILADDR".
Proof.
  split; [reflexivity|]. split; [reflexivity|].
  apply (X16_targetType_at_sign_is_email "www.example.com/@home");
    reflexivity.
Defined.

Section IgnoreCase.
Import Re ReLang StrMore TargetType.

(** The string with its letters from [A] to [Z] in lower case. *)
Let low : string -> string :=
  fix low (s : string) : string :=
    match s with
    | EmptyString => EmptyString
    | String c s' => String (Re.lower c) (low s')
    end.

Lemma length_low s : String.length (low s) = String.length s.
Proof. induction s as [|c s IH]; [done|]. simpl. by rewrite IH. Qed.

Lemma lower_newline c :
  Ascii.eqb (Re.lower c) newline = Ascii.eqb c newline.
Proof. destruct c as [[] [] [] [] [] [] [] []]; reflexivity. Qed.

Lemma chr_eq_lower x c : chr_eq true x (Re.lower c) = chr_eq true x c.
Proof.
  unfold chr_eq. simpl.
  assert (Hll : Re.lower (Re.lower c) = Re.lower c)
    by (destruct c as [[] [] [] [] [] [] [] []]; reflexivity).
  rewrite Hll.
  destruct (Ascii.eqb_spec (Re.lower x) (Re.lower c)) as [Heq|Hne].
  - by rewrite !orb_true_r.
  - rewrite !orb_false_r.
    destruct (Ascii.eqb_spec x c) as [->|_]; [done|].
    destruct (Ascii.eqb_spec x (Re.lower c)) as [->|_]; [|done].
    by rewrite Hll in Hne.
Qed.

Lemma in_set_lower items c :
  in_set true items (Re.lower c) = in_set true items c.
Proof.
  unfold in_set. simpl.
  assert (Hcases :
            (Re.lower c = c /\ Re.upper (Re.lower c) = Re.upper c)
            \/ (Re.lower (Re.lower c) = Re.lower c
                /\ Re.upper (Re.lower c) = c /\ Re.upper c = c))
    by (destruct c as [[] [] [] [] [] [] [] []]; vm_compute; tauto).
  destruct Hcases as [[H1 H2]|(H1 & H2 & H3)].
  - by rewrite H1, H1.
  - rewrite H1, H2, H3.
    destruct (existsb _ items), (existsb _ items); done.
Qed.

Lemma run_lower {R} r :
  forall bol s (k k' : bool -> string -> option R),
    (forall b s', k b s' = k' b (low s')) ->
    run true r bol s k = run true r bol (low s) k'.
Proof.
  induction r as [| | x | | items | r1 IH1 r2 IH2 | r1 IH1 r2 IH2
                  | r1 IH1 lo hi]; intros bol s k k' Hk.
  - simpl. by destruct bol.
  - destruct s as [|c [|c' s]]; simpl; rewrite ?lower_newline; try done.
    destruct (Ascii.eqb c newline); [|done]. apply (Hk bol (String c "")).
  - destruct s as [|c s]; simpl; [done|].
    rewrite chr_eq_lower. by destruct (chr_eq true x c).
  - destruct s as [|c s]; simpl; [done|].
    rewrite lower_newline. by destruct (Ascii.eqb c newline).
  - destruct s as [|c s]; simpl; [done|].
    rewrite in_set_lower. by destruct (in_set true items c).
  - simpl. apply IH1. intros b s'. by apply IH2.
  - simpl. rewrite (IH1 bol s k k' Hk), (IH2 bol s k k' Hk). done.
  - simpl. rewrite length_low.
    generalize (match hi with Some h => h | None => String.length s end).
    intros n. revert lo bol s.
    induction n as [|n IHn]; intros lo bol s.
    + destruct (lo =? 0)%nat; [apply Hk | done].
    + match goal with
      | |- match run true r1 bol s ?c1 with _ => _ end
           = match run true r1 bol (low s) ?c2 with _ => _ end =>
          rewrite (IH1 bol s c1 c2)
      end.
      * rewrite (Hk bol s). reflexivity.
      * intros b s'. rewrite !length_low.
        destruct (_ || _); [|done]. apply IHn.
Qed.

Lemma lower_ascii s : isascii s = true -> Str.lower s = low s.
Proof.
  induction s as [|c s IH]; [done|]. simpl.
  intros [Hc Hs]%andb_true_iff. rewrite (IH Hs). f_equal.
  clear -Hc. destruct c as [[] [] [] [] [] [] [] []];
    first [reflexivity | by vm_compute in Hc].
Qed.

Lemma match_lower r s : match_ true r (low s) = match_ true r s.
Proof.
  unfold match_. by rewrite <- (run_lower r true s (fun _ _ => Some tt)).
Qed.

Lemma first_match_lower rules s :
  first_match rules (low s) = first_match rules s.
Proof.
  induction rules as [|rule rules IH]; [done|]. simpl.
  unfold rule_matches. by rewrite match_lower, IH.
Qed.

Lemma targetType_lower s :
  isascii s = true -> targetType (Str.lower s) = targetType s.
Proof.
  intros Hs. rewrite (lower_ascii s Hs). unfold targetType.
  rewrite first_match_lower. by destruct s.
Qed.
End IgnoreCase.

(** X17: [targetType] does not see the case of the letters of a seed:
    a seed of ASCII characters and the seed in lower case have the same
    type. *)
Theorem X17_targetType_ignores_case (target : string) :
  StrMore.isascii target = true ->
  TargetType.targetType (Str.lower target) = TargetType.targetType target.
Proof. apply targetType_lower. Qed.

Lemma X17_targetType_ignores_case_witness :
  StrMore.isascii "WWW.Example.COM" = true
  /\ Str.lower "WWW.Example.COM" = "www.example.com"
  /\ TargetType.targetType "WWW.Example.COM" = Some "INTERNET_NAME"
  /\ TargetType.targetType (Str.lower "WWW.Example.COM")
     = TargetType.targetType "WWW.Example.COM".
Proof.
  split; [reflexivity|]. split; [reflexivity|]. split; [by vm_compute|].
  apply (X17_targetType_ignores_case "WWW.Example.COM"). reflexivity.
Defined.

(** ** Addresses that [validEmail] and [parseEmails] accept *)

Section EmailFacts.
Import Re ReLang Str StrMore Emails.

Lemma plus_set_nonempty ic items w :
  denotes ic (plus (Set_ items)) w -> w <> EmptyString.
Proof.
  intros (ws & -> & Hws & Hlo & _).
  destruct Hws as [|w ws (c & -> & _) _]; [simpl in Hlo; lia|]. done.
Qed.

Lemma chr_word x w : denotes false (Chr x) w -> w = String x EmptyString.
Proof.
  intros (c & -> & Hc). unfold chr_eq in Hc. simpl in Hc.
  rewrite orb_false_r in Hc. by apply Ascii.eqb_eq in Hc as ->.
Qed.

(** The words of the pattern: a local part, [@], and a domain with a
    dot in it; no [@] and no line break elsewhere. *)
Lemma address_shape w :
  denotes false address w ->
  exists local_ dom,
    w = local_ +:+ "@" +:+ dom /\ local_ <> EmptyString
    /\ count_char "@" local_ = 0 /\ count_char "@" dom = 0
    /\ count_char newline w = 0
    /\ contains "." dom = true.
Proof.
  intros Hw.
  assert (Hnl : count_char newline w = 0).
  { by eapply denotes_alphabet; [|exact Hw]. }
  destruct Hw as (w1 & w' & -> & Hw1 & wa & w'' & -> & Ha%chr_word
                  & w2 & w''' & -> & Hw2 & wd & w3 & -> & Hd%chr_word
                  & Hw3).
  subst wa wd. exists w1, (w2 +:+ "." +:+ w3).
  split; [done|]. split; [by eapply plus_set_nonempty|].
  split; [by eapply denotes_alphabet; [|exact Hw1]|].
  split.
  - rewrite !count_char_app.
    rewrite (denotes_alphabet false (plus domain_char) "@" eq_refl _ Hw2).
    rewrite (denotes_alphabet false (plus domain_char) "@" eq_refl _ Hw3).
    done.
  - split; [done|]. apply contains_occurs. by exists w2, w3.
Qed.

Lemma split_at local_ dom :
  count_char "@" local_ = 0 -> count_char "@" dom = 0 ->
  split "@" (local_ +:+ "@" +:+ dom) = [local_; dom].
Proof.
  intros Hl Hd. rewrite string_app_cons, string_app_nil_l.
  rewrite split_app_sep by done. by rewrite split_no_sep.
Qed.

Lemma validEmail_shape e :
  validEmail (PStr e) = true ->
  6 <= String.length e
  /\ contains "%" e = false /\ contains "..." e = false
  /\ exists local_ dom,
       split "@" e = [local_; dom] /\ local_ <> EmptyString
       /\ contains "." dom = true.
Proof.
  unfold validEmail. destruct (contains "@" e); [|done]. simpl.
  destruct (match_ false _ e) eqn:Hm; [|done]. simpl.
  destruct (Nat.ltb_spec (String.length e) 6) as [|Hlen]; [done|].
  destruct (contains "%" e); [done|].
  destruct (contains "..." e); [done|]. intros _.
  split; [done|]. split; [done|]. split; [done|].
  apply bool_decide_eq_true in Hm as [x Hm]. cbn [seq run] in Hm.
  change (run false address true e
            (fun bol' s' => run false Eol bol' s' (fun _ _ => Some tt)))
    with (run false (Cat address Eol) true e (fun _ _ => Some tt)) in Hm.
  apply run_sound_eol in Hm as (w & Hw & He).
  apply address_shape in Hw
    as (local_ & dom & -> & Hl & Hcl & Hcd & _ & Hdot).
  destruct He as [->| ->].
  - exists local_, dom. by rewrite split_at.
  - exists local_, (dom +:+ String newline EmptyString).
    rewrite !string_app_assoc, split_at; try done.
    + split; [done|]. split; [done|].
      apply contains_occurs. apply contains_occurs in Hdot.
      destruct Hdot as (b & a & ->).
      exists b, (a +:+ String newline EmptyString).
      by rewrite !string_app_assoc.
    + rewrite count_char_app, Hcd. done.
Qed.

Lemma parseEmails_elem d e :
  e ∈ parseEmails (PStr d)
  <-> e ∈ findall false address d /\ validEmail (PStr e) = true.
Proof.
  unfold parseEmails.
  rewrite elem_of_elements, elem_of_list_to_set, list_elem_of_In,
    filter_In, <- list_elem_of_In. done.
Qed.
End EmailFacts.

(** X18: an address that [validEmail] accepts has exactly one [@], with
    a local part that is not empty in front of it and a domain with a dot
    in it behind, is at least 6 characters long, and has no [%] and no
    three dots in a row. *)
Theorem X18_validEmail_shape (email : string) :
  Emails.validEmail (PStr email) = true ->
  6 <= String.length email
  /\ StrMore.contains "%" email = false
  /\ StrMore.contains "..." email = false
  /\ exists local_ dom,
       Str.split "@" email = [local_; dom] /\ local_ <> EmptyString
       /\ StrMore.contains "." dom = true.
Proof. apply validEmail_shape. Qed.

Lemma X18_validEmail_shape_witness :
  Emails.validEmail (PStr "bob@example.com") = true
  /\ (6 <= String.length "bob@example.com"
      /\ StrMore.contains "%" "bob@example.com" = false
      /\ StrMore.contains "..." "bob@example.com" = false
      /\ exists local_ dom,
           Str.split "@" "bob@example.com" = [local_; dom]
           /\ local_ <> EmptyString
           /\ StrMore.contains "." dom = true).
Proof.
  assert (H : Emails.validEmail (PStr "bob@example.com") = true)
    by (by vm_compute).
  split; [exact H|]. exact (X18_validEmail_shape "bob@example.com" H).
Defined.

(** X19: [parseEmails] returns no address twice, and each address it
    returns occurs in the data, is accepted by [validEmail], has no line
    break, and splits at its one [@] into a local part and a domain. *)
Theorem X19_parseEmails_returns_addresses_of_the_data (data : string) :
  NoDup (Emails.parseEmails (PStr data))
  /\ forall e,
       e ∈ Emails.parseEmails (PStr data) ->
       ReLang.occurs_in e data
       /\ Emails.validEmail (PStr e) = true
       /\ StrMore.count_char Re.newline e = 0
       /\ exists local_ dom,
            Str.split "@" e = [local_; dom] /\ local_ <> EmptyString.
Proof.
  split; [unfold Emails.parseEmails; apply NoDup_elements|].
  intros e [Hfind Hvalid]%parseEmails_elem.
  apply findall_sound in Hfind as [Hw Hocc].
  split; [done|]. split; [done|].
  apply address_shape in Hw as (local_ & dom & -> & Hl & Hcl & Hcd & Hnl & _).
  split; [done|]. exists local_, dom. by rewrite split_at.
Qed.

(** [parseEmails] on a line of text. *)
Example parseEmails_example :
  Emails.parseEmails (PStr "mail bob@example.com, or a@b (bob@example.com)")
  = ["bob@example.com"].
Proof. by vm_compute. Qed.

(** ** [sfp_email] on what [parseEmails] returns *)

Section EmailReturns.
Import Str StrMore Emails sfp_email.
Context (sf : World) (event : SpiderFootEvent) (st : state)
        (tlds : pyval) (users : string).
Hypothesis has_tlds : opts st !! "_internettlds" = Some tlds.
Hypothesis has_users : opts st !! "_genericusers" = Some (PStr users).

Lemma lower_char_at c : lower_char c = "@"%char <-> c = "@"%char.
Proof.
  destruct c as [[] [] [] [] [] [] [] []]; vm_compute; split; congruence.
Qed.

Lemma count_at_lower s : count_char "@" (lower s) = count_char "@" s.
Proof.
  induction s as [|c s IH]; [done|]. cbn [lower count_char].
  rewrite IH. f_equal.
  destruct (Ascii.eqb_spec (lower_char c) "@") as [H|H],
           (Ascii.eqb_spec c "@") as [H'|H']; try done.
  - exfalso. apply H'. by apply lower_char_at.
  - exfalso. apply H. by apply lower_char_at.
Qed.

Lemma count_lstrip drop c s :
  drop c = false -> count_char c (lstrip drop s) = count_char c s.
Proof.
  intros Hc. induction s as [|x s IH]; [done|]. cbn [lstrip count_char].
  destruct (drop x) eqn:Hx; [|done]. rewrite IH.
  destruct (Ascii.eqb_spec x c) as [->|]; [congruence | done].
Qed.

Lemma count_rstrip drop c s :
  drop c = false -> count_char c (rstrip drop s) = count_char c s.
Proof.
  intros Hc. induction s as [|x s IH]; [done|]. cbn [rstrip count_char].
  destruct (rstrip drop s) as [|y t] eqn:Hr.
  - destruct (drop x) eqn:Hx.
    + rewrite <- IH. cbn [count_char].
      destruct (Ascii.eqb_spec x c) as [->|]; [congruence | done].
    + cbn [count_char]. by rewrite <- IH.
  - cbn [count_char] in *. by rewrite IH.
Qed.

Lemma count_strip_char x c s :
  x <> c -> count_char c (strip_char x s) = count_char c s.
Proof.
  intros Hne. unfold strip_char.
  rewrite count_rstrip, count_lstrip; try done;
    by apply Ascii.eqb_neq.
Qed.

Lemma one_at_second email :
  one_at email -> exists d, split "@" (lower email) !! 1 = Some d.
Proof.
  intros H. unfold one_at in H. rewrite <- count_at_lower in H.
  pose proof (length_split "@" (lower email)) as Hlen. rewrite H in Hlen.
  destruct (split "@" (lower email)) as [|? [|d ?]]; try done. by exists d.
Qed.

Lemma one_at_mail email :
  one_at email -> strip_char "." (lower email) <> EmptyString.
Proof.
  intros H. unfold one_at in H. rewrite <- count_at_lower in H.
  rewrite <- (count_strip_char "." "@") in H by done.
  intros Heq. by rewrite Heq in H.
Qed.

(** Calls that return and leave the module as it is. *)
Let returns {A} (m : M state A) : Prop :=
  triple (fun w => w = st) m
         (fun o w => (exists a, o = Returned a) /\ w = st).

Lemma returns_ret {A} (a : A) : returns (mret a).
Proof. apply triple_ret. intros w ->. eauto. Qed.

Lemma returns_bind {A B} (m : M state A) (f : A -> M state B) :
  returns m -> (forall a, returns (f a)) -> returns (m ≫= f).
Proof.
  intros Hm Hf. eapply triple_bind; [exact Hm | |].
  - intros a e [_ He]. by apply Hf.
  - by intros x w [[a [=]] _].
Qed.

(** The same, for a call of which the result is known to satisfy
    [Q]. *)
Lemma returns_bind_value {A B} (Q : A -> Prop) (m : M state A)
      (f : A -> M state B) :
  triple (fun w => w = st) m
         (fun o w => (exists a, o = Returned a /\ Q a) /\ w = st) ->
  (forall a, Q a -> returns (f a)) -> returns (m ≫= f).
Proof.
  intros Hm Hf. eapply triple_bind; [exact Hm | |].
  - intros a e [(a' & [= <-] & Ha) He]. by apply Hf.
  - by intros x w [(a & [=] & _) _].
Qed.

Lemma returns_log level msg : returns (log level msg).
Proof. intros e He. simpl. eauto. Qed.

Lemma returns_notify_only ev : returns (notify_only ev).
Proof. intros e He. simpl. eauto. Qed.

Lemma returns_opt key v :
  opts st !! key = Some v ->
  triple (fun w => w = st) (sfp_email.opt self_id key)
         (fun o w => (exists a, o = Returned a /\ a = v) /\ w = st).
Proof.
  intros Hkey e He. unfold sfp_email.opt, Plugin.opt. step_monad.
  rewrite He, Hkey. simpl. eauto.
Qed.

Lemma returns_new_event type_ data_ src :
  data_ <> EmptyString -> type_ <> "ROOT" ->
  returns (new_event sf type_ data_ name src).
Proof.
  intros Hd Hty e He.
  destruct (construct_returns (allowed_empty sf) type_ data_ name src Hd Hty)
    as [evt Hevt].
  unfold new_event, lift_outcome. rewrite Hevt. simpl. eauto.
Qed.

Lemma em_each_email_returns emails myres :
  Forall one_at emails ->
  returns (each_email self_id sf notify_only event emails myres).
Proof.
  intros Hall. revert myres.
  induction Hall as [|email rest Hemail _ IH]; intros myres.
  { apply returns_ret. }
  destruct (one_at_second email Hemail) as [d Hd].
  pose proof (one_at_mail email Hemail) as Hmail.
  cbn [each_email]. rewrite Hd.
  apply returns_bind; [apply returns_ret|]. intros mailDom.
  apply (returns_bind_value _ _ _ (returns_opt _ _ has_tlds)).
  intros ? ->.
  destruct (negb (validHost sf mailDom tlds)); [apply returns_log|].
  apply returns_bind.
  { destruct (_ && _); [apply returns_log | apply returns_ret]. }
  intros _.
  apply (returns_bind_value (fun ty => ty <> "ROOT")).
  { match goal with
    | |- context [negb (startswith "AFFILIATE_" ?t)] => set (ty := t)
    end.
    assert (Hty : ty <> "ROOT") by (subst ty; by destruct (_ || _)).
    clearbody ty.
    destruct (negb (startswith "AFFILIATE_" ty)).
    - intros e He.
      pose proof (returns_opt _ _ has_users e He) as Hopt.
      unfold mbind, M_bind.
      destruct (sfp_email.opt self_id "_genericusers" e) as [[v|x] e1];
        simpl in *; destruct Hopt as [(a & [= <-] & ->) He1].
      split; [|exact He1]. eexists. split; [reflexivity|].
      by destruct (bool_decide _).
    - intros e He. simpl. eauto. }
  intros evttype Hty.
  apply returns_bind; [apply returns_log|]. intros _.
  destruct (bool_decide _).
  - apply returns_bind; [apply returns_log|]. intros _. apply IH.
  - apply returns_bind; [by apply returns_new_event|]. intros evt.
    apply returns_bind; [apply returns_notify_only|]. intros _. apply IH.
Qed.
Lemma em_handleEvent_returns :
  Forall one_at (Plugin.parseEmails sf (data event)) ->
  returns (handleEvent self_id sf notify_only event).
Proof.
  intros Hall. unfold handleEvent.
  apply returns_bind; [apply returns_log|]. intros _.
  by apply em_each_email_returns.
Qed.
End EmailReturns.

Lemma parseEmails_one_at d e :
  e ∈ Emails.parseEmails (PStr d) -> Emails.one_at e.
Proof.
  intros [_ Hvalid]%parseEmails_elem.
  apply validEmail_shape in Hvalid as (_ & _ & _ & l & dom & Hsplit & _).
  pose proof (length_split "@" e) as Hlen. rewrite Hsplit in Hlen.
  unfold Emails.one_at. simpl in Hlen. lia.
Qed.

(** X20. With the options [_internettlds] and [_genericusers] (a string)
    among its options, [sfp_email.handleEvent] returns without raising and
    leaves the attributes of the module as they are, when the addresses it
    gets for the data of the Event are among those that [parseEmails] of
    [sflib.py] returns for it. *)
Theorem X20_email_handleEvent_returns
        (sf : World) (event : SpiderFootEvent) (st : sfp_email.state)
        (tlds : pyval) (users : string) (n : nat) :
  sfp_email.opts st !! "_internettlds" = Some tlds ->
  sfp_email.opts st !! "_genericusers" = Some (PStr users) ->
  (forall e, e ∈ Plugin.parseEmails sf (data event) ->
             e ∈ Emails.parseEmails (PStr (data event))) ->
  let r := run (sfp_email.handleEvent self_id sf notify_only event) st n in
  outcome_of r = Returned tt /\ state_of r = st.
Proof.
  intros Htlds Husers Hsub r.
  assert (Hall : Forall Emails.one_at (Plugin.parseEmails sf (data event))).
  { apply Forall_forall. intros e He. eapply parseEmails_one_at, Hsub, He. }
  pose proof (em_handleEvent_returns sf event st tlds users Htlds Husers Hall
                (mkEnv st n []) eq_refl) as [[[] Ho] Hs].
  subst r. unfold run, outcome_of, state_of.
  destruct (sfp_email.handleEvent _ _ _ _ _) as [o e']. simpl in *.
  by subst.
Qed.

Lemma X20_email_handleEvent_returns_witness :
  let st := sfp_email.setup Examples.global_opts sfp_email.initial in
  let r := run (sfp_email.handleEvent self_id Examples.world notify_only
                  Examples.content_event) st 0 in
  outcome_of r = Returned tt /\ state_of r = st.
Proof.
  apply (X20_email_handleEvent_returns Examples.world Examples.content_event
           (sfp_email.setup Examples.global_opts sfp_email.initial)
           (PStr "com") "abuse,admin" 0).
  - reflexivity.
  - reflexivity.
  - intros e He. vm_compute in He. vm_compute. exact He.
Defined.

(** ** The numbers that [parseCreditCards] returns *)

Section CreditCardFacts.
Import Re ReLang Str StrMore CreditCards sfp_portscan_tcp.
Context {W : Type}.

Lemma digit_int c :
  is_digit c = true ->
  exists d, py_int (PStr (String c EmptyString)) = Returned d
            /\ (0 <= d <= 9)%Z /\ d = (Z.of_nat (nat_of_ascii c) - 48)%Z.
Proof.
  destruct c as [[] [] [] [] [] [] [] []]; intros H; vm_compute in H;
    try discriminate H; eexists;
    (split; [by vm_compute | split; [lia | by vm_compute]]).
Qed.

Lemma digit_not_space c : is_digit c = true -> is_space c = false.
Proof.
  destruct c as [[] [] [] [] [] [] [] []]; intros H; vm_compute in H;
    try discriminate H; by vm_compute.
Qed.

Lemma digit_not_sign c :
  is_digit c = true -> c <> "-"%char /\ c <> "+"%char.
Proof. intros H. split; intros ->; by vm_compute in H. Qed.

Lemma rstrip_digits s : all_digits s -> rstrip is_space s = s.
Proof.
  unfold all_digits. induction s as [|c s IH]; [done|].
  intros [Hc Hs]%Forall_cons. cbn [rstrip]. rewrite IH by done.
  destruct s; [by rewrite digit_not_space | done].
Qed.

Lemma strip_digits s : all_digits s -> strip s = s.
Proof.
  intros H. unfold strip.
  assert (lstrip is_space s = s) as ->; [|by apply rstrip_digits].
  destruct s as [|c s]; [done|]. apply Forall_cons in H as [Hc _].
  cbn [lstrip]. by rewrite digit_not_space.
Qed.

Lemma digits_value_digits s acc b :
  all_digits s -> (b = true \/ s <> EmptyString) -> (0 <= acc)%Z ->
  exists n, digits_value s acc b = Some n /\ (0 <= n)%Z.
Proof.
  unfold all_digits. revert acc b.
  induction s as [|c s IH]; intros acc b Hs Hb Hacc.
  - destruct Hb as [->|?]; [|done]. simpl. eauto.
  - apply Forall_cons in Hs as [Hc Hs]. cbn [digits_value]. rewrite Hc.
    apply IH; [done | by left |].
    destruct (digit_int c Hc) as (d & _ & _).
    assert (48 <= Z.of_nat (nat_of_ascii c))%Z; [|lia].
    unfold is_digit, between, code in Hc.
    apply andb_prop in Hc as [Hc _]. apply Nat.leb_le in Hc.
    change (nat_of_ascii "0") with 48%nat in Hc. lia.
Qed.

(** [int(s)] of a string of digits. *)
Lemma py_int_digits s :
  all_digits s -> s <> EmptyString ->
  exists n, py_int (PStr s) = Returned n /\ (0 <= n)%Z.
Proof.
  intros Hs Hne. unfold py_int. rewrite strip_digits by done.
  destruct (digits_value_digits s 0 false Hs (or_intror Hne) ltac:(lia))
    as (n & Hn & Hpos).
  destruct s as [|c s]; [done|].
  apply Forall_cons in Hs as [Hc _].
  destruct (digit_not_sign c Hc) as [Hm Hp].
  exists n. split; [|done].
  destruct (Ascii.eqb_spec c "-"); [done|].
  destruct (Ascii.eqb_spec c "+"); [done|].
  destruct c as [[] [] [] [] [] [] [] []]; try done;
    rewrite Hn; f_equal; lia.
Qed.

(** The words of the pattern are the strings of 13 to 19 digits. *)
Lemma number_shape m :
  denotes false number m ->
  all_digits m /\ 13 <= String.length m <= 19.
Proof.
  intros (ws & -> & Hws & Hlo & Hhi). specialize (Hhi 19 eq_refl).
  assert (all_digits (ReLang.concat ws)
          /\ String.length (ReLang.concat ws) = length ws) as [? Hlen];
    [|by rewrite Hlen].
  clear Hlo Hhi. unfold all_digits.
  induction Hws as [|w ws (c & -> & Hc) _ [IH1 IH2]]; [done|].
  cbn [ReLang.concat]. rewrite string_app_cons, string_app_nil_l.
  cbn [list_ascii_of_string String.length length].
  split; [|by rewrite IH2]. constructor; [|done].
  unfold in_set in Hc. cbn in Hc. by rewrite !orb_false_r in Hc.
Qed.

(** What a digit adds to the total. *)
Let weight (second : bool) (d : Z) : Z :=
  let d := if second then (d * 2)%Z else d in (Z.quot d 10 + d mod 10)%Z.

Lemma each_digit_total l :
  Forall (fun c => is_digit c = true) l ->
  forall b, exists s, forall acc,
    each_digit l b acc = Returned (acc + s)%Z.
Proof.
  induction 1 as [|c l Hc _ IH]; intros b.
  { exists 0%Z. intros acc. simpl. f_equal. lia. }
  destruct (digit_int c Hc) as (d & Hd & _).
  destruct (IH (negb b)) as [s Hs].
  exists (weight b d + s)%Z. intros acc.
  cbn [each_digit]. rewrite Hd. cbv zeta. rewrite Hs. f_equal.
  unfold weight. lia.
Qed.

(** The total of a number is that of the digits around one of them, and
    the weight of that digit. *)
Lemma each_digit_around l1 l2 :
  Forall (fun c => is_digit c = true) l1 ->
  Forall (fun c => is_digit c = true) l2 ->
  forall b, exists s b', forall c d acc,
    py_int (PStr (String c EmptyString)) = Returned d ->
    each_digit (l1 ++ c :: l2) b acc = Returned (acc + s + weight b' d)%Z.
Proof.
  intros H1 H2. induction H1 as [|x l1 Hx _ IH]; intros b.
  - destruct (each_digit_total l2 H2 (negb b)) as [s Hs].
    exists s, b. intros c d acc Hd.
    cbn [app each_digit]. rewrite Hd. cbv zeta. rewrite Hs. f_equal.
    unfold weight. lia.
  - destruct (digit_int x Hx) as (dx & Hdx & _).
    destruct (IH (negb b)) as (s & b' & Hs).
    exists (weight b dx + s)%Z, b'. intros c d acc Hd.
    cbn [app each_digit]. rewrite Hdx. cbv zeta. rewrite (Hs c d _ Hd).
    f_equal. unfold weight. lia.
Qed.

Lemma weight_injective b d d' :
  (0 <= d <= 9)%Z -> (0 <= d' <= 9)%Z ->
  ((weight b d - weight b d') mod 10 = 0)%Z -> d = d'.
Proof.
  intros Hd Hd' H.
  assert (Hc : (d = 0 \/ d = 1 \/ d = 2 \/ d = 3 \/ d = 4 \/ d = 5
                \/ d = 6 \/ d = 7 \/ d = 8 \/ d = 9)%Z) by lia.
  assert (Hc' : (d' = 0 \/ d' = 1 \/ d' = 2 \/ d' = 3 \/ d' = 4 \/ d' = 5
                 \/ d' = 6 \/ d' = 7 \/ d' = 8 \/ d' = 9)%Z) by lia.
  destruct b;
    repeat (destruct Hc as [->|Hc]); try subst d;
    repeat (destruct Hc' as [->|Hc']); try subst d';
    first [reflexivity | by vm_compute in H].
Qed.

Lemma all_digits_app s1 s2 :
  all_digits (s1 +:+ s2) <-> all_digits s1 /\ all_digits s2.
Proof.
  unfold all_digits. induction s1 as [|c s1 IH].
  - cbn. split; [by split | by intros [_ ?]].
  - change (String c s1 +:+ s2) with (String c (s1 +:+ s2)).
    cbn [list_ascii_of_string]. rewrite !Forall_cons, IH. tauto.
Qed.

Lemma chars_app s1 s2 :
  list_ascii_of_string (s1 +:+ s2)
  = list_ascii_of_string s1 ++ list_ascii_of_string s2.
Proof.
  induction s1 as [|c s1 IH]; [done|].
  change (String c s1 +:+ s2) with (String c (s1 +:+ s2)).
  cbn [list_ascii_of_string app]. by rewrite IH.
Qed.

(** Of two numbers that differ in one digit, at most one passes the
    check. *)
Lemma luhn_one_digit pre post c c' :
  all_digits (pre +:+ String c post) ->
  all_digits (pre +:+ String c' post) ->
  luhn_ok (pre +:+ String c post) -> luhn_ok (pre +:+ String c' post) ->
  c = c'.
Proof.
  intros [Hpre [Hc Hpost]%Forall_cons]%all_digits_app
         [_ [Hc' _]%Forall_cons]%all_digits_app
         (t & Ht & Hmod) (t' & Ht' & Hmod').
  rewrite chars_app in Ht, Ht'. cbn [list_ascii_of_string] in Ht, Ht'.
  rewrite rev_app_distr in Ht, Ht'. cbn [rev] in Ht, Ht'.
  rewrite <- app_assoc in Ht, Ht'. cbn [app] in Ht, Ht'.
  destruct (digit_int c Hc) as (d & Hd & Hr & Hv).
  destruct (digit_int c' Hc') as (d' & Hd' & Hr' & Hv').
  assert (H1 : Forall (fun c => is_digit c = true)
                      (rev (list_ascii_of_string post))).
  { by apply Forall_rev. }
  assert (H2 : Forall (fun c => is_digit c = true)
                      (rev (list_ascii_of_string pre))).
  { by apply Forall_rev. }
  destruct (each_digit_around _ _ H1 H2 false) as (s & b' & Hs).
  rewrite (Hs c d 0%Z Hd) in Ht. rewrite (Hs c' d' 0%Z Hd') in Ht'.
  injection Ht as <-. injection Ht' as <-.
  assert (Hdd : d = d').
  { apply (weight_injective b'); [done..|].
    replace (weight b' d - weight b' d')%Z
      with ((0 + s + weight b' d) - (0 + s + weight b' d'))%Z by lia.
    rewrite Zminus_mod, Hmod, Hmod'. done. }
  assert (nat_of_ascii c = nat_of_ascii c') as Heq by lia.
  rewrite <- (ascii_nat_embedding c), <- (ascii_nat_embedding c').
  by rewrite Heq.
Qed.

(** [debug] leaves the objects as they are; it returns when the options
    are there, and else raises KeyError. *)
Lemma debug_run sfopts message (e : env W) :
  exists o t,
    SfLog.debug sfopts message e
    = (o, mkEnv (objs e) (polls e) (trace e ++ t))
    /\ (SfLog.debug_ready sfopts -> o = Returned tt)
    /\ (forall x, o = Raised x ->
                  x = "KeyError" /\ ~ SfLog.debug_ready sfopts).
Proof.
  unfold SfLog.debug, SfLog.debug_ready, getitem, mbind, M_bind, mret, M_ret,
    raise, emit_action.
  destruct (sfopts !! "_debug") as [d|] eqn:Hd.
  - destruct (truthy d) eqn:Htrue; cbn [negb].
    + destruct (sfopts !! "__logging") as [g|] eqn:Hg.
      * destruct (negb (truthy g)).
        -- exists (Returned tt), []. rewrite app_nil_r.
           split; [by destruct e|]. by split.
        -- exists (Returned tt), [Log "debug" message]. by split.
      * exists (Raised "KeyError"), []. rewrite app_nil_r.
        split; [by destruct e|]. split.
        -- intros (d' & [= <-] & Hl). by destruct (Hl Htrue).
        -- intros x [= <-]. split; [done|].
           intros (d' & [= <-] & Hl). by destruct (Hl Htrue).
    + exists (Returned tt), []. rewrite app_nil_r.
      split; [by destruct e|]. by split.
  - exists (Raised "KeyError"), []. rewrite app_nil_r.
    split; [by destruct e|]. split.
    + by intros (d' & [=] & _).
    + intros x [= <-]. split; [done|]. by intros (d' & [=] & _).
Qed.

(** What the loop over the matches adds to the set has passed the check;
    the loop returns when [debug] does, and else raises KeyError. *)
Lemma each_match_checked sfopts matches :
  Forall (fun m => all_digits m /\ m <> EmptyString) matches ->
  forall (creditCards : gset string) (e : env W),
  exists o t,
    each_match sfopts matches creditCards e
    = (o, mkEnv (objs e) (polls e) (trace e ++ t))
    /\ (SfLog.debug_ready sfopts -> exists found, o = Returned found)
    /\ (forall x, o = Raised x ->
                  x = "KeyError" /\ ~ SfLog.debug_ready sfopts)
    /\ forall found m, o = Returned found -> m ∈ found ->
         m ∈ creditCards
         \/ (m ∈ matches /\ luhn_ok m
             /\ exists n, py_int (PStr m) = Returned n /\ n <> 0%Z).
Proof.
  induction 1 as [|m matches [Hm Hne] _ IH]; intros creditCards e.
  { exists (Returned creditCards), []. rewrite app_nil_r.
    split; [by destruct e|]. split; [by eauto|]. split; [done|].
    intros found m [= <-] Hin. by left. }
  destruct (py_int_digits m Hm Hne) as (n & Hn & _).
  assert (Hrev : Forall (fun c => is_digit c = true)
                        (rev (list_ascii_of_string m))).
  { by apply Forall_rev. }
  destruct (each_digit_total _ Hrev false) as [s Hs].
  assert (Hrest : forall cc (e0 : env W),
             exists o t,
               each_match sfopts matches cc e0
               = (o, mkEnv (objs e0) (polls e0) (trace e0 ++ t))
               /\ (SfLog.debug_ready sfopts -> exists found, o = Returned found)
               /\ (forall x, o = Raised x ->
                             x = "KeyError" /\ ~ SfLog.debug_ready sfopts)
               /\ forall found m', o = Returned found -> m' ∈ found ->
                    m' ∈ cc
                    \/ (m' ∈ m :: matches /\ luhn_ok m'
                        /\ exists n, py_int (PStr m') = Returned n
                                     /\ n <> 0%Z)).
  { intros cc e0. destruct (IH cc e0) as (o & t & Hrun & Hret & Hraise & Hin).
    exists o, t. split; [done|]. split; [done|]. split; [done|].
    intros found m' Ho Hm'.
    destruct (Hin found m' Ho Hm') as [?|(? & ?)]; [by left|right].
    split; [by apply elem_of_cons; right | done]. }
  cbn [each_match]. unfold mbind, M_bind, lift_outcome. rewrite Hn.
  cbn [fst snd]. destruct (Z.eqb_spec n 0) as [->|Hn0]; [apply Hrest|].
  rewrite (Hs 0%Z). cbn [fst snd].
  destruct (Z.eqb_spec ((0 + s) mod 10) 0) as [Hmod|Hmod]; [|apply Hrest].
  destruct (debug_run sfopts ("Found credit card number: " +:+ m) e)
    as (o1 & t1 & -> & Hret1 & Hraise1).
  destruct o1 as [[]|x].
  - destruct (IH ({[m]} ∪ creditCards)
                 (mkEnv (objs e) (polls e) (trace e ++ t1)))
      as (o & t & -> & Hret & Hraise & Hin).
    cbn [objs polls trace]. exists o, (t1 ++ t).
    split; [by rewrite app_assoc|]. split; [done|]. split; [done|].
    intros found m' Ho Hm'.
    destruct (Hin found m' Ho Hm')
      as [[->%elem_of_singleton|?]%elem_of_union|(? & ?)].
    + right. split; [by apply elem_of_cons; left|].
      split; [by exists (0 + s)%Z; rewrite <- (Hs 0%Z) | eauto].
    + by left.
    + right. split; [by apply elem_of_cons; right | done].
  - exists (Raised x), t1. split; [done|]. split.
    + intros Hready. by specialize (Hret1 Hready).
    + split; [intros x' [= <-]; by apply Hraise1 | done].
Qed.

Lemma zeros_value s acc b :
  Forall (fun c => c = "0"%char) (list_ascii_of_string s) ->
  forall n, digits_value s acc b = Some n -> n = (acc * 10 ^ Z.of_nat (String.length s))%Z.
Proof.
  revert acc b. induction s as [|c s IH]; intros acc b Hs n.
  - cbn. destruct b; [|done]. intros [= <-]. lia.
  - apply Forall_cons in Hs as [-> Hs]. cbn [digits_value].
    change (is_digit "0") with true. cbv iota. intros Hn.
    rewrite (IH _ _ Hs n Hn). cbn [String.length].
    change (Z.of_nat (nat_of_ascii "0")) with 48%Z.
    rewrite Nat2Z.inj_succ, Z.pow_succ_r by lia. lia.
Qed.

Lemma nonzero_has_digit m n :
  all_digits m -> py_int (PStr m) = Returned n -> n <> 0%Z ->
  ~ Forall (fun c => c = "0"%char) (list_ascii_of_string m).
Proof.
  intros Hm Hn Hne Hz. apply Hne. clear Hne.
  unfold py_int in Hn. rewrite strip_digits in Hn by done.
  destruct m as [|c m]; [done|].
  pose proof Hz as [-> _]%Forall_cons.
  destruct (digits_value ("0" +:+ m) 0 false) as [v|] eqn:Hv;
    change (String "0" m) with ("0" +:+ m) in *;
    cbn [append] in Hn, Hv; rewrite Hv in Hn; [|done].
  injection Hn as <-. apply (zeros_value _ _ _ Hz) in Hv. lia.
Qed.

(** What [parseCreditCards] does, whatever the data. *)
Lemma parseCreditCards_checked sfopts data (e : env W) :
  exists o t,
    parseCreditCards sfopts data e
    = (o, mkEnv (objs e) (polls e) (trace e ++ t))
    /\ (SfLog.debug_ready sfopts -> exists l, o = Returned l)
    /\ (forall x, o = Raised x ->
                  x = "KeyError" /\ ~ SfLog.debug_ready sfopts)
    /\ forall l, o = Returned l ->
         NoDup l
         /\ forall m, m ∈ l ->
              (exists d, data = PStr d /\ occurs_in m (remove_char " " d))
              /\ all_digits m /\ 13 <= String.length m <= 19
              /\ luhn_ok m
              /\ ~ Forall (fun c => c = "0"%char) (list_ascii_of_string m).
Proof.
  assert (Hnone : data = data -> exists o t,
             (mret [] : M W (list string)) e
             = (o, mkEnv (objs e) (polls e) (trace e ++ t))
             /\ (SfLog.debug_ready sfopts -> exists l, o = Returned l)
             /\ (forall x, o = Raised x ->
                           x = "KeyError" /\ ~ SfLog.debug_ready sfopts)
             /\ forall l, o = Returned l ->
                  NoDup l
                  /\ forall m, m ∈ l ->
                       (exists d, data = PStr d
                                  /\ occurs_in m (remove_char " " d))
                       /\ all_digits m /\ 13 <= String.length m <= 19
                       /\ luhn_ok m
                       /\ ~ Forall (fun c => c = "0"%char)
                                   (list_ascii_of_string m)).
  { intros _. exists (Returned []), []. rewrite app_nil_r.
    split; [by destruct e|]. split; [by eauto|]. split; [done|].
    intros l [= <-]. split; [constructor|]. by intros m ?%elem_of_nil. }
  destruct data as [| | |d| |]; try exact (Hnone eq_refl). clear Hnone.
  unfold parseCreditCards.
  set (matches := findall false number (remove_char " " d)).
  assert (Hshape : forall m, m ∈ matches ->
            (all_digits m /\ 13 <= String.length m <= 19)
            /\ occurs_in m (remove_char " " d)).
  { intros m [Hw Hocc]%findall_sound. split; [by apply number_shape|done]. }
  assert (Hall : Forall (fun m => all_digits m /\ m <> EmptyString) matches).
  { apply Forall_forall. intros m [[Hd Hlen] _]%Hshape. split; [done|].
    intros ->. simpl in Hlen. lia. }
  destruct (each_match_checked sfopts matches Hall ∅ e)
    as (o & t & Hrun & Hret & Hraise & Hfound).
  unfold mbind, M_bind. rewrite Hrun. cbn [fst snd].
  destruct o as [found|x].
  - exists (Returned (elements found)), t. split; [done|].
    split; [by eauto|]. split; [done|].
    intros l [= <-]. split; [apply NoDup_elements|].
    intros m Hm%elem_of_elements.
    destruct (Hfound found m eq_refl Hm)
      as [?%elem_of_empty|(Hin & Hluhn & n & Hn & Hn0)]; [done|].
    destruct (Hshape m Hin) as [[Hd Hlen] Hocc].
    split; [by exists d|]. split; [done|]. split; [done|]. split; [done|].
    by eapply nonzero_has_digit.
  - exists (Raised x), t. split; [done|]. split.
    + intros Hready. by destruct (Hret Hready).
    + split; [intros x' [= <-]; by apply Hraise | done].
Qed.

(** With the options [_debug] and [__logging] on, the logger of the
    library writes the lines that the logger of the modules records. *)
Lemma configured_logger sfopts d g message (e : env W) :
  sfopts !! "_debug" = Some d -> truthy d = true ->
  sfopts !! "__logging" = Some g -> truthy g = true ->
  SfLog.debug sfopts message e = Plugin.debug message e
  /\ SfLog.info sfopts message e = Plugin.info message e
  /\ SfLog.error sfopts message e = Plugin.error message e.
Proof.
  intros Hd Hdt Hg Hgt.
  unfold SfLog.debug, SfLog.info, SfLog.error, getitem, mbind, M_bind,
    mret, M_ret.
  by rewrite Hd, Hg, Hdt, Hgt.
Qed.
End CreditCardFacts.

(** X21. [parseCreditCards] changes nothing of the caller.  It returns
    when the options of the SpiderFoot object have [_debug], and
    [__logging] too if [_debug] is on; if it raises, the exception is the
    KeyError of [debug] for an option that is missing.  What it returns is
    a list without duplicates, and each number of the list is a string of
    13 to 19 decimal digits, not all of them 0, that occurs in the data
    once its spaces are taken out, and that passes the check of Luhn that
    the loop computes. *)
Theorem X21_parseCreditCards_returns_checked_numbers
        {W : Type} (sfopts : gmap string pyval) (data : pyval)
        (st : W) (n : nat) :
  let r := run (CreditCards.parseCreditCards sfopts data) st n in
  state_of r = st
  /\ (SfLog.debug_ready sfopts -> exists l, outcome_of r = Returned l)
  /\ (forall x, outcome_of r = Raised x ->
                x = "KeyError" /\ ~ SfLog.debug_ready sfopts)
  /\ forall l, outcome_of r = Returned l ->
       NoDup l
       /\ forall m, m ∈ l ->
            (exists d, data = PStr d
                       /\ ReLang.occurs_in m (CreditCards.remove_char " " d))
            /\ CreditCards.all_digits m /\ 13 <= String.length m <= 19
            /\ CreditCards.luhn_ok m
            /\ ~ Forall (fun c => c = "0"%char) (list_ascii_of_string m).
Proof.
  destruct (parseCreditCards_checked sfopts data (mkEnv st n []))
    as (o & t & Hrun & Hret & Hraise & Hl).
  unfold run, outcome_of, state_of. rewrite Hrun. by cbn.
Qed.

(** [parseCreditCards] of a SpiderFoot object without options and of one
    with the two options on, for a text with a number that passes the
    check: the first call raises where it would log the number. *)
Example parseCreditCards_options :
  let data := PStr "card 4111 1111 1111 1111." in
  outcome_of (run (CreditCards.parseCreditCards ∅ data) tt 0)
  = Raised "KeyError"
  /\ run (CreditCards.parseCreditCards
            (<["_debug" := PBool true]> (<["__logging" := PBool true]> ∅))
            data) tt 0
     = (Returned ["4111111111111111"], tt,
        [Log "debug" "Found credit card number: 4111111111111111"])
  /\ outcome_of (run (CreditCards.parseCreditCards ∅ (PStr "no card")) tt 0)
     = Returned [].
Proof. by vm_compute. Qed.

(** X22. The check catches one wrong digit: when [parseCreditCards]
    returns a number for some data, it returns for no data the number
    with one of its characters replaced by another. *)
Theorem X22_parseCreditCards_rejects_one_wrong_digit
        {W : Type} (sfopts sfopts' : gmap string pyval)
        (data data' : pyval) (st st' : W) (n n' : nat)
        (l l' : list string) (pre post : string) (c c' : ascii) :
  outcome_of (run (CreditCards.parseCreditCards sfopts data) st n)
  = Returned l ->
  outcome_of (run (CreditCards.parseCreditCards sfopts' data') st' n')
  = Returned l' ->
  pre +:+ String c post ∈ l ->
  c <> c' ->
  pre +:+ String c' post ∉ l'.
Proof.
  intros Hl Hl' Hin Hne Hin'.
  destruct (parseCreditCards_checked sfopts data (mkEnv st n []))
    as (o & t & Hrun & _ & _ & H0).
  destruct (parseCreditCards_checked sfopts' data' (mkEnv st' n' []))
    as (o' & t' & Hrun' & _ & _ & H0').
  unfold run, outcome_of in Hl, Hl'. rewrite Hrun in Hl. rewrite Hrun' in Hl'.
  cbn in Hl, Hl'. subst o o'.
  destruct (H0 l eq_refl) as [_ Hall]. destruct (H0' l' eq_refl) as [_ Hall'].
  destruct (Hall _ Hin) as (_ & Hd & _ & Hluhn & _).
  destruct (Hall' _ Hin') as (_ & Hd' & _ & Hluhn' & _).
  by apply Hne, (luhn_one_digit pre post).
Qed.

Lemma X22_parseCreditCards_rejects_one_wrong_digit_witness :
  "411111111111111" +:+ String "2" EmptyString ∉ [].
Proof.
  apply (X22_parseCreditCards_rejects_one_wrong_digit
           (W := unit)
           (<["_debug" := PBool false]> ∅) (<["_debug" := PBool false]> ∅)
           (PStr "card 4111 1111 1111 1111.") (PStr "4111111111111112")
           tt tt 0 0 ["4111111111111111"] []
           "411111111111111" EmptyString "1" "2").
  - by vm_compute.
  - by vm_compute.
  - apply list_elem_of_singleton. reflexivity.
  - discriminate.
Defined.

(** [parseCreditCards] on a line of text: the spaces inside a number do
    not count, and neither does a number that fails the check. *)
Example parseCreditCards_example :
  outcome_of
    (run (CreditCards.parseCreditCards
            (<["_debug" := PBool false]> ∅)
            (PStr "cards 4111 1111 1111 1111 and 4111111111111112"))
         tt 0)
  = Returned ["4111111111111111"].
Proof. by vm_compute. Qed.

(** ** [sfp_email] reports an address once *)

Section EmailOnce.
Import Lineage Notified sfp_email.
Context (sf : World) (event : SpiderFootEvent).

Let silent : list action -> Prop := notifies (fun _ => False).

(** The addresses of the piece of trace differ from each other and from
    those of [myres]. *)
Let fresh (myres : list string) (t : list action) : Prop :=
  NoDup (data_of t) /\ forall d, d ∈ data_of t -> d ∉ myres.

Lemma data_of_app t1 t2 : data_of (t1 ++ t2) = data_of t1 ++ data_of t2.
Proof. apply omap_app. Qed.

Lemma silent_data t : silent t -> data_of t = [].
Proof.
  intros Ht. induction t as [|a t IH]; [done|].
  assert (Hrest : silent t).
  { intros e He. apply (Ht e). by apply elem_of_cons; right. }
  unfold data_of. cbn [omap list_omap].
  destruct a as [| | | | | |e];
    try (exact (IH Hrest)).
  destruct (Ht e). by apply elem_of_cons; left.
Qed.

Lemma fresh_silent myres t : silent t -> fresh myres t.
Proof.
  intros Ht. unfold fresh. rewrite (silent_data t Ht).
  split; [constructor | by intros d ?%elem_of_nil].
Qed.

Lemma fresh_after_silent myres t1 t2 :
  silent t1 -> fresh myres t2 -> fresh myres (t1 ++ t2).
Proof.
  intros H1 H2. unfold fresh. by rewrite data_of_app, (silent_data t1 H1).
Qed.

Lemma fresh_notify myres e t :
  data e ∉ myres -> fresh (myres ++ [data e]) t ->
  fresh myres ([Notify e] ++ t).
Proof.
  intros He [Hnd Hnot]. unfold fresh. cbn [app data_of omap list_omap].
  split.
  - constructor; [|done]. intros Hin. apply (Hnot _ Hin).
    apply elem_of_app. right. by apply list_elem_of_singleton.
  - intros d [->|Hin]%elem_of_cons; [done|].
    intros Hd. apply (Hnot _ Hin). apply elem_of_app. by left.
Qed.

Lemma silent_then {A B} myres (m : M state A) (f : A -> M state B) :
  emits silent m -> (forall a, emits (fresh myres) (f a)) ->
  emits (fresh myres) (m ≫= f).
Proof.
  intros Hm Hf. eapply emits_bind; [exact Hm | exact Hf | |].
  - apply fresh_silent.
  - apply fresh_after_silent.
Qed.

Lemma em_each_email_once emails :
  forall myres,
    emits (fresh myres)
          (each_email self_id sf notify_only event emails myres).
Proof.
  induction emails as [|email rest IH]; intros myres.
  { apply emits_nothing; [|done]. apply fresh_silent. by intros e ?%elem_of_nil. }
  cbn [each_email].
  apply silent_then; [subst silent; passes_on | intros mailDom].
  apply silent_then; [subst silent; passes_on | intros tlds].
  destruct (negb _).
  { eapply emits_weaken; [apply fresh_silent | subst silent; passes_on]. }
  apply silent_then; [subst silent; passes_on | intros _].
  apply silent_then; [subst silent; passes_on | intros evttype].
  apply silent_then; [subst silent; passes_on | intros _].
  destruct (bool_decide _) eqn:Hin.
  { apply silent_then; [subst silent; passes_on | intros _]. apply IH. }
  apply bool_decide_eq_false in Hin.
  unfold new_event.
  destruct (construct _ _ _ _ _) as [evt|x] eqn:Hevt.
  - apply construct_fields in Hevt as (_ & Hdata & _).
    intros e. unfold mbind, M_bind, lift_outcome. cbn [fst snd].
    match goal with
    | |- context [notify_only ?ev] =>
        assert (Hev : data ev = Str.strip_char "." (Str.lower email))
          by exact Hdata;
        set (ev' := ev) in *
    end.
    unfold notify_only, emit_action. cbn [fst snd objs polls trace].
    match goal with
    | |- context [each_email _ _ _ _ _ _ ?e'] =>
        destruct (IH (myres ++ [Str.strip_char "." (Str.lower email)]) e')
          as (t & Ht & Hfresh)
    end.
    exists ([Notify ev'] ++ t). split.
    + etrans; [exact Ht|]. cbn [trace]. by rewrite <- app_assoc.
    + apply fresh_notify; rewrite Hev; done.
  - intros e. exists []. rewrite app_nil_r. split; [done|].
    apply fresh_silent. by intros ? ?%elem_of_nil.
Qed.
End EmailOnce.

(** X23. One call of [sfp_email.handleEvent] hands no address to
    [notifyListeners] twice, whatever the addresses found in the data
    and however the call ends. *)
Theorem X23_email_handleEvent_reports_an_address_once
        (sf : World) (event : SpiderFootEvent) (st : sfp_email.state)
        (n : nat) :
  NoDup (Notified.data_of
           (trace_of
              (run (sfp_email.handleEvent self_id sf notify_only event)
                   st n))).
Proof.
  apply (emits_run (fun t => NoDup (Notified.data_of t))).
  unfold sfp_email.handleEvent.
  eapply emits_bind with
    (T1 := Lineage.notifies (fun _ => False))
    (T2 := fun t => NoDup (Notified.data_of t)
                    /\ forall d, d ∈ Notified.data_of t -> d ∉ []).
  - passes_on.
  - intros _. apply em_each_email_once.
  - intros t Ht. rewrite (silent_data t Ht). constructor.
  - intros t1 t2 Ht1 [Ht2 _].
    by rewrite data_of_app, (silent_data t1 Ht1).
Qed.

(** ** [sfp_cinsscore] on a list that is in the cache *)

Section CinsscoreCached.
Import sfp_cinsscore.
Context (sf : World) (text : string).
Hypothesis cached :
  forall period, cacheGet sf "sfmal__cinsscore" period = Some text.

(** With the spaces around it taken off and in lower case, the line is
    the address. *)
Let names (qry line : string) : bool :=
  String.eqb (Str.lower qry) (Str.lower (Str.strip line)).

Lemma cs_each_line_ip qry lines (e : env state) :
  each_line sf qry "ip" lines e
  = (Returned (if existsb (names qry) lines then Some url else None),
     mkEnv (objs e) (polls e)
           (trace e ++ if existsb (names qry) lines
                       then [Log "debug"
                                 (qry +:+ " found in cinsscore.com list.")]
                       else [])).
Proof.
  induction lines as [|line rest IH].
  { cbn. rewrite app_nil_r. by destruct e. }
  cbn [each_line existsb]. change (String.eqb "ip" "netblock") with false.
  change (String.eqb "ip" "ip") with true. cbv iota.
  fold (names qry line). destruct (names qry line); [done|].
  cbn [orb]. apply IH.
Qed.

Lemma cs_query_cached qry (e : env state) :
  query self_id sf qry "ip" e
  = each_line sf qry "ip" (Str.split Re.newline text) e.
Proof.
  unfold query. step_monad.
  change ("sfmal_" +:+ "_cinsscore") with "sfmal__cinsscore".
  by rewrite cached.
Qed.

Lemma cs_handleEvent_cached event st r n :
  results st = Some r -> r !! data event = None ->
  errorState st = false -> eventType event = "IP_ADDRESS" ->
  exists evt,
    trace_of (run (handleEvent self_id sf notify_only event) st n)
    = [Log "debug" ("Received event, " +:+ eventType event +:+ ", from "
                      +:+ module event);
       Log "debug" ("Checking maliciousness of " +:+ data event
                      +:+ " with cinsscore.com")]
      ++ (if existsb (names (data event)) (Str.split Re.newline text)
          then [Log "debug" (data event +:+ " found in cinsscore.com list.");
                Notify evt]
          else [])
    /\ eventType evt = "MALICIOUS_IPADDR"
    /\ data evt = "cinsscore.com [" +:+ data event +:+ "]"
                    +:+ String Re.newline "<SFURL>" +:+ url +:+ "</SFURL>"
    /\ sourceEvent evt = Some event.
Proof.
  intros Hr Hnew Herr Hty.
  set (body := "cinsscore.com [" +:+ data event +:+ "]"
                 +:+ String Re.newline "<SFURL>" +:+ url +:+ "</SFURL>").
  assert (Hbody : body <> EmptyString) by done.
  destruct (construct_returns (allowed_empty sf) "MALICIOUS_IPADDR" body
              name event Hbody ltac:(done)) as [evt Hevt].
  pose proof (construct_fields _ _ _ _ _ _ Hevt) as (Ht & Hd & _ & Hs).
  exists evt. split; [|by auto].
  unfold handleEvent. step_monad. rewrite Hr. cbn [objs polls trace].
  rewrite bool_decide_eq_false_2 by (rewrite Hnew; by intros [? [=]]).
  cbn [objs polls trace]. rewrite Herr. cbn [objs polls trace].
  rewrite Hr. cbn [objs polls trace]. rewrite Hty.
  change (String.eqb "IP_ADDRESS" "IP_ADDRESS") with true. cbv iota.
  unfold check. step_monad. cbn [negb]. rewrite cs_query_cached, cs_each_line_ip.
  destruct (existsb _ _); [|done].
  unfold new_event, lift_outcome. fold body. rewrite Hevt. done.
Qed.
End CinsscoreCached.

(** X24. With the list of cinsscore.com in the cache, a call of
    [sfp_cinsscore.handleEvent] with an [IP_ADDRESS] Event of data not
    seen before fetches nothing.  It hands an Event to [notifyListeners]
    exactly when a line of the list is the address, white space around
    the line and the case of letters apart; the Event is of type
    [MALICIOUS_IPADDR] and has the Event received as its source. *)
Theorem X24_cinsscore_reports_the_listed_addresses
        (sf : World) (text : string) (event : SpiderFootEvent)
        (st : sfp_cinsscore.state) (r : gmap string bool) (n : nat) :
  (forall period, cacheGet sf "sfmal__cinsscore" period = Some text) ->
  sfp_cinsscore.results st = Some r -> r !! data event = None ->
  sfp_cinsscore.errorState st = false ->
  eventType event = "IP_ADDRESS" ->
  let t := trace_of (run (sfp_cinsscore.handleEvent self_id sf notify_only
                            event) st n) in
  (forall u, Fetch u ∉ t)
  /\ ((exists e, Notify e ∈ t)
      <-> exists line,
            line ∈ Str.split Re.newline text
            /\ Str.lower (Str.strip line) = Str.lower (data event))
  /\ forall e, Notify e ∈ t ->
       eventType e = "MALICIOUS_IPADDR" /\ sourceEvent e = Some event.
Proof.
  intros Hcache Hr Hnew Herr Hty t.
  destruct (cs_handleEvent_cached sf text Hcache event st r n Hr Hnew Herr Hty)
    as (evt & Ht & Hety & _ & Hsrc).
  fold t in Ht.
  assert (Hlisted :
            existsb (fun line =>
                       String.eqb (Str.lower (data event))
                                  (Str.lower (Str.strip line)))
                    (Str.split Re.newline text) = true
            <-> exists line,
                line ∈ Str.split Re.newline text
                /\ Str.lower (Str.strip line) = Str.lower (data event)).
  { rewrite existsb_exists. split.
    - intros (line & Hin%list_elem_of_In & Heq%String.eqb_eq). eauto.
    - intros (line & Hin%list_elem_of_In & Heq). exists line.
      split; [done|]. by apply String.eqb_eq. }
  rewrite Ht. destruct (existsb _ _).
  - split; [|split].
    + intros u Hu. repeat (apply elem_of_cons in Hu as [?|Hu]; [done|]).
      by apply elem_of_nil in Hu.
    + split; [intros _; by apply Hlisted|]. intros _. exists evt.
      do 3 (apply elem_of_cons; right). by apply elem_of_cons; left.
    + intros e He.
      repeat (apply elem_of_cons in He as [He'|He]; [try done|]).
      * by injection He' as ->.
      * by apply elem_of_nil in He.
  - split; [|split].
    + intros u Hu. repeat (apply elem_of_cons in Hu as [?|Hu]; [done|]).
      by apply elem_of_nil in Hu.
    + split; [|intros H; by apply Hlisted in H].
      intros [e He]. repeat (apply elem_of_cons in He as [?|He]; [done|]).
      by apply elem_of_nil in He.
    + intros e He. repeat (apply elem_of_cons in He as [?|He]; [done|]).
      by apply elem_of_nil in He.
Qed.

Lemma X24_cinsscore_reports_the_listed_addresses_witness :
  let t := trace_of
             (run (sfp_cinsscore.handleEvent self_id CachedList.world_cached
                     notify_only Examples.ip_event)
                  (sfp_cinsscore.setup Examples.global_opts
                                       sfp_cinsscore.initial) 0) in
  (forall u, Fetch u ∉ t)
  /\ ((exists e, Notify e ∈ t)
      <-> exists line,
            line ∈ Str.split Re.newline CachedList.list_text
            /\ Str.lower (Str.strip line)
               = Str.lower (data Examples.ip_event))
  /\ forall e, Notify e ∈ t ->
       eventType e = "MALICIOUS_IPADDR"
       /\ sourceEvent e = Some Examples.ip_event.
Proof.
  apply (X24_cinsscore_reports_the_listed_addresses
           CachedList.world_cached CachedList.list_text Examples.ip_event
           (sfp_cinsscore.setup Examples.global_opts sfp_cinsscore.initial)
           ∅ 0).
  - intros period. reflexivity.
  - reflexivity.
  - reflexivity.
  - reflexivity.
  - reflexivity.
Defined.

(** The run of the witness: the address is on the second line of the
    list, between spaces. *)
Example cinsscore_cached_run :
  trace_of
    (run (sfp_cinsscore.handleEvent self_id CachedList.world_cached
            notify_only Examples.ip_event)
         (sfp_cinsscore.setup Examples.global_opts sfp_cinsscore.initial) 0)
  = [Log "debug" "Received event, IP_ADDRESS, from sfp_dnsresolve";
     Log "debug" "Checking maliciousness of 93.184.216.34 with cinsscore.com";
     Log "debug" "93.184.216.34 found in cinsscore.com list.";
     Notify (mkEvent "MALICIOUS_IPADDR"
               ("cinsscore.com [93.184.216.34]"
                  +:+ String Re.newline
                        "<SFURL>http://cinsscore.com/list/ci-badguys.txt</SFURL>")
               "sfp_cinsscore" (Some Examples.ip_event) None)].
Proof. by vm_compute. Qed.

(** ** [sfp_portscan_tcp] tries every port of its list *)

Lemma connects_app t1 t2 :
  Connections.connects (t1 ++ t2)
  = Connections.connects t1 ++ Connections.connects t2.
Proof. apply omap_app. Qed.

(** Runs the calls at the head of a method, but for [notifyListeners]. *)
Ltac run_calls :=
  repeat progress
    (cbv beta iota zeta delta
         [run outcome_of trace_of mbind M_bind mret M_ret gets modify_self
          Plugin.results_contains Plugin.results_add contains store
          debug log error emit_action raise try_except
          sfp_portscan_tcp.results_contains sfp_portscan_tcp.results_add
          sfp_portscan_tcp.set_errorState];
     cbn [view update self_id objs polls trace fst snd
          sfp_portscan_tcp.with_results sfp_portscan_tcp.portlist
          sfp_portscan_tcp.results sfp_portscan_tcp.errorState]).

(** Takes out of the goal the pieces of trace known to make no
    connection. *)
Ltac no_connects :=
  cbn beta in *; cbn [app];
  rewrite ?app_nil_r, ?connects_app;
  repeat match goal with
         | H : Connections.connects _ = [] |- _ => rewrite H; clear H
         end;
  cbn [app]; try done.

Section PortscanEveryPort.
Import Connections sfp_portscan_tcp.
Context (sf : World) (event : SpiderFootEvent) (options : gmap string pyval)
        (k : Z).
Hypothesis has_maxthreads : options !! "maxthreads" = Some (PInt k).
Hypothesis never_stops : forall p, stop_requested sf p = false.
Hypothesis threads_all_run : forall l, thread_order sf l ≡ₚ l.
Hypothesis banner_text :
  forall b, b <> EmptyString -> decode_utf8 sf b <> EmptyString.

(** [m] returns, keeps the options, and adds to the trace a piece that
    goes with the result as [P] tells. *)
Let steps {A} (m : M state A) (P : A -> list action -> Prop) : Prop :=
  forall e, opts (objs e) = options ->
    exists a e' t,
      m e = (Returned a, e') /\ opts (objs e') = options
      /\ trace e' = trace e ++ t /\ P a t.

Lemma steps_ret {A} (a : A) (P : A -> list action -> Prop) :
  P a [] -> steps (mret a) P.
Proof.
  intros HP e He. exists a, e, []. by rewrite app_nil_r.
Qed.

Lemma steps_bind {A B} (m : M state A) (f : A -> M state B)
      (P : A -> list action -> Prop) (Q : B -> list action -> Prop) :
  steps m P ->
  (forall a t1, P a t1 ->
     steps (f a) (fun b t2 => Q b (t1 ++ t2))) ->
  steps (m ≫= f) Q.
Proof.
  intros Hm Hf e He.
  destruct (Hm e He) as (a & e1 & t1 & Hrun & He1 & Ht1 & HP).
  destruct (Hf a t1 HP e1 He1) as (b & e2 & t2 & Hrun2 & He2 & Ht2 & HQ).
  exists b, e2, (t1 ++ t2). unfold mbind, M_bind. rewrite Hrun, Hrun2.
  split; [done|]. split; [done|]. split; [|done].
  by rewrite Ht2, Ht1, app_assoc.
Qed.

Lemma steps_weaken {A} (m : M state A) (P Q : A -> list action -> Prop) :
  (forall a t, P a t -> Q a t) -> steps m P -> steps m Q.
Proof.
  intros HPQ Hm e He.
  destruct (Hm e He) as (a & e1 & t1 & ? & ? & ? & ?). eauto 10.
Qed.

Lemma steps_log level msg :
  steps (log level msg) (fun _ t => connects t = []).
Proof. intros e He. by exists tt, (mkEnv (objs e) (polls e) (trace e ++ [Log level msg])), [Log level msg]. Qed.

Lemma steps_notify ev :
  steps (notify_only ev) (fun _ t => connects t = []).
Proof. intros e He. by exists tt, (mkEnv (objs e) (polls e) (trace e ++ [Notify ev])), [Notify ev]. Qed.

Lemma steps_new_event type_ data_ src :
  data_ <> EmptyString -> type_ <> "ROOT" ->
  steps (new_event sf type_ data_ name src) (fun _ t => t = []).
Proof.
  intros Hd Hty e He.
  destruct (construct_returns (allowed_empty sf) type_ data_ name src Hd Hty)
    as [evt Hevt].
  exists evt, e, []. unfold new_event, lift_outcome. rewrite Hevt.
  by rewrite app_nil_r.
Qed.

Lemma mapM_cons_run {A B} (f : A -> M state B) a l (e : env state) :
  mapM f (a :: l) e
  = match f a e with
    | (Returned b, e1) =>
        match mapM f l e1 with
        | (Returned bs, e2) => (Returned (b :: bs), e2)
        | (Raised x, e2) => (Raised x, e2)
        end
    | (Raised x, e1) => (Raised x, e1)
    end.
Proof. reflexivity. Qed.

Lemma bind_run {A B} (m : M state A) (f : A -> M state B) (e : env state) :
  (m ≫= f) e
  = match m e with
    | (Returned a, e') => f a e'
    | (Raised x, e') => (Raised x, e')
    end.
Proof. reflexivity. Qed.

Lemma modify_run (f : state -> state) (e : env state) :
  modify_self self_id f e
  = (Returned tt, mkEnv (f (objs e)) (polls e) (trace e)).
Proof. reflexivity. Qed.

Lemma info_run msg (e : env state) :
  info msg e
  = (Returned tt, mkEnv (objs e) (polls e) (trace e ++ [Log "info" msg])).
Proof. reflexivity. Qed.

(** The spawning messages make no connection. *)
Lemma spawn_run ip portList (e : env state) :
  exists l t,
    mapM (fun port : Z =>
            info ("Spawning thread to check port: " +:+ Str.of_Z port
                     +:+ " on " +:+ ip)) portList e
    = (Returned l, mkEnv (objs e) (polls e) (trace e ++ t))
    /\ connects t = [].
Proof.
  revert e. induction portList as [|port rest IH]; intros e.
  { exists [], []. rewrite app_nil_r. by destruct e. }
  rewrite mapM_cons_run, info_run.
  match goal with
  | |- context [mapM _ rest ?e1] => destruct (IH e1) as (l & t & -> & Ht)
  end.
  eexists _, (_ :: t). cbn [objs polls trace]. rewrite <- app_assoc.
  split; [reflexivity|]. exact Ht.
Qed.

(** The names of the peers in a dict of results. *)
Let named (d : list (string * portResult)) : Prop :=
  Forall (fun entry => entry.1 <> EmptyString) d.

Lemma dict_set_named d key v :
  named d -> key <> EmptyString -> named (dict_set d key v).
Proof.
  intros Hd Hkey. unfold named in *.
  induction d as [|[k' v'] d IH]; cbn [dict_set].
  - by repeat constructor.
  - apply Forall_cons in Hd as [Hk Hd].
    destruct (String.eqb k' key); constructor; auto.
Qed.

Lemma peer_name ip port : ip +:+ ":" +:+ Str.of_Z port <> EmptyString.
Proof. destruct ip; done. Qed.

Lemma tryPort_run ip port (e : env state) :
  tryPort self_id sf ip port e
  = (Returned tt,
     mkEnv (with_portResults
              (dict_set (portResults (objs e)) (ip +:+ ":" +:+ Str.of_Z port)
                        (try_port sf ip port)) (objs e))
           (polls e) (trace e ++ [Connect ip port])).
Proof. reflexivity. Qed.

(** The threads: one connection for each port given, in the order of
    the threads. *)
Lemma steps_threads ip ports :
  forall e, opts (objs e) = options -> named (portResults (objs e)) ->
    exists e',
      mapM (tryPort self_id sf ip) ports e = (Returned (const tt <$> ports), e')
      /\ opts (objs e') = options /\ named (portResults (objs e'))
      /\ trace e' = trace e ++ (Connect ip <$> ports).
Proof.
  induction ports as [|port rest IH]; intros e He Hnamed.
  { exists e. by rewrite app_nil_r. }
  rewrite mapM_cons_run, tryPort_run.
  match goal with
  | |- context [mapM _ rest ?e1] =>
      destruct (IH e1) as (e' & Hrun & He' & Hn' & Ht')
  end.
  { done. }
  { cbn. apply dict_set_named; [done | apply peer_name]. }
  exists e'. rewrite Hrun. cbn [fmap list_fmap].
  split; [by destruct (const tt port)|]. split; [done|]. split; [done|].
  rewrite Ht'. cbn [trace]. by rewrite <- app_assoc.
Qed.

Lemma steps_tryPortWrapper ip portList :
  steps (tryPortWrapper self_id sf ip portList)
        (fun res t =>
           named res
           /\ connects t = (fun p => (ip, p)) <$> thread_order sf portList).
Proof.
  intros e He. unfold tryPortWrapper.
  destruct (spawn_run ip portList
              (mkEnv (with_portResults [] (objs e)) (polls e) (trace e)))
    as (l & t1 & Hrun1 & Hc1).
  set (e1 := mkEnv (with_portResults [] (objs e)) (polls e) (trace e ++ t1)).
  assert (He1 : opts (objs e1) = options) by done.
  assert (Ht1 : trace e1 = trace e ++ t1) by done.
  assert (Hn1 : named (portResults (objs e1))) by constructor.
  destruct (steps_threads ip (thread_order sf portList) e1 He1 Hn1)
    as (e2 & Hrun2 & He2 & Hn2 & Ht2).
  exists (portResults (objs e2)), e2, (t1 ++ (Connect ip <$> thread_order sf portList)).
  rewrite bind_run, modify_run, bind_run, Hrun1, bind_run.
  cbn [objs polls trace]. fold e1. rewrite Hrun2.
  split; [done|]. split; [done|].
  split; [by rewrite Ht2, Ht1, app_assoc|]. split; [done|].
  rewrite connects_app, Hc1. cbn [app].
  clear. induction (thread_order sf portList) as [|p l IH]; [done|].
  cbn. by rewrite <- IH.
Qed.

Lemma steps_sendEvent resArray :
  named resArray ->
  steps (sendEvent sf notify_only resArray event)
        (fun _ t => connects t = []).
Proof.
  unfold named.
  induction resArray as [|[cp res] rest IH]; intros Hnamed;
    [by apply steps_ret|].
  apply Forall_cons in Hnamed as [Hcp Hrest]. cbn [fst] in Hcp.
  cbn [sendEvent].
  eapply steps_bind with (P := fun _ t => connects t = []).
  - destruct res as [| |bytes].
    + by apply steps_ret.
    + eapply steps_bind; [apply steps_log|]. intros ? t1 Ht1.
      eapply steps_bind; [by apply steps_new_event|]. intros evt ? ->.
      eapply steps_weaken; [|apply steps_notify].
      intros ? t2 Ht2. no_connects.
    + destruct bytes as [|b bytes]; [by apply steps_ret|].
      eapply steps_bind; [apply steps_log|]. intros ? t1 Ht1.
      eapply steps_bind; [by apply steps_new_event|]. intros evt ? ->.
      eapply steps_bind; [apply steps_notify|]. intros ? t2 Ht2.
      eapply steps_bind; [apply steps_new_event; [by apply banner_text|done]|].
      intros bevt ? ->.
      eapply steps_weaken; [|apply steps_notify].
      intros ? t3 Ht3. no_connects.
  - intros ? t1 Ht1. eapply steps_weaken; [|by apply IH].
    intros ? t2 Ht2. no_connects.
Qed.

(** The loop over the ports: with the ports it leaves for the last
    batch, every port was tried once. *)
Lemma steps_each_port ip ports :
  forall i portArr,
    steps (each_port self_id sf notify_only event ip ports i portArr)
          (fun left t =>
             exists remaining,
               left = Some remaining
               /\ connects t ++ ((fun p => (ip, p)) <$> remaining)
                  ≡ₚ (fun p => (ip, p)) <$> (portArr ++ ports)).
Proof.
  induction ports as [|port rest IH]; intros i portArr.
  { apply steps_ret. exists portArr. by rewrite app_nil_r. }
  cbn [each_port].
  eapply steps_bind with (P := fun stop t => stop = false /\ connects t = []).
  { intros e He. unfold checkForStop. rewrite never_stops. by eexists _, _, [_]. }
  intros stop t0 [-> Ht0]. cbv iota.
  eapply steps_bind with (P := fun v t => v = PInt k /\ t = []).
  { intros e He. unfold opt, Plugin.opt. step_monad.
    rewrite He, has_maxthreads. exists (PInt k), e, [].
    by rewrite app_nil_r. }
  intros ? ? [-> ->]. cbn [py_lt lift_outcome].
  eapply steps_bind with (P := fun v t => v = (i <? k)%Z /\ t = []).
  { intros e He. exists (i <? k)%Z, e, []. by rewrite app_nil_r. }
  intros ? ? [-> ->]. destruct (i <? k)%Z.
  - eapply steps_weaken; [|apply IH].
    intros left t (remaining & -> & Hperm). exists remaining.
    split; [done|]. no_connects. by rewrite Hperm, <- app_assoc.
  - eapply steps_bind; [apply steps_tryPortWrapper|].
    intros res t1 [Hnamed Ht1].
    eapply steps_bind; [by apply steps_sendEvent|]. intros ? t2 Ht2.
    eapply steps_weaken; [|apply IH].
    intros left t (remaining & -> & Hperm). exists remaining.
    split; [done|]. no_connects.
    rewrite Ht1, <- app_assoc, Hperm, threads_all_run.
    by rewrite <- fmap_app.
Qed.

Lemma ps_handleEvent_every_port st r n :
  opts st = options -> errorState st = false ->
  results st = Some r -> r !! data event = None ->
  eventType event <> "NETBLOCK_OWNER" ->
  let res := run (handleEvent self_id sf notify_only event) st n in
  outcome_of res = Returned tt
  /\ connects (trace_of res) ≡ₚ (fun p => (data event, p)) <$> portlist st.
Proof.
  intros Hopts Herr Hr Hnew Hty. cbv zeta.
  apply String.eqb_neq in Hty.
  unfold handleEvent, scan_targets. rewrite Hty.
  run_calls. rewrite Herr. run_calls.
  destruct (portlist st) as [|p0 ports] eqn:Hports; [by cbn|].
  cbn [each_ip]. run_calls. rewrite Hr. run_calls.
  rewrite bool_decide_eq_false_2 by (rewrite Hnew; by intros [? [=]]).
  run_calls. rewrite Hr. run_calls. rewrite Hports.
  match goal with
  | |- context [each_port _ _ _ _ ?ip ?ps ?i ?arr ?e] =>
      destruct (steps_each_port ip ps i arr e)
        as (left & e1 & t1 & Hrun1 & He1 & Ht1 & remaining & -> & Hperm);
      [done|]
  end.
  rewrite Hrun1.
  destruct (steps_tryPortWrapper (data event) remaining e1 He1)
    as (res & e2 & t2 & Hrun2 & He2 & Ht2 & Hnamed & Hc2).
  rewrite Hrun2.
  destruct (steps_sendEvent res Hnamed e2 He2)
    as ([] & e3 & t3 & Hrun3 & He3 & Ht3 & Hc3).
  rewrite Hrun3. cbn [fst snd]. split; [done|].
  rewrite Ht3, Ht2, Ht1. cbn [trace].
  rewrite !connects_app, Hc3, Hc2, app_nil_r. cbn [connects omap list_omap app].
  by rewrite threads_all_run, Hperm.
Qed.
End PortscanEveryPort.

(** X25. When the scan is not asked to stop and the flag [errorState] of
    the module is not set, [sfp_portscan_tcp.handleEvent] for an address
    not scanned before returns after one connection attempt to each port
    of [portlist], however the ports fall into batches of [maxthreads] and
    in whatever order the threads of a batch run: the attempts are the
    ports of the list, each as often as the list has it.  With the flag
    set the call returns at once, before any attempt. *)
Theorem X25_portscan_tries_every_port_once
        (sf : World) (event : SpiderFootEvent)
        (st : sfp_portscan_tcp.state) (r : gmap string bool)
        (k : Z) (n : nat) :
  sfp_portscan_tcp.opts st !! "maxthreads" = Some (PInt k) ->
  (forall p, stop_requested sf p = false) ->
  (forall l, thread_order sf l ≡ₚ l) ->
  (forall b, b <> EmptyString -> decode_utf8 sf b <> EmptyString) ->
  sfp_portscan_tcp.errorState st = false ->
  sfp_portscan_tcp.results st = Some r -> r !! data event = None ->
  eventType event <> "NETBLOCK_OWNER" ->
  let res := run (sfp_portscan_tcp.handleEvent self_id sf notify_only event)
                 st n in
  outcome_of res = Returned tt
  /\ Connections.connects (trace_of res)
     ≡ₚ (fun p => (data event, p)) <$> sfp_portscan_tcp.portlist st.
Proof.
  intros Hmax Hstop Horder Hbanner Herr Hr Hnew Hty.
  by apply (ps_handleEvent_every_port sf event (sfp_portscan_tcp.opts st) k
              Hmax Hstop Horder Hbanner st r n).
Qed.

Lemma X25_portscan_tries_every_port_once_witness :
  let st := state_of (run (sfp_portscan_tcp.setup self_id Examples.world
                             (fun l => l) Examples.opts_two_ports)
                          sfp_portscan_tcp.initial 0) in
  let res := run (sfp_portscan_tcp.handleEvent self_id Examples.world
                    notify_only Examples.ip_event) st 0 in
  outcome_of res = Returned tt
  /\ Connections.connects (trace_of res)
     ≡ₚ (fun p => (data Examples.ip_event, p))
          <$> sfp_portscan_tcp.portlist st.
Proof.
  apply (X25_portscan_tries_every_port_once Examples.world Examples.ip_event
           (state_of (run (sfp_portscan_tcp.setup self_id Examples.world
                             (fun l => l) Examples.opts_two_ports)
                          sfp_portscan_tcp.initial 0))
           ∅ 10 0).
  - vm_compute. reflexivity.
  - intros p. reflexivity.
  - intros l. reflexivity.
  - intros b Hb. exact Hb.
  - vm_compute. reflexivity.
  - vm_compute. reflexivity.
  - reflexivity.
  - discriminate.
Defined.

(** The attempts of the witness. *)
Example portscan_connects :
  Connections.connects
    (trace_of
       (run (sfp_portscan_tcp.handleEvent self_id Examples.world notify_only
               Examples.ip_event)
            (state_of (run (sfp_portscan_tcp.setup self_id Examples.world
                              (fun l => l) Examples.opts_two_ports)
                           sfp_portscan_tcp.initial 0)) 0))
  = [("93.184.216.34", 22%Z); ("93.184.216.34", 80%Z)].
Proof. by vm_compute. Qed.
